(** * ArborX: minimum spanning tree, DBSCAN flattening and min/max reductions

    A shallow embedding of the kernels of
    - [ArborX_MinimumSpanningTree.hpp] (Boruvka driver, component nearest
      neighbour traversal, component merge and edge emission),
    - [ArborX_DBSCAN.hpp] (entry point, the [flatten_stat] kernel, the
      phase that sorts and filters the clusters, and [verifyCC]),
    - [ArborX_DetailsKokkosExtMinMaxReductions.hpp],
    together with the properties of these kernels.

    Conventions.
    - [int] values are integers of [Z]. The kernels of the minimum spanning
      tree perform no arithmetic on them besides the slot computation
      [c - n + 1], which is carried out in [size_t] and whose wrap-around is
      written out in [slot]. The sums and differences of [int]s in the
      DBSCAN code are taken on [Z]: their overflow is undefined, and the
      statements bound the operands by [is_int] so that there is none.
      Conversions of sizes to [int] and [unsigned int] counters are written
      out.
    - [float] values are IEEE-754 values of [spec_float]; comparisons are the
      IEEE comparisons [SFltb], [SFleb], [SFeqb] (false on NaN).
    - A [Kokkos::View] of rank one is a list; reading or writing outside of
      the extent is a fault of the program and surfaces as [None].
    - A [parallel_for] over a range is executed as the serial backend does,
      item after item in increasing order, every item working in place on the
      shared views. *)

From Stdlib Require Import ZArith Lia Bool SpecFloat.
From Stdlib Require Import String.
From stdpp Require Import base tactics option numbers list gmap.

Local Open Scope Z_scope.

(** ** Views *)

Definition view_get {A : Type} (v : list A) (i : Z) : option A :=
  if decide (0 ≤ i) then v !! Z.to_nat i else None.

Definition view_set {A : Type} (v : list A) (i : Z) (x : A) : option (list A) :=
  if decide (0 ≤ i < Z.of_nat (length v)) then Some (<[Z.to_nat i := x]> v)
  else None.

Definition extent {A : Type} (v : list A) : Z := Z.of_nat (length v).

(** [size_t] arithmetic: [component - n + 1] is evaluated on 64-bit unsigned
    integers. *)
Definition size_t_modulus : Z := 2 ^ 64.

Definition slot (n component : Z) : Z := (component - n + 1) mod size_t_modulus.

(** ** Floats *)

Abbreviation float := spec_float.

Definition inf : float := S754_infinity false.

Definition is_finite_float (f : float) : bool :=
  match f with
  | S754_zero _ | S754_finite _ _ _ => true
  | S754_infinity _ | S754_nan => false
  end.

(** The values of the type [float] are the floats valid for binary32. *)
Definition is_float32 (f : float) : bool := valid_binary 24 128 f.

(** [lhs != rhs] on floats: true when different or unordered. *)
Definition SFneqb (a b : float) : bool := negb (SFeqb a b).

(** ** Weighted edges *)

Record WeightedEdge : Type := mkEdge {
  source : Z;
  target : Z;
  weight : float
}.

(** [operator<(WeightedEdge const &, WeightedEdge const &)] *)
Definition WeightedEdge_lt (lhs rhs : WeightedEdge) : bool :=
  if SFneqb (weight lhs) (weight rhs) then SFltb (weight lhs) (weight rhs)
  else
    let lhs_min := Z.min (source lhs) (target lhs) in
    let rhs_min := Z.min (source rhs) (target rhs) in
    if negb (lhs_min =? rhs_min) then lhs_min <? rhs_min
    else
      let lhs_max := Z.max (source lhs) (target lhs) in
      let rhs_max := Z.max (source rhs) (target rhs) in
      lhs_max <? rhs_max.

Definition finite_weight (e : WeightedEdge) : Prop :=
  is_finite_float (weight e) = true.


(** ** Faults and results

    A kernel either returns or faults. [OutOfBounds] is an access outside of
    a view or of a fixed-size array other than the traversal stack,
    [StackOverflow] a push on a full traversal stack, [AssertionFailed] a
    failed [ARBORX_ASSERT] (which throws), and [OutOfFuel] marks a loop of
    the model that was cut off before the loop of the code ended. *)

Inductive fault : Type :=
  | OutOfBounds
  | StackOverflow
  | AssertionFailed
  | OutOfFuel.

Inductive res (A : Type) : Type :=
  | Ok (a : A)
  | Err (f : fault).
Arguments Ok {A} a.
Arguments Err {A} f.

#[global] Instance fault_eq_dec : EqDecision fault.
Proof. solve_decision. Defined.

#[global] Instance res_eq_dec {A : Type} `{EqDecision A} : EqDecision (res A).
Proof. solve_decision. Defined.

Definition res_bind {A B : Type} (m : res A) (k : A → res B) : res B :=
  match m with
  | Ok a => k a
  | Err f => Err f
  end.

Notation "'let*' p ':=' m 'in' k" := (res_bind m (fun p => k))
  (at level 10, p pattern, m at level 100, k at level 200).

Definition get {A : Type} (v : list A) (i : Z) : res A :=
  match view_get v i with
  | Some x => Ok x
  | None => Err OutOfBounds
  end.

Definition set {A : Type} (v : list A) (i : Z) (x : A) : res (list A) :=
  match view_set v i x with
  | Some v' => Ok v'
  | None => Err OutOfBounds
  end.

Definition ARBORX_ASSERT (c : bool) : res unit :=
  if c then Ok tt else Err AssertionFailed.

(** [Kokkos::parallel_for] over [RangePolicy(space, first, last)]: the items
    [first, ..., last - 1] one after the other, each working on the state
    left by the one before. *)
Fixpoint for_each {S : Type} (body : Z → S → res S) (items : list Z) (s : S)
  : res S :=
  match items with
  | [] => Ok s
  | i :: items' => let* s' := body i s in for_each body items' s'
  end.

Definition RangePolicy (first last : Z) : list Z := seqZ first (last - first).

Definition parallel_for {S : Type} (range : list Z) (body : Z → S → res S)
  (s : S) : res S :=
  for_each body range s.

(** [Kokkos::atomic_min] on floats and on weighted edges ([operator<]), and
    [KokkosExt::max] on floats. *)
Definition atomic_min_float (dest val : float) : float :=
  if SFltb val dest then val else dest.

Definition atomic_min_edge (dest val : WeightedEdge) : WeightedEdge :=
  if WeightedEdge_lt val dest then val else dest.

Definition max_float (a b : float) : float :=
  if SFltb a b then b else a.

(** ** The BVH as the kernels see it

    [ArborX_LinearBVH.hpp] and [HappyTreeFriends] are not part of the
    sources at hand; the kernels use the accessors below and nothing else.
    [bv_distance bvh i j] is
    [distance(getBoundingVolume(bvh, i), getBoundingVolume(bvh, j))]. *)

Record BVH : Type := mkBVH {
  bvh_size : Z;
  getRoot : Z;
  getLeftChild : Z → Z;
  getRightChild : Z → Z;
  isLeaf : Z → bool;
  getLeafPermutationIndex : Z → Z;
  bv_distance : Z → Z → float
}.

(** A metric maps two primitive indices and the distance of their bounding
    volumes to the weight of the edge between them. *)
Definition Metric : Type := Z → Z → float → float.

(** Modelled from the spec: the functors [Euclidean] and
    [MutualReachability] of [ArborX_DetailsMutualReachabilityDistance.hpp],
    which is not among the sources. The first returns the distance it is
    given, the second
    [max(core_distances(i), core_distances(j), distance)]. *)
Definition Euclidean : Metric := fun _ _ d => d.

Definition MutualReachability (core_distances : Z → float) : Metric :=
  fun i j d => max_float (max_float (core_distances i) (core_distances j)) d.

(** ** FindComponentNearestNeighbors *)

Definition SENTINEL : Z := -1.
Definition undetermined : Z := -1.
Definition stack_capacity : nat := 64.
Definition zero : float := S754_zero false.

(** The live part of [int stack[64]] (or [float stack_distance[64]]), the
    element below [stack_ptr] first. *)
Definition push {A : Type} (stack : list A) (x : A) : res (list A) :=
  if decide (length stack < stack_capacity)%nat then Ok (x :: stack)
  else Err StackOverflow.

Definition pop {A : Type} (stack : list A) : res (A * list A) :=
  match stack with
  | x :: stack' => Ok (x, stack')
  | [] => Err OutOfBounds
  end.

Record TraversalState : Type := mkTraversalState {
  node : Z;
  distance_node : float;
  stack : list Z;
  stack_distance : list float;
  current_best : WeightedEdge;
  radius : float
}.

Section FindComponentNearestNeighbors.
(** The members [_bvh], [_labels], [_metric] of the functor; [device]
    selects the variant compiled for [__CUDA_ARCH__] or
    [__HIP_DEVICE_COMPILE__], which keeps no stack of distances. *)
Variable device : bool.
Variable bvh : BVH.
Variable labels : list Z.
Variable metric : Metric.

Section Item.
Variable i : Z.
Variable component : Z.

Definition distance (j : Z) : float := bv_distance bvh i j.

Definition predicate (j : Z) : res bool :=
  let* label_j := get labels j in Ok (negb (component =? label_j)).

(** The edge from [i] to the leaf [child]. *)
Definition candidate_edge (child : Z) (distance_child : float)
  : WeightedEdge :=
  let candidate_dist :=
    metric (getLeafPermutationIndex bvh i)
           (getLeafPermutationIndex bvh child) distance_child in
  mkEdge i child candidate_dist.

(** The body of one of the two blocks [if (predicate(child) &&
    distance_child <= radius) { ... }]; the result is the flag
    [traverse_left] (or [traverse_right]) with the new [current_best]
    and [radius]. *)
Definition consider_child (child : Z) (distance_child : float)
  (best : WeightedEdge) (r : float) : bool * WeightedEdge * float :=
  if isLeaf bvh child then
    let candidate_edge := candidate_edge child distance_child in
    if WeightedEdge_lt candidate_edge best then
      (false, candidate_edge, atomic_min_float r (weight candidate_edge))
    else (false, best, r)
  else (true, best, r).

Definition visit_child (child : Z) (distance_child : float)
  (best : WeightedEdge) (r : float) : res (bool * WeightedEdge * float) :=
  let* p := predicate child in
  if p && SFleb distance_child r then
    Ok (consider_child child distance_child best r)
  else Ok (false, best, r).

(** [node = *--stack_ptr] and the distance that goes with it. *)
Definition pop_node (st : TraversalState) : res TraversalState :=
  let* (node', stack') := pop (stack st) in
  if device then
    Ok {| node := node';
          distance_node := if negb (node' =? SENTINEL) then distance node'
                           else distance_node st;
          stack := stack';
          stack_distance := stack_distance st;
          current_best := current_best st;
          radius := radius st |}
  else
    let* (distance_node', stack_distance') := pop (stack_distance st) in
    Ok {| node := node';
          distance_node := distance_node';
          stack := stack';
          stack_distance := stack_distance';
          current_best := current_best st;
          radius := radius st |}.

(** The [else] branch of [if (!traverse_left && !traverse_right)]. *)
Definition descend (traverse_left traverse_right : bool)
  (left_child right_child : Z) (distance_left distance_right : float)
  (st : TraversalState) : res TraversalState :=
  let node' :=
    if traverse_left
       && (SFleb distance_left distance_right || negb traverse_right)
    then left_child else right_child in
  let distance_node' :=
    if node' =? left_child then distance_left else distance_right in
  if traverse_left && traverse_right then
    let* stack' :=
      push (stack st)
           (if node' =? left_child then right_child else left_child) in
    let* stack_distance' :=
      (if device then Ok (stack_distance st)
       else push (stack_distance st)
                 (if node' =? left_child then distance_right
                  else distance_left)) in
    Ok {| node := node';
          distance_node := distance_node';
          stack := stack';
          stack_distance := stack_distance';
          current_best := current_best st;
          radius := radius st |}
  else
    Ok {| node := node';
          distance_node := distance_node';
          stack := stack st;
          stack_distance := stack_distance st;
          current_best := current_best st;
          radius := radius st |}.

Definition with_best (st : TraversalState) (best : WeightedEdge)
  (r : float) : TraversalState :=
  {| node := node st;
     distance_node := distance_node st;
     stack := stack st;
     stack_distance := stack_distance st;
     current_best := best;
     radius := r |}.

(** The block [if (distance_node <= radius) { ... }] followed by the
    choice of the next node. *)
Definition expand_node (st : TraversalState) : res TraversalState :=
  let left_child := getLeftChild bvh (node st) in
  let right_child := getRightChild bvh (node st) in
  let distance_left := distance left_child in
  let distance_right := distance right_child in
  let* (traverse_left, best1, radius1) :=
    visit_child left_child distance_left (current_best st) (radius st) in
  let* (traverse_right, best2, radius2) :=
    visit_child right_child distance_right best1 radius1 in
  if negb traverse_left && negb traverse_right then
    pop_node (with_best st best2 radius2)
  else
    descend traverse_left traverse_right left_child right_child
            distance_left distance_right (with_best st best2 radius2).

(** The body of the [do ... while (node != SENTINEL)] loop. *)
Definition traversal_body (st : TraversalState) : res TraversalState :=
  if SFleb (distance_node st) (radius st) then expand_node st
  else pop_node st.

Fixpoint traverse (fuel : nat) (st : TraversalState)
  : res TraversalState :=
  match fuel with
  | O => Err OutOfFuel
  | S fuel' =>
      let* st' := traversal_body st in
      if negb (node st' =? SENTINEL) then traverse fuel' st' else Ok st'
  end.

Definition initial_state (r : float) : TraversalState :=
  {| node := getRoot bvh;
     distance_node := zero;
     stack := [SENTINEL];
     stack_distance := if device then [] else [zero];
     current_best := mkEdge i undetermined inf;
     radius := r |}.
End Item.

(** [operator()(int i)]: the state is the pair of the views [_edges] and
    [_radii]; [radius] is the cell [_radii(component - n + 1)]. *)
Definition FindComponentNearestNeighbors_op (fuel : nat) (i : Z)
  (s : list WeightedEdge * list float)
  : res (list WeightedEdge * list float) :=
  let '(edges, radii) := s in
  let* component := get labels i in
  let n := bvh_size bvh in
  let* r := get radii (slot n component) in
  let* st := traverse i component fuel (initial_state i r) in
  let* radii' := set radii (slot n component) (radius st) in
  let* component_edge := get edges (slot n component) in
  if SFltb (weight (current_best st)) inf
     && SFleb (weight (current_best st)) (weight component_edge)
  then
    let* edges' :=
      set edges (slot n component)
          (atomic_min_edge component_edge (current_best st)) in
    Ok (edges', radii')
  else Ok (edges, radii').

(** The constructor of the functor: three assertions, then the
    [parallel_for] over the leaves. *)
Definition findComponentNearestNeighbors (fuel : nat)
  (edges : list WeightedEdge) (radii : list float)
  : res (list WeightedEdge * list float) :=
  let n := bvh_size bvh in
  let* _ := ARBORX_ASSERT (extent labels =? (2 * n - 1) mod size_t_modulus) in
  let* _ := ARBORX_ASSERT (extent edges =? n) in
  let* _ := ARBORX_ASSERT (extent radii =? n) in
  parallel_for (RangePolicy (n - 1) (2 * n - 1))
               (FindComponentNearestNeighbors_op fuel) (edges, radii).
End FindComponentNearestNeighbors.

(** ** UpdateComponentsAndEdges *)

Section UpdateComponentsAndEdges.
(** The member [_out_edges] is read only; [_labels], [_edges] and
    [_num_edges] are the state of the kernel. *)
Variable out_edges : list WeightedEdge.

Definition computeNextComponent (labels : list Z) (component : Z) : res Z :=
  let n := extent out_edges in
  let* e := get out_edges (slot n component) in
  let* next_component := get labels (target e) in
  let* e' := get out_edges (slot n next_component) in
  let* next_next_component := get labels (target e') in
  if negb (next_next_component =? component) then
    (* The component's edge is unidirectional *)
    Ok next_component
  else
    (* The component's edge is bidirectional *)
    Ok (Z.min component next_component).

(** [while ((next_component = computeNextComponent(prev_component)) !=
    prev_component) prev_component = next_component;] with at most [fuel]
    calls of [computeNextComponent]. *)
Fixpoint computeFinalComponent (fuel : nat) (labels : list Z)
  (prev_component : Z) : res Z :=
  match fuel with
  | O => Err OutOfFuel
  | S fuel' =>
      let* next_component := computeNextComponent labels prev_component in
      if negb (next_component =? prev_component) then
        computeFinalComponent fuel' labels next_component
      else Ok next_component
  end.

Record UpdateState : Type := mkUpdateState {
  u_labels : list Z;
  u_edges : list WeightedEdge;
  u_num_edges : Z
}.

(** [operator()(int i)] *)
Definition UpdateComponentsAndEdges_op (fuel : nat) (i : Z)
  (s : UpdateState) : res UpdateState :=
  let* component := get (u_labels s) i in
  let* final_component := computeFinalComponent fuel (u_labels s) component in
  let* labels' := set (u_labels s) i final_component in
  if negb (i =? component) then
    Ok {| u_labels := labels'; u_edges := u_edges s;
          u_num_edges := u_num_edges s |}
  else
    let n := extent out_edges in
    if negb (i =? final_component) then
      let* edge := get out_edges (slot n i) in
      (* atomic post-increment *)
      let back := u_num_edges s in
      let* edges' := set (u_edges s) back edge in
      Ok {| u_labels := labels'; u_edges := edges';
            u_num_edges := u_num_edges s + 1 |}
    else
      Ok {| u_labels := labels'; u_edges := u_edges s;
            u_num_edges := u_num_edges s |}.

Definition updateComponentsAndEdges (fuel : nat) (s : UpdateState)
  : res UpdateState :=
  let n := extent out_edges in
  let* _ := ARBORX_ASSERT (extent (u_labels s) =? (2 * n - 1) mod size_t_modulus) in
  let* _ := ARBORX_ASSERT (extent (u_edges s) =? (n - 1) mod size_t_modulus) in
  parallel_for (RangePolicy (n - 1) (2 * n - 1))
               (UpdateComponentsAndEdges_op fuel) s.
End UpdateComponentsAndEdges.

(** ** finalizeEdges and resetSharedRadii *)

Definition finalizeEdges_op (bvh : BVH) (i : Z) (edges : list WeightedEdge)
  : res (list WeightedEdge) :=
  let* e := get edges i in
  let* edges1 := set edges i (mkEdge (getLeafPermutationIndex bvh (source e))
                                     (target e) (weight e)) in
  let* e1 := get edges1 i in
  set edges1 i (mkEdge (source e1)
                       (getLeafPermutationIndex bvh (target e1)) (weight e1)).

Definition finalizeEdges (bvh : BVH) (edges : list WeightedEdge)
  : res (list WeightedEdge) :=
  let n := bvh_size bvh in
  let* _ := ARBORX_ASSERT (extent edges =? (n - 1) mod size_t_modulus) in
  parallel_for (RangePolicy 0 (n - 1)) (finalizeEdges_op bvh) edges.

Definition resetSharedRadii_op (bvh : BVH) (labels : list Z) (metric : Metric)
  (i : Z) (radii : list float) : res (list float) :=
  let n := bvh_size bvh in
  let j := i + 1 in
  let* label_i := get labels i in
  let* label_j := get labels j in
  if negb (label_i =? label_j) then
    let r := metric (getLeafPermutationIndex bvh i)
                    (getLeafPermutationIndex bvh j) (bv_distance bvh i j) in
    let* ri := get radii (slot n label_i) in
    let* radii1 := set radii (slot n label_i) (atomic_min_float ri r) in
    let* rj := get radii1 (slot n label_j) in
    set radii1 (slot n label_j) (atomic_min_float rj r)
  else Ok radii.

Definition resetSharedRadii (bvh : BVH) (labels : list Z) (metric : Metric)
  (radii : list float) : res (list float) :=
  let n := bvh_size bvh in
  parallel_for (RangePolicy (n - 1) (2 * n - 2))
               (resetSharedRadii_op bvh labels metric) radii.

(** ** Entry points

    The entry points bracket their phases by
    [Kokkos::Profiling::pushRegion]; the regions pushed are recorded, in
    order, next to the result, and survive a fault. *)

Inductive region : Type :=
  | Region (name : string)
  (** ["ArborX::Boruvka_" + to_string(++iterations) + "_" +
      to_string(num_components)] *)
  | BoruvkaRegion (iterations num_components : Z).

Definition M (A : Type) : Type := list region → list region * res A.

Definition M_ret {A : Type} (a : A) : M A := fun log => (log, Ok a).

Definition M_bind {A B : Type} (m : M A) (k : A → M B) : M B :=
  fun log =>
    match m log with
    | (log', Ok a) => k a log'
    | (log', Err f) => (log', Err f)
    end.

Definition lift {A : Type} (r : res A) : M A := fun log => (log, r).

Definition pushRegion (r : region) : M unit := fun log => (log ++ [r], Ok tt).

Notation "'let+' p ':=' m 'in' k" := (M_bind m (fun p => k))
  (at level 10, p pattern, m at level 100, k at level 200).

Definition run {A : Type} (m : M A) : list region * res A := m [].

(** [iota(space, v, value)] on a view of [len] entries. *)
Definition iota (len : Z) (value : Z) : list Z := seqZ value len.

Definition uninitialized_edge : WeightedEdge := mkEdge (-1) (-1) inf.

Section MinimumSpanningTree.
(** What the constructor takes from outside of the sources at hand: the
    primitives and their number, the construction of the BVH, the
    [NearestK] query that yields the core distances, and
    [findParents] and [reduceLabels] of
    [ArborX_DetailsTreeNodeLabeling.hpp]. Views allocated
    [WithoutInitializing] start with the contents [garbage_int],
    [garbage_edge]. *)
Variable Primitives : Type.
Variable primitives_size : Primitives → Z.
Variable build_BVH : Primitives → BVH.
Variable query_core_distances : BVH → Primitives → Z → Z → float.
Variable findParents : BVH → list Z.
Variable reduceLabels : list Z → list Z → list Z.
Variable garbage_int : Z.
Variable garbage_edge : WeightedEdge.
Variable device : bool.
(** The bound on the number of turns of the loops inside of the kernels. *)
Variable fuel : nat.

Section doBoruvka.
Variable bvh : BVH.
Variable metric : Metric.

(** The steps of a turn of the loop that fill [component_out_edges]:
    the two [deep_copy], [resetSharedRadii] and
    [findComponentNearestNeighbors]. *)
Definition nearest_neighbors_round (labels : list Z)
  : res (list WeightedEdge * list float) :=
  let n := bvh_size bvh in
  let component_out_edges := replicate (Z.to_nat n) uninitialized_edge in
  let radii := replicate (Z.to_nat n) inf in
  let* radii := resetSharedRadii bvh labels metric radii in
  findComponentNearestNeighbors device bvh labels metric fuel
                                component_out_edges radii.

(** One turn of the [do ... while (num_components > 1)] loop, after its
    [pushRegion]. *)
Definition Boruvka_round (parents : list Z) (s : UpdateState)
  : res UpdateState :=
  let labels := reduceLabels parents (u_labels s) in
  let* (component_out_edges, radii) := nearest_neighbors_round labels in
  updateComponentsAndEdges component_out_edges fuel
    {| u_labels := labels; u_edges := u_edges s;
       u_num_edges := u_num_edges s |}.

Fixpoint Boruvka_loop (rounds : nat) (parents : list Z)
  (iterations num_components : Z) (s : UpdateState) : M UpdateState :=
  match rounds with
  | O => lift (Err OutOfFuel)
  | S rounds' =>
      let+ _ := pushRegion (BoruvkaRegion (iterations + 1) num_components) in
      let+ s' := lift (Boruvka_round parents s) in
      let num_components' := bvh_size bvh - u_num_edges s' in
      if num_components' >? 1 then
        Boruvka_loop rounds' parents (iterations + 1) num_components' s'
      else M_ret s'
  end.

Definition doBoruvka (rounds : nat) (edges : list WeightedEdge)
  : M UpdateState :=
  let n := bvh_size bvh in
  let parents := findParents bvh in
  let+ _ := pushRegion (Region "ArborX::MST::initialize_node_labels") in
  let labels := replicate (Z.to_nat (n - 1)) garbage_int
                ++ iota n (n - 1) in
  let+ _ := pushRegion (Region "ArborX::MST::Boruvka_loop") in
  let num_edges := 0 in
  Boruvka_loop rounds parents 0 n
    {| u_labels := labels; u_edges := edges; u_num_edges := num_edges |}.
End doBoruvka.

(** The constructor; the result is the member [edges]. *)
Definition MinimumSpanningTree (rounds : nat) (primitives : Primitives)
  (k : Z) : M (list WeightedEdge) :=
  let edges :=
    replicate (Z.to_nat ((primitives_size primitives - 1) mod size_t_modulus))
              garbage_edge in
  let+ _ := pushRegion (Region "ArborX::MST::MST") in
  let bvh := build_BVH primitives in
  let+ s :=
    (if k >? 1 then
       let+ _ := pushRegion (Region "ArborX::MST::compute_core_distances") in
       let core_distances := query_core_distances bvh primitives k in
       doBoruvka bvh (MutualReachability core_distances) rounds edges
     else doBoruvka bvh Euclidean rounds edges) in
  lift (finalizeEdges bvh (u_edges s)).
End MinimumSpanningTree.

(** ** DBSCAN *)

(** The body of the kernel ["ArborX::DBSCAN::flatten_stat"]. *)
Fixpoint flatten_stat_chase (fuel : nat) (stat : list Z) (vstat : Z) : res Z :=
  match fuel with
  | O => Err OutOfFuel
  | S fuel' =>
      let* next := get stat vstat in
      if vstat >? next then flatten_stat_chase fuel' stat next else Ok vstat
  end.

Definition flatten_stat_op (fuel : nat) (i : Z) (stat : list Z)
  : res (list Z) :=
  let* vstat := get stat i in
  let old := vstat in
  let* vstat := flatten_stat_chase fuel stat vstat in
  if negb (vstat =? old) then set stat i vstat else Ok stat.

Definition flatten_stat (fuel : nat) (n : Z) (stat : list Z) : res (list Z) :=
  parallel_for (RangePolicy 0 n) (flatten_stat_op fuel) stat.

Section dbscan.
(** From outside of the sources at hand: the primitives, the BVH, and
    the three queries with their callbacks ([DBSCANCallback] with [CCSTag]
    or [DBSCANTag], [NumNeighCallback]), each given by the view it leaves
    behind. *)
Variable Primitives : Type.
Variable extent_int : Primitives → Z.
Variable build_BVH : Primitives → BVH.
Variable query_CCS : BVH → Primitives → float → list Z → list Z.
Variable query_num_neigh : BVH → Primitives → float → list Z.
Variable query_DBSCAN : BVH → Primitives → float → list Z → list Z → list Z.
Variable fuel : nat.

(** [dbscan] up to the view [clusters]; the regions of the later phases
    are recorded, the sorting and the CSR output computed from [clusters]
    are not modelled. *)
Definition dbscan (primitives : Primitives) (eps : float)
  (core_min_size cluster_min_size : Z) (verbose verify : bool)
  : M (list Z) :=
  let+ _ := pushRegion (Region "ArborX::DBSCAN") in
  let n := extent_int primitives in
  let+ _ := pushRegion (Region "ArborX::DBSCAN::tree_construction") in
  let bvh := build_BVH primitives in
  let+ _ := pushRegion (Region "ArborX::DBSCAN::clusters") in
  let stat := iota n 0 in
  let+ stat :=
    (if core_min_size =? 1 then
       let+ _ := pushRegion (Region "ArborX::DBSCAN::clusters::query") in
       M_ret (query_CCS bvh primitives eps stat)
     else
       let+ _ := pushRegion (Region "ArborX::DBSCAN::clusters::num_neigh") in
       let num_neigh := query_num_neigh bvh primitives eps in
       let+ _ := pushRegion (Region "ArborX::DBSCAN::clusters::query") in
       M_ret (query_DBSCAN bvh primitives eps stat num_neigh)) in
  let+ stat := lift (flatten_stat fuel n stat) in
  let clusters := stat in
  let+ _ := (if verify then pushRegion (Region "ArborX::DBSCAN::verify")
             else M_ret tt) in
  let+ _ := pushRegion (Region "ArborX::DBSCAN::sort_and_filter_clusters") in
  M_ret clusters.
End dbscan.

(** ** Min/max reductions

    [Kokkos::parallel_reduce] with the reducers [Kokkos::Min] and
    [Kokkos::Max]: every item updates the running value, which starts at the
    identity of the reducer. The functions are templates over the value type
    of the view; [lt] is its [operator<], and [x > y] is [y < x]. The
    identities [Kokkos::reduction_identity<ValueType>::min()] and [::max()]
    come from Kokkos. *)

Definition parallel_reduce {A S : Type} (v : list A) (body : A → S → S)
  (identity : S) : S :=
  fold_left (fun update val => body val update) v identity.

Section MinMaxReductions.
Context {ValueType : Type}.
Variable lt : ValueType → ValueType → bool.
Variable reduction_identity_min : ValueType.
Variable reduction_identity_max : ValueType.

Definition minmax_reduce (v : list ValueType)
  : res (ValueType * ValueType) :=
  let n := extent v in
  let* _ := ARBORX_ASSERT (n >? 0) in
  Ok (parallel_reduce v
        (fun val '(local_min, local_max) =>
           let local_min := if lt val local_min then val else local_min in
           let local_max := if lt local_max val then val else local_max in
           (local_min, local_max))
        (reduction_identity_min, reduction_identity_max)).

Definition min_reduce (v : list ValueType) : res ValueType :=
  let n := extent v in
  let* _ := ARBORX_ASSERT (n >? 0) in
  Ok (parallel_reduce v
        (fun val update => if lt val update then val else update)
        reduction_identity_min).

Definition max_reduce (v : list ValueType) : res ValueType :=
  let n := extent v in
  let* _ := ARBORX_ASSERT (n >? 0) in
  Ok (parallel_reduce v
        (fun val update => if lt update val then val else update)
        reduction_identity_max).
End MinMaxReductions.

(** The value type [int]: [INT_MAX] is the identity of [Min] and [INT_MIN]
    that of [Max]. *)
Definition INT_MAX : Z := 2 ^ 31 - 1.
Definition INT_MIN : Z := - 2 ^ 31.

Definition is_int (x : Z) : Prop := INT_MIN ≤ x ≤ INT_MAX.

(** ** Vocabulary of the statements *)

(** The unordered vertex pair of an edge, as (min, max). *)
Definition vertex_pair (e : WeightedEdge) : Z * Z :=
  (Z.min (source e) (target e), Z.max (source e) (target e)).

(** *** The IEEE comparison as a lexicographic comparison of keys *)

Definition float_key (f : float) : Z * Z * Z :=
  match f with
  | S754_nan => (0, 0, 0)
  | S754_zero _ => (0, 0, 0)
  | S754_infinity true => (-2, 0, 0)
  | S754_infinity false => (2, 0, 0)
  | S754_finite true m e => (-1, - e, - Z.pos m)
  | S754_finite false m e => (1, e, Z.pos m)
  end.

Definition key_lt (k1 k2 : Z * Z * Z) : Prop :=
  let '(a1, b1, c1) := k1 in
  let '(a2, b2, c2) := k2 in
  a1 < a2 ∨ (a1 = a2 ∧ (b1 < b2 ∨ (b1 = b2 ∧ c1 < c2))).

Definition not_nan (f : float) : Prop := f ≠ S754_nan.

Definition edge_lt_spec (e1 e2 : WeightedEdge) : Prop :=
  SFltb (weight e1) (weight e2) = true
  ∨ (SFeqb (weight e1) (weight e2) = true
     ∧ Z.min (source e1) (target e1) < Z.min (source e2) (target e2))
  ∨ (SFeqb (weight e1) (weight e2) = true
     ∧ Z.min (source e1) (target e1) = Z.min (source e2) (target e2)
     ∧ Z.max (source e1) (target e1) < Z.max (source e2) (target e2)).

Definition edge_key_lt (e1 e2 : WeightedEdge) : Prop :=
  key_lt (float_key (weight e1)) (float_key (weight e2))
  ∨ (float_key (weight e1) = float_key (weight e2)
     ∧ (Z.min (source e1) (target e1) < Z.min (source e2) (target e2)
        ∨ (Z.min (source e1) (target e1) = Z.min (source e2) (target e2)
           ∧ Z.max (source e1) (target e1) < Z.max (source e2) (target e2)))).

(** The representative of [v] in the union-find array [stat]: follow the
    parents while they decrease. *)
Inductive representative (stat : list Z) : Z → Z → Prop :=
  | representative_root r :
      get stat r = Ok r → representative stat r r
  | representative_step v p r :
      get stat v = Ok p → p < v → representative stat p r →
      representative stat v r.

(** Every parent index lies in the array and is no larger than its node. *)
Definition parents_below (n : Z) (stat : list Z) : Prop :=
  extent stat = n ∧ ∀ v, 0 ≤ v < n → ∃ p, get stat v = Ok p ∧ 0 ≤ p ≤ v.

(** [k] applications of a step that may fault. *)
Fixpoint iterate {A : Type} (f : A → res A) (k : nat) (x : A) : res A :=
  match k with
  | O => Ok x
  | S k' => let* y := f x in iterate f k' y
  end.

(** [label(target(component_out_edges[c]))], the component that the edge
    stored for [c] leads to. *)
Definition out_label (out_edges : list WeightedEdge) (labels : list Z)
  (c : Z) : res Z :=
  let* e := get out_edges (slot (extent out_edges) c) in
  get labels (target e).

(** The rule of the next component, for a total successor function. *)
Definition next_component_rule (g : Z → Z) (c : Z) : Z :=
  if negb (g (g c) =? c) then g c else Z.min c (g c).

(** The successor of a component in the component graph, read off the
    views; a component whose edge cannot be read is its own successor. *)
Definition successor (out_edges : list WeightedEdge) (labels : list Z)
  (c : Z) : Z :=
  match out_label out_edges labels c with
  | Ok a => a
  | Err _ => c
  end.

(** The subtree below [x] has depth at most [d]: a leaf has depth zero. *)
Fixpoint depth_at_most (bvh : BVH) (d : nat) (x : Z) : bool :=
  if isLeaf bvh x then true
  else
    match d with
    | O => false
    | S d' => depth_at_most bvh d' (getLeftChild bvh x)
              && depth_at_most bvh d' (getRightChild bvh x)
    end.

(** The states of the traversal loop: the state before the first turn and
    the state after every turn taken. *)
Inductive traversal_reaches (body : TraversalState → res TraversalState)
  (s0 : TraversalState) : TraversalState → Prop :=
  | traversal_reaches_start : traversal_reaches body s0 s0
  | traversal_reaches_turn st st' :
      traversal_reaches body s0 st →
      st = s0 ∨ node st ≠ SENTINEL →
      body st = Ok st' →
      traversal_reaches body s0 st'.

(** The stack holds deferred inner nodes above the sentinel; going down the
    stack the bounds on the depth of their subtrees increase strictly, they
    start at [lo] and stay below [D]. *)
Inductive stack_inv (bvh : BVH) (D : nat) : nat → list Z → Prop :=
  | stack_inv_sentinel lo : stack_inv bvh D lo [SENTINEL]
  | stack_inv_push lo b s rest :
      (lo ≤ b < D)%nat → isLeaf bvh s = false →
      depth_at_most bvh b s = true →
      stack_inv bvh D (S b) rest →
      stack_inv bvh D lo (s :: rest).

(** An entry point rejects its arguments at entry when it faults before it
    has entered any region. *)
Definition rejected_at_entry {A : Type} (outcome : list region * res A)
  : Prop :=
  fst outcome = [] ∧ ∃ f, snd outcome = Err f.

Definition invalid_MST_configuration (n k : Z) : Prop := n < 2 ∨ k < 1.

Definition invalid_dbscan_configuration (eps : float) (cluster_min_size : Z)
  : Prop :=
  SFleb eps zero = true ∨ cluster_min_size < 2.

(** The final component of [c]: the fixed point that the rule of the next
    component reaches from [c], for a successor function [g] on the
    components [D]. *)
Definition final_component (g : Z → Z) (D : list Z) (c : Z) : Z :=
  Nat.iter (length D) (next_component_rule g) c.

(** ** Components of a round

    The leaves of a tree over [n] primitives are the nodes [n - 1, ...,
    2 n - 2]. A component is identified by its representative, the leaf
    that is its own label. *)
Definition leaf (n i : Z) : Prop := n - 1 ≤ i < 2 * n - 1.

Definition leaves (n : Z) : list Z := RangePolicy (n - 1) (2 * n - 1).

Definition components (n : Z) (labels : list Z) : list Z :=
  filter (fun c => get labels c = Ok c) (leaves n).

Definition num_components (n : Z) (labels : list Z) : Z :=
  Z.of_nat (length (components n labels)).

(** The label of a leaf, and the edge stored for a component. *)
Definition label_of (labels : list Z) (x : Z) : Z :=
  match get labels x with
  | Ok c => c
  | Err _ => x
  end.

Definition out_edge (out_edges : list WeightedEdge) (c : Z) : WeightedEdge :=
  match get out_edges (slot (extent out_edges) c) with
  | Ok e => e
  | Err _ => uninitialized_edge
  end.

(** Every leaf is labelled by a representative. *)
Definition labels_wf (n : Z) (labels : list Z) : Prop :=
  extent labels = 2 * n - 1
  ∧ ∀ i, leaf n i →
      ∃ c, get labels i = Ok c ∧ leaf n c ∧ get labels c = Ok c.

(** What the search for the nearest neighbours of the components leaves in
    [component_out_edges]: for every component an edge from one of its
    leaves to a leaf of another component, such that no cycle of the
    component graph is longer than two. *)
Definition round_table_ok (n : Z) (labels : list Z)
  (out_edges : list WeightedEdge) : Prop :=
  extent out_edges = n
  ∧ (∀ c, c ∈ components n labels →
       ∃ e, get out_edges (slot n c) = Ok e
            ∧ leaf n (source e) ∧ get labels (source e) = Ok c
            ∧ leaf n (target e) ∧ get labels (target e) ≠ Ok c)
  ∧ (∀ c k, c ∈ components n labels → (0 < k)%nat →
       iterate (out_label out_edges labels) k c = Ok c →
       iterate (out_label out_edges labels) 2 c = Ok c).

(** The representatives that merge into another component in a round: they
    are the ones that append their edge. *)
Definition emitters (n : Z) (labels : list Z) (out_edges : list WeightedEdge)
  (items : list Z) : list Z :=
  filter (fun c => c ∈ components n labels
                   ∧ final_component (successor out_edges labels)
                                     (components n labels) c ≠ c) items.

(** The part of the buffer of edges that has been written. *)
Definition committed (s : UpdateState) : list WeightedEdge :=
  take (Z.to_nat (u_num_edges s)) (u_edges s).

(** [finalizeEdges] on one edge. *)
Definition depermute (bvh : BVH) (e : WeightedEdge) : WeightedEdge :=
  mkEdge (getLeafPermutationIndex bvh (source e))
         (getLeafPermutationIndex bvh (target e)) (weight e).

(** The state at the head of the loop of [doBoruvka]: the leaves are
    labelled by representatives, the counter of edges is the number of
    leaves minus the number of components, and the edges written so far
    join leaves. *)
Definition Boruvka_inv (n : Z) (s : UpdateState) : Prop :=
  labels_wf n (u_labels s)
  ∧ extent (u_edges s) = n - 1
  ∧ u_num_edges s = n - num_components n (u_labels s)
  ∧ ∀ e, e ∈ committed s → leaf n (source e) ∧ leaf n (target e).

(** [reduceLabels] writes the labels of the inner nodes only. *)
Definition keeps_leaf_labels (n : Z) (reduce : list Z → list Z) : Prop :=
  ∀ labels,
    extent (reduce labels) = extent labels
    ∧ ∀ x, leaf n x → get (reduce labels) x = get labels x.

(** The labels with which [doBoruvka] starts. *)
Definition initial_labels (n garbage_int : Z) : list Z :=
  replicate (Z.to_nat (n - 1)) garbage_int ++ iota n (n - 1).

(** [lt] is a strict total order. *)
Definition strict_total_order {A : Type} (lt : A → A → bool) : Prop :=
  (∀ x, lt x x = false)
  ∧ (∀ x y z, lt x y = true → lt y z = true → lt x z = true)
  ∧ (∀ x y, lt x y = true ∨ x = y ∨ lt y x = true).

(** The invariant of the traversal loop: the current node is an inner node
    whose subtree has depth at most [bn], the stack of nodes is as
    [stack_inv] describes from [bn] on, and the stack of distances is as
    long as the stack of nodes (or unused on the device). *)
Definition traversal_inv (device : bool) (bvh : BVH) (D : nat)
  (st : TraversalState) : Prop :=
  (∃ bn, (bn ≤ D)%nat ∧ isLeaf bvh (node st) = false
         ∧ depth_at_most bvh bn (node st) = true
         ∧ stack_inv bvh D bn (stack st))
  ∧ (device = true ∧ stack_distance st = []
     ∨ device = false ∧ length (stack_distance st) = length (stack st)).

(** The state in which the loop ends. *)
Definition traversal_done (st : TraversalState) : Prop :=
  node st = SENTINEL ∧ stack st = [] ∧ stack_distance st = [].

(** A computation of an entry point extends the record of regions. *)
Definition extends_log {A : Type} (m : M A) : Prop :=
  ∀ log, ∃ ext, fst (m log) = log ++ ext.

(** The labels while a round rewrites them in place: every leaf carries its
    label from before the round ([labels0]) or the final component of that
    label. *)
Definition labels_in_place (n : Z) (out_edges : list WeightedEdge)
  (labels0 labels : list Z) : Prop :=
  extent labels = 2 * n - 1
  ∧ ∀ x, leaf n x →
      get labels x = Ok (label_of labels0 x)
      ∨ get labels x
        = Ok (final_component (successor out_edges labels0)
                              (components n labels0) (label_of labels0 x)).

(** The state of the update pass after the items [done]: their leaves carry
    the final component, the other leaves their label from before the
    round, and the representatives among [done] that merged have appended
    their edge behind the [k0] edges of [edges0] written before. *)
Definition pass_inv (n : Z) (out_edges : list WeightedEdge)
  (labels0 : list Z) (edges0 : list WeightedEdge) (k0 : Z) (done : list Z)
  (s : UpdateState) : Prop :=
  extent (u_labels s) = 2 * n - 1
  ∧ (∀ x, leaf n x →
       get (u_labels s) x
       = Ok (if decide (x ∈ done)
             then final_component (successor out_edges labels0)
                                  (components n labels0)
                                  (label_of labels0 x)
             else label_of labels0 x))
  ∧ extent (u_edges s) = n - 1
  ∧ u_num_edges s
    = k0 + Z.of_nat (length (emitters n labels0 out_edges done))
  ∧ committed s
    = take (Z.to_nat k0) edges0
      ++ (out_edge out_edges <$> emitters n labels0 out_edges done).

(** The representatives that stay in a round: the final components. *)
Definition finals (n : Z) (out_edges : list WeightedEdge)
  (labels0 : list Z) : list Z :=
  filter (fun c => c ∈ components n labels0
                   ∧ final_component (successor out_edges labels0)
                                     (components n labels0) c = c)
         (leaves n).

(** The table stores, for every component, a least edge among the edges
    that leave the component, in the order [operator<]; [w u v] is the
    weight of the edge between the leaves [u] and [v]. *)
Definition stores_min_outgoing_edges (n : Z) (labels : list Z)
  (w : Z → Z → float) (out_edges : list WeightedEdge) : Prop :=
  extent out_edges = n
  ∧ (∀ u v, w u v = w v u)
  ∧ (∀ u v, not_nan (w u v))
  ∧ ∀ c, c ∈ components n labels →
      ∃ e, get out_edges (slot n c) = Ok e
           ∧ leaf n (source e) ∧ get labels (source e) = Ok c
           ∧ leaf n (target e) ∧ get labels (target e) ≠ Ok c
           ∧ weight e = w (source e) (target e)
           ∧ ∀ u v, leaf n u → leaf n v →
                    get labels u = Ok c → get labels v ≠ Ok c →
                    WeightedEdge_lt (mkEdge u v (w u v)) e = false.

(** ** Concrete inputs *)

(** The floats 1, 2 and 3 in binary32. *)
Definition one_float : float := S754_finite false 8388608 (-23).
Definition two_float : float := S754_finite false 8388608 (-22).
Definition three_float : float := S754_finite false 12582912 (-22).

(** Three leaves [2], [3], [4], each its own component; the edges stored for
    the components [2] and [3] point at each other, that of [4] at [3]. *)
Definition example_labels : list Z := [-1; -1; 2; 3; 4].

Definition example_out_edges : list WeightedEdge :=
  [mkEdge 2 3 one_float; mkEdge 3 2 one_float; mkEdge 4 3 two_float].

(** A tree over three leaves: the root [0] has the inner node [1] and the
    leaf [4] as children, [1] has the leaves [2] and [3]. The leaves lie on
    a line at 0, 1 and 3; the leaf in slot [j] is the primitive [j - 2]. *)
Definition example_distance (i j : Z) : float :=
  match i, j with
  | 2, 3 | 3, 2 => one_float
  | 2, 4 | 4, 2 => three_float
  | 3, 4 | 4, 3 | 4, 1 => two_float
  | _, _ => zero
  end.

Definition example_bvh : BVH :=
  {| bvh_size := 3;
     getRoot := 0;
     getLeftChild := fun x => if x =? 0 then 1 else 2;
     getRightChild := fun x => if x =? 0 then 4 else 3;
     isLeaf := fun x => 2 <=? x;
     getLeafPermutationIndex := fun x => x - 2;
     bv_distance := example_distance |}.

Definition example_parents : list Z := [-1; 0; 1; 1; 0].

(** Modelled from the spec: [reduceLabels] of
    [ArborX_DetailsTreeNodeLabeling.hpp] on the tree [example_bvh]; an inner
    node takes the label that its two children share, and [-1] when they do
    not share one. *)
Definition example_reduceLabels (parents labels : list Z) : list Z :=
  match labels with
  | [_; _; l2; l3; l4] =>
      let l1 := if l2 =? l3 then l2 else -1 in
      let l0 := if l1 =? l4 then l1 else -1 in
      [l0; l1; l2; l3; l4]
  | _ => labels
  end.

(** The entry points on the three primitives of [example_bvh]. *)
Definition example_MST (rounds : nat) (k : Z)
  : list region * res (list WeightedEdge) :=
  run (MinimumSpanningTree unit (fun _ => 3) (fun _ => example_bvh)
         (fun _ _ _ _ => zero) (fun _ => example_parents)
         example_reduceLabels 0 uninitialized_edge false 10 rounds tt k).

(** The queries of [dbscan] for a radius that links no two points. *)
Definition example_dbscan (eps : float) (cluster_min_size : Z)
  : list region * res (list Z) :=
  run (dbscan unit (fun _ => 3) (fun _ => example_bvh)
         (fun _ _ _ stat => stat) (fun _ _ _ => [1; 1; 1])
         (fun _ _ _ stat _ => stat) 10 tt eps 1 cluster_min_size false false).

(** A tree over two leaves [1] and [2] at distance one. *)
Definition example2_bvh : BVH :=
  {| bvh_size := 2;
     getRoot := 0;
     getLeftChild := fun _ => 1;
     getRightChild := fun _ => 2;
     isLeaf := fun x => 1 <=? x;
     getLeafPermutationIndex := fun x => x - 1;
     bv_distance := fun i j => if i =? j then zero
                               else if (1 <=? i) && (1 <=? j) then one_float
                               else zero |}.

(** Modelled from the spec: [reduceLabels] on the tree [example2_bvh]. *)
Definition example2_reduceLabels (parents labels : list Z) : list Z :=
  match labels with
  | [_; l1; l2] => [if l1 =? l2 then l1 else -1; l1; l2]
  | _ => labels
  end.

Definition example2_MST (rounds : nat) (k : Z)
  : list region * res (list WeightedEdge) :=
  run (MinimumSpanningTree unit (fun _ => 2) (fun _ => example2_bvh)
         (fun _ _ _ _ => zero) (fun _ => [-1; 0; 0])
         example2_reduceLabels 0 uninitialized_edge false 10 rounds tt k).

(** The weights of the edges between the three leaves of the example. *)
Definition example_weight (u v : Z) : float :=
  match Z.min u v, Z.max u v with
  | 2, 3 => one_float
  | 2, 4 => three_float
  | 3, 4 => two_float
  | _, _ => zero
  end.

(** ** Vocabulary of the properties of the merge and of the driver *)

(** Two nodes are joined by a path of edges of the list, an edge being
    passable in both directions. *)
Inductive connected (edges : list WeightedEdge) : Z → Z → Prop :=
  | connected_refl x : connected edges x x
  | connected_edge e : e ∈ edges → connected edges (source e) (target e)
  | connected_sym x y : connected edges x y → connected edges y x
  | connected_trans x y z :
      connected edges x y → connected edges y z → connected edges x z.

(** The edges written so far join every leaf to the representative of its
    component. *)
Definition spanning_inv (n : Z) (s : UpdateState) : Prop :=
  ∀ x, leaf n x → connected (committed s) x (label_of (u_labels s) x).

(** The regions of the turns of the loop of [doBoruvka] in a record: the
    turn with the number [iterations] is entered with [num_components]
    components. *)
Definition Boruvka_regions_halve (first : Z) (rounds : nat) (nc : Z)
  (log : list region) : Prop :=
  ∀ iterations num_components,
    BoruvkaRegion iterations num_components ∈ log →
    first < iterations ≤ first + Z.of_nat rounds
    ∧ num_components * 2 ^ (iterations - first - 1) ≤ nc.

(** ** Vocabulary of the search for the nearest neighbours *)

(** The weight that the kernels give to the edge between the leaves [s]
    and [t]: the metric applied to their primitives and to the distance of
    their bounding volumes. *)
Definition pair_weight (bvh : BVH) (metric : Metric) (s t : Z) : float :=
  metric (getLeafPermutationIndex bvh s) (getLeafPermutationIndex bvh t)
         (bv_distance bvh s t).

(** The leaf [i] and its neighbour [i + 1] lie in different components, one
    of which is [c]. *)
Definition boundary_pair (n : Z) (labels : list Z) (c i : Z) : Prop :=
  leaf n i ∧ leaf n (i + 1)
  ∧ label_of labels i ≠ label_of labels (i + 1)
  ∧ (label_of labels i = c ∨ label_of labels (i + 1) = c).

(** What is known of the radius [r] of the component [c] while
    [resetSharedRadii] runs, [Q c i] telling the pairs that have been
    worked in: [r] is the radius from before or the weight of a boundary
    pair of [c], and it is no larger than either. *)
Definition radius_bounds (bvh : BVH) (metric : Metric) (n : Z)
  (labels : list Z) (radii0 : list float) (Q : Z → Z → Prop) (c : Z)
  (r : float) : Prop :=
  not_nan r
  ∧ (get radii0 (slot n c) = Ok r
     ∨ ∃ i, Q c i ∧ boundary_pair n labels c i
            ∧ r = pair_weight bvh metric i (i + 1))
  ∧ (∃ r0, get radii0 (slot n c) = Ok r0 ∧ SFleb r r0 = true)
  ∧ ∀ i, Q c i → boundary_pair n labels c i →
         SFleb r (pair_weight bvh metric i (i + 1)) = true.

Definition radii_inv (bvh : BVH) (metric : Metric) (n : Z)
  (labels : list Z) (radii0 : list float) (Q : Z → Z → Prop)
  (radii : list float) : Prop :=
  extent radii = n
  ∧ (∀ c, c ∈ components n labels →
          ∃ r, get radii (slot n c) = Ok r
               ∧ radius_bounds bvh metric n labels radii0 Q c r)
  ∧ ∀ x, leaf n x → x ∉ components n labels →
         get radii (slot n x) = get radii0 (slot n x).

(** [t] is a leaf of the subtree below the node [x]. *)
Inductive below (bvh : BVH) : Z → Z → Prop :=
  | below_leaf x : isLeaf bvh x = true → below bvh x x
  | below_left x t :
      isLeaf bvh x = false → below bvh (getLeftChild bvh x) t →
      below bvh x t
  | below_right x t :
      isLeaf bvh x = false → below bvh (getRightChild bvh x) t →
      below bvh x t.

(** The layout of the tree: the inner nodes are [0, ..., n - 2], the leaves
    [n - 1, ..., 2 n - 2]; the root is an inner node, the children of an
    inner node are nodes, the tree has depth at most [D] and every leaf
    lies below the root. *)
Definition tree_ok (bvh : BVH) (D : nat) : Prop :=
  let n := bvh_size bvh in
  0 ≤ getRoot bvh < n - 1
  ∧ depth_at_most bvh D (getRoot bvh) = true
  ∧ (∀ x, 0 ≤ x < 2 * n - 1 → isLeaf bvh x = (n - 1 <=? x))
  ∧ (∀ x, 0 ≤ x < n - 1 →
          0 ≤ getLeftChild bvh x < 2 * n - 1
          ∧ 0 ≤ getRightChild bvh x < 2 * n - 1)
  ∧ ∀ t, leaf n t → below bvh (getRoot bvh) t.

(** The distances of the bounding volumes and the metric: a distance is
    not negative, the volume of a node is no farther than those of its
    children, the metric returns no less than the distance it is given and
    no infinite weight, and the weight of a pair of leaves does not depend
    on their order. *)
Definition distances_ok (bvh : BVH) (metric : Metric) : Prop :=
  let n := bvh_size bvh in
  (∀ i x, leaf n i → 0 ≤ x < 2 * n - 1 →
          SFleb zero (bv_distance bvh i x) = true)
  ∧ (∀ i x, leaf n i → 0 ≤ x < n - 1 →
            SFleb (bv_distance bvh i x)
                  (bv_distance bvh i (getLeftChild bvh x)) = true
            ∧ SFleb (bv_distance bvh i x)
                    (bv_distance bvh i (getRightChild bvh x)) = true)
  ∧ (∀ s t, leaf n s → leaf n t →
            SFleb (bv_distance bvh s t) (pair_weight bvh metric s t) = true)
  ∧ (∀ s t, leaf n s → leaf n t →
            SFltb (pair_weight bvh metric s t) inf = true)
  ∧ ∀ s t, leaf n s → leaf n t →
           pair_weight bvh metric s t = pair_weight bvh metric t s.

(** The labels as [reduceLabels] leaves them: every leaf is labelled by a
    representative, and an inner node that carries the label of a
    component has leaves of this component only. *)
Definition labels_reduced (bvh : BVH) (labels : list Z) : Prop :=
  let n := bvh_size bvh in
  labels_wf n labels
  ∧ ∀ x t c, 0 ≤ x < n - 1 → below bvh x t →
             get labels x = Ok c → c ∈ components n labels →
             get labels t = Ok c.

(** The edge from the leaf [s] of the component [c] to the leaf [t] leaves
    the component. *)
Definition outgoing (n : Z) (labels : list Z) (c s t : Z) : Prop :=
  leaf n s ∧ leaf n t ∧ get labels s = Ok c ∧ get labels t ≠ Ok c.

Definition edge_between (bvh : BVH) (metric : Metric) (s t : Z)
  : WeightedEdge :=
  mkEdge s t (pair_weight bvh metric s t).

(** The number of the inner nodes of the subtree below [x], for a subtree
    of depth at most [d]. *)
Fixpoint inner_nodes (bvh : BVH) (d : nat) (x : Z) : nat :=
  if isLeaf bvh x then O
  else
    match d with
    | O => 1%nat
    | S d' => S (inner_nodes bvh d' (getLeftChild bvh x)
                 + inner_nodes bvh d' (getRightChild bvh x))
    end.

Fixpoint stack_nodes (bvh : BVH) (d : nat) (stack : list Z) : nat :=
  match stack with
  | [] => O
  | s :: rest =>
      Nat.add (if s =? SENTINEL then O else inner_nodes bvh d s)
              (stack_nodes bvh d rest)
  end.

(** The inner nodes that the traversal may still visit. *)
Definition traversal_measure (bvh : BVH) (d : nat) (st : TraversalState)
  : nat :=
  (inner_nodes bvh d (node st) + stack_nodes bvh d (stack st))%nat.

(** The distance that the traversal keeps with a node of the stack. *)
Definition stack_dist (bvh : BVH) (i s : Z) : float :=
  if s =? SENTINEL then zero else bv_distance bvh i s.

Section FindVocabulary.
Variable device : bool.
Variable bvh : BVH.
Variable labels : list Z.
Variable metric : Metric.
Variable D : nat.
(** The leaf of the item, the label of its component and the radius of the
  component when the item starts. *)
Variable i c : Z.
Variable r0 : float.

(** [current_best] is the edge that the item starts with or an edge from
  [i] to a leaf of another component. *)
Definition best_ok (best : WeightedEdge) : Prop :=
best = mkEdge i undetermined inf
∨ ∃ t, leaf (bvh_size bvh) t ∧ get labels t ≠ Ok c
       ∧ best = edge_between bvh metric i t.

(** The radius is the one that the item starts with or the weight of an
  edge from [i] to a leaf of another component, and it never grows. *)
Definition radius_reached (r : float) : Prop :=
not_nan r ∧ SFleb r r0 = true
∧ (r = r0
   ∨ ∃ t, leaf (bvh_size bvh) t ∧ get labels t ≠ Ok c
          ∧ r = pair_weight bvh metric i t).

(** The leaf [t] needs no further look: its edge is longer than the
  radius, or it does not beat [best]. *)
Definition handled (best : WeightedEdge) (r : float) (t : Z) : Prop :=
SFltb r (pair_weight bvh metric i t) = true
∨ WeightedEdge_lt (edge_between bvh metric i t) best = false.

(** The invariant of the loop of the traversal. *)
Definition find_inv (st : TraversalState) : Prop :=
let n := bvh_size bvh in
traversal_inv device bvh D st
∧ 0 ≤ node st < n - 1
∧ (∃ deferred, stack st = deferred ++ [SENTINEL]
               ∧ ∀ s, s ∈ deferred → 0 ≤ s < n - 1)
∧ (device = false →
   stack_distance st = stack_dist bvh i <$> stack st)
∧ (∀ t, below bvh (node st) t →
        SFleb (distance_node st) (bv_distance bvh i t) = true)
∧ best_ok (current_best st)
∧ radius_reached (radius st)
∧ ∀ t, leaf n t → get labels t ≠ Ok c →
       below bvh (node st) t
       ∨ (∃ s, s ∈ stack st ∧ s ≠ SENTINEL ∧ below bvh s t)
       ∨ handled (current_best st) (radius st) t.

(** The state in which the traversal ends. *)
Definition find_done (st : TraversalState) : Prop :=
traversal_done st
∧ best_ok (current_best st)
∧ radius_reached (radius st)
∧ ∀ t, leaf (bvh_size bvh) t → get labels t ≠ Ok c →
       handled (current_best st) (radius st) t.
End FindVocabulary.

(** The shared radius of the component [c] is infinite or the weight of an
    edge that leaves [c]. *)
Definition radius_of_component (bvh : BVH) (metric : Metric)
  (labels : list Z) (c : Z) (r : float) : Prop :=
  not_nan r
  ∧ (r = inf
     ∨ ∃ s t, outgoing (bvh_size bvh) labels c s t
              ∧ r = pair_weight bvh metric s t).

(** The views [_edges] and [_radii] after the items [done] of the search:
    the entry of a component is the edge that the round starts with or an
    edge that leaves the component, and no edge from a leaf among [done]
    beats it unless that edge is longer than the radius. *)
Definition table_inv (bvh : BVH) (metric : Metric) (labels : list Z)
  (done : list Z) (s : list WeightedEdge * list float) : Prop :=
  let n := bvh_size bvh in
  extent (fst s) = n ∧ extent (snd s) = n
  ∧ ∀ c, c ∈ components n labels →
      ∃ e r,
        get (fst s) (slot n c) = Ok e ∧ get (snd s) (slot n c) = Ok r
        ∧ radius_of_component bvh metric labels c r
        ∧ (e = uninitialized_edge
           ∨ ∃ u v, outgoing n labels c u v ∧ e = edge_between bvh metric u v)
        ∧ ∀ u v, u ∈ done → outgoing n labels c u v →
                 SFltb r (pair_weight bvh metric u v) = true
                 ∨ WeightedEdge_lt (edge_between bvh metric u v) e = false.

(** The entry of the component [c] is a least edge among those that leave
    it. *)
Definition least_outgoing (bvh : BVH) (metric : Metric) (labels : list Z)
  (c : Z) (e : WeightedEdge) : Prop :=
  let n := bvh_size bvh in
  (∃ s t, outgoing n labels c s t ∧ e = edge_between bvh metric s t)
  ∧ ∀ u v, outgoing n labels c u v →
           WeightedEdge_lt (edge_between bvh metric u v) e = false.

(** The weight of the edge between two leaves, and zero for other pairs of
    numbers. *)
Definition leaf_weight (bvh : BVH) (metric : Metric) (u v : Z) : float :=
  let n := bvh_size bvh in
  if decide ((n - 1 ≤ u < 2 * n - 1) ∧ (n - 1 ≤ v < 2 * n - 1))
  then pair_weight bvh metric u v else zero.

(** The edge is a least edge, in the order of [operator<], among the edges
    that leave some set of leaves: the leaves with the label [c] under
    some labelling. *)
Definition least_across_cut (bvh : BVH) (metric : Metric)
  (e : WeightedEdge) : Prop :=
  ∃ labels c,
    labels_wf (bvh_size bvh) labels
    ∧ c ∈ components (bvh_size bvh) labels
    ∧ least_outgoing bvh metric labels c e.

(** ** DBSCAN: the clusters in CSR form

    The phase ["ArborX::DBSCAN::sort_and_filter_clusters"] of [dbscan],
    which the definition [dbscan] above leaves out: it starts from the view
    [clusters] that [dbscan] returns. The arithmetic on [int] is carried
    out on [Z]; the statements below bound the numbers so that no [int]
    overflows. *)

(** [Kokkos::parallel_scan] over a range with a functor
    [(i, update, final_pass)]: the serial backend calls the functor once
    for every item, in increasing order, with [final_pass] set and with
    [update] as the items before have left it; the passes of other
    backends with [final_pass] unset write nothing. *)
Definition parallel_scan {S : Type} (range : list Z) (body : Z → S → res S)
  (s : S) : res S :=
  for_each body range s.

(** [while (++end < n && clusters(end) == clusters(i)) ;] started with
    [end], with at most [fuel] increments. *)
Fixpoint cluster_end (fuel : nat) (clusters : list Z) (n i end_ : Z)
  : res Z :=
  match fuel with
  | O => Err OutOfFuel
  | S fuel' =>
      let end_ := end_ + 1 in
      if end_ <? n then
        let* clusters_end := get clusters end_ in
        let* clusters_i := get clusters i in
        if clusters_end =? clusters_i
        then cluster_end fuel' clusters n i end_
        else Ok end_
      else Ok end_
  end.

(** The views [cluster_starts] and [cluster_offsets] and the value of
    [update]. *)
Record ScanState : Type := mkScanState {
  sc_starts : list Z;
  sc_offsets : list Z;
  sc_update : Z
}.

(** The functor of ["ArborX::DBSCAN::compute_cluster_starts_and_sizes"]. *)
Definition compute_cluster_starts_and_sizes_op (fuel : nat)
  (n cluster_min_size : Z) (clusters : list Z) (i : Z) (s : ScanState)
  : res ScanState :=
  let* is_cluster_first_index :=
    (if i =? 0 then Ok true
     else
       let* clusters_i := get clusters i in
       let* clusters_prev := get clusters (i - 1) in
       Ok (negb (clusters_i =? clusters_prev))) in
  let* is_cluster_large_enough :=
    (if i + cluster_min_size - 1 <? n then
       let* clusters_last := get clusters (i + cluster_min_size - 1) in
       let* clusters_i := get clusters i in
       Ok (clusters_last =? clusters_i)
     else Ok false) in
  if is_cluster_first_index && is_cluster_large_enough then
    let* cluster_starts := set (sc_starts s) (sc_update s) i in
    let end_ := i + cluster_min_size - 1 in
    let* end_ := cluster_end fuel clusters n i end_ in
    let* cluster_offsets := set (sc_offsets s) (sc_update s) (end_ - i) in
    Ok {| sc_starts := cluster_starts;
          sc_offsets := cluster_offsets;
          sc_update := sc_update s + 1 |}
  else Ok s.

Definition compute_cluster_starts_and_sizes (fuel : nat)
  (n cluster_min_size : Z) (clusters : list Z)
  (cluster_starts cluster_offsets : list Z) : res ScanState :=
  parallel_scan (RangePolicy 0 n)
    (compute_cluster_starts_and_sizes_op fuel n cluster_min_size clusters)
    {| sc_starts := cluster_starts;
       sc_offsets := cluster_offsets;
       sc_update := 0 |}.

(** The functor of ["ArborX::DBSCAN::populate_clusters"]. *)
Definition populate_clusters_op (permute cluster_starts cluster_offsets
                                  : list Z)
  (i : Z) (cluster_indices : list Z) : res (list Z) :=
  let* first := get cluster_offsets i in
  let* last := get cluster_offsets (i + 1) in
  for_each
    (fun k cluster_indices =>
       let* start := get cluster_starts i in
       let* offset := get cluster_offsets i in
       let* index := get permute (start + (k - offset)) in
       set cluster_indices k index)
    (RangePolicy first last) cluster_indices.

(** [Kokkos::resize] of a view of rank one: the entries that fit are kept,
    new entries are zero. *)
Definition resize (v : list Z) (m : Z) : list Z :=
  take (Z.to_nat m) v ++ replicate (Z.to_nat m - length v) 0.

Section sort_and_filter_clusters.
(** From outside of the sources at hand: [Details::sortObjects], which
    sorts the view in place and returns the permutation, and
    [exclusivePrefixSum] and [lastElement] of [ArborX_DetailsUtils.hpp];
    [garbage] is the content of views allocated without
    initialization. *)
Variable sortObjects : list Z → list Z * list Z.
Variable exclusivePrefixSum : list Z → list Z.
Variable lastElement : list Z → Z.
Variable garbage : Z.

(** The phase, from the view [clusters] to the views [cluster_indices]
    and [cluster_offsets] that [dbscan] hands back. *)
Definition sort_and_filter_clusters (fuel : nat) (n cluster_min_size : Z)
  (clusters : list Z) : res (list Z * list Z) :=
  let '(clusters, permute) := sortObjects clusters in
  let cluster_offsets := replicate (Z.to_nat (n + 1)) garbage in
  let cluster_starts := replicate (Z.to_nat n) garbage in
  let* s := compute_cluster_starts_and_sizes fuel n cluster_min_size
              clusters cluster_starts cluster_offsets in
  let num_clusters := sc_update s in
  let cluster_offsets := resize (sc_offsets s) (num_clusters + 1) in
  let cluster_offsets := exclusivePrefixSum cluster_offsets in
  let cluster_indices :=
    replicate (Z.to_nat (lastElement cluster_offsets)) garbage in
  let* cluster_indices :=
    parallel_for (RangePolicy 0 num_clusters)
      (populate_clusters_op permute (sc_starts s) cluster_offsets)
      cluster_indices in
  Ok (cluster_indices, cluster_offsets).
End sort_and_filter_clusters.

(** *** Vocabulary: the runs of equal entries *)

(** The number of entries at the head of [l] that equal [x]. *)
Fixpoint run_length (x : Z) (l : list Z) : nat :=
  match l with
  | y :: l' => if decide (y = x) then S (run_length x l') else O
  | [] => O
  end.

(** The length of the run of equal entries that starts at [i]. *)
Definition run_size (clusters : list Z) (i : Z) : Z :=
  match clusters !! Z.to_nat i with
  | Some x => Z.of_nat (run_length x (drop (Z.to_nat i) clusters))
  | None => 0
  end.

(** The [m] entries from [i] on are equal. *)
Definition run_reaches (clusters : list Z) (i m : Z) : Prop :=
  ∀ d, 0 ≤ d < m → get clusters (i + d) = get clusters i.

(** [i] is the first index of a run. *)
Definition run_start (clusters : list Z) (i : Z) : Prop :=
  i = 0 ∨ get clusters i ≠ get clusters (i - 1).

(** The first indices of the runs of at least [cluster_min_size] entries
    among the indices [items]. *)
Definition cluster_heads (cluster_min_size : Z) (clusters : list Z)
  (items : list Z) : list Z :=
  filter (fun i => run_start clusters i
                   ∧ cluster_min_size ≤ run_size clusters i) items.

Definition sorted_view (v : list Z) : Prop :=
  ∀ i j x y, (i ≤ j)%nat → v !! i = Some x → v !! j = Some y → x ≤ y.

(** The exclusive prefix sums of a view. *)
Definition sum_view (v : list Z) : Z := foldr Z.add 0 v.

Definition exclusive_scan (v : list Z) : list Z :=
  (fun k => sum_view (take k v)) <$> seq 0 (length v).

(** The state of the scan after the items [done]. *)
Definition scan_inv (cluster_min_size : Z) (clusters : list Z)
  (starts0 offsets0 : list Z) (done : list Z) (s : ScanState) : Prop :=
  let heads := cluster_heads cluster_min_size clusters done in
  sc_update s = Z.of_nat (length heads)
  ∧ extent (sc_starts s) = extent starts0
  ∧ extent (sc_offsets s) = extent offsets0
  ∧ take (length heads) (sc_starts s) = heads
  ∧ take (length heads) (sc_offsets s) = run_size clusters <$> heads.

(** The sum of the first [k] entries of [sizes]: where the row [k] of the
    CSR begins. *)
Definition csr_offset (sizes : list Z) (k : nat) : Z :=
  sum_view (take k sizes).

(** The state of [cluster_indices] after the clusters [done]: row [k]
    holds the entries of [permute] from the start of run [k] on. *)
Definition populate_inv (permute heads sizes : list Z) (done : list Z)
  (cluster_indices : list Z) : Prop :=
  extent cluster_indices = sum_view sizes
  ∧ ∀ (k : nat) h z d,
      (k < length done)%nat → heads !! k = Some h → sizes !! k = Some z →
      0 ≤ d < z →
      get cluster_indices (csr_offset sizes k + d) = get permute (h + d).

(** An instance of the functions from outside of the sources at hand: a
    sort by insertion that carries the indices along. *)
Fixpoint insert_sorted (a : Z * Z) (l : list (Z * Z)) : list (Z * Z) :=
  match l with
  | [] => [a]
  | b :: l' => if a.1 <=? b.1 then a :: l else b :: insert_sorted a l'
  end.

Definition example_sortObjects (v : list Z) : list Z * list Z :=
  let sorted := foldr insert_sorted [] (zip v (seqZ 0 (extent v))) in
  (sorted.*1, sorted.*2).

Definition example_lastElement (v : list Z) : Z := default 0 (last v).

Definition example_clusters : list Z := [3; 0; 3; 2; 0; 3].

(** The objects with the cluster index [c] in a view over [n] objects. *)
Definition cluster_members (clusters : list Z) (n c : Z) : list Z :=
  filter (fun q => clusters !! Z.to_nat q = Some c) (RangePolicy 0 n).

(** ** DBSCAN: the callback that counts the neighbours *)

(** [NumNeighCallback::operator()]: [getData(query)] is the index that was
    attached to the query, given here as [query]; the primitive [j] is not
    looked at. *)
Definition NumNeighCallback (num_neigh : list Z) (query j : Z)
  : res (list Z) :=
  let i := query in
  let* old := get num_neigh i in
  set num_neigh i (old + 1).

(** From outside of the sources at hand: a query of the BVH calls the
    callback once for every match of a query with a primitive; [matches]
    are these pairs in the order of the calls. *)
Fixpoint query_with_callback {S : Type} (callback : S → Z → Z → res S)
  (matches : list (Z * Z)) (s : S) : res S :=
  match matches with
  | [] => Ok s
  | (query, j) :: matches' =>
      let* s' := callback s query j in
      query_with_callback callback matches' s'
  end.

(** The number of the matches of the query [i]. *)
Definition matches_of (matches : list (Z * Z)) (i : Z) : Z :=
  Z.of_nat (length (filter (fun m => m.1 = i) matches)).

(** ** DBSCAN: the check of the connected components

    [verifyCC] of [ArborX_DBSCAN.hpp]. The graph is given in CSR form by
    [indices] and [offset], the labels by [ccs]. What the function prints
    is left out. The sizes of the views are converted to [int] as the
    code does it; the counter [num_ccs] is an [unsigned int] and wraps
    around; the [int] counter of the mismatches is taken on [Z], its
    overflow being undefined. *)

(** The conversion of a size to [int]. *)
Definition int_of_size (s : Z) : Z := (s + 2 ^ 31) mod 2 ^ 32 - 2 ^ 31.

Definition unsigned_int_modulus : Z := 2 ^ 32.

(** [Kokkos::parallel_reduce] over a range with a functor [(i, update)] and
    the sum as reduction. *)
Definition parallel_reduce_sum (range : list Z) (body : Z → Z → res Z)
  : res Z :=
  for_each body range 0.

(** The functor of ["ArborX::DBSCAN::verify_connected_indices"]. *)
Definition verify_connected_indices_op (indices offset ccs : list Z)
  (i : Z) (update : Z) : res Z :=
  let* first := get offset i in
  let* last := get offset (i + 1) in
  for_each
    (fun j update =>
       let* ccs_i := get ccs i in
       let* index := get indices j in
       let* ccs_index := get ccs index in
       if negb (ccs_i =? ccs_index) then Ok (update + 1) else Ok update)
    (RangePolicy first last) update.

(** [for (j = offset_host(k); j < offset_host(k + 1); j++)
    stack.push(indices_host(j));] with the top of the stack at the head. *)
Definition push_neighbors (indices : list Z) (first last : Z)
  (stack : list Z) : res (list Z) :=
  for_each
    (fun j stack => let* index := get indices j in Ok (index :: stack))
    (RangePolicy first last) stack.

(** [while (!stack.empty())] of the DFS search, with at most [fuel] turns. *)
Fixpoint dfs (fuel : nat) (indices offset : list Z) (id : Z)
  (stack : list Z) (ccs_host : list Z) : res (list Z) :=
  match stack with
  | [] => Ok ccs_host
  | k :: stack =>
      match fuel with
      | O => Err OutOfFuel
      | S fuel' =>
          let* ccs_k := get ccs_host k in
          if 0 <=? ccs_k then
            let* _ := ARBORX_ASSERT (ccs_k =? id) in
            let* ccs_host := set ccs_host k (-1) in
            let* first := get offset k in
            let* last := get offset (k + 1) in
            let* stack := push_neighbors indices first last stack in
            dfs fuel' indices offset id stack ccs_host
          else dfs fuel' indices offset id stack ccs_host
      end
  end.

(** The view [ccs_host], the set [cc_sets] and the counter [num_ccs]. *)
Record VerifyState : Type := mkVerifyState {
  ccs_host : list Z;
  cc_sets : gset Z;
  num_ccs : Z
}.

(** The body of the second loop over the nodes. *)
Definition verify_components_op (fuel : nat) (indices offset : list Z)
  (i : Z) (s : VerifyState) : res VerifyState :=
  let* ccs_i := get (ccs_host s) i in
  if 0 <=? ccs_i then
    let id := ccs_i in
    let cc_sets := {[ id ]} ∪ cc_sets s in
    let num_ccs := (num_ccs s + 1) mod unsigned_int_modulus in
    let* ccs_host := dfs fuel indices offset id [i] (ccs_host s) in
    Ok {| ccs_host := ccs_host; cc_sets := cc_sets; num_ccs := num_ccs |}
  else Ok s.

Section verifyCC.
(** From outside of the sources at hand: [lastElement] of
    [ArborX_DetailsUtils.hpp]. *)
Variable lastElement : list Z → Z.

Definition verifyCC (fuel : nat) (indices offset ccs : list Z)
  : res bool :=
  let num_nodes := int_of_size (extent ccs) in
  let* _ := ARBORX_ASSERT (int_of_size (extent offset) =? num_nodes + 1) in
  let* _ :=
    ARBORX_ASSERT (lastElement offset =? int_of_size (extent indices)) in
  let* num_incorrect :=
    parallel_reduce_sum (RangePolicy 0 num_nodes)
      (verify_connected_indices_op indices offset ccs) in
  if negb (num_incorrect =? 0) then Ok false
  else
    let* unique_cc_indices :=
      for_each
        (fun i (unique_cc_indices : gset Z) =>
           let* ccs_i := get ccs i in
           Ok ({[ ccs_i ]} ∪ unique_cc_indices))
        (RangePolicy 0 num_nodes) ∅ in
    let num_unique_cc_indices := Z.of_nat (size unique_cc_indices) in
    let* s :=
      for_each (verify_components_op fuel indices offset)
        (RangePolicy 0 num_nodes)
        {| ccs_host := ccs; cc_sets := ∅; num_ccs := 0 |} in
    if negb (Z.of_nat (size (cc_sets s)) =? num_unique_cc_indices)
    then Ok false
    else if negb (num_ccs s =? num_unique_cc_indices) then Ok false
    else Ok true.
End verifyCC.

(** *** Vocabulary: the graph of the CSR *)

(** [k] is among the neighbours of [i]. *)
Definition cc_edge (indices offset : list Z) (i k : Z) : Prop :=
  ∃ first last j,
    get offset i = Ok first ∧ get offset (i + 1) = Ok last
    ∧ first ≤ j < last ∧ get indices j = Ok k.

(** There is a path from [r] to [k]. *)
Definition cc_reach (indices offset : list Z) (r k : Z) : Prop :=
  rtc (cc_edge indices offset) r k.

(** [k] was reached from one of the nodes [starts], and carries its
    label. *)
Definition cc_marked (indices offset ccs : list Z) (starts : list Z)
  (k : Z) : Prop :=
  ∃ r, r ∈ starts ∧ get ccs r = get ccs k ∧ cc_reach indices offset r k.

(** The view [ccs_host] in the course of the second loop: an entry is as
    in [ccs], or it is [-1] and the node was reached from a start. *)
Definition ccs_host_inv (indices offset ccs : list Z) (starts : list Z)
  (host : list Z) : Prop :=
  extent host = extent ccs
  ∧ ∀ k, 0 ≤ k < extent ccs →
         get host k = get ccs k
         ∨ (get host k = Ok (-1) ∧ cc_marked indices offset ccs starts k).

(** The labels of the nodes [starts]. *)
Definition labels_of (ccs : list Z) (starts : list Z) : list Z :=
  (fun r => default (-1) (ccs !! Z.to_nat r)) <$> starts.

(** The state of the second loop after the nodes [done]. *)
Definition verify_inv (indices offset ccs : list Z) (done : list Z)
  (s : VerifyState) : Prop :=
  ∃ starts,
    ccs_host_inv indices offset ccs starts (ccs_host s)
    ∧ num_ccs s = Z.of_nat (length starts)
    ∧ (length starts ≤ length done)%nat
    ∧ cc_sets s = list_to_set (labels_of ccs starts)
    ∧ (∀ r, r ∈ starts → ∃ c, get ccs r = Ok c ∧ 0 ≤ c)
    ∧ ∀ i, i ∈ done → ∃ v, get (ccs_host s) i = Ok v ∧ v < 0.

(** A graph in CSR form over [n] nodes: [offset] has [n + 1] entries that
    do not decrease, from 0 up to the size of [indices], and the entries
    of [indices] are nodes. *)
Definition csr_wf (indices offset : list Z) (n : Z) : Prop :=
  extent offset = n + 1
  ∧ get offset 0 = Ok 0
  ∧ get offset n = Ok (extent indices)
  ∧ (∀ (k : nat) a b,
       offset !! k = Some a → offset !! S k = Some b → a ≤ b)
  ∧ ∀ j x, get indices j = Ok x → 0 ≤ x < n.

(** The labels [ccs] are the connected components of the graph: no label
    is negative, neighbours carry one label, and the nodes of one label
    reach each other. *)
Definition components_labelling (indices offset ccs : list Z) : Prop :=
  (∀ i c, get ccs i = Ok c → 0 ≤ c)
  ∧ (∀ i k, 0 ≤ i < extent ccs → cc_edge indices offset i k →
            get ccs k = get ccs i)
  ∧ ∀ i k, 0 ≤ i < extent ccs → 0 ≤ k < extent ccs →
           get ccs i = get ccs k → cc_reach indices offset i k.

(** The number of the neighbours of the node [k]. *)
Definition cc_degree (offset : list Z) (k : nat) : nat :=
  match offset !! k, offset !! S k with
  | Some a, Some b => Z.to_nat (b - a)
  | _, _ => O
  end.

(** What the search has left to do: the entries of the stack, and the
    nodes not yet marked with their neighbours. *)
Definition dfs_weight (offset host : list Z) (k : nat) : nat :=
  match host !! k with
  | Some v => if 0 <=? v then S (cc_degree offset k) else O
  | None => O
  end.

Definition dfs_measure (offset stack host : list Z) : nat :=
  length stack + sum_list_with (dfs_weight offset host) (seq 0 (length host)).

(** The search for the label [id] from the node [i], started on the view
    [host0]: only nodes of the label [id] are marked, the neighbours of a
    marked node are marked or on the stack, and so is [i]. *)
Definition dfs_inv (indices offset ccs : list Z) (id i : Z)
  (host0 stack host : list Z) : Prop :=
  extent host = extent ccs
  ∧ (∀ k, get ccs k ≠ Ok id → get host k = get host0 k)
  ∧ (∀ k, get ccs k = Ok id → get host k = Ok id ∨ get host k = Ok (-1))
  ∧ (∀ x, x ∈ stack → get ccs x = Ok id)
  ∧ (∀ k x, get ccs k = Ok id → get host k = Ok (-1) →
            cc_edge indices offset k x →
            get host x = Ok (-1) ∨ x ∈ stack)
  ∧ (get host i = Ok (-1) ∨ i ∈ stack).

(** The state of the second loop after the nodes [done], for labels that
    are the connected components: the nodes of the labels met are marked,
    the others are untouched, and every label met was counted once. *)
Definition verify_components_inv (ccs : list Z) (done : list Z)
  (s : VerifyState) : Prop :=
  extent (ccs_host s) = extent ccs
  ∧ (∀ k c, get ccs k = Ok c →
            get (ccs_host s) k = Ok (if decide (c ∈ cc_sets s) then -1 else c))
  ∧ (∀ c, c ∈ cc_sets s ↔ ∃ i, i ∈ done ∧ get ccs i = Ok c)
  ∧ num_ccs s = Z.of_nat (size (cc_sets s))
  ∧ (size (cc_sets s) ≤ length done)%nat.

Definition example_graph_indices : list Z := [1; 0].
Definition example_graph_offset : list Z := [0; 1; 2; 2].
Definition example_ccs : list Z := [0; 0; 2].
Lemma finite_not_nan f : is_finite_float f = true → not_nan f.
Proof. by destruct f. Qed.

Lemma pos_compare_cont_lt m1 m2 :
  Pos.compare_cont Eq m1 m2 = Lt → Z.pos m1 < Z.pos m2.
Proof. intros H. by apply Pos2Z.pos_lt_pos, Pos.compare_lt_iff. Qed.

Lemma pos_compare_cont_gt m1 m2 :
  Pos.compare_cont Eq m1 m2 = Gt → Z.pos m2 < Z.pos m1.
Proof. intros H. by apply Pos2Z.pos_lt_pos, Pos.compare_gt_iff. Qed.

Lemma pos_compare_cont_eq m1 m2 :
  Pos.compare_cont Eq m1 m2 = Eq → m1 = m2.
Proof. apply Pos.compare_eq_iff. Qed.

Local Ltac key_case :=
  split;
  [ let Hk := fresh "Hk" in
    intros Hk; first [discriminate Hk | repeat split; first [done | lia]]
  | intros (? & ? & K);
    first [reflexivity
          | exfalso; first [done | lia | injection K; intros; lia]] ].

Local Ltac key_cases ea eb ma mb :=
  destruct (Z.compare_spec ea eb) as [-> | ? | ?]; simpl;
  [ destruct (Pos.compare_cont Eq ma mb) eqn:E; simpl;
    [ apply pos_compare_cont_eq in E as ->
    | pose proof (pos_compare_cont_lt _ _ E)
    | pose proof (pos_compare_cont_gt _ _ E) ]; key_case
  | key_case | key_case ].

Lemma SFltb_key a b :
  SFltb a b = true ↔ not_nan a ∧ not_nan b ∧ key_lt (float_key a) (float_key b).
Proof.
  unfold SFltb, not_nan.
  destruct a as [sa|sa| |sa ma ea], b as [sb|sb| |sb mb eb];
    try destruct sa; try destruct sb; simpl; try key_case;
    key_cases ea eb ma mb.
Qed.

Lemma SFeqb_key a b :
  SFeqb a b = true ↔ not_nan a ∧ not_nan b ∧ float_key a = float_key b.
Proof.
  unfold SFeqb, not_nan.
  destruct a as [sa|sa| |sa ma ea], b as [sb|sb| |sb mb eb];
    try destruct sa; try destruct sb; simpl; try key_case;
    key_cases ea eb ma mb.
Qed.

Lemma SFltb_SFeqb_excl a b : SFltb a b = true → SFeqb a b = false.
Proof. unfold SFltb, SFeqb. by destruct (SFcompare a b) as [[]|]. Qed.

Lemma WeightedEdge_lt_iff e1 e2 :
  WeightedEdge_lt e1 e2 = true ↔ edge_lt_spec e1 e2.
Proof.
  unfold WeightedEdge_lt, edge_lt_spec, SFneqb.
  destruct (SFeqb (weight e1) (weight e2)) eqn:Heq; simpl.
  - assert (SFltb (weight e1) (weight e2) = false) as ->.
    { destruct (SFltb _ _) eqn:Hlt; [|done].
      apply SFltb_SFeqb_excl in Hlt. congruence. }
    destruct (Z.eqb_spec (Z.min (source e1) (target e1))
                         (Z.min (source e2) (target e2))) as [Hm|Hm]; simpl.
    + rewrite Z.ltb_lt. split; [intros ?; right; right; done|].
      intros [?|[[_ ?]|(_&_&?)]]; (done || lia).
    + rewrite Z.ltb_lt. split; [intros ?; right; left; done|].
      intros [?|[[_ ?]|(_&?&_)]]; (done || lia).
  - split; [by left|]. by intros [?|[[? _]|[? _]]].
Qed.

Lemma WeightedEdge_lt_key e1 e2 :
  WeightedEdge_lt e1 e2 = true ↔
  not_nan (weight e1) ∧ not_nan (weight e2) ∧ edge_key_lt e1 e2.
Proof.
  rewrite WeightedEdge_lt_iff. unfold edge_lt_spec, edge_key_lt.
  rewrite SFltb_key, SFeqb_key. tauto.
Qed.

Lemma key_lt_irrefl k : ¬ key_lt k k.
Proof. destruct k as [[a b] c]. simpl. lia. Qed.

Lemma key_lt_trans k1 k2 k3 : key_lt k1 k2 → key_lt k2 k3 → key_lt k1 k3.
Proof. destruct k1 as [[??]?], k2 as [[??]?], k3 as [[??]?]. simpl. lia. Qed.

Lemma key_lt_total k1 k2 : key_lt k1 k2 ∨ k1 = k2 ∨ key_lt k2 k1.
Proof.
  destruct k1 as [[a1 b1] c1], k2 as [[a2 b2] c2]. simpl.
  destruct (Z.lt_total a1 a2) as [?|[->|?]]; [lia| |lia].
  destruct (Z.lt_total b1 b2) as [?|[->|?]]; [lia| |lia].
  destruct (Z.lt_total c1 c2) as [?|[->|?]]; [lia| |lia].
  by right; left.
Qed.

Lemma WeightedEdge_lt_irrefl e : WeightedEdge_lt e e = false.
Proof.
  destruct (WeightedEdge_lt e e) eqn:H; [|done].
  apply WeightedEdge_lt_key in H as (_ & _ & [H|[_ H]]).
  - by apply key_lt_irrefl in H.
  - lia.
Qed.

Lemma WeightedEdge_lt_trans e1 e2 e3 :
  WeightedEdge_lt e1 e2 = true → WeightedEdge_lt e2 e3 = true →
  WeightedEdge_lt e1 e3 = true.
Proof.
  rewrite !WeightedEdge_lt_key. intros (N1 & N2 & H12) (_ & N3 & H23).
  split; [done|]. split; [done|]. unfold edge_key_lt in *.
  destruct H12 as [H12|[E12 H12]], H23 as [H23|[E23 H23]].
  - left. by eapply key_lt_trans.
  - left. by rewrite <- E23.
  - left. by rewrite E12.
  - right. split; [congruence|]. lia.
Qed.

Lemma WeightedEdge_lt_asym e1 e2 :
  WeightedEdge_lt e1 e2 = true → WeightedEdge_lt e2 e1 = false.
Proof.
  intros H. destruct (WeightedEdge_lt e2 e1) eqn:H'; [|done].
  pose proof (WeightedEdge_lt_trans _ _ _ H H') as Hc.
  by rewrite WeightedEdge_lt_irrefl in Hc.
Qed.

Lemma WeightedEdge_lt_total e1 e2 :
  not_nan (weight e1) → not_nan (weight e2) →
  SFeqb (weight e1) (weight e2) = false ∨ vertex_pair e1 ≠ vertex_pair e2 →
  WeightedEdge_lt e1 e2 = true ∨ WeightedEdge_lt e2 e1 = true.
Proof.
  intros N1 N2 Hd. rewrite !WeightedEdge_lt_key. unfold edge_key_lt.
  destruct (key_lt_total (float_key (weight e1)) (float_key (weight e2)))
    as [?|[Hk|?]]; [left; tauto| |right; tauto].
  destruct Hd as [Hd|Hd].
  - exfalso. assert (SFeqb (weight e1) (weight e2) = true); [|congruence].
    by apply SFeqb_key.
  - unfold vertex_pair in Hd.
    destruct (Z.lt_total (Z.min (source e1) (target e1))
                         (Z.min (source e2) (target e2))) as [?|[Hm|?]].
    + left. repeat split; try done. right. split; [done|]. lia.
    + destruct (Z.lt_total (Z.max (source e1) (target e1))
                           (Z.max (source e2) (target e2))) as [?|[Hx|?]].
      * left. repeat split; try done. right. split; [done|]. lia.
      * exfalso. apply Hd. by rewrite Hm, Hx.
      * right. repeat split; try done. right. split; [done|]. lia.
    + right. repeat split; try done. right. split; [done|]. lia.
Qed.

(** C2. On edges of finite weight [operator<] is the lexicographic
    comparison of the weight, the lesser vertex and the greater vertex, and
    it is a strict total order: irreflexive, transitive, and for two edges
    that differ in weight or in their unordered pair of vertices exactly one
    of [e1 < e2] and [e2 < e1] holds. *)
Theorem WeightedEdge_lt_strict_total_order (e1 e2 e3 : WeightedEdge) :
  finite_weight e1 → finite_weight e2 → finite_weight e3 →
  (WeightedEdge_lt e1 e2 = true ↔ edge_lt_spec e1 e2)
  ∧ WeightedEdge_lt e1 e1 = false
  ∧ (WeightedEdge_lt e1 e2 = true → WeightedEdge_lt e2 e3 = true →
     WeightedEdge_lt e1 e3 = true)
  ∧ (SFeqb (weight e1) (weight e2) = false ∨ vertex_pair e1 ≠ vertex_pair e2 →
     (WeightedEdge_lt e1 e2 = true ∧ WeightedEdge_lt e2 e1 = false)
     ∨ (WeightedEdge_lt e1 e2 = false ∧ WeightedEdge_lt e2 e1 = true)).
Proof.
  intros F1 F2 F3. split; [apply WeightedEdge_lt_iff|].
  split; [apply WeightedEdge_lt_irrefl|].
  split; [apply WeightedEdge_lt_trans|].
  intros Hd.
  destruct (WeightedEdge_lt_total e1 e2) as [H|H];
    auto using finite_not_nan.
  - left. split; [done|]. by apply WeightedEdge_lt_asym.
  - right. split; [|done]. by apply WeightedEdge_lt_asym.
Qed.

Lemma WeightedEdge_lt_strict_total_order_witness :
  let e1 := mkEdge 3 4 one_float in
  let e2 := mkEdge 5 3 one_float in
  let e3 := mkEdge 3 4 two_float in
  WeightedEdge_lt e1 e2 = true ∧ WeightedEdge_lt e2 e1 = false
  ∧ WeightedEdge_lt e1 e3 = true.
Proof.
  intros e1 e2 e3.
  destruct (WeightedEdge_lt_strict_total_order e1 e2 e3) as (_ & _ & Ht & Htot);
    [reflexivity | reflexivity | reflexivity |].
  destruct Htot as [[? ?]|[H ?]].
  - right. intros [=].
  - split; [done|]. split; [done|]. apply Ht; reflexivity.
  - discriminate H.
Defined.

(** ** Views, results and loops *)

Lemma bind_Ok {A B : Type} (m : res A) (k : A → res B) (b : B) :
  res_bind m k = Ok b ↔ ∃ a, m = Ok a ∧ k a = Ok b.
Proof.
  destruct m as [a|f]; simpl.
  - split; [by exists a|]. by intros (a' & [= ->] & ?).
  - split; [done|]. by intros (? & ? & ?).
Qed.

Lemma get_Ok {A : Type} (v : list A) (i : Z) (x : A) :
  get v i = Ok x ↔ 0 ≤ i ∧ v !! Z.to_nat i = Some x.
Proof.
  unfold get, view_get. destruct (decide (0 ≤ i)).
  - destruct (v !! Z.to_nat i) eqn:E; split; try (intros [= ->]; done);
      intros [_ ?]; congruence.
  - split; [done|]. intros [? _]. lia.
Qed.

Lemma get_Ok_lt {A : Type} (v : list A) (i : Z) (x : A) :
  get v i = Ok x → 0 ≤ i < extent v.
Proof.
  intros [? H]%get_Ok. apply lookup_lt_Some in H. unfold extent. lia.
Qed.

Lemma get_is_Ok {A : Type} (v : list A) (i : Z) :
  0 ≤ i < extent v → ∃ x, get v i = Ok x.
Proof.
  unfold extent. intros Hi.
  destruct (lookup_lt_is_Some_2 v (Z.to_nat i)) as [x Hx]; [lia|].
  exists x. apply get_Ok. split; [lia|done].
Qed.

Lemma get_Err {A : Type} (v : list A) (i : Z) (f : fault) :
  get v i = Err f → f = OutOfBounds ∧ ¬ (0 ≤ i < extent v).
Proof.
  intros H. split.
  - unfold get in H. by destruct (view_get v i); [|injection H].
  - intros Hi. destruct (get_is_Ok v i Hi) as [x Hx]. congruence.
Qed.

Lemma set_Ok {A : Type} (v : list A) (i : Z) (x : A) (v' : list A) :
  set v i x = Ok v' ↔ 0 ≤ i < extent v ∧ v' = <[Z.to_nat i := x]> v.
Proof.
  unfold set, view_set, extent.
  destruct (decide (0 ≤ i < Z.of_nat (length v))).
  - split; [by intros [= <-]|]. by intros [_ ->].
  - split; [done|]. by intros [? _].
Qed.

Lemma set_is_Ok {A : Type} (v : list A) (i : Z) (x : A) :
  0 ≤ i < extent v → set v i x = Ok (<[Z.to_nat i := x]> v).
Proof. intros. by apply set_Ok. Qed.

Lemma extent_insert {A : Type} (v : list A) (k : nat) (x : A) :
  extent (<[k := x]> v) = extent v.
Proof. unfold extent. by rewrite length_insert. Qed.

Lemma set_extent {A : Type} (v : list A) (i : Z) (x : A) (v' : list A) :
  set v i x = Ok v' → extent v' = extent v.
Proof. intros [_ ->]%set_Ok. apply extent_insert. Qed.

Lemma get_insert_eq {A : Type} (v : list A) (i : Z) (x : A) :
  0 ≤ i < extent v → get (<[Z.to_nat i := x]> v) i = Ok x.
Proof.
  unfold extent. intros Hi. apply get_Ok. split; [lia|].
  apply list_lookup_insert_eq. lia.
Qed.

Lemma get_insert_ne {A : Type} (v : list A) (i j : Z) (x : A) :
  0 ≤ i → i ≠ j → get (<[Z.to_nat i := x]> v) j = get v j.
Proof.
  intros Hi Hne. unfold get, view_get.
  destruct (decide (0 ≤ j)); [|done].
  rewrite list_lookup_insert_ne; [done|lia].
Qed.

Lemma extent_replicate {A : Type} (n : Z) (x : A) :
  0 ≤ n → extent (replicate (Z.to_nat n) x) = n.
Proof. intros. unfold extent. rewrite length_replicate. lia. Qed.

Lemma get_replicate {A : Type} (n i : Z) (x : A) :
  0 ≤ i < n → get (replicate (Z.to_nat n) x) i = Ok x.
Proof.
  intros Hi. apply get_Ok. split; [lia|].
  apply lookup_replicate_2. lia.
Qed.

Lemma RangePolicy_elem (first last i : Z) :
  i ∈ RangePolicy first last ↔ first ≤ i < last.
Proof. unfold RangePolicy. rewrite elem_of_seqZ. lia. Qed.

(** An invariant of the items of a loop is an invariant of the loop. *)
Lemma for_each_invariant {S : Type} (body : Z → S → res S) (I : S → Prop)
  (items : list Z) (s : S) :
  (∀ i s, i ∈ items → I s → ∃ s', body i s = Ok s' ∧ I s') →
  I s → ∃ s', for_each body items s = Ok s' ∧ I s'.
Proof.
  revert s. induction items as [|i items IH]; intros s Hbody Hs; simpl.
  - by exists s.
  - destruct (Hbody i s) as (s1 & -> & Hs1); [by left|done|]. simpl.
    apply IH; [|done]. intros j s2 Hj. apply Hbody. by right.
Qed.

(** The same with a property that each item establishes for itself and that
    later items keep. *)
Lemma for_each_establishes {S : Type} (body : Z → S → res S)
  (I : S → Prop) (Q : Z → S → Prop) (items : list Z) (s : S) :
  (∀ i s, i ∈ items → I s →
     ∃ s', body i s = Ok s' ∧ I s' ∧ Q i s' ∧ ∀ j, Q j s → Q j s') →
  I s →
  ∃ s', for_each body items s = Ok s' ∧ I s'
        ∧ (∀ i, i ∈ items → Q i s') ∧ ∀ j, Q j s → Q j s'.
Proof.
  revert s. induction items as [|i items IH]; intros s Hbody Hs; simpl.
  - exists s. split; [done|]. split; [done|]. split; [|done].
    intros i Hi. by apply elem_of_nil in Hi.
  - destruct (Hbody i s) as (s1 & -> & Hs1 & Hq & Hkeep); [by left|done|].
    simpl.
    destruct (IH s1) as (s2 & Hrun & Hs2 & Hall & Hkeep2); [|done|].
    { intros j s3 Hj. apply Hbody. by right. }
    exists s2. split; [done|]. split; [done|]. split.
    + intros j [->|Hj]%elem_of_cons; [by apply Hkeep2|by apply Hall].
    + intros j Hj. by apply Hkeep2, Hkeep.
Qed.

(** ** Min/max reductions *)

Section Reductions.
Context {V : Type}.
Variable lt : V → V → bool.
Hypothesis lt_order : strict_total_order lt.

Let le (x y : V) : Prop := lt y x = false.
Let min_body (val update : V) : V := if lt val update then val else update.
Let max_body (val update : V) : V := if lt update val then val else update.

Lemma le_refl x : le x x.
Proof. destruct lt_order as (Hirr & _). apply Hirr. Qed.

Lemma lt_le x y : lt x y = true → le x y.
Proof.
destruct lt_order as (Hirr & Htrans & _). intros H. unfold le.
destruct (lt y x) eqn:H'; [|done].
by rewrite <- (Hirr x), (Htrans x y x).
Qed.

Lemma le_trans x y z : le x y → le y z → le x z.
Proof.
destruct lt_order as (Hirr & Htrans & Htot). unfold le. intros Hxy Hyz.
destruct (lt z x) eqn:Hzx; [|done].
destruct (Htot y x) as [H|[->|H]].
- congruence.
- congruence.
- by rewrite (Htrans z x y) in Hyz.
Qed.

Lemma le_antisym x y : le x y → le y x → x = y.
Proof.
destruct lt_order as (_ & _ & Htot). unfold le. intros Hxy Hyx.
destruct (Htot x y) as [H|[->|H]]; congruence.
Qed.

Lemma reduce_min_spec (v : list V) (acc : V) :
let r := parallel_reduce v min_body acc in
(r = acc ∨ r ∈ v) ∧ le r acc ∧ ∀ x, x ∈ v → le r x.
Proof.
unfold parallel_reduce. revert acc.
induction v as [|a v IH]; intros acc; simpl.
- split; [by left|]. split; [apply le_refl|].
  intros x Hx. by apply elem_of_nil in Hx.
- destruct (IH (min_body a acc)) as (Hm & Hle & Hall).
  assert (le (min_body a acc) acc ∧ le (min_body a acc) a
          ∧ (min_body a acc = acc ∨ min_body a acc = a)) as (? & ? & Hc).
  { unfold min_body. destruct (lt a acc) eqn:H.
    - split; [by apply lt_le|]. split; [apply le_refl|by right].
    - split; [apply le_refl|]. split; [done|by left]. }
  split; [|split; [by eapply le_trans|]].
  + destruct Hm as [-> | Hm]; [|right; by apply elem_of_cons; right].
    destruct Hc as [-> | ->]; [by left|right; apply elem_of_cons; by left].
  + intros x [-> | Hx]%elem_of_cons; [by eapply le_trans|by apply Hall].
Qed.

Lemma reduce_max_spec (v : list V) (acc : V) :
let r := parallel_reduce v max_body acc in
(r = acc ∨ r ∈ v) ∧ le acc r ∧ ∀ x, x ∈ v → le x r.
Proof.
unfold parallel_reduce. revert acc.
induction v as [|a v IH]; intros acc; simpl.
- split; [by left|]. split; [apply le_refl|].
  intros x Hx. by apply elem_of_nil in Hx.
- destruct (IH (max_body a acc)) as (Hm & Hle & Hall).
  assert (le acc (max_body a acc) ∧ le a (max_body a acc)
          ∧ (max_body a acc = acc ∨ max_body a acc = a)) as (? & ? & Hc).
  { unfold max_body. destruct (lt acc a) eqn:H.
    - split; [by apply lt_le|]. split; [apply le_refl|by right].
    - split; [apply le_refl|]. split; [done|by left]. }
  split; [|split; [by eapply le_trans|]].
  + destruct Hm as [-> | Hm]; [|right; by apply elem_of_cons; right].
    destruct Hc as [-> | ->]; [by left|right; apply elem_of_cons; by left].
  + intros x [-> | Hx]%elem_of_cons; [by eapply le_trans|by apply Hall].
Qed.

(** The two running values of [minmax_reduce] are those of [min_reduce]
  and [max_reduce]. *)
Lemma reduce_minmax_split (v : list V) (lo hi : V) :
parallel_reduce v
  (fun val '(local_min, local_max) =>
     (if lt val local_min then val else local_min,
      if lt local_max val then val else local_max)) (lo, hi)
= (parallel_reduce v min_body lo, parallel_reduce v max_body hi).
Proof.
unfold parallel_reduce. revert lo hi.
induction v as [|a v IH]; intros lo hi; simpl; [done|].
by rewrite IH.
Qed.

Lemma min_in_view (v : list V) (id_min : V) :
v ≠ [] → (∀ x, x ∈ v → le x id_min) →
parallel_reduce v min_body id_min ∈ v.
Proof.
intros Hne Hid.
destruct (reduce_min_spec v id_min) as ([Heq|Hin] & _ & Hall); [|done].
destruct v as [|a v]; [done|].
assert (a = id_min) as ->.
{ apply le_antisym; [apply Hid; by left|].
  rewrite <- Heq. apply Hall. by left. }
rewrite Heq. by left.
Qed.

Lemma max_in_view (v : list V) (id_max : V) :
v ≠ [] → (∀ x, x ∈ v → le id_max x) →
parallel_reduce v max_body id_max ∈ v.
Proof.
intros Hne Hid.
destruct (reduce_max_spec v id_max) as ([Heq|Hin] & _ & Hall); [|done].
destruct v as [|a v]; [done|].
assert (a = id_max) as ->.
{ apply le_antisym; [|apply Hid; by left].
  rewrite <- Heq. apply Hall. by left. }
rewrite Heq. by left.
Qed.

Lemma reduce_assert_nonempty (v : list V) :
v ≠ [] → ARBORX_ASSERT (extent v >? 0) = Ok tt.
Proof. destruct v; [done|]. intros _. unfold extent. simpl. done. Qed.
End Reductions.


(** The order of [int]. *)
Lemma Z_ltb_strict_total_order : strict_total_order Z.ltb.
Proof.
  split; [intros x; apply Z.ltb_irrefl|]. split.
  - intros x y z. rewrite !Z.ltb_lt. lia.
  - intros x y. rewrite !Z.ltb_lt. lia.
Qed.

(** Every [int] lies between the identities. *)
Lemma int_within_identities (v : list Z) :
  Forall is_int v →
  ∀ x, x ∈ v → (INT_MAX <? x) = false ∧ (x <? INT_MIN) = false.
Proof.
  intros Hint x Hx. rewrite Forall_forall in Hint.
  destruct (Hint x Hx). rewrite !Z.ltb_ge. lia.
Qed.


(** ** DBSCAN: the flattening pass *)

Lemma representative_functional stat v r1 r2 :
  representative stat v r1 → representative stat v r2 → r1 = r2.
Proof.
  intros H1. revert r2.
  induction H1 as [r Hr|v p r Hv Hlt _ IH]; intros r2 H2.
  - destruct H2 as [|v p r2 Hv Hlt _]; [done|]. rewrite Hr in Hv.
    injection Hv as ->. lia.
  - destruct H2 as [r2 Hr|v p' r2 Hv' Hlt' H2].
    + rewrite Hr in Hv. injection Hv as ->. lia.
    + rewrite Hv in Hv'. injection Hv' as <-. by apply IH.
Qed.

Lemma representative_le stat v r : representative stat v r → r ≤ v.
Proof. induction 1; lia. Qed.

Lemma representative_is_root stat v r :
  representative stat v r → get stat r = Ok r.
Proof. by induction 1. Qed.

(** The loop of the kernel ends at the representative. *)
Lemma flatten_stat_chase_representative n stat fuel v :
  parents_below n stat → 0 ≤ v < n → (Z.to_nat v < fuel)%nat →
  ∃ r, flatten_stat_chase fuel stat v = Ok r ∧ representative stat v r
       ∧ 0 ≤ r.
Proof.
  intros [Hlen Hpar]. revert v.
  induction fuel as [|fuel IH]; intros v Hv Hfuel; [lia|]. simpl.
  destruct (Hpar v Hv) as (p & Hp & Hp0 & Hple). rewrite Hp. simpl.
  destruct (Z.gtb_spec v p) as [Hgt|Hle].
  - destruct (IH p) as (r & Hr & Hrep & ?); [lia|lia|].
    exists r. split; [done|]. split; [|done].
    by apply representative_step with p.
  - assert (p = v) as -> by lia. exists v. split; [done|].
    split; [by apply representative_root|lia].
Qed.

(** What one item of the kernel does. *)
Lemma flatten_stat_op_spec n stat fuel i :
  parents_below n stat → 0 ≤ i < n → (Z.to_nat n ≤ fuel)%nat →
  ∃ stat' r,
    flatten_stat_op fuel i stat = Ok stat' ∧ parents_below n stat'
    ∧ get stat' i = Ok r ∧ get stat' r = Ok r
    ∧ (∀ v r', representative stat v r' → representative stat' v r')
    ∧ (∀ j rj, get stat j = Ok rj → get stat rj = Ok rj →
               get stat' j = Ok rj ∧ get stat' rj = Ok rj).
Proof.
  intros Hpb Hi Hfuel. pose proof Hpb as [Hlen Hpar].
  destruct (Hpar i Hi) as (p & Hp & Hp0 & Hple).
  destruct (flatten_stat_chase_representative n stat fuel p Hpb)
    as (r & Hr & Hrep & Hr0); [lia|lia|].
  pose proof (representative_le _ _ _ Hrep) as Hrp.
  pose proof (representative_is_root _ _ _ Hrep) as Hroot.
  unfold flatten_stat_op. rewrite Hp. simpl. rewrite Hr. simpl.
  destruct (Z.eqb_spec r p) as [->|Hne]; simpl.
  - exists stat, p. split; [done|]. split; [done|]. split; [done|].
    split; [done|]. split; done.
  - rewrite set_is_Ok by lia.
    assert (r < i) as Hri by lia.
    assert (∀ j, j ≠ i → get (<[Z.to_nat i := r]> stat) j = get stat j)
      as Hother.
    { intros j Hj. apply get_insert_ne; lia. }
    assert (get (<[Z.to_nat i := r]> stat) i = Ok r) as Hself.
    { apply get_insert_eq. lia. }
    exists (<[Z.to_nat i := r]> stat), r. split; [done|]. split.
    { split; [by rewrite extent_insert|]. intros v Hv.
      destruct (decide (v = i)) as [->|Hvi].
      - exists r. split; [done|lia].
      - rewrite Hother by done. by apply Hpar. }
    assert (∀ r', get stat r' = Ok r' → r' ≠ i) as Hnotroot.
    { intros r' Hr' ->. rewrite Hp in Hr'. injection Hr' as ->. apply Hne.
      apply (representative_functional stat i); [done|].
      apply representative_root. by rewrite Hp. }
    split; [done|]. split; [rewrite Hother by lia; done|]. split; last first.
    { intros j rj Hj Hrj.
      assert (j ≠ i) as Hji.
      { intros ->. rewrite Hp in Hj. injection Hj as ->. apply Hne.
        apply (representative_functional stat rj); [done|].
        by apply representative_root. }
      rewrite !Hother; [done|by apply Hnotroot|done]. }
    intros v r' Hv.
    induction Hv as [r' Hr'|v q r' Hv Hlt Hq IH].
    + apply representative_root. rewrite Hother; [done|by apply Hnotroot].
    + destruct (decide (v = i)) as [->|Hvi].
      * rewrite Hp in Hv. injection Hv as <-.
        rewrite (representative_functional _ _ _ _ Hq Hrep).
        apply representative_step with r; [done|lia|].
        apply representative_root. rewrite Hother by lia. done.
      * apply representative_step with q; [|done|done].
        by rewrite Hother.
Qed.

(** C7. When every parent index lies in the array and is no larger than its
    node, the flattening pass returns, and afterwards every entry is a fixed
    point of the array, [stat(stat(i)) == stat(i)]; the entry of [i] is the
    representative that [i] had before the pass. *)
Theorem flatten_stat_points_to_representative
  (fuel : nat) (n : Z) (stat : list Z) :
  parents_below n stat → (Z.to_nat n ≤ fuel)%nat →
  ∃ stat',
    flatten_stat fuel n stat = Ok stat' ∧ extent stat' = n
    ∧ ∀ i, 0 ≤ i < n →
        ∃ r, get stat' i = Ok r ∧ get stat' r = Ok r
             ∧ representative stat i r.
Proof.
  intros Hpb Hfuel. unfold flatten_stat, parallel_for.
  destruct (for_each_establishes (flatten_stat_op fuel)
              (fun s => parents_below n s
                        ∧ ∀ v r, representative stat v r → representative s v r)
              (fun i s => ∃ r, get s i = Ok r ∧ get s r = Ok r)
              (RangePolicy 0 n) stat)
    as (stat' & Hrun & [Hpb' Hrep'] & Hall & _).
  - intros i s Hi%RangePolicy_elem [Hs Hreps].
    destruct (flatten_stat_op_spec n s fuel i Hs Hi Hfuel)
      as (s' & r & Hop & Hs' & Hgi & Hgr & Hkeep & Hflat).
    exists s'. split; [done|]. split; [split; [done|]|].
    { intros v r' Hv. by apply Hkeep, Hreps. }
    split; [by exists r|].
    intros j (rj & Hj & Hrj). exists rj. by apply Hflat.
  - by split.
  - exists stat'. split; [done|]. split; [by destruct Hpb'|].
    intros i Hi. destruct (Hall i) as (r & Hgi & Hgr).
    { by apply RangePolicy_elem. }
    exists r. split; [done|]. split; [done|].
    destruct (flatten_stat_chase_representative n stat (S (Z.to_nat i)) i)
      as (r0 & _ & Hr0 & _); [done|done|lia|].
    assert (representative stat' i r) as Hr.
    { destruct (decide (r = i)) as [->|Hne]; [by apply representative_root|].
      destruct Hpb' as [_ Hpar'].
      destruct (Hpar' i Hi) as (p & Hp & _ & ?).
      rewrite Hgi in Hp. injection Hp as <-.
      apply representative_step with r; [done|lia|].
      by apply representative_root. }
    by rewrite (representative_functional _ _ _ _ Hr (Hrep' _ _ Hr0)).
Qed.

Lemma flatten_stat_points_to_representative_witness :
  flatten_stat 4 4 [0; 0; 1; 2] = Ok [0; 0; 0; 0].
Proof.
  assert (parents_below 4 [0; 0; 1; 2]) as Hpb.
  { split; [reflexivity|]. intros v Hv.
    assert (v = 0 ∨ v = 1 ∨ v = 2 ∨ v = 3) as [-> | [-> | [-> | ->]]] by lia;
      eexists; (split; [reflexivity|lia]). }
  destruct (flatten_stat_points_to_representative 4 4 [0; 0; 1; 2] Hpb)
    as (stat' & Hrun & _); [simpl; lia|].
  rewrite Hrun. vm_compute in Hrun. by injection Hrun as <-.
Defined.

(** ** The walk to the final component *)

Lemma iterate_S_r {A : Type} (f : A → res A) (k : nat) (x : A) :
  iterate f (S k) x = let* y := iterate f k x in f y.
Proof.
  revert x. induction k as [|k IH]; intros x.
  - simpl. destruct (f x); reflexivity.
  - change (iterate f (S (S k)) x)
      with (let* y := f x in iterate f (S k) y).
    change (iterate f (S k) x) with (let* z := f x in iterate f k z).
    destruct (f x) as [y|e]; simpl; [apply IH|reflexivity].
Qed.

Lemma computeNextComponent_rule out_edges labels c :
  computeNextComponent out_edges labels c
  = (let* a := out_label out_edges labels c in
     let* b := out_label out_edges labels a in
     Ok (if negb (b =? c) then a else Z.min c a)).
Proof.
  unfold computeNextComponent, out_label.
  destruct (get out_edges _) as [e|]; [|done]. simpl.
  destruct (get labels (target e)) as [a|]; [|done]. simpl.
  destruct (get out_edges _) as [e'|]; [|done]. simpl.
  destruct (get labels (target e')) as [b|]; [|done]. simpl.
  by destruct (negb (b =? c)).
Qed.

(** The loop returns [f] exactly when [f] is the first fixed point on the
    chain of next components. *)
Lemma computeFinalComponent_Ok out_edges labels fuel c f :
  computeFinalComponent out_edges fuel labels c = Ok f ↔
  ∃ k, (k < fuel)%nat
       ∧ iterate (computeNextComponent out_edges labels) k c = Ok f
       ∧ computeNextComponent out_edges labels f = Ok f
       ∧ ∀ j x, (j < k)%nat →
                iterate (computeNextComponent out_edges labels) j c = Ok x →
                computeNextComponent out_edges labels x ≠ Ok x.
Proof.
  revert c. induction fuel as [|fuel IH]; intros c.
  { split; [done|]. intros (k & ? & _). lia. }
  simpl. split.
  - intros (c' & Hc' & H)%bind_Ok.
    destruct (Z.eqb_spec c' c) as [->|Hne]; simpl in H.
    + injection H as <-. exists 0%nat. split; [lia|]. split; [done|].
      split; [done|]. intros j x Hj. lia.
    + apply IH in H as (k & Hk & Hit & Hfix & Hfirst).
      exists (S k). split; [lia|]. split; [simpl; by rewrite Hc'|].
      split; [done|]. intros [|j] x Hj; simpl.
      * intros [= <-]. rewrite Hc'. by intros [= ?].
      * rewrite Hc'. simpl. apply Hfirst. lia.
  - intros (k & Hk & Hit & Hfix & Hfirst). destruct k as [|k]; simpl in Hit.
    + injection Hit as ->. rewrite Hfix. simpl. by rewrite Z.eqb_refl.
    + apply bind_Ok in Hit as (c' & Hc' & Hit). rewrite Hc'. simpl.
      destruct (Z.eqb_spec c' c) as [->|Hne]; simpl.
      * exfalso. by apply (Hfirst 0%nat c); [lia|done|].
      * apply IH. exists k. split; [lia|]. split; [done|]. split; [done|].
        intros j x Hj Hx. apply (Hfirst (S j)); [lia|].
        simpl. by rewrite Hc'.
Qed.

(** C3. [computeNextComponent] computes [next(c) =
    label(target(component_out_edges[c]))], follows it when
    [next(next(c)) != c], and returns [min(c, next(c))] otherwise;
    [computeFinalComponent] returns [f] exactly when iterating this rule
    from [c] reaches [f] and [f] is the first fixed point on the way. *)
Theorem computeFinalComponent_iterates_next
  (out_edges : list WeightedEdge) (labels : list Z) (c : Z) :
  computeNextComponent out_edges labels c
  = (let* a := out_label out_edges labels c in
     let* b := out_label out_edges labels a in
     Ok (if negb (b =? c) then a else Z.min c a))
  ∧ ∀ fuel f,
      computeFinalComponent out_edges fuel labels c = Ok f ↔
      ∃ k, (k < fuel)%nat
           ∧ iterate (computeNextComponent out_edges labels) k c = Ok f
           ∧ computeNextComponent out_edges labels f = Ok f
           ∧ ∀ j x, (j < k)%nat →
                iterate (computeNextComponent out_edges labels) j c = Ok x →
                computeNextComponent out_edges labels x ≠ Ok x.
Proof.
  split; [apply computeNextComponent_rule|].
  intros fuel f. apply computeFinalComponent_Ok.
Qed.

(** ** Termination of the walk

    The component graph in the abstract: a successor function [g] on a
    finite set [D] of components that is closed under [g]. *)

Section Walk.
Variable g : Z → Z.
Variable D : list Z.
Hypothesis g_closed : ∀ x, x ∈ D → g x ∈ D.
(** Every cycle of [g] has length one or two. *)
Hypothesis g_cycles : ∀ x k, x ∈ D → (0 < k)%nat → Nat.iter k g x = x →
                             g (g x) = x.

Let next := next_component_rule g.

Lemma next_cases x : next x = x ∨ next x = g x.
Proof.
  unfold next, next_component_rule.
  destruct (negb (g (g x) =? x)); [by right|].
  destruct (Z.min_spec x (g x)) as [[_ ->]|[_ ->]]; auto.
Qed.

Lemma next_closed x : x ∈ D → next x ∈ D.
Proof. intros Hx. destruct (next_cases x) as [-> | ->]; auto. Qed.

Lemma walk_closed k x : x ∈ D → Nat.iter k next x ∈ D.
Proof. intros Hx. induction k as [|k IH]; simpl; auto using next_closed. Qed.

Lemma next_of_2cycle x :
  g (g x) = x → next x = Z.min x (g x).
Proof.
  intros H. unfold next, next_component_rule.
  by rewrite H, Z.eqb_refl.
Qed.

(** While the walk meets no fixed point it follows [g]. *)
Lemma walk_follows_g c a d :
  (∀ j, (a ≤ j < a + d)%nat →
        next (Nat.iter j next c) ≠ Nat.iter j next c) →
  Nat.iter (a + d) next c = Nat.iter d g (Nat.iter a next c).
Proof.
  induction d as [|d IH]; intros Hnf.
  - by rewrite Nat.add_0_r.
  - rewrite Nat.add_succ_r. simpl. rewrite <- IH by (intros; apply Hnf; lia).
    destruct (next_cases (Nat.iter (a + d) next c)) as [Heq|Heq]; [|done].
    exfalso. apply (Hnf (a + d)%nat); [lia|done].
Qed.

(** The walk does not come back to a component before it has met a fixed
    point. *)
Lemma walk_no_repeat c k a b :
  c ∈ D →
  (∀ j, (j < k)%nat → next (Nat.iter j next c) ≠ Nat.iter j next c) →
  (a < b ≤ k)%nat → Nat.iter a next c ≠ Nat.iter b next c.
Proof.
  intros Hc Hnf Hab Heq.
  set (x := Nat.iter a next c) in *.
  assert (x ∈ D) as Hx by (by apply walk_closed).
  assert (Nat.iter (b - a) g x = x) as Hcyc.
  { unfold x. rewrite <- walk_follows_g by (intros; apply Hnf; lia).
    replace (a + (b - a))%nat with b by lia. done. }
  apply g_cycles in Hcyc; [|done|lia].
  assert (next x ≠ x) as Hx1 by (apply Hnf; lia).
  pose proof (next_of_2cycle x Hcyc) as Hnx.
  assert (g x < x) as Hlt by lia.
  assert (next x = g x) as Hngx by lia.
  assert (Nat.iter (S a) next c = g x) as Ha1 by (simpl; done).
  assert (S a ≠ b) as Hb.
  { intros <-. rewrite Ha1 in Heq. lia. }
  apply (Hnf (S a)); [lia|]. rewrite Ha1.
  rewrite next_of_2cycle by (by rewrite Hcyc). rewrite Hcyc. lia.
Qed.

Lemma first_fixed_point_or_none (P : nat → Prop) (m : nat) :
  (∀ j, Decision (P j)) →
  (∃ k, (k < m)%nat ∧ P k ∧ ∀ j, (j < k)%nat → ¬ P j)
  ∨ (∀ j, (j < m)%nat → ¬ P j).
Proof.
  intros Hdec. induction m as [|m [IH|IH]].
  - right. intros j ?. lia.
  - left. destruct IH as (k & ? & ? & ?). exists k. split; [lia|done].
  - destruct (decide (P m)) as [Hm|Hm].
    + left. exists m. split; [lia|]. split; [done|]. done.
    + right. intros j Hj. destruct (decide (j = m)) as [->|]; [done|].
      apply IH. lia.
Qed.

(** The walk reaches a fixed point after fewer steps than there are
    components. *)
Lemma walk_reaches_fixed_point c :
  c ∈ D →
  ∃ k, (k < length D)%nat
       ∧ next (Nat.iter k next c) = Nat.iter k next c
       ∧ ∀ j, (j < k)%nat → next (Nat.iter j next c) ≠ Nat.iter j next c.
Proof.
  intros Hc.
  destruct (first_fixed_point_or_none
              (fun j => next (Nat.iter j next c) = Nat.iter j next c)
              (length D)) as [H|Hnone]; [solve_decision|done|].
  exfalso.
  set (visited := (fun j => Nat.iter j next c) <$> seq 0 (S (length D))).
  assert (NoDup visited) as Hnd.
  { apply NoDup_fmap_2_strong; [|apply NoDup_seq].
    intros a b Ha%elem_of_seq Hb%elem_of_seq Heq.
    destruct (Nat.lt_trichotomy a b) as [Hlt|[->|Hlt]]; [|done|].
    - exfalso. by apply (walk_no_repeat c (length D) a b); [| |lia|].
    - exfalso. by apply (walk_no_repeat c (length D) b a); [| |lia|]. }
  assert (visited ⊆+ D) as Hsub.
  { apply NoDup_submseteq; [done|].
    intros x (j & -> & _)%list_elem_of_fmap. by apply walk_closed. }
  apply submseteq_length in Hsub. unfold visited in Hsub.
  rewrite length_fmap, length_seq in Hsub. lia.
Qed.
End Walk.

Lemma iterate_total {A : Type} (F : A → res A) (f : A → A) (D : A → Prop)
  (k : nat) (x : A) :
  (∀ x, D x → F x = Ok (f x) ∧ D (f x)) → D x →
  iterate F k x = Ok (Nat.iter k f x) ∧ D (Nat.iter k f x).
Proof.
  intros HF Hx. induction k as [|k [IH1 IH2]]; [done|].
  rewrite iterate_S_r, IH1. simpl. by apply HF.
Qed.

Section ComponentGraph.
Variable out_edges : list WeightedEdge.
Variable labels : list Z.
Variable components : list Z.
Hypothesis out_label_closed :
  ∀ x, x ∈ components →
       ∃ y, out_label out_edges labels x = Ok y ∧ y ∈ components.

Let g := successor out_edges labels.

Lemma out_label_successor x :
  x ∈ components →
  out_label out_edges labels x = Ok (g x) ∧ g x ∈ components.
Proof.
  intros Hx. destruct (out_label_closed x Hx) as (y & Hy & Hin).
  unfold g, successor. by rewrite Hy.
Qed.

Lemma computeNextComponent_successor x :
  x ∈ components →
  computeNextComponent out_edges labels x = Ok (next_component_rule g x)
  ∧ next_component_rule g x ∈ components.
Proof.
  intros Hx. rewrite computeNextComponent_rule.
  destruct (out_label_successor x Hx) as [-> Hgx]. simpl.
  destruct (out_label_successor (g x) Hgx) as [-> Hggx]. simpl.
  split; [done|]. unfold next_component_rule.
  destruct (negb (g (g x) =? x)); [done|].
  destruct (Z.min_spec x (g x)) as [[_ ->]|[_ ->]]; done.
Qed.

Lemma iterate_out_label k x :
  x ∈ components →
  iterate (out_label out_edges labels) k x = Ok (Nat.iter k g x).
Proof.
  intros Hx.
  by apply (iterate_total _ g (fun x => x ∈ components) k x
              out_label_successor).
Qed.

Lemma iterate_computeNextComponent k x :
  x ∈ components →
  iterate (computeNextComponent out_edges labels) k x
  = Ok (Nat.iter k (next_component_rule g) x).
Proof.
  intros Hx.
  by apply (iterate_total _ (next_component_rule g)
              (fun x => x ∈ components) k x computeNextComponent_successor).
Qed.
End ComponentGraph.

Lemma example_cycle k :
  (iterate (out_label example_out_edges example_labels) k 2 = Ok 2
   ∨ iterate (out_label example_out_edges example_labels) k 2 = Ok 3)
  ∧ (iterate (out_label example_out_edges example_labels) k 3 = Ok 2
     ∨ iterate (out_label example_out_edges example_labels) k 3 = Ok 3).
Proof.
  induction k as [|k [IH2 IH3]]; [by split; [left|right]|].
  split.
  - change (iterate (out_label example_out_edges example_labels) (S k) 2)
      with (iterate (out_label example_out_edges example_labels) k 3).
    done.
  - change (iterate (out_label example_out_edges example_labels) (S k) 3)
      with (iterate (out_label example_out_edges example_labels) k 2).
    done.
Defined.


(** Let the components be closed under the successor
    [c -> label(target(component_out_edges[c]))] and let every cycle of this
    successor have length at most two. Then the chain of next components
    from [c] reaches a fixed point of [computeNextComponent] after [k] steps
    with [k] less than the number of components, and
    [computeFinalComponent] returns it. *)
Lemma final_component_walk
  (out_edges : list WeightedEdge) (labels : list Z) (components : list Z)
  (c : Z) :
  NoDup components → c ∈ components →
  (∀ x, x ∈ components →
        ∃ y, out_label out_edges labels x = Ok y ∧ y ∈ components) →
  (∀ x k, x ∈ components → (0 < k)%nat →
          iterate (out_label out_edges labels) k x = Ok x →
          iterate (out_label out_edges labels) 2 x = Ok x) →
  ∃ k f,
    (k < length components)%nat
    ∧ iterate (computeNextComponent out_edges labels) k c = Ok f
    ∧ computeNextComponent out_edges labels f = Ok f
    ∧ (∀ j x, (j < k)%nat →
              iterate (computeNextComponent out_edges labels) j c = Ok x →
              computeNextComponent out_edges labels x ≠ Ok x)
    ∧ ∀ fuel, (length components ≤ fuel)%nat →
              computeFinalComponent out_edges fuel labels c = Ok f.
Proof.
  intros Hnd Hc Hclosed Hcyc.
  set (g := successor out_edges labels).
  assert (∀ x, x ∈ components → g x ∈ components) as Hg.
  { intros x Hx. by apply (out_label_successor out_edges labels components). }
  assert (∀ x k, x ∈ components → (0 < k)%nat → Nat.iter k g x = x →
                 g (g x) = x) as Hgc.
  { intros x k Hx Hk Hit.
    pose proof (Hcyc x k Hx Hk) as H2.
    rewrite !(iterate_out_label _ _ components) in H2 by done.
    fold g in H2. rewrite Hit in H2. by injection (H2 eq_refl). }
  destruct (walk_reaches_fixed_point g components Hg Hgc c Hc)
    as (k & Hk & Hfix & Hfirst).
  subst g.
  set (f := Nat.iter k (next_component_rule (successor out_edges labels)) c)
    in *.
  assert (f ∈ components) as Hf by (by apply walk_closed).
  assert (iterate (computeNextComponent out_edges labels) k c = Ok f) as Hit.
  { by apply (iterate_computeNextComponent _ _ components). }
  assert (computeNextComponent out_edges labels f = Ok f) as Hff.
  { destruct (computeNextComponent_successor _ _ components Hclosed f Hf)
      as [-> _]. by rewrite Hfix. }
  assert (∀ j x, (j < k)%nat →
            iterate (computeNextComponent out_edges labels) j c = Ok x →
            computeNextComponent out_edges labels x ≠ Ok x) as Hno.
  { intros j x Hj Hx.
    rewrite (iterate_computeNextComponent _ _ components) in Hx by done.
    injection Hx as <-.
    destruct (computeNextComponent_successor _ _ components Hclosed
                (Nat.iter j (next_component_rule
                               (successor out_edges labels)) c)) as [-> _].
    { by apply walk_closed. }
    intros [= Heq]. by apply (Hfirst j). }
  exists k, f. split; [done|]. split; [done|]. split; [done|].
  split; [done|]. intros fuel Hfuel.
  apply computeFinalComponent_Ok. exists k. split; [lia|]. done.
Qed.


(** ** The traversal stack *)

Section TraversalStack.
Variable device : bool.
Variable bvh : BVH.
Variable labels : list Z.
Variable metric : Metric.
Variable i component : Z.
Variable D : nat.
Hypothesis D_capacity : (D < stack_capacity)%nat.

Let body := traversal_body device bvh labels metric i component.

Lemma stack_inv_length lo s :
  stack_inv bvh D lo s → (lo ≤ D)%nat → (length s + lo ≤ D + 1)%nat.
Proof.
  induction 1 as [lo|lo b s rest Hb Hleaf Hdepth Hrest IH]; intros Hlo;
    simpl; [lia|].
  specialize (IH ltac:(lia)). lia.
Qed.

Lemma stack_inv_weaken lo lo' s :
  stack_inv bvh D lo s → (lo' ≤ lo)%nat → stack_inv bvh D lo' s.
Proof.
  destruct 1 as [lo|lo b s rest Hb Hleaf Hdepth Hrest]; intros Hlo.
  - constructor.
  - apply stack_inv_push with b; [lia|done..].
Qed.

Lemma depth_at_most_inner bn x :
  isLeaf bvh x = false → depth_at_most bvh bn x = true →
  ∃ b, bn = S b ∧ depth_at_most bvh b (getLeftChild bvh x) = true
       ∧ depth_at_most bvh b (getRightChild bvh x) = true.
Proof.
  intros Hleaf Hd. destruct bn as [|b]; simpl in Hd; rewrite Hleaf in Hd;
    [done|].
  apply andb_true_iff in Hd as [? ?]. by exists b.
Qed.

Lemma visit_child_scheduled child d best r best' r' :
  visit_child bvh labels metric i component child d best r
  = Ok (true, best', r') →
  isLeaf bvh child = false.
Proof.
  unfold visit_child, consider_child.
  intros (p & _ & H)%bind_Ok.
  destruct (p && SFleb d r); [|by injection H].
  destruct (isLeaf bvh child); [|done].
  by destruct (WeightedEdge_lt _ _); injection H.
Qed.

Lemma visit_child_Err child d best r f :
  visit_child bvh labels metric i component child d best r = Err f →
  f = OutOfBounds.
Proof.
  unfold visit_child, predicate. intros H.
  destruct (get labels child) eqn:Hg; simpl in H.
  - by destruct (_ && _).
  - apply get_Err in Hg as [-> _]. by injection H as <-.
Qed.

Lemma traversal_inv_with_best st best r :
  traversal_inv device bvh D st → traversal_inv device bvh D (with_best st best r).
Proof. done. Qed.

Lemma pop_node_inv st :
  traversal_inv device bvh D st →
  ∃ st', pop_node device bvh i st = Ok st'
         ∧ (traversal_inv device bvh D st' ∨ traversal_done st')
         ∧ (length (stack st') < length (stack st))%nat.
Proof.
  intros [(bn & Hbn & Hleaf & Hdepth & Hstack) Hsd]. unfold pop_node.
  inversion Hstack
    as [lo Hlo Heq|lo b s rest Hb Hsleaf Hsdepth Hrest Hlo Heq];
    subst lo; rewrite <- Heq in *; simpl.
  - destruct Hsd as [[Hdev Hsd]|[Hdev Hsd]]; rewrite Hdev.
    + eexists. split; [reflexivity|]. split; [right|simpl; lia].
      by repeat split.
    + destruct (stack_distance st) as [|d [|? ?]]; try done. simpl.
      eexists. split; [reflexivity|]. split; [right|simpl; lia].
      by repeat split.
  - assert (stack_inv bvh D b rest) as Hrest'.
    { apply stack_inv_weaken with (S b); [done|lia]. }
    destruct Hsd as [[Hdev Hsd]|[Hdev Hsd]]; rewrite Hdev.
    + eexists. split; [reflexivity|]. split; [left|simpl; lia].
      split; [|by left]. exists b. simpl. repeat split; (done || lia).
    + destruct (stack_distance st) as [|d sd]; [done|]. simpl.
      eexists. split; [reflexivity|]. split; [left|simpl; lia].
      split; [|right; simpl in *; split; [done|lia]]. exists b. simpl.
      repeat split; (done || lia).
Qed.

Lemma descend_inv tl tr dl dr st :
  traversal_inv device bvh D st →
  tl || tr = true →
  (tl = true → isLeaf bvh (getLeftChild bvh (node st)) = false) →
  (tr = true → isLeaf bvh (getRightChild bvh (node st)) = false) →
  ∃ st', descend device tl tr (getLeftChild bvh (node st))
                 (getRightChild bvh (node st)) dl dr st = Ok st'
         ∧ traversal_inv device bvh D st'
         ∧ (length (stack st') ≤ S (length (stack st)))%nat.
Proof.
  intros [(bn & Hbn & Hleaf & Hdepth & Hstack) Hsd] Hflags Hl Hr.
  destruct (depth_at_most_inner bn (node st) Hleaf Hdepth)
    as (b & -> & Hdl & Hdr).
  pose proof (stack_inv_length _ _ Hstack Hbn) as Hlen.
  unfold descend.
  set (left_child := getLeftChild bvh (node st)) in *.
  set (right_child := getRightChild bvh (node st)) in *.
  set (node' := if tl && (SFleb dl dr || negb tr) then left_child
                else right_child).
  assert (isLeaf bvh node' = false ∧ depth_at_most bvh b node' = true)
    as [Hn'leaf Hn'depth].
  { unfold node'. destruct tl, tr; simpl in *; try done;
      destruct (SFleb dl dr); simpl; auto. }
  destruct (tl && tr) eqn:Hboth.
  - apply andb_true_iff in Hboth as [-> ->].
    set (other := if node' =? left_child then right_child else left_child).
    assert (isLeaf bvh other = false ∧ depth_at_most bvh b other = true)
      as [Holeaf Hodepth].
    { unfold other. destruct (node' =? left_child); auto. }
    unfold push. unfold stack_capacity in *.
    destruct (decide (length (stack st) < 64)%nat); [|lia]. simpl.
    assert (stack_inv bvh D b (other :: stack st)) as Hstack'.
    { apply stack_inv_push with b; [lia|done..]. }
    destruct Hsd as [[Hdev Hsd]|[Hdev Hsd]]; rewrite Hdev; simpl.
    + eexists. split; [reflexivity|]. split; [|simpl; lia].
      split; [|by left]. exists b. simpl. repeat split; (done || lia).
    + destruct (decide (length (stack_distance st) < 64)%nat); [|lia].
      simpl. eexists. split; [reflexivity|]. split; [|simpl; lia].
      split; [|right; simpl; split; [done|lia]]. exists b. simpl.
      repeat split; (done || lia).
  - eexists. split; [reflexivity|]. split; [|simpl; lia].
    split; [|done]. exists b. simpl. repeat split; try (done || lia).
    apply stack_inv_weaken with (S b); [done|lia].
Qed.

(** A turn of the loop keeps the invariant or ends the traversal; it can
    only fault on a label that cannot be read. *)
Lemma traversal_body_inv st :
  traversal_inv device bvh D st →
  (∃ st', body st = Ok st' ∧ (traversal_inv device bvh D st' ∨ traversal_done st')
          ∧ (length (stack st') ≤ S (length (stack st)))%nat)
  ∨ body st = Err OutOfBounds.
Proof.
  intros Hinv. unfold body, traversal_body.
  destruct (SFleb (distance_node st) (radius st)).
  - unfold expand_node.
    destruct (visit_child _ _ _ _ _ (getLeftChild _ _) _ _ _)
      as [[[tl best1] radius1]|f] eqn:Hvl; simpl; last first.
    { right. by apply visit_child_Err in Hvl as ->. }
    destruct (visit_child _ _ _ _ _ (getRightChild _ _) _ _ _)
      as [[[tr best2] radius2]|f] eqn:Hvr; simpl; last first.
    { right. by apply visit_child_Err in Hvr as ->. }
    left.
    destruct (negb tl && negb tr) eqn:Hflags.
    + destruct (pop_node_inv (with_best st best2 radius2))
        as (st' & Hpop & Hst' & Hlen); [done|].
      exists st'. split; [done|]. split; [done|]. simpl in Hlen. lia.
    + destruct (descend_inv tl tr
                  (distance bvh i (getLeftChild bvh (node st)))
                  (distance bvh i (getRightChild bvh (node st)))
                  (with_best st best2 radius2))
        as (st' & Hdesc & Hst' & Hlen); [done| | | |].
      * destruct tl, tr; done.
      * intros ->. by eapply visit_child_scheduled.
      * intros ->. by eapply visit_child_scheduled.
      * exists st'. split; [done|]. split; [by left|done].
  - left. destruct (pop_node_inv st) as (st' & Hpop & Hst' & Hlen); [done|].
    exists st'. split; [done|]. split; [done|]. lia.
Qed.

(** A turn that starts with room on both stacks does not overflow. *)
Lemma traversal_body_room st :
  (length (stack st) < stack_capacity)%nat →
  (length (stack_distance st) < stack_capacity)%nat →
  body st ≠ Err StackOverflow.
Proof.
  intros Hs Hsd. unfold body, traversal_body.
  assert (∀ st', stack st' = stack st →
                 pop_node device bvh i st' ≠ Err StackOverflow) as Hpop.
  { intros st' Heq. unfold pop_node. rewrite Heq.
    destruct (stack st) as [|x rest]; simpl; [by intros [=]|].
    destruct device; [by intros [=]|].
    destruct (stack_distance st') as [|y rest']; simpl; by intros [=]. }
  destruct (SFleb (distance_node st) (radius st)); [|by apply Hpop].
  unfold expand_node.
  destruct (visit_child _ _ _ _ _ (getLeftChild _ _) _ _ _)
    as [[[tl best1] radius1]|f] eqn:Hvl; simpl; last first.
  { by apply visit_child_Err in Hvl as ->. }
  destruct (visit_child _ _ _ _ _ (getRightChild _ _) _ _ _)
    as [[[tr best2] radius2]|f] eqn:Hvr; simpl; last first.
  { by apply visit_child_Err in Hvr as ->. }
  destruct (negb tl && negb tr); [by apply Hpop|].
  unfold descend. destruct (tl && tr); [|by intros [=]]. simpl.
  unfold push.
  destruct (decide (length (stack st) < stack_capacity)%nat); [|done].
  simpl. destruct device; simpl; [by intros [=]|].
  destruct (decide (length (stack_distance st) < stack_capacity)%nat);
    [|done].
  simpl. by intros [=].
Qed.

Lemma traversal_inv_bound st :
  traversal_inv device bvh D st ∨ traversal_done st →
  (length (stack st) ≤ D + 1)%nat
  ∧ (length (stack_distance st) ≤ D + 1)%nat.
Proof.
  intros [[(bn & Hbn & _ & _ & Hstack) Hsd]|(_ & -> & ->)];
    [|simpl; lia].
  pose proof (stack_inv_length _ _ Hstack Hbn).
  destruct Hsd as [[_ ->]|[_ ->]]; simpl; lia.
Qed.

Lemma traversal_reaches_inv s0 st :
  traversal_inv device bvh D s0 →
  traversal_reaches body s0 st →
  traversal_inv device bvh D st ∨ traversal_done st.
Proof.
  intros H0. induction 1 as [|st st' Hreach IH Hcont Hbody]; [by left|].
  assert (traversal_inv device bvh D st) as Hst.
  { destruct Hcont as [->|Hnode]; [done|].
    destruct IH as [?|[? _]]; done. }
  destruct (traversal_body_inv st Hst) as [(st2 & Hb & Hst2 & _)|Hb];
    rewrite Hbody in Hb; [|done].
  by injection Hb as <-.
Qed.

Lemma traverse_no_overflow fuel st :
  traversal_inv device bvh D st →
  traverse device bvh labels metric i component fuel st
  ≠ Err StackOverflow.
Proof.
  revert st. induction fuel as [|fuel IH]; intros st Hst; [done|].
  simpl. fold body.
  destruct (traversal_body_inv st Hst) as [(st' & -> & Hst' & _)| ->];
    [|done].
  simpl. destruct (Z.eqb_spec (node st') SENTINEL) as [Heq|Hne]; [done|].
  simpl. apply IH. by destruct Hst' as [?|[? _]].
Qed.
End TraversalStack.

(** C8. When the root is an inner node and the tree has depth [D] at most
    63, the traversal stack never overflows its 64 entries: in every state
    of the loop the stack of nodes and the stack of distances hold at most
    [D + 1] entries, the sentinel included, no turn of the loop faults with
    a stack overflow, and neither does the traversal as a whole. *)
Theorem traversal_stack_never_overflows
  (device : bool) (bvh : BVH) (labels : list Z) (metric : Metric)
  (i component : Z) (D : nat) (r : float) :
  (D ≤ 63)%nat →
  isLeaf bvh (getRoot bvh) = false →
  depth_at_most bvh D (getRoot bvh) = true →
  (∀ st,
     traversal_reaches (traversal_body device bvh labels metric i component)
                       (initial_state device bvh i r) st →
     (length (stack st) ≤ D + 1)%nat
     ∧ (length (stack_distance st) ≤ D + 1)%nat
     ∧ (D + 1 ≤ stack_capacity)%nat
     ∧ traversal_body device bvh labels metric i component st
       ≠ Err StackOverflow)
  ∧ ∀ fuel,
      traverse device bvh labels metric i component fuel
               (initial_state device bvh i r)
      ≠ Err StackOverflow.
Proof.
  intros HD Hroot Hdepth.
  assert (D < stack_capacity)%nat as Hcap by (unfold stack_capacity; lia).
  assert (traversal_inv device bvh D (initial_state device bvh i r)) as H0.
  { split.
    - exists D. simpl. repeat split; try done. constructor.
    - simpl. destruct device; [by left|by right]. }
  split.
  - intros st Hreach.
    pose proof (traversal_reaches_inv device bvh labels metric i component
                  D Hcap _ st H0 Hreach) as Hst.
    destruct (traversal_inv_bound device bvh D Hcap st Hst) as [? ?].
    split; [done|]. split; [done|]. split; [lia|].
    destruct Hst as [Hst|(Hn & Hs & Hsd)].
    + destruct (traversal_body_inv device bvh labels metric i component
                  D Hcap st Hst) as [(st' & -> & _)| ->]; done.
    + apply traversal_body_room; rewrite ?Hs, ?Hsd; simpl;
        unfold stack_capacity; lia.
  - intros fuel.
    by apply (traverse_no_overflow device bvh labels metric i component D).
Qed.

Lemma traversal_stack_never_overflows_witness :
  traverse false example_bvh example_labels Euclidean 4 4 10
           (initial_state false example_bvh 4 inf)
  ≠ Err StackOverflow.
Proof.
  destruct (traversal_stack_never_overflows false example_bvh example_labels
              Euclidean 4 4 2 inf) as [_ H];
    [lia | reflexivity | reflexivity |].
  apply H.
Defined.

Example traverse_example :
  traverse false example_bvh example_labels Euclidean 4 4 10
           (initial_state false example_bvh 4 inf)
  = Ok {| node := SENTINEL; distance_node := zero; stack := [];
          stack_distance := []; current_best := mkEdge 4 3 two_float;
          radius := two_float |}.
Proof. reflexivity. Qed.

Example example_floats_valid :
  is_float32 one_float = true ∧ is_float32 two_float = true
  ∧ is_float32 three_float = true ∧ is_float32 inf = true
  ∧ is_float32 zero = true.
Proof. repeat split; reflexivity. Qed.

(** ** The comparison with the shared radius *)

Lemma SFeqb_SFleb a b : SFeqb a b = true → SFleb a b = true.
Proof. unfold SFeqb, SFleb. by destruct (SFcompare a b) as [[]|]. Qed.

Section RadiusTest.
Variable device : bool.
Variable bvh : BVH.
Variable labels : list Z.
Variable metric : Metric.
Variable i component : Z.

Let visit := visit_child bvh labels metric i component.
Let consider := consider_child bvh metric i.
Let candidate := candidate_edge bvh metric i.

Lemma visit_child_considered child d best r label_c :
  get labels child = Ok label_c → label_c ≠ component →
  SFleb d r = true →
  visit child d best r = Ok (consider child d best r).
Proof.
  intros Hg Hne Hle. unfold visit, visit_child, predicate.
  rewrite Hg. simpl. rewrite Hle.
  destruct (Z.eqb_spec component label_c); [congruence|done].
Qed.

Lemma visit_child_skipped child d best r label_c :
  get labels child = Ok label_c →
  ¬ (label_c ≠ component ∧ SFleb d r = true) →
  visit child d best r = Ok (false, best, r).
Proof.
  intros Hg Hn. unfold visit, visit_child, predicate.
  rewrite Hg. simpl.
  destruct (Z.eqb_spec component label_c) as [->|Hne]; simpl; [done|].
  destruct (SFleb d r); [|done]. exfalso. apply Hn. split; congruence.
Qed.

(** A leaf that is considered is compared with the best edge so far. *)
Lemma consider_child_leaf child d best r :
  isLeaf bvh child = true →
  consider child d best r
  = (false, atomic_min_edge best (candidate child d),
     if WeightedEdge_lt (candidate child d) best
     then atomic_min_float r (weight (candidate child d)) else r).
Proof.
  intros Hleaf. unfold consider, consider_child, atomic_min_edge.
  rewrite Hleaf. fold (candidate child d).
  by destruct (WeightedEdge_lt (candidate child d) best).
Qed.

Lemma consider_child_inner child d best r :
  isLeaf bvh child = false → consider child d best r = (true, best, r).
Proof. intros Hleaf. unfold consider, consider_child. by rewrite Hleaf. Qed.

Lemma atomic_min_edge_not_lt best e :
  WeightedEdge_lt e (atomic_min_edge best e) = false.
Proof.
  unfold atomic_min_edge.
  destruct (WeightedEdge_lt e best) eqn:H; [|done].
  apply WeightedEdge_lt_irrefl.
Qed.

(** A later block does not make the best edge worse. *)
Lemma visit_child_keeps_bound e child d best r t best' r' :
  visit child d best r = Ok (t, best', r') →
  WeightedEdge_lt e best = false → WeightedEdge_lt e best' = false.
Proof.
  unfold visit, visit_child, consider_child.
  intros (p & _ & H)%bind_Ok Hb.
  destruct (p && SFleb d r); [|by injection H as _ <- _].
  destruct (isLeaf bvh child); [|by injection H as _ <- _].
  destruct (WeightedEdge_lt _ best) eqn:Hlt; injection H as _ <- _;
    [|done].
  destruct (WeightedEdge_lt e (candidate_edge bvh metric i child d))
    eqn:He; [|done].
  by rewrite (WeightedEdge_lt_trans _ _ _ He Hlt) in Hb.
Qed.

Lemma pop_node_current_best st st' :
  pop_node device bvh i st = Ok st' → current_best st' = current_best st.
Proof.
  unfold pop_node. intros ([n' s'] & _ & H)%bind_Ok.
  destruct device; [by injection H as <-|].
  apply bind_Ok in H as ([d' sd'] & _ & H). by injection H as <-.
Qed.

Lemma descend_current_best tl tr l r dl dr st st' :
  descend device tl tr l r dl dr st = Ok st' →
  current_best st' = current_best st.
Proof.
  unfold descend. destruct (tl && tr); [|by intros [= <-]].
  intros (s' & _ & H)%bind_Ok. apply bind_Ok in H as (sd' & _ & H).
  by injection H as <-.
Qed.

(** Where the traversal goes after a block has scheduled a child. *)
Lemma descend_scheduled tl tr l r dl dr st st' :
  descend device tl tr l r dl dr st = Ok st' →
  (tl = true → node st' = l ∨ ∃ rest, stack st' = l :: rest)
  ∧ (tr = true → node st' = r ∨ ∃ rest, stack st' = r :: rest).
Proof.
  unfold descend. set (go_left := tl && (SFleb dl dr || negb tr)).
  destruct (tl && tr) eqn:Hboth.
  - apply andb_true_iff in Hboth as [-> ->].
    intros (s' & Hpush & H)%bind_Ok. apply bind_Ok in H as (sd' & _ & H).
    injection H as <-. simpl. unfold push in Hpush.
    destruct (decide _); [|done]. injection Hpush as <-.
    destruct go_left.
    + rewrite Z.eqb_refl. split; intros _; [by left|right; by eexists].
    + destruct (Z.eqb_spec r l) as [->|Hne];
        split; intros _; auto; right; by eexists.
  - intros [= <-]. simpl. unfold go_left.
    destruct tl, tr; simpl in *; try done; split; try done; auto.
    destruct (SFleb dl dr); auto.
Qed.
End RadiusTest.

(** C5. The test against the shared radius is inclusive. A node is expanded
    when [distance_node <= radius] and only then, in particular when the
    two are equal; a child of another component is considered when its
    distance is [<=] the radius and only then, in particular when the two
    are equal. When a leaf is considered the tie-break comparison runs: the
    turn of the loop ends with a best edge that the candidate does not beat.
    When an inner node is considered it is the next node or on top of the
    stack. *)
Theorem radius_test_is_inclusive
  (device : bool) (bvh : BVH) (labels : list Z) (metric : Metric)
  (i component : Z) (st : TraversalState) :
  let body := traversal_body device bvh labels metric i component in
  let expand := expand_node device bvh labels metric i component in
  let visit := visit_child bvh labels metric i component in
  let consider := consider_child bvh metric i in
  let candidate := candidate_edge bvh metric i in
  let left_child := getLeftChild bvh (node st) in
  let right_child := getRightChild bvh (node st) in
  (SFleb (distance_node st) (radius st) = true → body st = expand st)
  ∧ (SFleb (distance_node st) (radius st) = false →
     body st = pop_node device bvh i st)
  ∧ (SFeqb (distance_node st) (radius st) = true → body st = expand st)
  ∧ (∀ child d best r label_c,
       get labels child = Ok label_c →
       (label_c ≠ component ∧ SFleb d r = true →
        visit child d best r = Ok (consider child d best r))
       ∧ (¬ (label_c ≠ component ∧ SFleb d r = true) →
          visit child d best r = Ok (false, best, r))
       ∧ (label_c ≠ component → SFeqb d r = true →
          visit child d best r = Ok (consider child d best r)))
  ∧ (∀ st' tl best1 radius1 label_l label_r,
       expand st = Ok st' →
       visit left_child (distance bvh i left_child) (current_best st)
             (radius st) = Ok (tl, best1, radius1) →
       get labels left_child = Ok label_l →
       get labels right_child = Ok label_r →
       (label_l ≠ component →
        SFleb (distance bvh i left_child) (radius st) = true →
        (isLeaf bvh left_child = true →
         WeightedEdge_lt (candidate left_child (distance bvh i left_child))
                         (current_best st') = false)
        ∧ (isLeaf bvh left_child = false →
           node st' = left_child ∨ ∃ rest, stack st' = left_child :: rest))
       ∧ (label_r ≠ component →
          SFleb (distance bvh i right_child) radius1 = true →
          (isLeaf bvh right_child = true →
           WeightedEdge_lt
             (candidate right_child (distance bvh i right_child))
             (current_best st') = false)
          ∧ (isLeaf bvh right_child = false →
             node st' = right_child
             ∨ ∃ rest, stack st' = right_child :: rest))).
Proof.
  intros body expand visit consider candidate left_child right_child.
  split; [by unfold body, traversal_body; intros ->|].
  split; [by unfold body, traversal_body; intros ->|].
  split.
  { intros H%SFeqb_SFleb. by unfold body, traversal_body; rewrite H. }
  split.
  { intros child d best r label_c Hg. split; [|split].
    - intros [? ?]. by eapply visit_child_considered.
    - by apply visit_child_skipped.
    - intros ? ?%SFeqb_SFleb. by eapply visit_child_considered. }
  intros st' tl best1 radius1 label_l label_r Hexp Hvl Hgl Hgr.
  unfold expand, expand_node in Hexp. fold left_child right_child in Hexp.
  fold visit in Hexp. rewrite Hvl in Hexp. simpl in Hexp.
  destruct (visit right_child _ best1 radius1)
    as [[[tr best2] radius2]|] eqn:Hvr; [|done]. simpl in Hexp.
  assert (current_best st' = best2) as Hbest.
  { destruct (negb tl && negb tr).
    - by apply pop_node_current_best in Hexp.
    - by apply descend_current_best in Hexp. }
  assert ((tl = true →
           node st' = left_child ∨ ∃ rest, stack st' = left_child :: rest)
          ∧ (tr = true →
             node st' = right_child
             ∨ ∃ rest, stack st' = right_child :: rest)) as [Hsl Hsr].
  { destruct (negb tl && negb tr) eqn:Hflags.
    - apply andb_true_iff in Hflags as [Hl Hr].
      apply negb_true_iff in Hl, Hr. subst. done.
    - by apply descend_scheduled in Hexp. }
  split.
  - intros Hne Hle.
    unfold visit in Hvl.
    erewrite visit_child_considered in Hvl by done. split.
    + intros Hleaf. rewrite consider_child_leaf in Hvl by done.
      injection Hvl as _ <- _. rewrite Hbest.
      eapply visit_child_keeps_bound; [exact Hvr|].
      apply atomic_min_edge_not_lt.
    + intros Hleaf. rewrite consider_child_inner in Hvl by done.
      injection Hvl as <- _ _. by apply Hsl.
  - intros Hne Hle.
    unfold visit in Hvr.
    erewrite visit_child_considered in Hvr by done. split.
    + intros Hleaf. rewrite consider_child_leaf in Hvr by done.
      injection Hvr as _ <- _. rewrite Hbest.
      apply atomic_min_edge_not_lt.
    + intros Hleaf. rewrite consider_child_inner in Hvr by done.
      injection Hvr as <- _ _. by apply Hsr.
Qed.

Lemma radius_test_is_inclusive_witness :
  let st := {| node := 0; distance_node := two_float; stack := [SENTINEL];
               stack_distance := [zero];
               current_best := mkEdge 4 undetermined inf;
               radius := two_float |} in
  traversal_body false example_bvh example_labels Euclidean 4 4 st
  = Ok {| node := 1; distance_node := two_float; stack := [SENTINEL];
          stack_distance := [zero];
          current_best := mkEdge 4 undetermined inf;
          radius := two_float |}.
Proof.
  intros st.
  destruct (radius_test_is_inclusive false example_bvh example_labels
              Euclidean 4 4 st) as (_ & _ & H & _).
  rewrite H by reflexivity. reflexivity.
Defined.

(** ** The entry points *)

Example example_MST_result :
  example_MST 5 1
  = ([Region "ArborX::MST::MST";
      Region "ArborX::MST::initialize_node_labels";
      Region "ArborX::MST::Boruvka_loop";
      BoruvkaRegion 1 3],
     Ok [mkEdge 1 0 one_float; mkEdge 2 1 two_float]).
Proof. vm_compute. reflexivity. Qed.

Lemma extends_log_ret {A : Type} (a : A) : extends_log (M_ret a).
Proof. intros log. exists []. simpl. by rewrite app_nil_r. Qed.

Lemma extends_log_lift {A : Type} (r : res A) : extends_log (lift r).
Proof. intros log. exists []. simpl. by rewrite app_nil_r. Qed.

Lemma extends_log_pushRegion r : extends_log (pushRegion r).
Proof. intros log. by exists [r]. Qed.

Lemma extends_log_bind {A B : Type} (m : M A) (k : A → M B) :
  extends_log m → (∀ a, extends_log (k a)) → extends_log (M_bind m k).
Proof.
  intros Hm Hk log. unfold M_bind. destruct (Hm log) as [ext Hext].
  destruct (m log) as [log' [a|f]]; simpl in *; subst log'.
  - destruct (Hk a (log ++ ext)) as [ext' ->]. exists (ext ++ ext').
    by rewrite app_assoc.
  - by exists ext.
Qed.

(** A computation that starts by pushing regions records them first. *)
Lemma pushRegion_first {A : Type} (r : region) (m : M A) :
  extends_log m →
  ∀ log, ∃ ext, fst (M_bind (pushRegion r) (fun _ => m) log)
                = log ++ r :: ext.
Proof.
  intros Hm log. unfold M_bind, pushRegion.
  destruct (Hm (log ++ [r])) as [ext ->]. exists ext.
  by rewrite <- app_assoc.
Qed.

Section EntryPoints.
Variable Primitives : Type.
Variable primitives_size : Primitives → Z.
Variable build_BVH : Primitives → BVH.
Variable query_core_distances : BVH → Primitives → Z → Z → float.
Variable findParents : BVH → list Z.
Variable reduceLabels : list Z → list Z → list Z.
Variable garbage_int : Z.
Variable garbage_edge : WeightedEdge.
Variable device : bool.
Variable fuel : nat.

Let MST := MinimumSpanningTree Primitives primitives_size build_BVH
             query_core_distances findParents reduceLabels garbage_int
             garbage_edge device fuel.

Lemma Boruvka_loop_extends_log bvh metric rounds parents it nc s :
  extends_log (Boruvka_loop reduceLabels device fuel bvh metric rounds
                            parents it nc s).
Proof.
  revert it nc s. induction rounds as [|rounds IH]; intros it nc s; simpl.
  - apply extends_log_lift.
  - apply extends_log_bind; [apply extends_log_pushRegion|]. intros _.
    apply extends_log_bind; [apply extends_log_lift|]. intros s'.
    destruct (_ >? 1); [apply IH|apply extends_log_ret].
Qed.

Lemma doBoruvka_extends_log bvh metric rounds edges :
  extends_log (doBoruvka findParents reduceLabels garbage_int device fuel
                         bvh metric rounds edges).
Proof.
  unfold doBoruvka.
  apply extends_log_bind; [apply extends_log_pushRegion|]. intros _.
  apply extends_log_bind; [apply extends_log_pushRegion|]. intros _.
  apply Boruvka_loop_extends_log.
Qed.

Lemma MinimumSpanningTree_enters rounds primitives k log :
  ∃ ext, fst (MST rounds primitives k log)
         = log ++ Region "ArborX::MST::MST" :: ext.
Proof.
  unfold MST, MinimumSpanningTree. apply pushRegion_first.
  apply extends_log_bind; [|intros; apply extends_log_lift].
  destruct (k >? 1).
  - apply extends_log_bind; [apply extends_log_pushRegion|]. intros _.
    apply doBoruvka_extends_log.
  - apply doBoruvka_extends_log.
Qed.

Lemma MinimumSpanningTree_small_k rounds primitives k :
  k ≤ 1 → MST rounds primitives k = MST rounds primitives 1.
Proof.
  intros Hk. unfold MST, MinimumSpanningTree.
  by destruct (Z.gtb_spec k 1); [lia|].
Qed.
End EntryPoints.

Section EntryPointsDBSCAN.
Variable Primitives : Type.
Variable extent_int : Primitives → Z.
Variable build_BVH : Primitives → BVH.
Variable query_CCS : BVH → Primitives → float → list Z → list Z.
Variable query_num_neigh : BVH → Primitives → float → list Z.
Variable query_DBSCAN : BVH → Primitives → float → list Z → list Z → list Z.
Variable fuel : nat.

Let DBSCAN := dbscan Primitives extent_int build_BVH query_CCS
                query_num_neigh query_DBSCAN fuel.

Lemma dbscan_enters primitives eps core_min_size cluster_min_size
  verbose verify log :
  ∃ ext,
    fst (DBSCAN primitives eps core_min_size cluster_min_size verbose
                verify log)
    = log ++ Region "ArborX::DBSCAN"
          :: Region "ArborX::DBSCAN::tree_construction"
          :: Region "ArborX::DBSCAN::clusters" :: ext.
Proof.
  unfold DBSCAN, dbscan.
  set (rest := M_bind (if core_min_size =? 1 then _ else _) _).
  assert (extends_log rest) as Hrest.
  { unfold rest. apply extends_log_bind.
    - destruct (core_min_size =? 1).
      + apply extends_log_bind; [apply extends_log_pushRegion|]. intros _.
        apply extends_log_ret.
      + apply extends_log_bind; [apply extends_log_pushRegion|]. intros _.
        apply extends_log_bind; [apply extends_log_pushRegion|]. intros _.
        apply extends_log_ret.
    - intros stat. apply extends_log_bind; [apply extends_log_lift|].
      intros stat'. apply extends_log_bind.
      + destruct verify; [apply extends_log_pushRegion|apply extends_log_ret].
      + intros _. apply extends_log_bind; [apply extends_log_pushRegion|].
        intros _. apply extends_log_ret. }
  unfold M_bind at 1 2 3. unfold pushRegion. simpl.
  destruct (Hrest (((log ++ [Region "ArborX::DBSCAN"])
                    ++ [Region "ArborX::DBSCAN::tree_construction"])
                   ++ [Region "ArborX::DBSCAN::clusters"])) as [ext Hext].
  exists ext. rewrite Hext. by rewrite <- !app_assoc.
Qed.

(** The arguments [cluster_min_size] and [verbose] do not enter the
    computation of the clusters. *)
Lemma dbscan_ignores_cluster_min_size primitives eps core_min_size
  cluster_min_size cluster_min_size' verbose verbose' verify :
  DBSCAN primitives eps core_min_size cluster_min_size verbose verify
  = DBSCAN primitives eps core_min_size cluster_min_size' verbose' verify.
Proof. reflexivity. Qed.
End EntryPointsDBSCAN.




Example example_MST_invalid_k :
  example_MST 5 0
  = ([Region "ArborX::MST::MST";
      Region "ArborX::MST::initialize_node_labels";
      Region "ArborX::MST::Boruvka_loop";
      BoruvkaRegion 1 3],
     Ok [mkEdge 1 0 one_float; mkEdge 2 1 two_float]).
Proof. vm_compute. reflexivity. Qed.

Example example_dbscan_invalid :
  example_dbscan zero 1
  = ([Region "ArborX::DBSCAN"; Region "ArborX::DBSCAN::tree_construction";
      Region "ArborX::DBSCAN::clusters";
      Region "ArborX::DBSCAN::clusters::query";
      Region "ArborX::DBSCAN::sort_and_filter_clusters"],
     Ok [0; 1; 2]).
Proof. vm_compute. reflexivity. Qed.

(** ** The final component

    The component graph in the abstract, as in the section before. While a
    round rewrites the labels in place, a label read is either the label
    from before the round or the final component of that label; the rule of
    the next component computed from such reads still leads to the final
    component. *)

Section FinalComponent.
Variable g : Z → Z.
Variable D : list Z.
Hypothesis g_closed : ∀ x, x ∈ D → g x ∈ D.
Hypothesis g_cycles : ∀ x k, x ∈ D → (0 < k)%nat → Nat.iter k g x = x →
                           g (g x) = x.

Let next := next_component_rule g.
Let F := final_component g D.

Lemma iter_fixed m x : next x = x → Nat.iter m next x = x.
Proof. intros H. induction m as [|m IH]; simpl; congruence. Qed.

Lemma final_component_first_fixed c k :
c ∈ D → (k ≤ length D)%nat →
next (Nat.iter k next c) = Nat.iter k next c →
F c = Nat.iter k next c.
Proof.
intros Hc Hk Hfix. unfold F, final_component. fold next.
replace (length D) with ((length D - k) + k)%nat by lia.
rewrite Nat.iter_add. by apply iter_fixed.
Qed.

Lemma final_component_fixed c : c ∈ D → next (F c) = F c.
Proof.
intros Hc.
destruct (walk_reaches_fixed_point g D g_closed g_cycles c Hc)
  as (k & Hk & Hfix & _).
rewrite (final_component_first_fixed c k) by (done || lia). done.
Qed.

Lemma final_component_closed c : c ∈ D → F c ∈ D.
Proof. intros Hc. by apply walk_closed. Qed.

Lemma final_component_next c : c ∈ D → F (next c) = F c.
Proof.
intros Hc. unfold F, final_component. fold next.
rewrite <- Nat.iter_succ_r. simpl. by apply final_component_fixed.
Qed.

Lemma final_component_id_iff c : c ∈ D → F c = c ↔ next c = c.
Proof.
intros Hc. split.
- intros H. rewrite <- H at 1. rewrite final_component_fixed by done.
  done.
- by apply iter_fixed.
Qed.

Lemma final_component_idem c : c ∈ D → F (F c) = F c.
Proof.
intros Hc. apply final_component_id_iff; [by apply final_component_closed|].
by apply final_component_fixed.
Qed.

Lemma next_min_of_2cycle x :
g (g x) = x → next x = Z.min x (g x).
Proof.
intros H. unfold next, next_component_rule. by rewrite H, Z.eqb_refl.
Qed.

Lemma next_off_cycle x : g (g x) ≠ x → next x = g x.
Proof.
intros H. unfold next, next_component_rule.
by destruct (Z.eqb_spec (g (g x)) x).
Qed.

Lemma final_component_successor c : c ∈ D → F (g c) = F c.
Proof.
intros Hc. destruct (next_cases g c) as [Hn|Hn]; fold next in Hn.
- destruct (decide (g (g c) = c)) as [H2|H2].
  + rewrite <- (final_component_next (g c)) by auto.
    rewrite next_min_of_2cycle by (by rewrite H2). rewrite H2.
    rewrite next_min_of_2cycle in Hn by done.
    rewrite Z.min_comm, Hn. done.
  + rewrite next_off_cycle in Hn by done. by rewrite Hn.
- rewrite <- Hn. by apply final_component_next.
Qed.

(** Off a fixed point, the final component lies ahead on the chain of
  successors. *)
Lemma final_component_ahead c :
c ∈ D → next c ≠ c → ∃ j, (0 < j)%nat ∧ F c = Nat.iter j g c.
Proof.
intros Hc Hne.
destruct (walk_reaches_fixed_point g D g_closed g_cycles c Hc)
  as (k & Hk & Hfix & Hfirst).
exists k. split.
- destruct k; [done|lia].
- rewrite (final_component_first_fixed c k) by (done || lia).
  apply (walk_follows_g g c 0 k). intros j Hj. apply Hfirst. lia.
Qed.

Lemma off_cycle_no_return c j :
c ∈ D → g (g c) ≠ c → (0 < j)%nat → Nat.iter j g c ≠ c.
Proof. intros Hc H2 Hj Hit. apply H2. by apply (g_cycles c j). Qed.

(** The rule of the next component on labels that are partly rewritten:
  [a] is read for the successor of [c] and [b] for the successor of
  [a]. *)
Lemma next_component_in_place c a b :
c ∈ D →
a = g c ∨ a = F c →
b = g a ∨ b = F a →
let m := if negb (b =? c) then a else Z.min c a in
(m = next c ∨ m = F c) ∧ (m = c ↔ next c = c).
Proof.
intros Hc Ha Hb m.
destruct (decide (g (g c) = c)) as [H2|H2].
- (* [c] lies on a cycle of length at most two *)
  pose proof (next_min_of_2cycle c H2) as Hn.
  assert (g (g (g c)) = g c) as H2' by (by rewrite H2).
  pose proof (next_min_of_2cycle (g c) H2') as Hn'. rewrite H2 in Hn'.
  destruct (Z.le_gt_cases c (g c)) as [Hle|Hgt].
  + (* [c] is the lesser end: it is final *)
    assert (next c = c) as Hnc by lia.
    assert (F c = c) as HFc by (by apply final_component_id_iff).
    assert (F (g c) = c) as HFg.
    { by rewrite final_component_successor. }
    assert (a = g c ∨ a = c) as Ha' by (by rewrite HFc in Ha).
    assert (m = c) as ->.
    { unfold m. destruct Ha' as [-> | ->].
      - assert (b = c) as -> by (destruct Hb; congruence).
        rewrite Z.eqb_refl. simpl. lia.
      - destruct (Z.eqb_spec b c); simpl; lia. }
    split; [left; congruence|done].
  + (* [g c] is the lesser end *)
    assert (next c = g c) as Hnc by lia.
    assert (next (g c) = g c) as Hng by lia.
    assert (F (g c) = g c) as HFg.
    { apply final_component_id_iff; auto. }
    assert (F c = g c) as HFc.
    { by rewrite <- final_component_successor. }
    assert (a = g c) as -> by (destruct Ha; congruence).
    assert (m = g c) as ->.
    { unfold m. destruct (Z.eqb_spec b c); simpl; lia. }
    split; [by left|]. split; intros; lia.
- (* [c] lies on no cycle *)
  pose proof (next_off_cycle c H2) as Hn.
  assert (g c ≠ c) as Hgc by (intros H; apply H2; by rewrite !H).
  assert (next c ≠ c) as Hnc by congruence.
  destruct (final_component_ahead c Hc Hnc) as (j & Hj & HFj).
  assert (F c ≠ c) as HFc.
  { rewrite HFj. by apply off_cycle_no_return. }
  assert (g (F c) ≠ c) as HgF.
  { rewrite HFj. change (Nat.iter (S j) g c ≠ c).
    apply off_cycle_no_return; (done || lia). }
  assert (b ≠ c) as Hbc.
  { destruct Ha as [-> | ->], Hb as [-> | ->]; try done.
    - by rewrite final_component_successor.
    - by rewrite final_component_idem. }
  assert (m = a) as ->.
  { unfold m. by destruct (Z.eqb_spec b c). }
  split; [destruct Ha; [left|right]; congruence|].
  split; [|done]. intros ->. destruct Ha; congruence.
Qed.
End FinalComponent.

(** ** One round of merging, in place *)

Lemma for_each_prefix {S : Type} (body : Z → S → res S)
  (I : list Z → S → Prop) (items : list Z) (s : S) :
  (∀ done i rest s, items = done ++ i :: rest → I done s →
     ∃ s', body i s = Ok s' ∧ I (done ++ [i]) s') →
  I [] s → ∃ s', for_each body items s = Ok s' ∧ I items s'.
Proof.
  intros Hbody.
  assert (∀ rest done s, items = done ++ rest → I done s →
            ∃ s', for_each body rest s = Ok s' ∧ I items s') as H.
  { induction rest as [|i rest IH]; intros done s0 Heq Hs; simpl.
    - exists s0. rewrite app_nil_r in Heq. by subst.
    - destruct (Hbody done i rest s0 Heq Hs) as (s1 & -> & Hs1). simpl.
      apply (IH (done ++ [i])); [|done]. by rewrite <- app_assoc. }
  intros Hs. by apply (H items []).
Qed.

Lemma filter_length_split {A : Type} (P Q R : A → Prop)
  `{∀ x, Decision (P x)} `{∀ x, Decision (Q x)} `{∀ x, Decision (R x)}
  (l : list A) :
  (∀ x, x ∈ l → R x ↔ P x ∨ Q x) → (∀ x, ¬ (P x ∧ Q x)) →
  length (filter R l) = (length (filter P l) + length (filter Q l))%nat.
Proof.
  intros HR Hex. induction l as [|x l IH]; [done|].
  rewrite !filter_cons.
  specialize (IH ltac:(intros y Hy; apply HR; by right)).
  pose proof (HR x ltac:(by left)) as HRx.
  destruct (decide (R x)) as [Hr|Hr], (decide (P x)) as [Hp|Hp],
    (decide (Q x)) as [Hq|Hq]; simpl; try lia;
    exfalso; first [by apply (Hex x) | apply Hr, HRx; auto
                   | apply HRx in Hr as [?|?]; done].
Qed.

Lemma filter_iff_elem {A : Type} (P Q : A → Prop)
  `{∀ x, Decision (P x)} `{∀ x, Decision (Q x)} (l : list A) :
  (∀ x, x ∈ l → P x ↔ Q x) → filter P l = filter Q l.
Proof.
  intros HPQ. induction l as [|x l IH]; [done|].
  rewrite !filter_cons.
  rewrite IH by (intros y Hy; apply HPQ; by right).
  pose proof (HPQ x ltac:(by left)).
  destruct (decide (P x)), (decide (Q x)); tauto.
Qed.

Lemma leaves_elem n i : i ∈ leaves n ↔ leaf n i.
Proof. unfold leaves, leaf. apply RangePolicy_elem. Qed.

Lemma leaves_NoDup n : NoDup (leaves n).
Proof. apply NoDup_seqZ. Qed.

Lemma components_elem n labels c :
  c ∈ components n labels ↔ leaf n c ∧ get labels c = Ok c.
Proof.
  unfold components. rewrite list_elem_of_filter, leaves_elem. tauto.
Qed.

Lemma components_NoDup n labels : NoDup (components n labels).
Proof. apply NoDup_filter, leaves_NoDup. Qed.

Lemma slot_leaf n c :
  2 * n - 1 < size_t_modulus → leaf n c → slot n c = c - n + 1.
Proof.
  unfold slot, leaf, size_t_modulus. intros Hn Hc.
  apply Z.mod_small. lia.
Qed.

Lemma label_of_wf n labels x :
  labels_wf n labels → leaf n x →
  get labels x = Ok (label_of labels x)
  ∧ label_of labels x ∈ components n labels.
Proof.
  intros [_ Hwf] Hx. destruct (Hwf x Hx) as (c & Hc & Hleaf & Hrep).
  unfold label_of. rewrite Hc. split; [done|]. by apply components_elem.
Qed.

Lemma label_of_representative n labels c :
  c ∈ components n labels → label_of labels c = c.
Proof. intros [_ Hc]%components_elem. unfold label_of. by rewrite Hc. Qed.

Section Round.
Variable n : Z.
Variable out_edges : list WeightedEdge.
Variable labels0 : list Z.
Hypothesis n_small : 2 * n - 1 < size_t_modulus.
Hypothesis labels0_wf : labels_wf n labels0.
Hypothesis table_ok : round_table_ok n labels0 out_edges.

Local Abbreviation D := (components n labels0).
Local Abbreviation g := (successor out_edges labels0).
Local Abbreviation N := (next_component_rule (successor out_edges labels0)).
Local Abbreviation F :=
(final_component (successor out_edges labels0) (components n labels0)).
Local Abbreviation l0 := (label_of labels0).

Lemma round_extent : extent out_edges = n.
Proof. by destruct table_ok. Qed.

Lemma round_out_edge c :
c ∈ D →
get out_edges (slot n c) = Ok (out_edge out_edges c)
∧ leaf n (source (out_edge out_edges c))
∧ l0 (source (out_edge out_edges c)) = c
∧ leaf n (target (out_edge out_edges c))
∧ l0 (target (out_edge out_edges c)) = g c
∧ g c ≠ c ∧ g c ∈ D
∧ out_label out_edges labels0 c = Ok (g c).
Proof.
intros Hc. destruct table_ok as (Hext & Hedges & _).
destruct (Hedges c Hc) as (e & He & Hsl & Hs & Htl & Ht).
unfold out_edge. rewrite Hext, He. simpl.
destruct (label_of_wf n labels0 (target e) labels0_wf Htl) as [Hlt Hin].
assert (out_label out_edges labels0 c = Ok (label_of labels0 (target e)))
  as Hout.
{ unfold out_label. rewrite Hext, He. simpl. done. }
assert (g c = label_of labels0 (target e)) as Hg.
{ unfold successor. by rewrite Hout. }
split; [done|]. split; [done|].
split; [unfold label_of; by rewrite Hs|].
split; [done|]. split; [by rewrite Hg|].
split; [rewrite Hg; intros Heq; apply Ht; by rewrite Hlt, Heq|].
split; [by rewrite Hg|]. by rewrite Hg.
Qed.

Lemma round_g_closed x : x ∈ D → g x ∈ D.
Proof. intros Hx. by apply round_out_edge. Qed.

Lemma round_out_label_closed x :
x ∈ D → ∃ y, out_label out_edges labels0 x = Ok y ∧ y ∈ D.
Proof.
intros Hx. exists (g x). split; by apply round_out_edge.
Qed.

Lemma round_g_cycles x k :
x ∈ D → (0 < k)%nat → Nat.iter k g x = x → g (g x) = x.
Proof.
intros Hx Hk Hit. destruct table_ok as (_ & _ & Hcyc).
pose proof (Hcyc x k Hx Hk) as H2.
rewrite !(iterate_out_label _ _ D round_out_label_closed) in H2 by done.
rewrite Hit in H2. by injection (H2 eq_refl).
Qed.

Lemma out_label_in_place labels c :
labels_in_place n out_edges labels0 labels → c ∈ D →
∃ a, out_label out_edges labels c = Ok a ∧ (a = g c ∨ a = F c) ∧ a ∈ D.
Proof.
intros [_ Hlab] Hc.
destruct (round_out_edge c Hc) as (He & _ & _ & Htl & Ht & _ & Hg & _).
unfold out_label. rewrite round_extent, He. simpl.
destruct (Hlab _ Htl) as [-> | ->]; rewrite Ht.
- exists (g c). split; [done|]. split; [by left|done].
- exists (F (g c)). split; [done|].
  rewrite (final_component_successor g D round_g_closed
                       round_g_cycles c Hc).
  split; [by right|].
apply final_component_closed; [apply round_g_closed|done].
Qed.

Lemma computeNextComponent_in_place labels c :
labels_in_place n out_edges labels0 labels → c ∈ D →
∃ m, computeNextComponent out_edges labels c = Ok m
     ∧ (m = N c ∨ m = F c) ∧ (m = c ↔ N c = c) ∧ m ∈ D.
Proof.
intros Hlab Hc. rewrite computeNextComponent_rule.
destruct (out_label_in_place labels c Hlab Hc) as (a & -> & Ha & HaD).
simpl.
destruct (out_label_in_place labels a Hlab HaD) as (b & -> & Hb & HbD).
simpl. eexists. split; [done|].
destruct (next_component_in_place g D round_g_closed round_g_cycles
            c a b Hc Ha Hb) as [Hm Hfix].
split; [done|]. split; [done|].
destruct Hm as [-> | ->].
- apply next_closed; [apply round_g_closed|done].
- apply final_component_closed; [apply round_g_closed|done].
Qed.

Lemma computeFinalComponent_in_place_steps labels k :
labels_in_place n out_edges labels0 labels →
∀ c fuel, c ∈ D → N (Nat.iter k N c) = Nat.iter k N c → (k < fuel)%nat →
          computeFinalComponent out_edges fuel labels c = Ok (F c).
Proof.
intros Hlab.
assert (∀ c fuel, c ∈ D → N c = c → (0 < fuel)%nat →
          computeFinalComponent out_edges fuel labels c = Ok (F c))
  as Hbase.
{ intros c [|fuel] Hc Hfix Hfuel; [lia|]. simpl.
  destruct (computeNextComponent_in_place labels c Hlab Hc)
    as (m & -> & _ & Hm & _). simpl.
  assert (m = c) as -> by (by apply Hm).
  rewrite Z.eqb_refl. simpl. f_equal. symmetry.
  by apply (final_component_id_iff g D round_g_closed round_g_cycles). }
induction k as [|k IH]; intros c fuel Hc Hfix Hfuel.
{ by apply Hbase; [| |lia]. }
destruct (decide (N c = c)) as [Hnc|Hnc]; [by apply Hbase; [| |lia]|].
destruct fuel as [|fuel]; [lia|]. simpl.
destruct (computeNextComponent_in_place labels c Hlab Hc)
  as (m & -> & Hm & Hmc & HmD). simpl.
destruct (Z.eqb_spec m c) as [->|Hne]; [exfalso; by apply Hnc, Hmc|]. simpl.
destruct Hm as [-> | ->].
- assert (F (N c) = F c) as <-.
  { by apply (final_component_next g D round_g_closed round_g_cycles). }
  apply IH; [done| |lia].
  rewrite <- Nat.iter_succ_r. done.
- assert (F (F c) = F c) as HFF.
  { by apply (final_component_idem g D round_g_closed round_g_cycles). }
  rewrite <- HFF at 2.
  apply Hbase; [done| |lia].
  by apply (final_component_fixed g D round_g_closed round_g_cycles).
Qed.

(** On labels that are partly rewritten the walk still ends at the final
  component. *)
Lemma computeFinalComponent_in_place labels c fuel :
labels_in_place n out_edges labels0 labels → c ∈ D → (length D ≤ fuel)%nat →
computeFinalComponent out_edges fuel labels c = Ok (F c).
Proof.
intros Hlab Hc Hfuel.
destruct (walk_reaches_fixed_point g D round_g_closed round_g_cycles c Hc)
  as (k & Hk & Hfix & _).
apply (computeFinalComponent_in_place_steps labels k); (done || lia).
Qed.
Hypothesis n_pos : 1 ≤ n.

Lemma pass_inv_in_place edges0 k0 done s :
pass_inv n out_edges labels0 edges0 k0 done s → labels_in_place n out_edges labels0 (u_labels s).
Proof.
intros (Hext & Hlab & _). split; [done|]. intros x Hx.
rewrite (Hlab x Hx). destruct (decide (x ∈ done)); auto.
Qed.

Lemma emitters_snoc done i :
emitters n labels0 out_edges (done ++ [i])
= emitters n labels0 out_edges done
  ++ (if decide (i ∈ D ∧ F i ≠ i) then [i] else []).
Proof.
unfold emitters. by rewrite filter_app.
Qed.

Lemma emitters_length_lt done i rest :
i ∈ D → F i ≠ i →
(length (emitters n labels0 out_edges done)
 < length (emitters n labels0 out_edges (done ++ i :: rest)))%nat.
Proof.
intros Hi HF. unfold emitters. rewrite filter_app, length_app.
rewrite filter_cons_True by done. simpl. lia.
Qed.

Lemma committed_append (edges : list WeightedEdge) (k : Z) (e : WeightedEdge) :
0 ≤ k < extent edges →
take (Z.to_nat (k + 1)) (<[Z.to_nat k := e]> edges)
= take (Z.to_nat k) edges ++ [e].
Proof.
unfold extent. intros Hk.
replace (Z.to_nat (k + 1)) with (S (Z.to_nat k)) by lia.
rewrite (take_S_r _ _ e) by (apply list_lookup_insert_eq; lia).
by rewrite take_insert_ge.
Qed.

(** One item of the pass. *)
Lemma UpdateComponentsAndEdges_op_pass edges0 k0 fuel done i rest s :
leaves n = done ++ i :: rest →
0 ≤ k0 →
k0 + Z.of_nat (length (emitters n labels0 out_edges (leaves n))) ≤ n - 1 →
(length D ≤ fuel)%nat →
pass_inv n out_edges labels0 edges0 k0 done s →
∃ s', UpdateComponentsAndEdges_op out_edges fuel i s = Ok s'
      ∧ pass_inv n out_edges labels0 edges0 k0 (done ++ [i]) s'.
Proof.
intros Hitems Hk0 Hroom Hfuel Hinv.
pose proof (pass_inv_in_place _ _ _ _ Hinv) as Hplace.
destruct Hinv as (Hext & Hlab & Hbuf & Hnum & Hcom).
assert (leaf n i) as Hi.
{ apply leaves_elem. rewrite Hitems, elem_of_app, elem_of_cons. auto. }
assert (i ∉ done) as Hfresh.
{ pose proof (leaves_NoDup n) as Hnd. rewrite Hitems in Hnd.
  apply NoDup_app in Hnd as (_ & Hnd & _). intros Hin.
  apply (Hnd i Hin). by left. }
destruct (label_of_wf n labels0 i labels0_wf Hi) as [Hl0 Hl0D].
assert (get (u_labels s) i = Ok (l0 i)) as Hget.
{ rewrite (Hlab i Hi). by destruct (decide (i ∈ done)). }
unfold UpdateComponentsAndEdges_op. rewrite Hget. simpl.
rewrite (computeFinalComponent_in_place (u_labels s) (l0 i) fuel)
  by done. simpl.
rewrite set_is_Ok by (unfold leaf in Hi; lia). simpl.
set (labels' := <[Z.to_nat i := F (l0 i)]> (u_labels s)).
assert (extent labels' = 2 * n - 1) as Hext'.
{ unfold labels'. by rewrite extent_insert. }
assert (∀ x, leaf n x →
          get labels' x
          = Ok (if decide (x ∈ done ++ [i]) then F (l0 x) else l0 x))
  as Hlab'.
{ intros x Hx. unfold labels'. destruct (decide (x = i)) as [->|Hxi].
  - rewrite get_insert_eq by (unfold leaf in Hi; lia).
    destruct (decide (i ∈ done ++ [i])) as [|Hn]; [done|].
    exfalso. apply Hn. rewrite elem_of_app, list_elem_of_singleton. auto.
  - rewrite get_insert_ne by (unfold leaf in Hi; lia).
    rewrite (Hlab x Hx).
    destruct (decide (x ∈ done)) as [Hd|Hd],
      (decide (x ∈ done ++ [i])) as [Hd'|Hd']; try done.
    + exfalso. apply Hd'. rewrite elem_of_app. auto.
    + exfalso. rewrite elem_of_app, list_elem_of_singleton in Hd'.
      destruct Hd'; done. }
unfold pass_inv. rewrite emitters_snoc.
destruct (Z.eqb_spec i (l0 i)) as [Heq|Hne]; simpl.
- (* [i] is the representative of its component *)
  assert (i ∈ D) as HiD by (by rewrite Heq).
  rewrite <- Heq.
  destruct (Z.eqb_spec i (F i)) as [HF|HF]; simpl.
  + (* it is final *)
    eexists. split; [done|].
    destruct (decide (i ∈ D ∧ F i ≠ i)) as [[_ ?]|_]; [congruence|].
    rewrite app_nil_r. by split_and!.
  + (* it merges into another component and appends its edge *)
    destruct (round_out_edge i HiD) as (He & _).
    rewrite round_extent, He. simpl.
    pose proof (emitters_length_lt done i rest HiD (not_eq_sym HF)) as Hlt.
    rewrite <- Hitems in Hlt.
    rewrite set_is_Ok by lia. simpl.
    eexists. split; [done|].
    destruct (decide (i ∈ D ∧ F i ≠ i)) as [_|Hn];
      [|exfalso; apply Hn; split; [done|congruence]].
    split; [done|]. split; [done|]. simpl.
    split; [by rewrite extent_insert|].
    split; [rewrite length_app; simpl; lia|].
    unfold committed. simpl.
    rewrite committed_append by lia.
    unfold committed in Hcom. rewrite Hcom.
    by rewrite fmap_app, app_assoc.
- (* [i] is not a representative *)
  eexists. split; [done|].
  destruct (decide (i ∈ D ∧ F i ≠ i)) as [[HiD _]|_].
  { exfalso. apply Hne. symmetry.
    by apply (label_of_representative n labels0). }
  rewrite app_nil_r. by split_and!.
Qed.

(** The whole pass. *)
Lemma updateComponentsAndEdges_pass fuel s :
u_labels s = labels0 →
extent (u_edges s) = n - 1 →
0 ≤ u_num_edges s →
u_num_edges s
+ Z.of_nat (length (emitters n labels0 out_edges (leaves n))) ≤ n - 1 →
(length D ≤ fuel)%nat →
∃ s', updateComponentsAndEdges out_edges fuel s = Ok s'
      ∧ pass_inv n out_edges labels0 (u_edges s) (u_num_edges s) (leaves n) s'.
Proof.
intros Hlabels Hbuf Hk0 Hroom Hfuel.
unfold updateComponentsAndEdges. rewrite round_extent.
destruct labels0_wf as [Hext0 _].
assert (ARBORX_ASSERT (extent (u_labels s) =? (2 * n - 1) mod size_t_modulus)
        = Ok tt) as ->.
{ rewrite Hlabels, Hext0, Z.mod_small by lia. by rewrite Z.eqb_refl. }
assert (ARBORX_ASSERT (extent (u_edges s) =? (n - 1) mod size_t_modulus)
        = Ok tt) as ->.
{ rewrite Hbuf, Z.mod_small by lia. by rewrite Z.eqb_refl. }
simpl. unfold parallel_for. fold (leaves n).
apply (for_each_prefix _ (pass_inv n out_edges labels0 (u_edges s) (u_num_edges s))).
- intros done i rest s1 Hitems Hinv.
  by apply (UpdateComponentsAndEdges_op_pass _ _ _ done i rest).
- split; [by rewrite Hlabels|]. split.
  { intros x Hx. rewrite Hlabels.
    destruct (decide (x ∈ [])) as [Hin|_]; [by apply elem_of_nil in Hin|].
    by apply (label_of_wf n labels0). }
  split; [done|]. unfold emitters. rewrite filter_nil. simpl.
  split; [lia|]. unfold committed. by rewrite app_nil_r.
Qed.
Lemma components_split :
length D
= (length (finals n out_edges labels0)
   + length (emitters n labels0 out_edges (leaves n)))%nat.
Proof.
unfold components at 1. unfold finals, emitters.
apply filter_length_split.
- intros x Hx%leaves_elem. rewrite components_elem.
  destruct (decide (F x = x)); tauto.
- intros x [[_ ?] [_ ?]]. done.
Qed.

Lemma components_nonempty : ∃ c, c ∈ D.
Proof.
exists (l0 (n - 1)). apply (label_of_wf n labels0); [done|].
unfold leaf. lia.
Qed.

Lemma finals_nonempty : (1 ≤ length (finals n out_edges labels0))%nat.
Proof.
destruct components_nonempty as [c Hc].
assert (F c ∈ (finals n out_edges labels0)) as Hin.
{ unfold finals. rewrite list_elem_of_filter.
  assert (F c ∈ D) as HF.
  { apply final_component_closed; [apply round_g_closed|done]. }
  split; [split; [done|]|].
  - by apply (final_component_idem g D round_g_closed round_g_cycles).
  - apply leaves_elem. by apply components_elem in HF as [? _]. }
destruct (finals n out_edges labels0); [by apply elem_of_nil in Hin|simpl; lia].
Qed.

Lemma emitters_nonempty :
(1 ≤ length (emitters n labels0 out_edges (leaves n)))%nat.
Proof.
destruct components_nonempty as [c Hc].
assert (∃ x, x ∈ D ∧ F x ≠ x) as (x & Hx & HFx).
{ destruct (decide (F c = c)) as [HF|HF]; [|by exists c].
  exists (g c).
  destruct (round_out_edge c Hc) as (_ & _ & _ & _ & _ & Hgc & HgD & _).
  split; [done|].
  pose proof (proj1 (final_component_id_iff g D round_g_closed
                       round_g_cycles c Hc) HF) as HN.
  intros HFg.
  pose proof (proj1 (final_component_id_iff g D round_g_closed
                       round_g_cycles (g c) HgD) HFg) as HNg.
  destruct (decide (g (g c) = c)) as [H2|H2].
  - rewrite (next_min_of_2cycle g c H2) in HN.
    rewrite (next_min_of_2cycle g (g c)) in HNg by (by rewrite H2).
    rewrite H2 in HNg. lia.
  - rewrite (next_off_cycle g c H2) in HN. done. }
assert (x ∈ emitters n labels0 out_edges (leaves n)) as Hin.
{ unfold emitters. rewrite list_elem_of_filter.
  split; [done|]. apply leaves_elem. by apply components_elem in Hx as [? _]. }
destruct (emitters _ _ _ _); [by apply elem_of_nil in Hin|simpl; lia].
Qed.

(** The labels after the pass: every leaf carries its final component. *)
Lemma pass_labels_wf edges0 k0 s' :
pass_inv n out_edges labels0 edges0 k0 (leaves n) s' →
labels_wf n (u_labels s') ∧ components n (u_labels s') = (finals n out_edges labels0).
Proof.
intros (Hext & Hlab & _).
assert (∀ x, leaf n x → get (u_labels s') x = Ok (F (l0 x))) as Hlab'.
{ intros x Hx. rewrite (Hlab x Hx).
  destruct (decide (x ∈ leaves n)) as [|Hn]; [done|].
  exfalso. by apply Hn, leaves_elem. }
assert (∀ x, leaf n x → F (l0 x) ∈ D ∧ F (F (l0 x)) = F (l0 x)) as HF.
{ intros x Hx.
  destruct (label_of_wf n labels0 x labels0_wf Hx) as [_ HD].
  split.
  - apply final_component_closed; [apply round_g_closed|done].
  - by apply (final_component_idem g D round_g_closed round_g_cycles). }
assert (∀ c, c ∈ D → l0 c = c) as Hl0.
{ intros c Hc. by apply (label_of_representative n labels0). }
split.
- split; [done|]. intros x Hx. exists (F (l0 x)).
  destruct (HF x Hx) as [HD Hidem].
  pose proof HD as [Hleaf _]%components_elem.
  split; [by apply Hlab'|]. split; [done|].
  rewrite Hlab' by done. by rewrite (Hl0 _ HD), Hidem.
- unfold components at 1, finals. apply filter_iff_elem.
  intros x Hx%leaves_elem. rewrite Hlab' by done. split.
  + intros [= Heq]. destruct (HF x Hx) as [HD _]. rewrite Heq in HD.
    split; [done|]. by rewrite (Hl0 _ HD) in Heq.
  + intros [HD Heq]. by rewrite (Hl0 _ HD), Heq.
Qed.
Lemma emitters_elem items c :
c ∈ emitters n labels0 out_edges items ↔ (c ∈ D ∧ F c ≠ c) ∧ c ∈ items.
Proof. unfold emitters. by rewrite list_elem_of_filter. Qed.

(** Two components that merge away in the same round do not append the
  same edge, not even with its end points exchanged: of two components
  that choose each other the lesser one is final. *)
Lemma emitters_edges_distinct items c1 c2 :
c1 ∈ emitters n labels0 out_edges items →
c2 ∈ emitters n labels0 out_edges items →
c1 ≠ c2 →
vertex_pair (out_edge out_edges c1) ≠ vertex_pair (out_edge out_edges c2).
Proof.
intros [[H1 HF1] _]%emitters_elem [[H2 HF2] _]%emitters_elem Hne Hpair.
destruct (round_out_edge c1 H1) as (_ & _ & Hs1 & _ & Ht1 & _ & Hg1 & _).
destruct (round_out_edge c2 H2) as (_ & _ & Hs2 & _ & Ht2 & _ & Hg2 & _).
unfold vertex_pair in Hpair. injection Hpair as Hmin Hmax.
set (e1 := out_edge out_edges c1) in *.
set (e2 := out_edge out_edges c2) in *.
assert ((source e1 = source e2 ∧ target e1 = target e2)
        ∨ (source e1 = target e2 ∧ target e1 = source e2))
  as [[Hs _]|[Hst Hts]] by lia.
- apply Hne. by rewrite <- Hs1, <- Hs2, Hs.
- assert (g c1 = c2) as Hgc1 by (by rewrite <- Ht1, Hts).
  assert (g c2 = c1) as Hgc2 by (by rewrite <- Ht2, <- Hst).
  assert (g (g c1) = c1) as Hcyc1 by (by rewrite Hgc1).
  assert (g (g c2) = c2) as Hcyc2 by (by rewrite Hgc2).
  pose proof (next_min_of_2cycle g c1 Hcyc1) as HN1.
  pose proof (next_min_of_2cycle g c2 Hcyc2) as HN2.
  rewrite Hgc1 in HN1. rewrite Hgc2 in HN2.
  destruct (Z.lt_ge_cases c1 c2).
  + apply HF1.
    apply (final_component_id_iff g D round_g_closed round_g_cycles);
      [done|]. lia.
  + apply HF2.
    apply (final_component_id_iff g D round_g_closed round_g_cycles);
      [done|]. lia.
Qed.

(** The pass as a whole. *)
Lemma updateComponentsAndEdges_round fuel s :
u_labels s = labels0 →
extent (u_edges s) = n - 1 →
u_num_edges s = n - num_components n labels0 →
(Z.to_nat n ≤ fuel)%nat →
let merged := emitters n labels0 out_edges (leaves n) in
∃ s', updateComponentsAndEdges out_edges fuel s = Ok s'
      ∧ labels_wf n (u_labels s')
      ∧ extent (u_edges s') = n - 1
      ∧ u_num_edges s' = n - num_components n (u_labels s')
      ∧ u_num_edges s' = u_num_edges s + Z.of_nat (length merged)
      ∧ committed s' = committed s ++ (out_edge out_edges <$> merged)
      ∧ 1 ≤ num_components n (u_labels s') < num_components n labels0
      ∧ (∀ x, leaf n x → get (u_labels s') x = Ok (F (l0 x))).
Proof.
intros Hlabels Hbuf Hnum Hfuel merged.
pose proof components_split as Hsplit.
pose proof finals_nonempty as Hfin.
pose proof emitters_nonempty as Hem.
assert (length D ≤ Z.to_nat n)%nat as HDn.
{ unfold components. etrans; [apply length_filter|].
  unfold leaves, RangePolicy. rewrite length_seqZ. lia. }
unfold num_components in *.
destruct (updateComponentsAndEdges_pass fuel s)
  as (s' & Hrun & Hinv); [done|done|lia..|].
destruct (pass_labels_wf _ _ _ Hinv) as [Hwf Hcomp].
pose proof Hinv as (_ & Hlab & Hbuf' & Hnum' & Hcom').
exists s'. fold merged in Hnum', Hcom', Hsplit, Hem.
split; [done|]. split; [done|]. split; [done|].
rewrite Hcomp.
split; [lia|]. split; [done|]. split; [done|]. split; [lia|].
intros x Hx. rewrite (Hlab x Hx).
destruct (decide (x ∈ leaves n)) as [|Hn]; [done|].
exfalso. by apply Hn, leaves_elem.
Qed.
End Round.

(** ** Least outgoing edges give cycles of length two *)

Lemma edge_key_lt_neg_trans a b c :
  edge_key_lt a c → edge_key_lt a b ∨ edge_key_lt b c.
Proof.
  unfold edge_key_lt.
  destruct (key_lt_total (float_key (weight a)) (float_key (weight b)))
    as [Hab|[Hab|Hab]]; [by left; left| |].
  - rewrite Hab. intros [Hac|[Hac Hp]]; [by right; left|].
    rewrite <- Hac.
    destruct (Z.lt_total (Z.min (source a) (target a))
                         (Z.min (source b) (target b))) as [?|[?|?]];
      [left; right; split; [done|lia]| |right; right; split; [done|lia]].
    destruct (Z.lt_total (Z.max (source a) (target a))
                         (Z.max (source b) (target b))) as [?|[?|?]];
      [left; right; split; [done|lia]
      |right; right; split; [done|lia]
      |right; right; split; [done|lia]].
  - intros [Hac|[Hac _]]; right; left.
    + by eapply key_lt_trans.
    + by rewrite <- Hac.
Qed.

Lemma WeightedEdge_lt_neg_trans a b c :
  not_nan (weight b) →
  WeightedEdge_lt a c = true →
  WeightedEdge_lt a b = true ∨ WeightedEdge_lt b c = true.
Proof.
  intros Hb. rewrite !WeightedEdge_lt_key. intros (Ha & Hc & Hac).
  destruct (edge_key_lt_neg_trans a b c Hac); [left|right]; done.
Qed.

(** The comparison looks at the weight and at the unordered pair of
    vertices only. *)
Lemma WeightedEdge_lt_reverse u v x e :
  WeightedEdge_lt (mkEdge u v x) e = WeightedEdge_lt (mkEdge v u x) e.
Proof.
  unfold WeightedEdge_lt. simpl.
  by rewrite (Z.min_comm u v), (Z.max_comm u v).
Qed.

Section MinOutgoing.
Variable n : Z.
Variable labels : list Z.
Variable w : Z → Z → float.
Variable out_edges : list WeightedEdge.
Hypothesis labels_ok : labels_wf n labels.
Hypothesis min_edges : stores_min_outgoing_edges n labels w out_edges.

Local Abbreviation D := (components n labels).
Local Abbreviation g := (successor out_edges labels).
Local Abbreviation e_of := (out_edge out_edges).

Lemma min_out_edge c :
c ∈ D →
leaf n (source (e_of c)) ∧ get labels (source (e_of c)) = Ok c
∧ leaf n (target (e_of c)) ∧ get labels (target (e_of c)) = Ok (g c)
∧ g c ≠ c ∧ g c ∈ D
∧ out_label out_edges labels c = Ok (g c)
∧ not_nan (weight (e_of c))
∧ e_of c = mkEdge (source (e_of c)) (target (e_of c))
                  (w (source (e_of c)) (target (e_of c)))
∧ ∀ u v, leaf n u → leaf n v →
         get labels u = Ok c → get labels v ≠ Ok c →
         WeightedEdge_lt (mkEdge u v (w u v)) (e_of c) = false.
Proof.
intros Hc. destruct min_edges as (Hext & Hsym & Hnan & Hmin).
destruct (Hmin c Hc) as (e & He & Hsl & Hs & Htl & Ht & Hw & Hleast).
unfold out_edge. rewrite Hext, He. simpl.
destruct (label_of_wf n labels (target e) labels_ok Htl) as [Hlt Hin].
assert (out_label out_edges labels c = Ok (label_of labels (target e)))
  as Hout.
{ unfold out_label. rewrite Hext, He. simpl. done. }
assert (g c = label_of labels (target e)) as Hg.
{ unfold successor. by rewrite Hout. }
rewrite Hg.
split; [done|]. split; [done|]. split; [done|]. split; [done|].
split; [intros Heq; apply Ht; by rewrite Hlt, Heq|].
split; [done|]. split; [done|].
split; [rewrite Hw; apply Hnan|].
split; [destruct e; simpl in *; by rewrite Hw|done].
Qed.

(** The edge of the successor is not above the edge of the component. *)
Lemma successor_edge_not_above c :
c ∈ D → WeightedEdge_lt (e_of c) (e_of (g c)) = false.
Proof.
intros Hc.
destruct (min_out_edge c Hc)
  as (Hsl & Hs & Htl & Ht & Hne & HgD & _ & _ & Heq & _).
destruct (min_out_edge (g c) HgD) as (_ & _ & _ & _ & _ & _ & _ & _ & _ & Hl).
destruct min_edges as (_ & Hsym & _).
rewrite Heq, WeightedEdge_lt_reverse, Hsym.
apply Hl; [done|done|done|]. rewrite Hs. intros [= ?]. done.
Qed.

Lemma iter_successor_closed j c : c ∈ D → Nat.iter j g c ∈ D.
Proof.
intros Hc. induction j as [|j IH]; [done|]. simpl.
by apply min_out_edge.
Qed.

Lemma iter_successor_edge_not_above j c :
c ∈ D → WeightedEdge_lt (e_of c) (e_of (Nat.iter j g c)) = false.
Proof.
intros Hc. induction j as [|j IH]; simpl.
- apply WeightedEdge_lt_irrefl.
- pose proof (iter_successor_closed j c Hc) as HjD.
  pose proof (successor_edge_not_above _ HjD) as Hstep.
  destruct (WeightedEdge_lt (e_of c) (e_of (g (Nat.iter j g c))))
    eqn:Hlt; [|done].
  destruct (WeightedEdge_lt_neg_trans (e_of c) (e_of (Nat.iter j g c))
              (e_of (g (Nat.iter j g c)))) as [H|H];
    [by apply min_out_edge|done|congruence..].
Qed.

(** Every cycle of the component graph has length two. *)
Lemma min_outgoing_cycles c k :
c ∈ D → (0 < k)%nat → Nat.iter k g c = c → g (g c) = c.
Proof.
intros Hc Hk Hcyc.
destruct (min_out_edge c Hc)
  as (Hsl & Hs & Htl & Ht & Hne & HgD & _ & Hnan & _).
destruct (min_out_edge (g c) HgD)
  as (Hsl' & Hs' & Htl' & Ht' & Hne' & HggD & _ & Hnan' & _).
pose proof (successor_edge_not_above c Hc) as H1.
assert (WeightedEdge_lt (e_of (g c)) (e_of c) = false) as H2.
{ destruct k as [|k]; [lia|].
  pose proof (iter_successor_edge_not_above k (g c) HgD) as H.
  rewrite <- Nat.iter_succ_r, Hcyc in H. done. }
assert (vertex_pair (e_of c) = vertex_pair (e_of (g c))) as Hpair.
{ destruct (decide (vertex_pair (e_of c) = vertex_pair (e_of (g c))))
    as [|Hd]; [done|].
  destruct (WeightedEdge_lt_total (e_of c) (e_of (g c)) Hnan Hnan');
    [by right|congruence..]. }
unfold vertex_pair in Hpair. injection Hpair as Hmin Hmax.
assert ((source (e_of c) = source (e_of (g c))
         ∧ target (e_of c) = target (e_of (g c)))
        ∨ (source (e_of c) = target (e_of (g c))
           ∧ target (e_of c) = source (e_of (g c))))
  as [[Heq _]|[Heq _]] by lia.
- exfalso. apply Hne. rewrite Heq, Hs' in Hs. by injection Hs.
- rewrite <- Heq, Hs in Ht'. by injection Ht'.
Qed.

(** A table of least outgoing edges is a well-formed table of a round. *)
Lemma min_outgoing_round_table_ok : round_table_ok n labels out_edges.
Proof.
pose proof min_edges as (Hext & _ & _ & Hmin).
split; [done|]. split.
- intros c Hc.
  destruct (Hmin c Hc) as (e & He & Hsl & Hs & Htl & Ht & _).
  by exists e.
- intros c k Hc Hk Hit.
  assert (∀ x, x ∈ D →
            ∃ y, out_label out_edges labels x = Ok y ∧ y ∈ D) as Hclosed.
  { intros x Hx. exists (g x). split; by apply min_out_edge. }
  rewrite (iterate_out_label _ _ D Hclosed) in Hit by done.
  rewrite (iterate_out_label _ _ D Hclosed) by done.
  injection Hit as Hit. f_equal. simpl.
  by apply (min_outgoing_cycles c k).
Qed.
End MinOutgoing.

(** ** Appending the edges of a round *)

(** What one item of the update kernel does to the buffer of edges,
    whatever the state. *)
Lemma UpdateComponentsAndEdges_op_appends out_edges fuel i s1 s2 :
  UpdateComponentsAndEdges_op out_edges fuel i s1 = Ok s2 →
  ∃ component final,
    get (u_labels s1) i = Ok component
    ∧ computeFinalComponent out_edges fuel (u_labels s1) component = Ok final
    ∧ ((i = component ∧ i ≠ final
        ∧ u_num_edges s2 = u_num_edges s1 + 1
        ∧ ∃ e, get out_edges (slot (extent out_edges) i) = Ok e
               ∧ set (u_edges s1) (u_num_edges s1) e = Ok (u_edges s2))
       ∨ (¬ (i = component ∧ i ≠ final)
          ∧ u_num_edges s2 = u_num_edges s1 ∧ u_edges s2 = u_edges s1)).
Proof.
  unfold UpdateComponentsAndEdges_op.
  intros (component & Hc & H)%bind_Ok.
  apply bind_Ok in H as (final & Hf & H).
  apply bind_Ok in H as (labels' & Hl & H).
  exists component, final. split; [done|]. split; [done|].
  destruct (Z.eqb_spec i component) as [Heq|Hne]; simpl in H.
  - destruct (Z.eqb_spec i final) as [Heqf|Hnef]; simpl in H.
    + injection H as <-. simpl. right. split; [|done]. intros (_ & ?). done.
    + apply bind_Ok in H as (e & He & H).
      apply bind_Ok in H as (edges' & Hset & H). injection H as <-. simpl.
      left. split; [done|]. split; [done|]. split; [done|]. by exists e.
  - injection H as <-. simpl. right. split; [|done]. intros (? & _). done.
Qed.

(** C4. An item of the update pass appends an edge exactly when its leaf
    equals its label from before the rewrite and differs from the final
    component. In a round whose table of edges is well formed the pass
    returns; the edges appended are those of the components that merged
    into another one, each once; their number is the number of components
    before the round minus the number after it; and no two components
    append the same edge, not even with its end points exchanged. *)
Theorem update_appends_edge_of_each_merged_component
  (n : Z) (out_edges : list WeightedEdge) (fuel : nat) (s : UpdateState) :
  1 ≤ n → 2 * n - 1 < size_t_modulus →
  labels_wf n (u_labels s) →
  round_table_ok n (u_labels s) out_edges →
  extent (u_edges s) = n - 1 →
  u_num_edges s = n - num_components n (u_labels s) →
  (Z.to_nat n ≤ fuel)%nat →
  let merged := emitters n (u_labels s) out_edges (leaves n) in
  (∀ i s1 s2,
     UpdateComponentsAndEdges_op out_edges fuel i s1 = Ok s2 →
     ∃ component final,
       get (u_labels s1) i = Ok component
       ∧ computeFinalComponent out_edges fuel (u_labels s1) component
         = Ok final
       ∧ ((i = component ∧ i ≠ final
           ∧ u_num_edges s2 = u_num_edges s1 + 1
           ∧ ∃ e, get out_edges (slot (extent out_edges) i) = Ok e
                  ∧ set (u_edges s1) (u_num_edges s1) e = Ok (u_edges s2))
          ∨ (¬ (i = component ∧ i ≠ final)
             ∧ u_num_edges s2 = u_num_edges s1 ∧ u_edges s2 = u_edges s1)))
  ∧ ∃ s',
      updateComponentsAndEdges out_edges fuel s = Ok s'
      ∧ committed s' = committed s ++ (out_edge out_edges <$> merged)
      ∧ u_num_edges s' - u_num_edges s = Z.of_nat (length merged)
      ∧ u_num_edges s' - u_num_edges s
        = num_components n (u_labels s) - num_components n (u_labels s')
      ∧ (∀ c, c ∈ merged ↔
              leaf n c ∧ get (u_labels s) c = Ok c
              ∧ get (u_labels s') c ≠ Ok c)
      ∧ NoDup merged
      ∧ ∀ c1 c2, c1 ∈ merged → c2 ∈ merged → c1 ≠ c2 →
                 vertex_pair (out_edge out_edges c1)
                 ≠ vertex_pair (out_edge out_edges c2).
Proof.
  intros Hn Hsmall Hwf Htab Hbuf Hnum Hfuel merged.
  split; [intros i s1 s2; apply UpdateComponentsAndEdges_op_appends|].
  destruct (updateComponentsAndEdges_round n out_edges (u_labels s)
              Hsmall Hwf Htab Hn fuel s eq_refl Hbuf Hnum Hfuel)
    as (s' & Hrun & Hwf' & Hbuf' & Hnum' & Hadd & Hcom & Hcount & Hlab').
  fold merged in Hadd, Hcom.
  exists s'. split; [done|]. split; [done|]. split; [lia|]. split; [lia|].
  split; [|split].
  - intros c. unfold merged.
    rewrite (emitters_elem n out_edges (u_labels s)), leaves_elem,
      components_elem.
    split.
    + intros [[[Hleaf Hrep] HF] _]. split; [done|]. split; [done|].
      rewrite (Hlab' c Hleaf). unfold label_of. rewrite Hrep.
      by intros [= ?].
    + intros (Hleaf & Hrep & Hne). split; [|done]. split; [done|].
      intros HF. apply Hne. rewrite (Hlab' c Hleaf).
      unfold label_of. rewrite Hrep. by rewrite HF.
  - apply NoDup_filter, leaves_NoDup.
  - intros c1 c2. by apply (emitters_edges_distinct n out_edges (u_labels s)).
Qed.

Lemma example_labels_wf : labels_wf 3 example_labels.
Proof.
  split; [reflexivity|]. intros i Hi.
  assert (i = 2 ∨ i = 3 ∨ i = 4) as [-> | [-> | ->]]
    by (unfold leaf in Hi; lia);
    eexists; (split; [reflexivity|]); split; (done || unfold leaf; lia).
Qed.

Lemma example_round_table_ok :
  round_table_ok 3 example_labels example_out_edges.
Proof.
  split; [reflexivity|]. split.
  - intros c Hc. change (c ∈ [2; 3; 4]) in Hc.
    rewrite !elem_of_cons, elem_of_nil in Hc.
    destruct Hc as [-> | [-> | [-> | []]]]; eexists;
      (split; [reflexivity|]); unfold leaf; simpl;
      split_and!; try lia; done.
  - intros c k Hc Hk Hit. change (c ∈ [2; 3; 4]) in Hc.
    rewrite !elem_of_cons, elem_of_nil in Hc.
    destruct Hc as [-> | [-> | [-> | []]]]; [reflexivity|reflexivity|].
    exfalso. destruct k as [|k]; [lia|].
    change (iterate (out_label example_out_edges example_labels) (S k) 4)
      with (iterate (out_label example_out_edges example_labels) k 3) in Hit.
    destruct (example_cycle k) as [_ [H|H]]; rewrite H in Hit; discriminate.
Qed.

Lemma update_appends_edge_of_each_merged_component_witness :
  updateComponentsAndEdges example_out_edges 3
    {| u_labels := example_labels;
       u_edges := [uninitialized_edge; uninitialized_edge];
       u_num_edges := 0 |}
  = Ok {| u_labels := [-1; -1; 2; 2; 2];
          u_edges := [mkEdge 3 2 one_float; mkEdge 4 3 two_float];
          u_num_edges := 2 |}.
Proof.
  destruct (update_appends_edge_of_each_merged_component 3 example_out_edges
              3 {| u_labels := example_labels;
                   u_edges := [uninitialized_edge; uninitialized_edge];
                   u_num_edges := 0 |})
    as (_ & s' & Hrun & _).
  - lia.
  - unfold size_t_modulus. lia.
  - apply example_labels_wf.
  - apply example_round_table_ok.
  - reflexivity.
  - reflexivity.
  - simpl. lia.
  - rewrite Hrun. vm_compute in Hrun. by injection Hrun as <-.
Defined.

(** ** Termination of the walk to the final component *)

(** C9. Let the components be closed under the successor
    [c -> label(target(component_out_edges[c]))] and let every cycle of this
    successor have length at most two. Then the chain of next components
    from [c] reaches a fixed point of [computeNextComponent] after [k] steps
    with [k] less than the number of components, and
    [computeFinalComponent] returns it. Both assumptions hold whenever the
    table stores for every component a least edge, in the order
    [operator<], among the edges that leave the component. *)
Theorem computeFinalComponent_terminates
  (out_edges : list WeightedEdge) (labels : list Z) :
  (∀ components c,
     NoDup components → c ∈ components →
     (∀ x, x ∈ components →
           ∃ y, out_label out_edges labels x = Ok y ∧ y ∈ components) →
     (∀ x k, x ∈ components → (0 < k)%nat →
             iterate (out_label out_edges labels) k x = Ok x →
             iterate (out_label out_edges labels) 2 x = Ok x) →
     ∃ k f,
       (k < length components)%nat
       ∧ iterate (computeNextComponent out_edges labels) k c = Ok f
       ∧ computeNextComponent out_edges labels f = Ok f
       ∧ (∀ j x, (j < k)%nat →
                 iterate (computeNextComponent out_edges labels) j c = Ok x →
                 computeNextComponent out_edges labels x ≠ Ok x)
       ∧ ∀ fuel, (length components ≤ fuel)%nat →
                 computeFinalComponent out_edges fuel labels c = Ok f)
  ∧ (∀ n w,
       labels_wf n labels →
       stores_min_outgoing_edges n labels w out_edges →
       NoDup (components n labels)
       ∧ (∀ x, x ∈ components n labels →
               ∃ y, out_label out_edges labels x = Ok y
                    ∧ y ∈ components n labels)
       ∧ ∀ x k, x ∈ components n labels → (0 < k)%nat →
                iterate (out_label out_edges labels) k x = Ok x →
                iterate (out_label out_edges labels) 2 x = Ok x).
Proof.
  split.
  - intros components c. apply final_component_walk.
  - intros n w Hwf Hmin.
    pose proof (min_outgoing_round_table_ok n labels w out_edges Hwf Hmin)
      as (_ & _ & Hcyc).
    split; [apply NoDup_filter, NoDup_seqZ|]. split; [|done].
    intros x Hx. exists (successor out_edges labels x).
    split; by apply (min_out_edge n labels w out_edges Hwf Hmin x).
Qed.

Lemma example_weight_sym u v : example_weight u v = example_weight v u.
Proof. unfold example_weight. by rewrite Z.min_comm, Z.max_comm. Qed.

Lemma example_weight_not_nan u v : not_nan (example_weight u v).
Proof. unfold example_weight. by repeat case_match. Qed.

Lemma example_stores_min_outgoing_edges :
  stores_min_outgoing_edges 3 example_labels example_weight example_out_edges.
Proof.
  split; [reflexivity|]. split; [apply example_weight_sym|].
  split; [apply example_weight_not_nan|].
  intros c Hc.
  assert (c = 2 ∨ c = 3 ∨ c = 4) as Hcases.
  { apply list_elem_of_filter in Hc as [_ Hc].
    apply RangePolicy_elem in Hc. lia. }
  assert (∀ u, leaf 3 u → u = 2 ∨ u = 3 ∨ u = 4) as Hleaf.
  { unfold leaf. lia. }
  destruct Hcases as [-> | [-> | ->]]; eexists;
    (split; [reflexivity|]); simpl;
    (split; [unfold leaf; lia|]); (split; [reflexivity|]);
    (split; [unfold leaf; lia|]); (split; [by intros [=]|]);
    (split; [reflexivity|]);
    intros u v [-> | [-> | ->]]%Hleaf [-> | [-> | ->]]%Hleaf Hu Hv;
    try discriminate Hu; try (exfalso; by apply Hv); reflexivity.
Qed.

Lemma computeFinalComponent_terminates_witness :
  computeFinalComponent example_out_edges 3 example_labels 4 = Ok 2.
Proof.
  destruct (computeFinalComponent_terminates example_out_edges example_labels)
    as [Hwalk Hmin].
  destruct (Hmin 3 example_weight example_labels_wf
              example_stores_min_outgoing_edges) as (Hnd & Hclosed & Hcyc).
  destruct (Hwalk (components 3 example_labels) 4 Hnd) as
    (k & f & _ & _ & _ & _ & Hrun); [|done|done|].
  - apply list_elem_of_filter. split; [reflexivity|].
    apply RangePolicy_elem. lia.
  - specialize (Hrun 3%nat (Nat.le_refl _)).
    rewrite Hrun. vm_compute in Hrun. by injection Hrun as <-.
Defined.

(** ** The driver *)

Lemma finalizeEdges_op_spec bvh i edges e :
  get edges i = Ok e →
  finalizeEdges_op bvh i edges = Ok (<[Z.to_nat i := depermute bvh e]> edges).
Proof.
  intros He. pose proof (get_Ok_lt _ _ _ He) as Hi.
  unfold finalizeEdges_op. rewrite He. simpl.
  rewrite set_is_Ok by done. simpl.
  rewrite get_insert_eq by done. simpl.
  rewrite set_is_Ok by (by rewrite extent_insert). simpl.
  by rewrite list_insert_insert_eq.
Qed.

(** [finalizeEdges] maps both end points of every edge through the
    permutation of the leaves. *)
Lemma finalizeEdges_spec bvh edges :
  0 ≤ bvh_size bvh - 1 < size_t_modulus →
  extent edges = bvh_size bvh - 1 →
  finalizeEdges bvh edges = Ok (depermute bvh <$> edges).
Proof.
  intros Hn Hext. unfold finalizeEdges.
  rewrite Hext, Z.mod_small, Z.eqb_refl by done. simpl.
  unfold parallel_for.
  destruct (for_each_prefix (finalizeEdges_op bvh)
              (fun done st =>
                 extent st = extent edges
                 ∧ ∀ k e, get edges k = Ok e →
                     get st k = Ok (if decide (k ∈ done) then depermute bvh e
                                    else e))
              (RangePolicy 0 (bvh_size bvh - 1)) edges)
    as (st & -> & Hlen & Hst).
  - intros done i rest st Hitems [Hlen Hst].
    assert (0 ≤ i < extent edges) as Hi.
    { rewrite Hext.
      assert (i ∈ RangePolicy 0 (bvh_size bvh - 1)) as Hin.
      { rewrite Hitems, elem_of_app, elem_of_cons. auto. }
      apply RangePolicy_elem in Hin. lia. }
    assert (i ∉ done) as Hfresh.
    { pose proof (NoDup_seqZ 0 (bvh_size bvh - 1 - 0)) as Hnd.
      fold (RangePolicy 0 (bvh_size bvh - 1)) in Hnd. rewrite Hitems in Hnd.
      apply NoDup_app in Hnd as (_ & Hnd & _). intros Hin.
      apply (Hnd i Hin). by left. }
    destruct (get_is_Ok edges i Hi) as [e He].
    pose proof (Hst i e He) as Hget.
    destruct (decide (i ∈ done)); [done|].
    rewrite (finalizeEdges_op_spec bvh i st e Hget).
    eexists. split; [done|]. split; [by rewrite extent_insert|].
    intros k ek Hk. destruct (decide (k = i)) as [->|Hne].
    + rewrite get_insert_eq by lia.
      assert (ek = e) as -> by congruence.
      destruct (decide (i ∈ done ++ [i])) as [|Hni]; [done|].
      exfalso. apply Hni. rewrite elem_of_app, list_elem_of_singleton. auto.
    + rewrite get_insert_ne by lia. rewrite (Hst k ek Hk).
      destruct (decide (k ∈ done)) as [Hd|Hd],
        (decide (k ∈ done ++ [i])) as [Hd'|Hd']; try done.
      * exfalso. apply Hd'. rewrite elem_of_app. auto.
      * exfalso. rewrite elem_of_app, list_elem_of_singleton in Hd'.
        destruct Hd'; done.
  - split; [done|]. intros k e He.
    destruct (decide (k ∈ [])) as [Hin|_]; [by apply elem_of_nil in Hin|done].
  - f_equal. apply list_eq. intros j. rewrite list_lookup_fmap.
    destruct (edges !! j) as [e|] eqn:Hj; simpl.
    + assert (get edges (Z.of_nat j) = Ok e) as He.
      { apply get_Ok. split; [lia|]. by rewrite Nat2Z.id. }
      pose proof (Hst _ e He) as Hget.
      destruct (decide (Z.of_nat j ∈ RangePolicy 0 (bvh_size bvh - 1)))
        as [_|Hnj].
      * apply get_Ok in Hget as [_ Hget]. by rewrite Nat2Z.id in Hget.
      * exfalso. apply Hnj, RangePolicy_elem.
        apply get_Ok_lt in He. lia.
    + apply lookup_ge_None. apply lookup_ge_None in Hj.
      unfold extent in Hlen. lia.
Qed.

Lemma for_each_preserves {S : Type} (body : Z → S → res S)
  (R : S → S → Prop) (items : list Z) (s s' : S) :
  (∀ a, R a a) → (∀ a b c, R a b → R b c → R a c) →
  (∀ i a b, body i a = Ok b → R a b) →
  for_each body items s = Ok s' → R s s'.
Proof.
  intros Hrefl Htrans Hbody. revert s.
  induction items as [|i items IH]; intros s; simpl.
  - intros [= ->]. apply Hrefl.
  - intros (s1 & Hs1 & Hrest)%bind_Ok.
    eapply Htrans; [by eapply Hbody|by apply IH].
Qed.

(** The counter of edges never decreases. *)
Lemma updateComponentsAndEdges_monotone out_edges fuel s s' :
  updateComponentsAndEdges out_edges fuel s = Ok s' →
  u_num_edges s ≤ u_num_edges s'.
Proof.
  unfold updateComponentsAndEdges.
  intros (_ & _ & H)%bind_Ok. apply bind_Ok in H as (_ & _ & H).
  apply (for_each_preserves _ (fun a b => u_num_edges a ≤ u_num_edges b))
    in H; [done|intros; lia|intros; lia|].
  intros i a b Hop.
  destruct (UpdateComponentsAndEdges_op_appends _ _ _ _ _ Hop)
    as (c & f & _ & _ & [(_ & _ & -> & _)|(_ & -> & _)]); lia.
Qed.

Lemma Boruvka_round_monotone reduceLabels device fuel bvh metric parents
  s s' :
  Boruvka_round reduceLabels device fuel bvh metric parents s = Ok s' →
  u_num_edges s ≤ u_num_edges s'.
Proof.
  unfold Boruvka_round. intros ([E radii] & _ & H)%bind_Ok.
  by apply updateComponentsAndEdges_monotone in H.
Qed.

Lemma components_ext n labels labels' :
  (∀ x, leaf n x → get labels' x = get labels x) →
  components n labels' = components n labels.
Proof.
  intros H. unfold components. apply filter_iff_elem.
  intros x Hx%leaves_elem. by rewrite H.
Qed.

Lemma labels_wf_ext n labels labels' :
  extent labels' = extent labels →
  (∀ x, leaf n x → get labels' x = get labels x) →
  labels_wf n labels → labels_wf n labels'.
Proof.
  intros Hext H [Hlen Hwf]. split; [congruence|].
  intros i Hi. destruct (Hwf i Hi) as (c & Hc & Hleaf & Hrep).
  exists c. by rewrite !H.
Qed.

Section Driver.
Variable reduceLabels : list Z → list Z → list Z.
Variable device : bool.
Variable fuel : nat.
Variable bvh : BVH.
Variable metric : Metric.
Variable parents : list Z.

Let n := bvh_size bvh.

Hypothesis n_two : 2 ≤ n.
Hypothesis n_small : 2 * n - 1 < size_t_modulus.
Hypothesis fuel_enough : (Z.to_nat n ≤ fuel)%nat.
Hypothesis reduce_keeps : keeps_leaf_labels n (reduceLabels parents).
Hypothesis round_edges :
∀ labels,
  labels_wf n labels → 2 ≤ num_components n labels →
  ∃ out_edges radii,
    nearest_neighbors_round device fuel bvh metric
                            (reduceLabels parents labels)
    = Ok (out_edges, radii)
    ∧ round_table_ok n (reduceLabels parents labels) out_edges.

Lemma Boruvka_round_spec s :
Boruvka_inv n s → 2 ≤ num_components n (u_labels s) →
∃ s', Boruvka_round reduceLabels device fuel bvh metric parents s = Ok s'
      ∧ Boruvka_inv n s'
      ∧ 1 ≤ num_components n (u_labels s')
        < num_components n (u_labels s)
      ∧ u_num_edges s < u_num_edges s'.
Proof.
intros (Hwf & Hbuf & Hnum & Hcom) Hnc.
destruct (round_edges (u_labels s) Hwf Hnc) as (E & radii & Hfind & Htab).
destruct (reduce_keeps (u_labels s)) as [Hext Hleaves].
set (labels1 := reduceLabels parents (u_labels s)) in *.
assert (labels_wf n labels1) as Hwf1 by (by eapply labels_wf_ext).
assert (components n labels1 = components n (u_labels s)) as Hcomp.
{ by apply components_ext. }
unfold Boruvka_round. fold labels1. rewrite Hfind. simpl.
set (s1 := {| u_labels := labels1; u_edges := u_edges s;
              u_num_edges := u_num_edges s |}).
destruct (updateComponentsAndEdges_round n E labels1 n_small Hwf1 Htab
            ltac:(lia) fuel s1)
  as (s' & Hrun & Hwf' & Hbuf' & Hnum' & Hadd & Hcom' & Hcount & _);
  [done|done| |done|].
{ simpl. unfold num_components. by rewrite Hcomp. }
exists s'. split; [done|].
unfold num_components in *. rewrite Hcomp in Hcount.
split; [|split; [done|simpl in *; lia]].
split; [done|]. split; [done|]. split; [done|].
intros e. rewrite Hcom'. change (committed s1) with (committed s).
rewrite elem_of_app. intros [He|He]; [by apply Hcom|].
apply list_elem_of_fmap in He as (c & -> & Hc).
apply (emitters_elem n E labels1) in Hc as [[Hc _] _].
destruct (round_out_edge n E labels1 Hwf1 Htab c Hc)
  as (_ & Hs & _ & Ht & _). done.
Qed.

Lemma Boruvka_loop_spec rounds :
∀ iterations nc s log,
  Boruvka_inv n s → 2 ≤ num_components n (u_labels s) →
  num_components n (u_labels s) ≤ Z.of_nat rounds + 1 →
  ∃ log' s',
    Boruvka_loop reduceLabels device fuel bvh metric rounds parents
                 iterations nc s log = (log', Ok s')
    ∧ Boruvka_inv n s'
    ∧ num_components n (u_labels s') = 1
    ∧ u_num_edges s ≤ u_num_edges s'.
Proof.
induction rounds as [|rounds IH]; intros it nc s log Hinv Hnc Hrounds;
  [lia|].
destruct (Boruvka_round_spec s Hinv Hnc) as (s1 & Hround & Hinv1 & Hc1 & ?).
simpl. unfold M_bind at 1. unfold pushRegion.
unfold M_bind at 1. unfold lift. rewrite Hround.
fold n. destruct Hinv1 as (Hwf1 & Hbuf1 & Hnum1 & Hcom1).
rewrite Hnum1.
replace (n - (n - num_components n (u_labels s1)))
  with (num_components n (u_labels s1)) by lia.
destruct (Z.gtb_spec (num_components n (u_labels s1)) 1) as [Hgt|Hle].
- destruct (IH (it + 1) (num_components n (u_labels s1)) s1
              (log ++ [BoruvkaRegion (it + 1) nc]))
    as (log' & s' & Hloop & Hinv' & Hone & ?); [done|lia|lia|].
  exists log', s'. split; [done|]. split; [done|]. split; [done|lia].
- eexists _, s1. split; [done|]. split; [done|]. split; [lia|lia].
Qed.
End Driver.

Lemma filter_all {A : Type} (P : A → Prop) `{∀ x, Decision (P x)}
  (l : list A) :
  (∀ x, x ∈ l → P x) → filter P l = l.
Proof.
  intros HP. induction l as [|x l IH]; [done|].
  rewrite filter_cons_True by (apply HP; by left).
  f_equal. apply IH. intros y Hy. apply HP. by right.
Qed.

Lemma initial_labels_get n garbage_int x :
  1 ≤ n → leaf n x → get (initial_labels n garbage_int) x = Ok x.
Proof.
  intros Hn Hx. unfold leaf in Hx. apply get_Ok. split; [lia|].
  unfold initial_labels, iota.
  rewrite lookup_app_r by (rewrite length_replicate; lia).
  rewrite length_replicate.
  rewrite lookup_seqZ. split; [|lia]. lia.
Qed.

Lemma initial_labels_wf n garbage_int :
  1 ≤ n →
  labels_wf n (initial_labels n garbage_int)
  ∧ num_components n (initial_labels n garbage_int) = n.
Proof.
  intros Hn. split; [split|].
  - unfold extent, initial_labels, iota.
    rewrite length_app, length_replicate, length_seqZ. lia.
  - intros i Hi. exists i. by rewrite initial_labels_get.
  - unfold num_components, components.
    rewrite filter_all.
    + unfold leaves, RangePolicy. rewrite length_seqZ. lia.
    + intros x Hx%leaves_elem. by apply initial_labels_get.
Qed.

Lemma Boruvka_inv_initial n garbage_int edges :
  1 ≤ n → extent edges = n - 1 →
  Boruvka_inv n {| u_labels := initial_labels n garbage_int;
                   u_edges := edges; u_num_edges := 0 |}.
Proof.
  intros Hn Hext. destruct (initial_labels_wf n garbage_int Hn) as [Hwf Hnc].
  split; [done|]. split; [done|]. simpl. split; [lia|].
  unfold committed. simpl. intros e He. by apply elem_of_nil in He.
Qed.


Example example2_MST_result :
  example2_MST 2 1
  = ([Region "ArborX::MST::MST";
      Region "ArborX::MST::initialize_node_labels";
      Region "ArborX::MST::Boruvka_loop";
      BoruvkaRegion 1 2],
     Ok [mkEdge 1 0 one_float]).
Proof. vm_compute. reflexivity. Qed.

Lemma example2_reduce_keeps parents :
  keeps_leaf_labels 2 (example2_reduceLabels parents).
Proof.
  intros labels. unfold example2_reduceLabels.
  destruct labels as [|a [|b [|c [|d l]]]]; try done.
  split; [done|]. intros x Hx.
  assert (x = 1 ∨ x = 2) as [-> | ->] by (unfold leaf in Hx; lia); done.
Qed.

Lemma example2_labels labels :
  labels_wf 2 labels → 2 ≤ num_components 2 labels →
  ∃ a, labels = [a; 1; 2].
Proof.
  intros [Hext Hwf] Hnc. unfold extent in Hext.
  destruct labels as [|a [|b [|c [|d l]]]]; simpl in Hext; try lia.
  exists a.
  destruct (Hwf 1) as (c1 & H1 & Hl1 & Hr1); [unfold leaf; lia|].
  destruct (Hwf 2) as (c2 & H2 & Hl2 & Hr2); [unfold leaf; lia|].
  injection H1 as <-. injection H2 as <-.
  assert (b = 1 ∨ b = 2) as [-> | ->] by (unfold leaf in Hl1; lia);
    assert (c = 1 ∨ c = 2) as [-> | ->] by (unfold leaf in Hl2; lia);
    try reflexivity;
    try (vm_compute in Hr1; discriminate Hr1);
    try (vm_compute in Hr2; discriminate Hr2);
    exfalso; vm_compute in Hnc; by apply Hnc.
Qed.

Lemma example2_round labels :
  labels_wf 2 labels → 2 ≤ num_components 2 labels →
  ∃ out_edges radii,
    nearest_neighbors_round false 10 example2_bvh Euclidean
                            (example2_reduceLabels [-1; 0; 0] labels)
    = Ok (out_edges, radii)
    ∧ round_table_ok 2 (example2_reduceLabels [-1; 0; 0] labels) out_edges.
Proof.
  intros Hwf Hnc. destruct (example2_labels labels Hwf Hnc) as [a ->].
  exists [mkEdge 1 2 one_float; mkEdge 2 1 one_float], [one_float; one_float].
  split; [reflexivity|].
  split; [reflexivity|]. split.
  - intros c Hc. change (c ∈ [1; 2]) in Hc.
    rewrite !elem_of_cons, elem_of_nil in Hc.
    destruct Hc as [-> | [-> | []]]; eexists;
      (split; [reflexivity|]); unfold leaf; simpl;
      split_and!; try lia; done.
  - intros c k Hc _ _. change (c ∈ [1; 2]) in Hc.
    rewrite !elem_of_cons, elem_of_nil in Hc.
    destruct Hc as [-> | [-> | []]]; reflexivity.
Qed.


(** ** More on a round of merging *)

Lemma connected_mono edges edges' x y :
  (∀ e, e ∈ edges → e ∈ edges') →
  connected edges x y → connected edges' x y.
Proof.
  intros Hsub. induction 1 as [x|e He|x y _ IH|x y z _ IH1 _ IH2].
  - apply connected_refl.
  - by apply connected_edge, Hsub.
  - by apply connected_sym.
  - by apply connected_trans with y.
Qed.

Lemma connected_fmap (f : Z → Z) edges x y :
  connected edges x y →
  connected ((fun e => mkEdge (f (source e)) (f (target e)) (weight e))
               <$> edges) (f x) (f y).
Proof.
  induction 1 as [x|e He|x y _ IH|x y z _ IH1 _ IH2].
  - apply connected_refl.
  - apply (connected_edge _ (mkEdge (f (source e)) (f (target e)) (weight e))).
    apply list_elem_of_fmap. by exists e.
  - by apply connected_sym.
  - by apply connected_trans with (f y).
Qed.

Section RoundMerges.
Variable n : Z.
Variable out_edges : list WeightedEdge.
Variable labels0 : list Z.
Hypothesis n_small : 2 * n - 1 < size_t_modulus.
Hypothesis labels0_wf : labels_wf n labels0.
Hypothesis table_ok : round_table_ok n labels0 out_edges.

Local Abbreviation D := (components n labels0).
Local Abbreviation g := (successor out_edges labels0).
Local Abbreviation N := (next_component_rule (successor out_edges labels0)).
Local Abbreviation F :=
(final_component (successor out_edges labels0) (components n labels0)).
Local Abbreviation l0 := (label_of labels0).
Local Abbreviation merged := (emitters n labels0 out_edges (leaves n)).

Lemma merges_g_closed x : x ∈ D → g x ∈ D.
Proof. by apply (round_g_closed n out_edges labels0). Qed.

Lemma merges_g_cycles x k :
x ∈ D → (0 < k)%nat → Nat.iter k g x = x → g (g x) = x.
Proof. by apply (round_g_cycles n out_edges labels0). Qed.

(** A final component and its successor have chosen each other. *)
Lemma final_successor f :
f ∈ D → F f = f → g (g f) = f ∧ g f ∈ D ∧ F (g f) = f ∧ g f ≠ f.
Proof.
intros Hf HF.
destruct (round_out_edge n out_edges labels0 labels0_wf table_ok f Hf)
  as (_ & _ & _ & _ & _ & Hne & HgD & _).
pose proof (proj1 (final_component_id_iff g D merges_g_closed
                     merges_g_cycles f Hf) HF) as HN.
assert (g (g f) = f) as H2.
{ destruct (decide (g (g f) = f)) as [|H2]; [done|].
  rewrite (next_off_cycle g f H2) in HN. done. }
split; [done|]. split; [done|]. split; [|done].
rewrite (final_component_successor g D merges_g_closed merges_g_cycles)
  by done. done.
Qed.

(** At least as many components merge away as stay. *)
Lemma finals_le_merged :
(length (finals n out_edges labels0) ≤ length merged)%nat.
Proof.
set (fs := finals n out_edges labels0).
assert (∀ f, f ∈ fs → f ∈ D ∧ F f = f) as Hfs.
{ intros f Hf. unfold fs, finals in Hf.
  by apply list_elem_of_filter in Hf as [? _]. }
rewrite <- (length_fmap g fs).
apply submseteq_length, NoDup_submseteq.
- apply NoDup_fmap_2_strong; [|apply NoDup_filter, leaves_NoDup].
  intros f1 f2 [H1 HF1]%Hfs [H2 HF2]%Hfs Heq.
  destruct (final_successor f1 H1 HF1) as (<- & _).
  destruct (final_successor f2 H2 HF2) as (<- & _).
  by rewrite Heq.
- intros c (f & -> & [Hf HF]%Hfs)%list_elem_of_fmap.
  destruct (final_successor f Hf HF) as (_ & HgD & HFg & Hne).
  apply (emitters_elem n out_edges labels0). split.
  + split; [done|]. rewrite HFg. done.
  + apply leaves_elem. by apply components_elem in HgD as [? _].
Qed.

Lemma components_halve :
(2 * length (finals n out_edges labels0) ≤ length D)%nat.
Proof.
pose proof (components_split n out_edges labels0) as Hsplit.
pose proof finals_le_merged. fold merged in Hsplit. lia.
Qed.

(** The edge of a component that merges away joins it to its successor. *)
Lemma merged_edge_joins edges c :
(∀ x, leaf n x → connected edges x (l0 x)) →
c ∈ D → out_edge out_edges c ∈ edges → connected edges c (g c).
Proof.
intros Hold Hc He.
destruct (round_out_edge n out_edges labels0 labels0_wf table_ok c Hc)
  as (_ & Hsl & Hs & Htl & Ht & _).
apply connected_trans with (source (out_edge out_edges c)).
{ apply connected_sym. rewrite <- Hs at 2. by apply Hold. }
apply connected_trans with (target (out_edge out_edges c)).
{ by apply connected_edge. }
rewrite <- Ht. by apply Hold.
Qed.

Lemma next_connected edges c :
(∀ x, leaf n x → connected edges x (l0 x)) →
(∀ c, c ∈ merged → out_edge out_edges c ∈ edges) →
c ∈ D → connected edges c (N c).
Proof.
intros Hold Hnew Hc.
destruct (next_cases g c) as [-> | Hn]; [apply connected_refl|].
destruct (decide (N c = c)) as [-> | Hne]; [apply connected_refl|].
rewrite Hn. apply merged_edge_joins; [done|done|].
apply Hnew, (emitters_elem n out_edges labels0). split.
- split; [done|]. intros HF. apply Hne.
  by apply (final_component_id_iff g D merges_g_closed merges_g_cycles).
- apply leaves_elem. by apply components_elem in Hc as [? _].
Qed.

Lemma final_connected edges c :
(∀ x, leaf n x → connected edges x (l0 x)) →
(∀ c, c ∈ merged → out_edge out_edges c ∈ edges) →
c ∈ D → connected edges c (F c).
Proof.
intros Hold Hnew Hc. unfold final_component.
induction (length D) as [|k IH]; simpl; [apply connected_refl|].
apply connected_trans with (Nat.iter k N c); [done|].
apply next_connected; [done|done|].
by apply walk_closed; [apply merges_g_closed|].
Qed.

(** The leaves of an edge that a round appends end in one component. *)
Lemma merged_edge_same_final c :
c ∈ merged →
F (l0 (source (out_edge out_edges c)))
= F (l0 (target (out_edge out_edges c))).
Proof.
intros [[Hc _] _]%(emitters_elem n out_edges labels0).
destruct (round_out_edge n out_edges labels0 labels0_wf table_ok c Hc)
  as (_ & _ & -> & _ & -> & _).
symmetry.
by apply (final_component_successor g D merges_g_closed merges_g_cycles).
Qed.
End RoundMerges.

(** An item of the update pass writes the label of its own node only. *)
Lemma UpdateComponentsAndEdges_op_labels out_edges fuel i s s' :
  UpdateComponentsAndEdges_op out_edges fuel i s = Ok s' →
  extent (u_labels s') = extent (u_labels s)
  ∧ ∀ x, x ≠ i → get (u_labels s') x = get (u_labels s) x.
Proof.
  unfold UpdateComponentsAndEdges_op.
  intros (component & _ & H)%bind_Ok.
  apply bind_Ok in H as (final & _ & H).
  apply bind_Ok in H as (labels' & [Hi ->]%set_Ok & H).
  assert (u_labels s' = <[Z.to_nat i := final]> (u_labels s)) as ->.
  { destruct (negb (i =? component)); [by injection H as <-|].
    destruct (negb (i =? final)); [|by injection H as <-].
    apply bind_Ok in H as (e & _ & H).
    apply bind_Ok in H as (edges' & _ & H). by injection H as <-. }
  split; [apply extent_insert|].
  intros x Hx. apply get_insert_ne; [lia|done].
Qed.

Lemma updateComponentsAndEdges_labels out_edges fuel s s' :
  updateComponentsAndEdges out_edges fuel s = Ok s' →
  ∀ x, ¬ leaf (extent out_edges) x →
       get (u_labels s') x = get (u_labels s) x.
Proof.
  unfold updateComponentsAndEdges.
  intros (_ & _ & H)%bind_Ok. apply bind_Ok in H as (_ & _ & H).
  unfold parallel_for in H. intros x Hx.
  assert (x ∉ RangePolicy (extent out_edges - 1) (2 * extent out_edges - 1))
    as Hnot.
  { rewrite RangePolicy_elem. unfold leaf in Hx. lia. }
  revert s H Hnot.
  induction (RangePolicy (extent out_edges - 1) (2 * extent out_edges - 1))
    as [|i items IH]; intros s H Hnot; simpl in H.
  - by injection H as <-.
  - apply bind_Ok in H as (s1 & Hop & H).
    apply not_elem_of_cons in Hnot as [Hxi Hnot].
    rewrite (IH s1 H Hnot).
    by apply (UpdateComponentsAndEdges_op_labels _ _ _ _ _ Hop).
Qed.

Section RoundResult.
Variable n : Z.
Variable out_edges : list WeightedEdge.
Variable labels0 : list Z.
Hypothesis n_small : 2 * n - 1 < size_t_modulus.
Hypothesis labels0_wf : labels_wf n labels0.
Hypothesis table_ok : round_table_ok n labels0 out_edges.
Hypothesis n_pos : 1 ≤ n.

Local Abbreviation D := (components n labels0).
Local Abbreviation g := (successor out_edges labels0).
Local Abbreviation F :=
(final_component (successor out_edges labels0) (components n labels0)).
Local Abbreviation l0 := (label_of labels0).
Local Abbreviation merged := (emitters n labels0 out_edges (leaves n)).

(** The pass, with the components that are left and the paths along the
  edges written. *)
Lemma updateComponentsAndEdges_merges fuel s :
u_labels s = labels0 →
extent (u_edges s) = n - 1 →
u_num_edges s = n - num_components n labels0 →
(Z.to_nat n ≤ fuel)%nat →
∃ s', updateComponentsAndEdges out_edges fuel s = Ok s'
      ∧ labels_wf n (u_labels s')
      ∧ extent (u_edges s') = n - 1
      ∧ u_num_edges s' = n - num_components n (u_labels s')
      ∧ u_num_edges s < u_num_edges s'
      ∧ committed s' = committed s ++ (out_edge out_edges <$> merged)
      ∧ 1 ≤ num_components n (u_labels s')
      ∧ 2 * num_components n (u_labels s') ≤ num_components n labels0
      ∧ (∀ x, leaf n x → get (u_labels s') x = Ok (F (l0 x)))
      ∧ (spanning_inv n s → spanning_inv n s').
Proof.
intros Hlabels Hbuf Hnum Hfuel.
destruct (updateComponentsAndEdges_round n out_edges labels0 n_small
            labels0_wf table_ok n_pos fuel s Hlabels Hbuf Hnum Hfuel)
  as (s' & Hrun & Hwf' & Hbuf' & Hnum' & Hadd & Hcom & Hcount & Hlab').
assert (components n (u_labels s') = finals n out_edges labels0) as Hcomp.
{ unfold components at 1, finals. apply filter_iff_elem.
  intros x Hx%leaves_elem. rewrite Hlab' by done.
  destruct (label_of_wf n labels0 x labels0_wf Hx) as [_ HlD].
  split.
  - intros [= Heq].
    assert (x ∈ D) as HxD.
    { rewrite <- Heq. apply final_component_closed; [|done].
      by apply (round_g_closed n out_edges labels0). }
    split; [done|].
    by rewrite (label_of_representative n labels0 x HxD) in Heq.
  - intros [HxD Heq].
    by rewrite (label_of_representative n labels0 x HxD), Heq. }
pose proof (components_halve n out_edges labels0 labels0_wf table_ok)
  as Hhalf.
pose proof (emitters_nonempty n out_edges labels0 labels0_wf table_ok n_pos)
  as Hem.
exists s'. split; [done|]. split; [done|]. split; [done|]. split; [done|].
split; [lia|]. split; [done|]. split; [lia|].
split; [unfold num_components; rewrite Hcomp; lia|].
split; [done|].
intros Hspan x Hx. unfold label_of at 1. rewrite (Hlab' x Hx).
assert (∀ y, leaf n y → connected (committed s') y (l0 y)) as Hold.
{ intros y Hy. apply (connected_mono (committed s)).
  - intros e He. rewrite Hcom, elem_of_app. by left.
  - specialize (Hspan y Hy). by rewrite Hlabels in Hspan. }
apply connected_trans with (l0 x); [by apply Hold|].
apply (final_connected n out_edges labels0); try done.
- intros c Hc. rewrite Hcom, elem_of_app. right.
  by apply list_elem_of_fmap_2.
- by apply (label_of_wf n labels0).
Qed.
End RoundResult.

(** ** The update pass merges components *)

(** X1. In a round whose table of edges is well formed the update pass
    only merges components: leaves that carry the same label before the pass
    carry the same label after it, the two leaves of every edge that the
    pass appends had different labels before and have the same label after,
    and the labels of the inner nodes are not written. *)
Theorem update_pass_only_merges
  (n : Z) (out_edges : list WeightedEdge) (fuel : nat) (s : UpdateState) :
  1 ≤ n → 2 * n - 1 < size_t_modulus →
  labels_wf n (u_labels s) →
  round_table_ok n (u_labels s) out_edges →
  extent (u_edges s) = n - 1 →
  u_num_edges s = n - num_components n (u_labels s) →
  (Z.to_nat n ≤ fuel)%nat →
  ∃ s' appended,
    updateComponentsAndEdges out_edges fuel s = Ok s'
    ∧ committed s' = committed s ++ appended
    ∧ (∀ x y, leaf n x → leaf n y →
              get (u_labels s) x = get (u_labels s) y →
              get (u_labels s') x = get (u_labels s') y)
    ∧ (∀ e, e ∈ appended →
            leaf n (source e) ∧ leaf n (target e)
            ∧ get (u_labels s) (source e) ≠ get (u_labels s) (target e)
            ∧ get (u_labels s') (source e) = get (u_labels s') (target e))
    ∧ ∀ x, ¬ leaf n x → get (u_labels s') x = get (u_labels s) x.
Proof.
  intros Hn Hsmall Hwf Htab Hbuf Hnum Hfuel.
  destruct (updateComponentsAndEdges_merges n out_edges (u_labels s) Hsmall
              Hwf Htab Hn fuel s eq_refl Hbuf Hnum Hfuel)
    as (s' & Hrun & _ & _ & _ & _ & Hcom & _ & _ & Hlab' & _).
  exists s', (out_edge out_edges
              <$> emitters n (u_labels s) out_edges (leaves n)).
  split; [done|]. split; [done|]. split; [|split].
  - intros x y Hx Hy Heq. rewrite !Hlab' by done.
    destruct (label_of_wf n (u_labels s) x Hwf Hx) as [Hgx _].
    destruct (label_of_wf n (u_labels s) y Hwf Hy) as [Hgy _].
    rewrite Hgx, Hgy in Heq. by injection Heq as ->.
  - intros e (c & -> & Hc)%list_elem_of_fmap.
    pose proof (merged_edge_same_final n out_edges (u_labels s) Hwf Htab c Hc)
      as Hsame.
    apply (emitters_elem n out_edges (u_labels s)) in Hc as [[Hc _] _].
    destruct (round_out_edge n out_edges (u_labels s) Hwf Htab c Hc)
      as (_ & Hsl & Hs & Htl & Ht & Hne & _).
    split; [done|]. split; [done|]. split.
    + destruct (label_of_wf n (u_labels s) _ Hwf Hsl) as [-> _].
      destruct (label_of_wf n (u_labels s) _ Hwf Htl) as [-> _].
      rewrite Hs, Ht. intros [= ?]. done.
    + rewrite !Hlab' by done. by rewrite Hsame.
  - intros x Hx. apply (updateComponentsAndEdges_labels _ _ _ _ Hrun).
    destruct Htab as [-> _]. done.
Qed.

Lemma update_pass_only_merges_witness :
  ∃ s' appended,
    updateComponentsAndEdges example_out_edges 3
      {| u_labels := example_labels;
         u_edges := [uninitialized_edge; uninitialized_edge];
         u_num_edges := 0 |} = Ok s'
    ∧ committed s' = [] ++ appended
    ∧ ∀ e, e ∈ appended →
           get (u_labels s') (source e) = get (u_labels s') (target e).
Proof.
  destruct (update_pass_only_merges 3 example_out_edges 3
              {| u_labels := example_labels;
                 u_edges := [uninitialized_edge; uninitialized_edge];
                 u_num_edges := 0 |})
    as (s' & appended & Hrun & Hcom & _ & Hedges & _).
  - lia.
  - unfold size_t_modulus. lia.
  - apply example_labels_wf.
  - apply example_round_table_ok.
  - reflexivity.
  - reflexivity.
  - simpl. lia.
  - exists s', appended. split; [exact Hrun|]. split; [exact Hcom|].
    intros e He. by apply Hedges.
Defined.

(** X2. In a round whose table of edges is well formed the update pass
    leaves at most half of the components, and at least one: every
    component that stays is joined by one that merges away. *)
Theorem update_pass_halves_components
  (n : Z) (out_edges : list WeightedEdge) (fuel : nat) (s : UpdateState) :
  1 ≤ n → 2 * n - 1 < size_t_modulus →
  labels_wf n (u_labels s) →
  round_table_ok n (u_labels s) out_edges →
  extent (u_edges s) = n - 1 →
  u_num_edges s = n - num_components n (u_labels s) →
  (Z.to_nat n ≤ fuel)%nat →
  ∃ s',
    updateComponentsAndEdges out_edges fuel s = Ok s'
    ∧ 1 ≤ num_components n (u_labels s')
    ∧ 2 * num_components n (u_labels s') ≤ num_components n (u_labels s)
    ∧ u_num_edges s' = n - num_components n (u_labels s').
Proof.
  intros Hn Hsmall Hwf Htab Hbuf Hnum Hfuel.
  destruct (updateComponentsAndEdges_merges n out_edges (u_labels s) Hsmall
              Hwf Htab Hn fuel s eq_refl Hbuf Hnum Hfuel)
    as (s' & Hrun & _ & _ & Hnum' & _ & _ & Hone & Hhalf & _).
  by exists s'.
Qed.

Lemma update_pass_halves_components_witness :
  ∃ s',
    updateComponentsAndEdges example_out_edges 3
      {| u_labels := example_labels;
         u_edges := [uninitialized_edge; uninitialized_edge];
         u_num_edges := 0 |} = Ok s'
    ∧ 2 * num_components 3 (u_labels s') ≤ 3.
Proof.
  destruct (update_pass_halves_components 3 example_out_edges 3
              {| u_labels := example_labels;
                 u_edges := [uninitialized_edge; uninitialized_edge];
                 u_num_edges := 0 |})
    as (s' & Hrun & _ & Hhalf & _).
  - lia.
  - unfold size_t_modulus. lia.
  - apply example_labels_wf.
  - apply example_round_table_ok.
  - reflexivity.
  - reflexivity.
  - simpl. lia.
  - exists s'. split; [exact Hrun|exact Hhalf].
Defined.

(** ** The loop of the driver: turns and paths *)

Section DriverMerges.
Variable reduceLabels : list Z → list Z → list Z.
Variable device : bool.
Variable fuel : nat.
Variable bvh : BVH.
Variable metric : Metric.
Variable parents : list Z.

Local Abbreviation n := (bvh_size bvh).

Hypothesis n_two : 2 ≤ n.
Hypothesis n_small : 2 * n - 1 < size_t_modulus.
Hypothesis fuel_enough : (Z.to_nat n ≤ fuel)%nat.
Hypothesis reduce_keeps : keeps_leaf_labels n (reduceLabels parents).
Hypothesis round_edges :
∀ labels,
  labels_wf n labels → 2 ≤ num_components n labels →
  ∃ out_edges radii,
    nearest_neighbors_round device fuel bvh metric
                            (reduceLabels parents labels)
    = Ok (out_edges, radii)
    ∧ round_table_ok n (reduceLabels parents labels) out_edges.

(** A property of the state that the turns of the loop keep. *)
Variable P : UpdateState → Prop.
Hypothesis P_round :
∀ s s',
  Boruvka_inv n s → 2 ≤ num_components n (u_labels s) →
  Boruvka_round reduceLabels device fuel bvh metric parents s = Ok s' →
  P s → P s'.

Lemma Boruvka_round_merges s :
Boruvka_inv n s → spanning_inv n s → 2 ≤ num_components n (u_labels s) →
P s →
∃ s', Boruvka_round reduceLabels device fuel bvh metric parents s = Ok s'
      ∧ Boruvka_inv n s' ∧ spanning_inv n s'
      ∧ 1 ≤ num_components n (u_labels s')
      ∧ 2 * num_components n (u_labels s') ≤ num_components n (u_labels s)
      ∧ P s'.
Proof.
intros Hinv Hspan Hnc HP. pose proof Hinv as (Hwf & Hbuf & Hnum & Hcom).
pose proof (P_round s) as Hkeep.
destruct (round_edges (u_labels s) Hwf Hnc) as (E & radii & Hfind & Htab).
destruct (reduce_keeps (u_labels s)) as [Hext Hleaves].
set (labels1 := reduceLabels parents (u_labels s)) in *.
assert (labels_wf n labels1) as Hwf1 by (by eapply labels_wf_ext).
assert (components n labels1 = components n (u_labels s)) as Hcomp.
{ by apply components_ext. }
unfold Boruvka_round in Hkeep |- *. fold labels1 in Hkeep |- *.
rewrite Hfind in Hkeep |- *. simpl in Hkeep |- *.
set (s1 := {| u_labels := labels1; u_edges := u_edges s;
              u_num_edges := u_num_edges s |}) in *.
destruct (updateComponentsAndEdges_merges n E labels1 n_small Hwf1 Htab
            ltac:(lia) fuel s1)
  as (s' & Hrun & Hwf' & Hbuf' & Hnum' & Hadd & Hcom' & Hone & Hhalf
      & _ & Hspan');
  [done|done| |done|].
{ simpl. unfold num_components. by rewrite Hcomp. }
exists s'. split; [done|].
specialize (Hkeep s' Hinv Hnc Hrun HP).
unfold num_components in *. rewrite Hcomp in Hhalf.
split; [|split; [|done]].
- split; [done|]. split; [done|]. split; [done|].
  intros e. rewrite Hcom'. change (committed s1) with (committed s).
  rewrite elem_of_app. intros [He|He]; [by apply Hcom|].
  apply list_elem_of_fmap in He as (c & -> & Hc).
  apply (emitters_elem n E labels1) in Hc as [[Hc _] _].
  destruct (round_out_edge n E labels1 Hwf1 Htab c Hc)
    as (_ & Hs & _ & Ht & _). done.
- apply Hspan'. intros x Hx. unfold s1, committed. simpl.
  unfold label_of. rewrite (Hleaves x Hx). by apply Hspan.
Qed.

Lemma Boruvka_loop_merges rounds :
∀ iterations s log,
  Boruvka_inv n s → spanning_inv n s →
  2 ≤ num_components n (u_labels s) →
  num_components n (u_labels s) ≤ 2 ^ Z.of_nat rounds →
  P s →
  ∃ regions s',
    Boruvka_loop reduceLabels device fuel bvh metric rounds parents
                 iterations (num_components n (u_labels s)) s log
    = (log ++ regions, Ok s')
    ∧ Boruvka_inv n s' ∧ spanning_inv n s'
    ∧ num_components n (u_labels s') = 1
    ∧ Boruvka_regions_halve iterations rounds
                            (num_components n (u_labels s)) regions
    ∧ P s'.
Proof.
induction rounds as [|rounds IH];
  intros it s log Hinv Hspan Hnc Hrounds HP.
{ simpl in Hrounds. lia. }
rewrite Nat2Z.inj_succ, Z.pow_succ_r in Hrounds by lia.
destruct (Boruvka_round_merges s Hinv Hspan Hnc HP)
  as (s1 & Hround & Hinv1 & Hspan1 & Hone & Hhalf & HP1).
simpl. unfold M_bind at 1. unfold pushRegion.
unfold M_bind at 1. unfold lift. rewrite Hround.
pose proof Hinv1 as (_ & _ & Hnum1 & _).
rewrite Hnum1.
replace (n - (n - num_components n (u_labels s1)))
  with (num_components n (u_labels s1)) by lia.
set (nc := num_components n (u_labels s)) in *.
set (nc1 := num_components n (u_labels s1)) in *.
destruct (Z.gtb_spec nc1 1) as [Hgt|Hle].
- destruct (IH (it + 1) s1 (log ++ [BoruvkaRegion (it + 1) nc]))
    as (regions & s' & Hloop & Hinv' & Hspan' & Hdone & Hregions & HP');
    [done|done|fold nc1; lia|fold nc1; lia|done|].
  fold nc1 in Hloop, Hregions.
  exists (BoruvkaRegion (it + 1) nc :: regions), s'.
  split; [by rewrite Hloop, <- app_assoc|].
  split; [done|]. split; [done|]. split; [done|]. split; [|done].
  intros j c [[= -> ->]|Hin]%elem_of_cons.
  + replace (it + 1 - it - 1) with 0 by lia. simpl. lia.
  + destruct (Hregions j c Hin) as [Hj Hc].
    split; [lia|].
    replace (j - it - 1) with (Z.succ (j - (it + 1) - 1)) by lia.
    rewrite Z.pow_succ_r by lia. lia.
- exists [BoruvkaRegion (it + 1) nc], s1.
  split; [done|]. split; [done|]. split; [done|]. split; [lia|].
  split; [|done].
  intros j c [= -> ->]%list_elem_of_singleton.
  replace (it + 1 - it - 1) with 0 by lia. simpl. lia.
Qed.
End DriverMerges.

Lemma spanning_inv_initial n garbage_int edges :
  1 ≤ n →
  spanning_inv n {| u_labels := initial_labels n garbage_int;
                    u_edges := edges; u_num_edges := 0 |}.
Proof.
  intros Hn x Hx. simpl. unfold label_of.
  rewrite initial_labels_get by done. apply connected_refl.
Qed.

(** The constructor as a whole: the state in which the loop ends and the
    regions entered on the way. *)
Lemma MinimumSpanningTree_merges
  (Primitives : Type) (primitives_size : Primitives → Z)
  (build_BVH : Primitives → BVH)
  (query_core_distances : BVH → Primitives → Z → Z → float)
  (findParents : BVH → list Z) (reduceLabels : list Z → list Z → list Z)
  (garbage_int : Z) (garbage_edge : WeightedEdge) (device : bool)
  (fuel rounds : nat) (primitives : Primitives) (k : Z)
  (P : UpdateState → Prop) :
  let bvh := build_BVH primitives in
  let n := bvh_size bvh in
  let metric := if k >? 1
                then MutualReachability
                       (query_core_distances bvh primitives k)
                else Euclidean in
  2 ≤ n → 2 * n - 1 < size_t_modulus →
  primitives_size primitives = n →
  (Z.to_nat n ≤ fuel)%nat → n ≤ 2 ^ Z.of_nat rounds →
  keeps_leaf_labels n (reduceLabels (findParents bvh)) →
  (∀ labels,
     labels_wf n labels → 2 ≤ num_components n labels →
     ∃ out_edges radii,
       nearest_neighbors_round device fuel bvh metric
                               (reduceLabels (findParents bvh) labels)
       = Ok (out_edges, radii)
       ∧ round_table_ok n (reduceLabels (findParents bvh) labels)
                        out_edges) →
  (∀ s s',
     Boruvka_inv n s → 2 ≤ num_components n (u_labels s) →
     Boruvka_round reduceLabels device fuel bvh metric (findParents bvh) s
     = Ok s' →
     P s → P s') →
  (∀ edges, P {| u_labels := initial_labels n garbage_int;
                 u_edges := edges; u_num_edges := 0 |}) →
  ∃ log s,
    run (MinimumSpanningTree Primitives primitives_size build_BVH
           query_core_distances findParents reduceLabels garbage_int
           garbage_edge device fuel rounds primitives k)
    = (log, Ok (depermute bvh <$> u_edges s))
    ∧ committed s = u_edges s
    ∧ Boruvka_inv n s ∧ spanning_inv n s
    ∧ num_components n (u_labels s) = 1
    ∧ Boruvka_regions_halve 0 rounds n log
    ∧ P s.
Proof.
  intros bvh n metric Hn Hsmall Hsize Hfuel Hrounds Hreduce Hround
    HPround HP0.
  set (edges0 := replicate (Z.to_nat ((primitives_size primitives - 1)
                                      mod size_t_modulus)) garbage_edge).
  assert (extent edges0 = n - 1) as Hext0.
  { unfold edges0. rewrite Hsize, Z.mod_small by lia.
    apply extent_replicate. lia. }
  pose proof (Boruvka_inv_initial n garbage_int edges0 ltac:(lia) Hext0)
    as Hinv0.
  pose proof (spanning_inv_initial n garbage_int edges0 ltac:(lia)) as Hspan0.
  destruct (initial_labels_wf n garbage_int ltac:(lia)) as [_ Hnc0].
  assert (∀ log0,
            (∀ j c, BoruvkaRegion j c ∉ log0) →
            ∃ log s,
              doBoruvka findParents reduceLabels garbage_int device fuel bvh
                        metric rounds edges0 log0 = (log, Ok s)
              ∧ Boruvka_inv n s ∧ spanning_inv n s
              ∧ num_components n (u_labels s) = 1
              ∧ Boruvka_regions_halve 0 rounds n log
              ∧ P s)
    as Hdo.
  { intros log0 Hlog0. unfold doBoruvka. unfold M_bind at 1 2.
    unfold pushRegion. fold n. fold (initial_labels n garbage_int).
    destruct (Boruvka_loop_merges reduceLabels device fuel bvh metric
                (findParents bvh) Hn Hsmall Hfuel Hreduce Hround P HPround
                rounds
                0 _ ((log0 ++ [Region "ArborX::MST::initialize_node_labels"])
                     ++ [Region "ArborX::MST::Boruvka_loop"]) Hinv0 Hspan0)
      as (regions & s & Hloop & Hinv & Hspan & Hone & Hregions & HP).
    - simpl. fold n. lia.
    - simpl. fold n. lia.
    - apply HP0.
    - simpl in Hloop, Hregions. fold n in Hloop, Hregions.
      rewrite Hnc0 in Hloop, Hregions.
      eexists _, s. split; [exact Hloop|]. split; [done|]. split; [done|].
      split; [done|]. split; [|done].
      intros j c. rewrite !elem_of_app, !list_elem_of_singleton.
      intros [[[Hin|[=]]|[=]]|Hin]; [by apply Hlog0 in Hin|].
      by apply Hregions. }
  assert (∃ log s,
            run (MinimumSpanningTree Primitives primitives_size build_BVH
                   query_core_distances findParents reduceLabels garbage_int
                   garbage_edge device fuel rounds primitives k)
            = (log, finalizeEdges bvh (u_edges s))
            ∧ Boruvka_inv n s ∧ spanning_inv n s
            ∧ num_components n (u_labels s) = 1
            ∧ Boruvka_regions_halve 0 rounds n log
            ∧ P s)
    as (log & s & Hrun & Hinv & Hspan & Hone & Hregions & HP).
  { unfold run, MinimumSpanningTree. fold bvh edges0.
    unfold M_bind at 1. unfold pushRegion at 1. unfold M_bind at 1.
    unfold metric in Hdo. destruct (k >? 1).
    - unfold M_bind at 1. unfold pushRegion at 1.
      destruct (Hdo (([] ++ [Region "ArborX::MST::MST"])
                     ++ [Region "ArborX::MST::compute_core_distances"]))
        as (log & s & -> & H).
      { intros j c. rewrite !elem_of_app, !list_elem_of_singleton.
        intros [[Hin|[=]]|[=]]. by apply elem_of_nil in Hin. }
      by exists log, s.
    - destruct (Hdo ([] ++ [Region "ArborX::MST::MST"]))
        as (log & s & -> & H).
      { intros j c. rewrite !elem_of_app, !list_elem_of_singleton.
        intros [Hin|[=]]. by apply elem_of_nil in Hin. }
      by exists log, s. }
  pose proof Hinv as (Hwf & Hbuf & Hnum & Hcom).
  rewrite finalizeEdges_spec in Hrun by (fold n; (done || lia)).
  assert (committed s = u_edges s) as Hall.
  { unfold committed. apply take_ge. unfold extent in Hbuf. lia. }
  by exists log, s.
Qed.

(** X3. With a well-formed table of edges in every round, the loop of
    [doBoruvka] ends within [rounds] turns for every [rounds] with
    [n <= 2 ^ rounds]: the constructor returns, and the region of the turn
    with the number [iterations] is entered with at most
    [n / 2 ^ (iterations - 1)] components. *)
Theorem Boruvka_loop_takes_logarithmic_turns
  (Primitives : Type) (primitives_size : Primitives → Z)
  (build_BVH : Primitives → BVH)
  (query_core_distances : BVH → Primitives → Z → Z → float)
  (findParents : BVH → list Z) (reduceLabels : list Z → list Z → list Z)
  (garbage_int : Z) (garbage_edge : WeightedEdge) (device : bool)
  (fuel rounds : nat) (primitives : Primitives) (k : Z) :
  let bvh := build_BVH primitives in
  let n := bvh_size bvh in
  let metric := if k >? 1
                then MutualReachability
                       (query_core_distances bvh primitives k)
                else Euclidean in
  2 ≤ n → 2 * n - 1 < size_t_modulus →
  primitives_size primitives = n →
  (Z.to_nat n ≤ fuel)%nat → n ≤ 2 ^ Z.of_nat rounds →
  keeps_leaf_labels n (reduceLabels (findParents bvh)) →
  (∀ labels,
     labels_wf n labels → 2 ≤ num_components n labels →
     ∃ out_edges radii,
       nearest_neighbors_round device fuel bvh metric
                               (reduceLabels (findParents bvh) labels)
       = Ok (out_edges, radii)
       ∧ round_table_ok n (reduceLabels (findParents bvh) labels)
                        out_edges) →
  ∃ log edges,
    run (MinimumSpanningTree Primitives primitives_size build_BVH
           query_core_distances findParents reduceLabels garbage_int
           garbage_edge device fuel rounds primitives k)
    = (log, Ok edges)
    ∧ ∀ iterations num_components,
        BoruvkaRegion iterations num_components ∈ log →
        1 ≤ iterations ≤ Z.of_nat rounds
        ∧ num_components * 2 ^ (iterations - 1) ≤ n.
Proof.
  intros bvh n metric Hn Hsmall Hsize Hfuel Hrounds Hreduce Hround.
  destruct (MinimumSpanningTree_merges Primitives primitives_size build_BVH
              query_core_distances findParents reduceLabels garbage_int
              garbage_edge device fuel rounds primitives k (fun _ => True)
              Hn Hsmall Hsize Hfuel Hrounds Hreduce Hround
              ltac:(done) ltac:(done))
    as (log & s & Hrun & _ & _ & _ & _ & Hregions & _).
  exists log, (depermute bvh <$> u_edges s). split; [done|].
  intros j c Hin. destruct (Hregions j c Hin) as [Hj Hc].
  split; [lia|]. by replace (j - 1) with (j - 0 - 1) by lia.
Qed.

Lemma Boruvka_loop_takes_logarithmic_turns_witness :
  ∃ log edges,
    example2_MST 1 1 = (log, Ok edges)
    ∧ ∀ iterations num_components,
        BoruvkaRegion iterations num_components ∈ log →
        1 ≤ iterations ≤ 1 ∧ num_components * 2 ^ (iterations - 1) ≤ 2.
Proof.
  destruct (Boruvka_loop_takes_logarithmic_turns unit (fun _ => 2)
              (fun _ => example2_bvh) (fun _ _ _ _ => zero)
              (fun _ => [-1; 0; 0]) example2_reduceLabels 0
              uninitialized_edge false 10 1 tt 1)
    as (log & edges & Hrun & Hregions).
  - simpl. lia.
  - simpl. unfold size_t_modulus. lia.
  - reflexivity.
  - simpl. lia.
  - simpl. lia.
  - apply example2_reduce_keeps.
  - apply example2_round.
  - exists log, edges. split; [exact Hrun|exact Hregions].
Defined.

(** X4. With a well-formed table of edges in every round, the [n - 1]
    edges that the constructor returns join all primitives: the primitives
    of any two leaves are connected by a path of returned edges. *)
Theorem MinimumSpanningTree_edges_span
  (Primitives : Type) (primitives_size : Primitives → Z)
  (build_BVH : Primitives → BVH)
  (query_core_distances : BVH → Primitives → Z → Z → float)
  (findParents : BVH → list Z) (reduceLabels : list Z → list Z → list Z)
  (garbage_int : Z) (garbage_edge : WeightedEdge) (device : bool)
  (fuel rounds : nat) (primitives : Primitives) (k : Z) :
  let bvh := build_BVH primitives in
  let n := bvh_size bvh in
  let metric := if k >? 1
                then MutualReachability
                       (query_core_distances bvh primitives k)
                else Euclidean in
  2 ≤ n → 2 * n - 1 < size_t_modulus →
  primitives_size primitives = n →
  (Z.to_nat n ≤ fuel)%nat → n ≤ 2 ^ Z.of_nat rounds →
  keeps_leaf_labels n (reduceLabels (findParents bvh)) →
  (∀ labels,
     labels_wf n labels → 2 ≤ num_components n labels →
     ∃ out_edges radii,
       nearest_neighbors_round device fuel bvh metric
                               (reduceLabels (findParents bvh) labels)
       = Ok (out_edges, radii)
       ∧ round_table_ok n (reduceLabels (findParents bvh) labels)
                        out_edges) →
  ∃ log edges,
    run (MinimumSpanningTree Primitives primitives_size build_BVH
           query_core_distances findParents reduceLabels garbage_int
           garbage_edge device fuel rounds primitives k)
    = (log, Ok edges)
    ∧ extent edges = n - 1
    ∧ ∀ x y, leaf n x → leaf n y →
             connected edges (getLeafPermutationIndex bvh x)
                             (getLeafPermutationIndex bvh y).
Proof.
  intros bvh n metric Hn Hsmall Hsize Hfuel Hrounds Hreduce Hround.
  destruct (MinimumSpanningTree_merges Primitives primitives_size build_BVH
              query_core_distances findParents reduceLabels garbage_int
              garbage_edge device fuel rounds primitives k (fun _ => True)
              Hn Hsmall Hsize Hfuel Hrounds Hreduce Hround
              ltac:(done) ltac:(done))
    as (log & s & Hrun & Hall & Hinv & Hspan & Hone & _).
  destruct Hinv as (Hwf & Hbuf & _).
  exists log, (depermute bvh <$> u_edges s). split; [done|].
  split; [unfold extent in *; by rewrite length_fmap|].
  assert (∃ c, components n (u_labels s) = [c]) as [c Hc].
  { change (Z.of_nat (length (components n (u_labels s))) = 1) in Hone.
    destruct (components n (u_labels s)) as [|c [|c' l]]; simpl in Hone;
      try lia. by exists c. }
  assert (∀ x, leaf n x → label_of (u_labels s) x = c) as Hlabel.
  { intros x Hx. destruct (label_of_wf n (u_labels s) x Hwf Hx) as [_ Hin].
    rewrite Hc in Hin. by apply list_elem_of_singleton in Hin. }
  intros x y Hx Hy.
  apply (connected_fmap (getLeafPermutationIndex bvh) (u_edges s) x y).
  rewrite <- Hall.
  apply connected_trans with c.
  - rewrite <- (Hlabel x Hx). by apply Hspan.
  - apply connected_sym. rewrite <- (Hlabel y Hy). by apply Hspan.
Qed.

Lemma MinimumSpanningTree_edges_span_witness :
  ∃ log edges,
    example2_MST 1 1 = (log, Ok edges)
    ∧ extent edges = 1
    ∧ connected edges 0 1.
Proof.
  destruct (MinimumSpanningTree_edges_span unit (fun _ => 2)
              (fun _ => example2_bvh) (fun _ _ _ _ => zero)
              (fun _ => [-1; 0; 0]) example2_reduceLabels 0
              uninitialized_edge false 10 1 tt 1)
    as (log & edges & Hrun & Hext & Hspan).
  - simpl. lia.
  - simpl. unfold size_t_modulus. lia.
  - reflexivity.
  - simpl. lia.
  - simpl. lia.
  - apply example2_reduce_keeps.
  - apply example2_round.
  - exists log, edges. split; [exact Hrun|]. split; [exact Hext|].
    apply (Hspan 1 2); unfold leaf; simpl; lia.
Defined.

(** ** The order of the floats that are not NaN *)

Lemma SFleb_SFltb_SFeqb a b : SFleb a b = SFltb a b || SFeqb a b.
Proof. unfold SFleb, SFltb, SFeqb. by destruct (SFcompare a b) as [[]|]. Qed.

Lemma SFleb_key a b :
  SFleb a b = true ↔
  not_nan a ∧ not_nan b
  ∧ (key_lt (float_key a) (float_key b) ∨ float_key a = float_key b).
Proof.
  rewrite SFleb_SFltb_SFeqb, orb_true_iff, SFltb_key, SFeqb_key. tauto.
Qed.

Lemma SFleb_not_nan a b : SFleb a b = true → not_nan a ∧ not_nan b.
Proof. rewrite SFleb_key. tauto. Qed.

Lemma SFltb_not_nan a b : SFltb a b = true → not_nan a ∧ not_nan b.
Proof. rewrite SFltb_key. tauto. Qed.

Lemma SFleb_refl a : not_nan a → SFleb a a = true.
Proof. intros Ha. apply SFleb_key. auto. Qed.

Lemma SFleb_trans a b c :
  SFleb a b = true → SFleb b c = true → SFleb a c = true.
Proof.
  rewrite !SFleb_key. intros (Ha & Hb & Hab) (_ & Hc & Hbc).
  split; [done|]. split; [done|].
  destruct Hab as [Hab|Hab], Hbc as [Hbc|Hbc].
  - left. by eapply key_lt_trans.
  - left. by rewrite <- Hbc.
  - left. by rewrite Hab.
  - right. congruence.
Qed.

Lemma SFltb_SFleb_trans a b c :
  SFltb a b = true → SFleb b c = true → SFltb a c = true.
Proof.
  rewrite SFleb_key, !SFltb_key. intros (Ha & Hb & Hab) (_ & Hc & Hbc).
  split; [done|]. split; [done|].
  destruct Hbc as [Hbc|Hbc]; [by eapply key_lt_trans|by rewrite <- Hbc].
Qed.

Lemma SFleb_SFltb_trans a b c :
  SFleb a b = true → SFltb b c = true → SFltb a c = true.
Proof.
  rewrite SFleb_key, !SFltb_key. intros (Ha & Hb & Hab) (_ & Hc & Hbc).
  split; [done|]. split; [done|].
  destruct Hab as [Hab|Hab]; [by eapply key_lt_trans|by rewrite Hab].
Qed.

Lemma SFltb_SFleb a b : SFltb a b = true → SFleb a b = true.
Proof. intros H. by rewrite SFleb_SFltb_SFeqb, H. Qed.

Lemma SFltb_irrefl a : SFltb a a = false.
Proof.
  destruct (SFltb a a) eqn:H; [|done].
  apply SFltb_key in H as (_ & _ & H). by apply key_lt_irrefl in H.
Qed.

Lemma SFltb_asym a b : SFltb a b = true → SFltb b a = false.
Proof.
  intros Hab. destruct (SFltb b a) eqn:Hba; [|done].
  apply SFltb_key in Hab as (_ & _ & Hab).
  apply SFltb_key in Hba as (_ & _ & Hba).
  exfalso. apply (key_lt_irrefl (float_key a)). by eapply key_lt_trans.
Qed.

(** On floats that are not NaN, [a <= b] fails exactly when [b < a]. *)
Lemma SFleb_false a b :
  not_nan a → not_nan b → SFleb a b = false → SFltb b a = true.
Proof.
  intros Ha Hb H. apply SFltb_key. split; [done|]. split; [done|].
  destruct (key_lt_total (float_key a) (float_key b)) as [Hk|[Hk|Hk]];
    [| |done]; exfalso;
    assert (SFleb a b = true) as Ht by (apply SFleb_key; auto); congruence.
Qed.

Lemma SFltb_false a b :
  not_nan a → not_nan b → SFltb a b = false → SFleb b a = true.
Proof.
  intros Ha Hb H. apply SFleb_key. split; [done|]. split; [done|].
  destruct (key_lt_total (float_key a) (float_key b)) as [Hk|[Hk|Hk]];
    [|by right|by left].
  exfalso. assert (SFltb a b = true) as Ht by (by apply SFltb_key).
  congruence.
Qed.

Lemma SFleb_SFltb_false a b : SFleb a b = true → SFltb b a = false.
Proof.
  intros Hab. destruct (SFltb b a) eqn:Hba; [|done].
  pose proof (SFleb_SFltb_trans _ _ _ Hab Hba) as H.
  by rewrite SFltb_irrefl in H.
Qed.

(** [Kokkos::atomic_min] leaves the lesser of the two values. *)
Lemma atomic_min_float_spec dest val :
  not_nan dest → not_nan val →
  (atomic_min_float dest val = dest ∨ atomic_min_float dest val = val)
  ∧ SFleb (atomic_min_float dest val) dest = true
  ∧ SFleb (atomic_min_float dest val) val = true
  ∧ not_nan (atomic_min_float dest val).
Proof.
  intros Hd Hv. unfold atomic_min_float.
  destruct (SFltb val dest) eqn:Hlt.
  - split; [by right|]. split; [by apply SFltb_SFleb|].
    split; [by apply SFleb_refl|done].
  - split; [by left|]. split; [by apply SFleb_refl|].
    split; [by apply SFltb_false|done].
Qed.

Lemma inf_not_nan : not_nan inf.
Proof. done. Qed.

Lemma SFleb_inf a : not_nan a → SFleb a inf = true.
Proof. intros Ha. by destruct a as [[]|[]| |[] ? ?]. Qed.

Lemma SFltb_inf_false a : SFltb inf a = false.
Proof. by destruct a as [[]|[]| |[] ? ?]. Qed.

(** ** resetSharedRadii *)

Section ResetSharedRadii.
Variable bvh : BVH.
Variable labels : list Z.
Variable metric : Metric.
Variable radii0 : list float.

Local Abbreviation n := (bvh_size bvh).
Local Abbreviation pw := (pair_weight bvh metric).
Local Abbreviation D := (components n labels).
Local Abbreviation l := (label_of labels).

Hypothesis n_small : 2 * n - 1 < size_t_modulus.
Hypothesis labels_ok : labels_wf n labels.
Hypothesis weights_ok :
∀ i, leaf n i → leaf n (i + 1) → not_nan (pw i (i + 1)).

Lemma slot_range c : leaf n c → 0 ≤ slot n c < n.
Proof. intros Hc. rewrite slot_leaf by done. unfold leaf in Hc. lia. Qed.

Lemma slot_inj c1 c2 :
leaf n c1 → leaf n c2 → slot n c1 = slot n c2 → c1 = c2.
Proof. intros H1 H2. rewrite !slot_leaf by done. lia. Qed.

Lemma radii_inv_ext Q1 Q2 radii :
(∀ c i, boundary_pair n labels c i → Q1 c i ↔ Q2 c i) →
radii_inv bvh metric n labels radii0 Q1 radii →
radii_inv bvh metric n labels radii0 Q2 radii.
Proof.
intros HQ (Hext & Hcomp & Hrest). split; [done|]. split; [|done].
intros c Hc. destruct (Hcomp c Hc) as (r & Hr & Hnan & Horig & Hle & Hall).
exists r. split; [done|]. split; [done|]. split; [|split; [done|]].
- destruct Horig as [?|(i & Hi & Hb & ->)]; [by left|].
  right. exists i. split; [by apply HQ|done].
- intros i Hi Hb. apply Hall; [by apply HQ|done].
Qed.

(** One [atomic_min] of the weight of a boundary pair into the radius of
  one of its two components. *)
Lemma radii_inv_atomic_min Q radii c0 i :
radii_inv bvh metric n labels radii0 Q radii →
c0 ∈ D → boundary_pair n labels c0 i →
∃ r, get radii (slot n c0) = Ok r
     ∧ set radii (slot n c0) (atomic_min_float r (pw i (i + 1)))
       = Ok (<[Z.to_nat (slot n c0)
               := atomic_min_float r (pw i (i + 1))]> radii)
     ∧ radii_inv bvh metric n labels radii0
         (fun c j => Q c j ∨ (c = c0 ∧ j = i))
         (<[Z.to_nat (slot n c0) := atomic_min_float r (pw i (i + 1))]>
            radii).
Proof.
intros (Hext & Hcomp & Hrest) Hc0 Hb.
pose proof Hc0 as [Hleaf0 _]%components_elem.
pose proof (slot_range c0 Hleaf0) as Hslot.
destruct (Hcomp c0 Hc0) as (r & Hr & Hnan & Horig & Hle & Hall).
pose proof Hb as (Hi & Hj & _).
destruct (atomic_min_float_spec r (pw i (i + 1)) Hnan (weights_ok i Hi Hj))
  as (Hcases & Hler & Hlew & Hnan').
exists r. split; [done|].
split; [apply set_is_Ok; lia|].
split; [by rewrite extent_insert|]. split.
- intros c Hc. pose proof Hc as [Hleaf _]%components_elem.
  destruct (decide (c = c0)) as [->|Hne].
  + rewrite get_insert_eq by lia. eexists. split; [done|].
    split; [done|]. split; [|split].
    * destruct Hcases as [-> | ->].
      -- destruct Horig as [?|(j & Hq & Hbj & ->)]; [by left|].
         right. exists j. auto.
      -- right. exists i. auto.
    * destruct Hle as (r0 & Hr0 & Hle). exists r0. split; [done|].
      by apply SFleb_trans with r.
    * intros j [Hq|[_ ->]] Hbj; [|done].
      apply SFleb_trans with r; [done|]. by apply Hall.
  + rewrite get_insert_ne; last first.
    { intros Heq. apply Hne. symmetry. by apply slot_inj. }
    { lia. }
    destruct (Hcomp c Hc) as (rc & Hrc & Hnanc & Horigc & Hlec & Hallc).
    exists rc. split; [done|]. split; [done|]. split; [|split; [done|]].
    * destruct Horigc as [?|(j & Hq & Hbj & ->)]; [by left|].
      right. exists j. auto.
    * intros j [Hq|[? _]] Hbj; [by apply Hallc|done].
- intros x Hx HxD. rewrite get_insert_ne; [by apply Hrest|lia|].
  intros Heq. apply HxD.
  assert (x = c0) as -> by (symmetry; by apply slot_inj). done.
Qed.

(** One item of the kernel. *)
Lemma resetSharedRadii_op_inv done i rest radii :
RangePolicy (n - 1) (2 * n - 2) = done ++ i :: rest →
radii_inv bvh metric n labels radii0 (fun _ j => j ∈ done) radii →
∃ radii',
  resetSharedRadii_op bvh labels metric i radii = Ok radii'
  ∧ radii_inv bvh metric n labels radii0 (fun _ j => j ∈ done ++ [i])
              radii'.
Proof.
intros Hitems Hinv.
assert (leaf n i ∧ leaf n (i + 1)) as [Hi Hj].
{ assert (i ∈ RangePolicy (n - 1) (2 * n - 2)) as Hin.
  { rewrite Hitems, elem_of_app, elem_of_cons. auto. }
  apply RangePolicy_elem in Hin. unfold leaf. lia. }
destruct (label_of_wf n labels i labels_ok Hi) as [Hli HliD].
destruct (label_of_wf n labels (i + 1) labels_ok Hj) as [Hlj HljD].
unfold resetSharedRadii_op. rewrite Hli, Hlj. simpl.
destruct (Z.eqb_spec (l i) (l (i + 1))) as [Heq|Hne]; simpl.
- exists radii. split; [done|].
  apply (radii_inv_ext (fun _ j => j ∈ done)); [|done].
  intros c j (_ & _ & Hdiff & _). rewrite elem_of_app, list_elem_of_singleton.
  split; [auto|]. intros [?| ->]; done.
- destruct (radii_inv_atomic_min _ radii (l i) i Hinv HliD)
    as (ri & Hri & Hset1 & Hinv1).
  { split; [done|]. split; [done|]. split; [done|]. by left. }
  fold (pw i (i + 1)). rewrite Hri. simpl. rewrite Hset1. simpl.
  destruct (radii_inv_atomic_min _ _ (l (i + 1)) i Hinv1 HljD)
    as (rj & Hrj & Hset2 & Hinv2).
  { split; [done|]. split; [done|]. split; [done|]. by right. }
  rewrite Hrj. simpl. rewrite Hset2. eexists. split; [done|].
  eapply radii_inv_ext; [|exact Hinv2].
  intros c j (_ & _ & _ & Hc). simpl.
  rewrite elem_of_app, list_elem_of_singleton.
  split; [|intros [?| ->]; [tauto|]].
  + intros [[?|[_ ->]]|[_ ->]]; auto.
  + destruct Hc as [<-|<-]; auto.
Qed.

Lemma resetSharedRadii_inv :
extent radii0 = n →
(∀ k r, get radii0 k = Ok r → not_nan r) →
∃ radii,
  resetSharedRadii bvh labels metric radii0 = Ok radii
  ∧ radii_inv bvh metric n labels radii0 (fun _ _ => True) radii.
Proof.
intros Hext Hnan. unfold resetSharedRadii, parallel_for.
destruct (for_each_prefix (resetSharedRadii_op bvh labels metric)
            (fun done radii =>
               radii_inv bvh metric n labels radii0 (fun _ j => j ∈ done)
                         radii)
            (RangePolicy (n - 1) (2 * n - 2)) radii0)
  as (radii & Hrun & Hinv).
- intros done i rest radii Hitems Hinv.
  by apply (resetSharedRadii_op_inv done i rest).
- split; [done|]. split; [|done].
  intros c [Hc _]%components_elem.
  destruct (get_is_Ok radii0 (slot n c)) as [r Hr].
  { rewrite Hext. by apply slot_range. }
  exists r. split; [done|]. split; [by eapply Hnan|].
  split; [by left|]. split.
  + exists r. split; [done|]. apply SFleb_refl. by eapply Hnan.
  + intros i Hin. by apply elem_of_nil in Hin.
- exists radii. split; [done|].
  eapply radii_inv_ext; [|exact Hinv].
  intros c i (Hi & Hj & _). simpl. rewrite RangePolicy_elem.
  unfold leaf in *. split; [done|]. intros _. lia.
Qed.
End ResetSharedRadii.

(** X5. [resetSharedRadii] lowers the radius of every component to the
    least weight among its radius from before and the pairs of neighbouring
    leaves [(i, i + 1)] that lie in different components, one of them this
    one: the radius after the pass is one of these values and is no larger
    than any of them. The entries of leaves that are no representatives
    are not written. *)
Theorem resetSharedRadii_bounds_nearest_neighbor
  (bvh : BVH) (labels : list Z) (metric : Metric) (radii0 : list float) :
  let n := bvh_size bvh in
  2 * n - 1 < size_t_modulus →
  labels_wf n labels →
  (∀ i, leaf n i → leaf n (i + 1) →
        not_nan (pair_weight bvh metric i (i + 1))) →
  extent radii0 = n →
  (∀ k r, get radii0 k = Ok r → not_nan r) →
  ∃ radii,
    resetSharedRadii bvh labels metric radii0 = Ok radii
    ∧ extent radii = n
    ∧ (∀ c, c ∈ components n labels →
            ∃ r r0,
              get radii (slot n c) = Ok r ∧ get radii0 (slot n c) = Ok r0
              ∧ SFleb r r0 = true
              ∧ (r = r0
                 ∨ ∃ i, boundary_pair n labels c i
                        ∧ r = pair_weight bvh metric i (i + 1))
              ∧ ∀ i, boundary_pair n labels c i →
                     SFleb r (pair_weight bvh metric i (i + 1)) = true)
    ∧ ∀ x, leaf n x → x ∉ components n labels →
           get radii (slot n x) = get radii0 (slot n x).
Proof.
  intros n Hsmall Hwf Hweights Hext Hnan.
  destruct (resetSharedRadii_inv bvh labels metric radii0 Hsmall Hwf
              Hweights Hext Hnan) as (radii & Hrun & Hext' & Hcomp & Hrest).
  exists radii. split; [done|]. split; [done|]. split; [|done].
  intros c Hc. destruct (Hcomp c Hc) as (r & Hr & _ & Horig & Hle & Hall).
  destruct Hle as (r0 & Hr0 & Hle).
  exists r, r0. split; [done|]. split; [done|]. split; [done|]. split.
  - destruct Horig as [Heq|(i & _ & Hb & ->)]; [left; congruence|].
    right. by exists i.
  - intros i Hb. by apply Hall.
Qed.

Lemma resetSharedRadii_bounds_nearest_neighbor_witness :
  resetSharedRadii example_bvh example_labels Euclidean [inf; inf; inf]
  = Ok [one_float; one_float; two_float].
Proof.
  destruct (resetSharedRadii_bounds_nearest_neighbor example_bvh
              example_labels Euclidean [inf; inf; inf])
    as (radii & Hrun & _).
  - simpl. unfold size_t_modulus. lia.
  - apply example_labels_wf.
  - intros i Hi Hj.
    assert (i = 2 ∨ i = 3) as [-> | ->]
      by (unfold leaf in Hi, Hj; simpl in Hi, Hj; lia); done.
  - reflexivity.
  - intros k r Hk. apply get_Ok in Hk as [_ Hk].
    destruct (Z.to_nat k) as [|[|[|?]]]; simpl in Hk; try done;
      by injection Hk as <-.
  - rewrite Hrun. vm_compute in Hrun. by injection Hrun as <-.
Defined.

(** ** The search for the nearest neighbour of a leaf *)

Lemma WeightedEdge_lt_of_weight a b :
  SFltb (weight a) (weight b) = true → WeightedEdge_lt a b = true.
Proof. intros H. apply WeightedEdge_lt_iff. by left. Qed.

Lemma WeightedEdge_lt_weight_le a b :
  WeightedEdge_lt a b = true → SFleb (weight a) (weight b) = true.
Proof.
  intros [H|[[H _]|[H _]]]%WeightedEdge_lt_iff;
    [by apply SFltb_SFleb|by apply SFeqb_SFleb..].
Qed.

(** No edge is above an edge that is not above it and below an edge that
    is not below it: the order is total up to the edges it cannot tell
    apart. *)
Lemma WeightedEdge_le_trans a b c :
  not_nan (weight b) →
  WeightedEdge_lt b a = false → WeightedEdge_lt c b = false →
  WeightedEdge_lt c a = false.
Proof.
  intros Hb Hba Hcb. destruct (WeightedEdge_lt c a) eqn:Hca; [|done].
  destruct (WeightedEdge_lt_neg_trans c b a Hb Hca); congruence.
Qed.

Lemma below_inner bvh x t :
  isLeaf bvh x = false → below bvh x t →
  below bvh (getLeftChild bvh x) t ∨ below bvh (getRightChild bvh x) t.
Proof. intros Hx H. inversion H; subst; [congruence|auto..]. Qed.

Lemma below_leaf_eq bvh x t : isLeaf bvh x = true → below bvh x t → t = x.
Proof. intros Hx H. inversion H; subst; [done|congruence..]. Qed.

Lemma inner_nodes_stable bvh b :
  ∀ x d1 d2, depth_at_most bvh b x = true → (b ≤ d1)%nat → (b ≤ d2)%nat →
             inner_nodes bvh d1 x = inner_nodes bvh d2 x.
Proof.
  induction b as [|b IH]; intros x d1 d2 Hd H1 H2.
  - simpl in Hd. destruct d1, d2; simpl; by destruct (isLeaf bvh x).
  - simpl in Hd. destruct d1 as [|d1], d2 as [|d2]; try lia. simpl.
    destruct (isLeaf bvh x); [done|].
    apply andb_true_iff in Hd as [Hl Hr].
    by rewrite (IH _ d1 d2 Hl), (IH _ d1 d2 Hr) by lia.
Qed.

Lemma inner_nodes_inner bvh b d x :
  isLeaf bvh x = false → depth_at_most bvh (S b) x = true → (S b ≤ d)%nat →
  inner_nodes bvh d x
  = S (inner_nodes bvh d (getLeftChild bvh x)
       + inner_nodes bvh d (getRightChild bvh x)).
Proof.
  intros Hx Hd Hb. simpl in Hd. rewrite Hx in Hd.
  apply andb_true_iff in Hd as [Hl Hr].
  destruct d as [|d]; [lia|]. simpl. rewrite Hx.
  by rewrite (inner_nodes_stable bvh b _ d (S d) Hl),
    (inner_nodes_stable bvh b _ d (S d) Hr) by lia.
Qed.

Lemma inner_nodes_pos bvh d x :
  isLeaf bvh x = false → (1 ≤ inner_nodes bvh d x)%nat.
Proof. intros Hx. destruct d; simpl; rewrite Hx; lia. Qed.

Lemma stack_nodes_app bvh d s1 s2 :
  stack_nodes bvh d (s1 ++ s2)
  = (stack_nodes bvh d s1 + stack_nodes bvh d s2)%nat.
Proof. induction s1 as [|s s1 IH]; simpl; [done|]. rewrite IH. lia. Qed.

(** What [node = *--stack_ptr] leaves. *)
Lemma pop_node_fields device bvh i st st' :
  pop_node device bvh i st = Ok st' →
  ∃ s rest,
    stack st = s :: rest ∧ node st' = s ∧ stack st' = rest
    ∧ current_best st' = current_best st ∧ radius st' = radius st
    ∧ (device = true →
       stack_distance st' = stack_distance st
       ∧ distance_node st'
         = if negb (s =? SENTINEL) then bv_distance bvh i s
           else distance_node st)
    ∧ (device = false →
       ∃ d, stack_distance st = d :: stack_distance st'
            ∧ distance_node st' = d).
Proof.
  unfold pop_node. destruct (stack st) as [|s rest]; [done|]. simpl.
  destruct device.
  - intros [= <-]. exists s, rest. simpl. split_and!; try done.
  - destruct (stack_distance st) as [|d ds]; [done|]. simpl.
    intros [= <-]. exists s, rest. simpl. split_and!; try done.
    intros _. by exists d.
Qed.

(** What the choice of the next node among the children leaves. *)
Lemma descend_fields device tl tr l r dl dr st st' :
  descend device tl tr l r dl dr st = Ok st' →
  tl || tr = true → (l = r → dl = dr) →
  current_best st' = current_best st ∧ radius st' = radius st
  ∧ ((node st' = l ∧ distance_node st' = dl ∧ tl = true)
     ∨ (node st' = r ∧ distance_node st' = dr ∧ tr = true))
  ∧ ((tl && tr = false ∧ stack st' = stack st
      ∧ stack_distance st' = stack_distance st)
     ∨ (tl = true ∧ tr = true
        ∧ ((node st' = l ∧ stack st' = r :: stack st
            ∧ (device = false → stack_distance st' = dr :: stack_distance st))
           ∨ (node st' = r ∧ stack st' = l :: stack st
              ∧ (device = false
                 → stack_distance st' = dl :: stack_distance st)))
        ∧ (device = true → stack_distance st' = stack_distance st))).
Proof.
  unfold descend. intros H Hflags Hdeg.
  set (node' := if tl && (SFleb dl dr || negb tr) then l else r) in *.
  assert ((node' = l ∧ (node' =? l) = true ∧ tl = true)
          ∨ (node' = r ∧ (node' =? l) = false ∧ tr = true)
          ∨ (node' = r ∧ l = r ∧ (node' =? l) = true ∧ tr = true))
    as Hnode.
  { unfold node'. destruct (tl && (SFleb dl dr || negb tr)) eqn:Hc.
    - left. rewrite Z.eqb_refl. apply andb_true_iff in Hc as [? _]. done.
    - assert (tr = true) as Htr.
      { destruct tl, tr; simpl in *; try done. by destruct (SFleb dl dr). }
      destruct (Z.eqb_spec r l) as [Heq|Hne]; [right; right|right; left];
        done. }
  destruct (tl && tr) eqn:Hboth.
  - apply andb_true_iff in Hboth as [-> ->].
    apply bind_Ok in H as (stack' & Hpush & H).
    apply bind_Ok in H as (sd' & Hpushd & H). injection H as <-. simpl.
    unfold push in Hpush.
    destruct (decide (length (stack st) < stack_capacity)%nat);
      [|done]. injection Hpush as <-.
    assert (device = false →
            sd' = (if node' =? l then dr else dl) :: stack_distance st)
      as Hsd.
    { intros ->. unfold push in Hpushd.
      destruct (decide (length (stack_distance st) < stack_capacity)%nat);
        [|done]. by injection Hpushd as <-. }
    assert (device = true → sd' = stack_distance st) as Hsd'.
    { intros ->. by injection Hpushd as <-. }
    split; [done|]. split; [done|].
    destruct Hnode as [(Hn & Hb & _)|[(Hn & Hb & _)|(Hn & Hlr & Hb & _)]];
      rewrite Hb in *.
    + split; [left; done|]. right. split; [done|]. split; [done|].
      split; [|done]. left. done.
    + split; [right; done|]. right. split; [done|]. split; [done|].
      split; [|done]. right. done.
    + specialize (Hdeg Hlr). subst l dl.
      split; [right; done|]. right. split; [done|]. split; [done|].
      split; [|done]. right. done.
  - injection H as <-. simpl. split; [done|]. split; [done|].
    split; [|left; done].
    destruct Hnode as [(Hn & Hb & Ht)|[(Hn & Hb & Ht)|(Hn & Hlr & Hb & Ht)]];
      rewrite Hb.
    + left. done.
    + right. done.
    + specialize (Hdeg Hlr). subst l dl. right. done.
Qed.

Section FindItem.
Variable device : bool.
Variable bvh : BVH.
Variable labels : list Z.
Variable metric : Metric.
Variable D : nat.
Variable i c : Z.
Variable r0 : float.

Local Abbreviation n := (bvh_size bvh).
Local Abbreviation pw := (pair_weight bvh metric).
Local Abbreviation edge := (edge_between bvh metric).
Local Abbreviation dist := (bv_distance bvh i).

Hypothesis tree : tree_ok bvh D.
Hypothesis distances : distances_ok bvh metric.
Hypothesis reduced : labels_reduced bvh labels.
Hypothesis leaf_i : leaf n i.
Hypothesis label_i : get labels i = Ok c.

Lemma find_c_component : c ∈ components n labels.
Proof.
destruct reduced as [Hwf _].
destruct (label_of_wf n labels i Hwf leaf_i) as [Hl HD].
rewrite label_i in Hl. injection Hl as ->. done.
Qed.

Lemma find_isLeaf x : 0 ≤ x < 2 * n - 1 → isLeaf bvh x = (n - 1 <=? x).
Proof. destruct tree as (_ & _ & H & _). apply H. Qed.

Lemma find_children x :
0 ≤ x < n - 1 →
0 ≤ getLeftChild bvh x < 2 * n - 1 ∧ 0 ≤ getRightChild bvh x < 2 * n - 1.
Proof. destruct tree as (_ & _ & _ & H & _). apply H. Qed.

Lemma find_labels_read x : 0 ≤ x < 2 * n - 1 → ∃ lx, get labels x = Ok lx.
Proof.
intros Hx. destruct reduced as [[Hext _] _]. apply get_is_Ok. lia.
Qed.

(** The leaves below a node are leaves, and their bounding volumes are no
  nearer than that of the node. *)
Lemma below_lower_bound x t :
0 ≤ x < 2 * n - 1 → below bvh x t →
leaf n t ∧ SFleb (dist x) (dist t) = true.
Proof.
destruct distances as (Hnonneg & Hmono & _).
intros Hx H. induction H as [x Hleaf|x t Hinner _ IH|x t Hinner _ IH].
- rewrite find_isLeaf in Hleaf by done. apply Z.leb_le in Hleaf.
  split; [unfold leaf; lia|].
  apply SFleb_refl. by destruct (SFleb_not_nan _ _ (Hnonneg i x leaf_i Hx)).
- rewrite find_isLeaf in Hinner by done. apply Z.leb_gt in Hinner.
  destruct (find_children x) as [Hl _]; [lia|].
  destruct (IH Hl) as [? Hle]. split; [done|].
  eapply SFleb_trans; [|exact Hle]. by apply Hmono; [|lia].
- rewrite find_isLeaf in Hinner by done. apply Z.leb_gt in Hinner.
  destruct (find_children x) as [_ Hr]; [lia|].
  destruct (IH Hr) as [? Hle]. split; [done|].
  eapply SFleb_trans; [|exact Hle]. by apply Hmono; [|lia].
Qed.

Lemma pw_bounds t :
leaf n t →
SFleb (dist t) (pw i t) = true ∧ SFltb (pw i t) inf = true
∧ not_nan (pw i t).
Proof.
intros Ht. destruct distances as (_ & _ & Hle & Hfin & _).
split; [by apply Hle|]. split; [by apply Hfin|].
by destruct (SFltb_not_nan _ _ (Hfin i t leaf_i Ht)).
Qed.

Lemma best_ok_not_nan best :
best_ok bvh labels metric i c best → not_nan (weight best).
Proof.
intros [->|(t & Ht & _ & ->)]; [done|]. simpl. by apply pw_bounds.
Qed.

Lemma handled_mono best r best' r' t :
best_ok bvh labels metric i c best →
SFleb r' r = true → WeightedEdge_lt best best' = false →
handled bvh metric i best r t → handled bvh metric i best' r' t.
Proof.
intros Hbest Hr Hb [H|H]; [left|right].
- by eapply SFleb_SFltb_trans.
- apply (WeightedEdge_le_trans _ best); [by apply best_ok_not_nan|done..].
Qed.

(** One of the two blocks that look at a child. *)
Lemma visit_child_find ch best r :
0 ≤ ch < 2 * n - 1 →
best_ok bvh labels metric i c best →
radius_reached bvh labels metric i c r0 r →
∃ tr best' r',
  visit_child bvh labels metric i c ch (distance bvh i ch) best r
  = Ok (tr, best', r')
  ∧ best_ok bvh labels metric i c best'
  ∧ radius_reached bvh labels metric i c r0 r'
  ∧ SFleb r' r = true
  ∧ WeightedEdge_lt best best' = false
  ∧ (tr = true → 0 ≤ ch < n - 1)
  ∧ ∀ t, leaf n t → get labels t ≠ Ok c → below bvh ch t →
         tr = true ∨ handled bvh metric i best' r' t.
Proof.
intros Hch Hbest Hr. pose proof Hr as (Hnan & Hle0 & Horig).
destruct (find_labels_read ch Hch) as [lc Hlc].
pose proof (find_isLeaf ch Hch) as Hleaf.
destruct distances as (Hnonneg & _).
pose proof (SFleb_not_nan _ _ (Hnonneg i ch leaf_i Hch)) as [_ Hdnan].
unfold visit_child, predicate. rewrite Hlc. simpl.
assert (∀ t, leaf n t → get labels t ≠ Ok c → below bvh ch t → c ≠ lc)
  as Hother.
{ intros t Ht Hlt Hb <-. apply Hlt.
  destruct (Z.leb_spec (n - 1) ch) as [Hge|Hlt'].
  - apply below_leaf_eq in Hb as ->; done.
  - destruct reduced as [_ Hred].
    apply (Hred ch t c); [lia|done|done|apply find_c_component]. }
destruct (Z.eqb_spec c lc) as [Heq|Hne]; simpl.
{ exists false, best, r. split; [done|]. split; [done|]. split; [done|].
  split; [by apply SFleb_refl|].
  split; [apply WeightedEdge_lt_irrefl|]. split; [done|].
  intros t Ht Hlt Hb. by destruct (Hother t Ht Hlt Hb). }
unfold distance. destruct (SFleb (dist ch) r) eqn:Hdr.
2:{ exists false, best, r. split; [done|]. split; [done|]. split; [done|].
    split; [by apply SFleb_refl|].
    split; [apply WeightedEdge_lt_irrefl|]. split; [done|].
    intros t Ht Hlt Hb. right. left.
    apply SFleb_false in Hdr; [|done..].
    destruct (below_lower_bound ch t Hch Hb) as [_ Hle].
    destruct (pw_bounds t Ht) as (Hpw & _).
    eapply SFltb_SFleb_trans; [exact Hdr|]. by eapply SFleb_trans. }
unfold consider_child. rewrite Hleaf.
destruct (Z.leb_spec (n - 1) ch) as [Hge|Hlt']; last first.
{ exists true, best, r. split; [done|]. split; [done|]. split; [done|].
  split; [by apply SFleb_refl|].
  split; [apply WeightedEdge_lt_irrefl|]. split; [lia|]. auto. }
assert (leaf n ch) as Hchleaf by (unfold leaf; lia).
assert (get labels ch ≠ Ok c) as Hchlabel.
{ rewrite Hlc. intros [= <-]. done. }
change (candidate_edge bvh metric i ch (dist ch)) with (edge i ch).
destruct (pw_bounds ch Hchleaf) as (_ & _ & Hpwnan).
destruct (WeightedEdge_lt (edge i ch) best) eqn:Hlt.
- destruct (atomic_min_float_spec r (pw i ch) Hnan Hpwnan)
    as (Hcases & Hler & Hlew & Hnan').
  exists false, (edge i ch), (atomic_min_float r (pw i ch)).
  split; [done|].
  split; [right; by exists ch|].
  split.
  { split; [done|]. split; [by apply SFleb_trans with r|].
    destruct Hcases as [-> | ->]; [done|]. right. by exists ch. }
  split; [done|].
  split; [by apply WeightedEdge_lt_asym|]. split; [done|].
  intros t Ht Hlt' Hb. right. right.
  apply below_leaf_eq in Hb as ->; [|done].
  apply WeightedEdge_lt_irrefl.
- exists false, best, r. split; [done|]. split; [done|]. split; [done|].
  split; [by apply SFleb_refl|].
  split; [apply WeightedEdge_lt_irrefl|]. split; [done|].
  intros t Ht Hlt' Hb. right. right.
  apply below_leaf_eq in Hb as ->; [|done].
  done.
Qed.

Hypothesis D_capacity : (D < stack_capacity)%nat.

Local Abbreviation mu := (traversal_measure bvh D).
Local Abbreviation Inv := (find_inv device bvh labels metric D i c r0).
Local Abbreviation Done := (find_done bvh labels metric i c r0).
Local Abbreviation Best := (best_ok bvh labels metric i c).
Local Abbreviation Radius := (radius_reached bvh labels metric i c r0).
Local Abbreviation Handled := (handled bvh metric i).

Lemma in_range_not_sentinel s : 0 ≤ s < n - 1 → (s =? SENTINEL) = false.
Proof. intros Hs. apply Z.eqb_neq. unfold SENTINEL. lia. Qed.

(** Taking the next node from the stack, when all that lies below the
  current node needs no further look. *)
Lemma pop_node_find st :
traversal_inv device bvh D st →
(∃ deferred, stack st = deferred ++ [SENTINEL]
             ∧ ∀ s, s ∈ deferred → 0 ≤ s < n - 1) →
(device = false → stack_distance st = stack_dist bvh i <$> stack st) →
Best (current_best st) → Radius (radius st) →
(∀ t, leaf n t → get labels t ≠ Ok c →
      (∃ s, s ∈ stack st ∧ s ≠ SENTINEL ∧ below bvh s t)
      ∨ Handled (current_best st) (radius st) t) →
∃ st', pop_node device bvh i st = Ok st'
       ∧ ((Inv st' ∧ (mu st' < mu st)%nat) ∨ Done st').
Proof.
intros Htrav (deferred & Hstack & Hrange) Hhost Hbest Hrad Hcover.
destruct (pop_node_inv device bvh i D D_capacity st Htrav)
  as (st' & Hpop & Hst' & _).
exists st'. split; [done|].
destruct (pop_node_fields _ _ _ _ _ Hpop)
  as (s & rest & Hs & Hnode & Hrest & Hb & Hr & Hdev & Hhst).
destruct deferred as [|s0 deferred]; simpl in Hstack;
  rewrite Hstack in Hs; injection Hs as <- <-.
- right.
  assert (traversal_done st') as Hdone.
  { destruct Hst' as [[(bn & _ & _ & _ & Hsi) _]|?]; [|done].
    rewrite Hrest in Hsi. inversion Hsi. }
  split; [done|]. rewrite Hb, Hr. split; [done|]. split; [done|].
  intros t Ht Hlt. destruct (Hcover t Ht Hlt) as [(s & Hin & Hne & _)|?];
    [|done].
  rewrite Hstack in Hin. by apply list_elem_of_singleton in Hin.
- left.
  assert (0 ≤ s0 < n - 1) as Hs0 by (apply Hrange; by left).
  pose proof (in_range_not_sentinel s0 Hs0) as Hns.
  assert (traversal_inv device bvh D st') as Htrav'.
  { destruct Hst' as [?|[Hsent _]]; [done|].
    rewrite Hnode in Hsent. unfold SENTINEL in Hsent. lia. }
  assert (distance_node st' = dist s0) as Hdn.
  { destruct device eqn:Hd.
    - destruct (Hdev eq_refl) as [_ ->]. by rewrite Hns.
    - destruct (Hhst eq_refl) as (d & Hsd & ->).
      rewrite (Hhost eq_refl), Hstack in Hsd. simpl in Hsd.
      injection Hsd as <- _. unfold stack_dist. by rewrite Hns. }
  split.
  + split; [done|]. rewrite Hnode, Hrest, Hb, Hr, Hdn.
    split; [done|]. split.
    { exists deferred. split; [done|]. intros s Hs. apply Hrange.
      by right. }
    split.
    { intros Hd. destruct (Hhst Hd) as (d & Hsd & _).
      rewrite (Hhost Hd), Hstack in Hsd. simpl in Hsd.
      by injection Hsd as _ <-. }
    split.
    { intros t Hb'.
      apply (below_lower_bound s0 t); [lia|done]. }
    split; [done|]. split; [done|].
    intros t Ht Hlt.
    destruct (Hcover t Ht Hlt) as [(s & Hin & Hne & Hbel)|?]; [|auto].
    rewrite Hstack in Hin. apply elem_of_cons in Hin as [->|Hin]; [auto|].
    right. left. by exists s.
  + unfold traversal_measure. rewrite Hnode, Hrest, Hstack. simpl.
    rewrite Hns.
    destruct Htrav as [(bn & _ & Hinner & _) _].
    pose proof (inner_nodes_pos bvh D (node st) Hinner). lia.
Qed.

Lemma node_inner x : 0 ≤ x < n - 1 → isLeaf bvh x = false.
Proof. intros Hx. rewrite find_isLeaf by lia. apply Z.leb_gt. lia. Qed.

(** The measure of an inner node is one more than those of its children. *)
Lemma measure_node st :
traversal_inv device bvh D st →
inner_nodes bvh D (node st)
= S (inner_nodes bvh D (getLeftChild bvh (node st))
     + inner_nodes bvh D (getRightChild bvh (node st))).
Proof.
intros [(bn & Hbn & Hinner & Hdepth & _) _].
destruct (depth_at_most_inner bvh bn (node st) Hinner Hdepth)
  as (b & -> & _).
by apply (inner_nodes_inner bvh b).
Qed.

(** A turn of the loop that expands the node. *)
Lemma expand_node_find st :
Inv st →
∃ st', expand_node device bvh labels metric i c st = Ok st'
       ∧ ((Inv st' ∧ (mu st' < mu st)%nat) ∨ Done st').
Proof.
intros (Htrav & Hnode & Hdef & Hhost & HLB & Hbest & Hrad & Hcover).
set (l := getLeftChild bvh (node st)).
set (r := getRightChild bvh (node st)).
destruct (find_children (node st) Hnode) as [Hl Hr]. fold l r in Hl, Hr.
destruct (visit_child_find l (current_best st) (radius st) Hl Hbest Hrad)
  as (tl & best1 & r1 & Hvl & Hbest1 & Hrad1 & Hle1 & Hlt1 & Htl & Hcl).
destruct (visit_child_find r best1 r1 Hr Hbest1 Hrad1)
  as (tr & best2 & r2 & Hvr & Hbest2 & Hrad2 & Hle2 & Hlt2 & Htr & Hcr).
unfold expand_node. fold l r. rewrite Hvl. simpl. rewrite Hvr. simpl.
assert (SFleb r2 (radius st) = true) as Hle by (by apply SFleb_trans with r1).
assert (WeightedEdge_lt (current_best st) best2 = false) as Hlt.
{ apply (WeightedEdge_le_trans _ best1); [|done..].
  by apply (best_ok_not_nan best1). }
assert (∀ t, leaf n t → get labels t ≠ Ok c →
          (tl = true ∧ below bvh l t) ∨ (tr = true ∧ below bvh r t)
          ∨ (∃ s, s ∈ stack st ∧ s ≠ SENTINEL ∧ below bvh s t)
          ∨ Handled best2 r2 t) as Hcover2.
{ intros t Ht Hlabel.
  destruct (Hcover t Ht Hlabel) as [Hb|[Hs|Hh]].
  - destruct (below_inner bvh (node st) t (node_inner _ Hnode) Hb)
      as [Hbl|Hbr].
    + destruct (Hcl t Ht Hlabel Hbl) as [->|Hh]; [auto|].
      right. right. right. by apply (handled_mono best1 r1).
    + destruct (Hcr t Ht Hlabel Hbr) as [->|Hh]; auto.
  - auto.
  - right. right. right.
    by apply (handled_mono (current_best st) (radius st)). }
set (st2 := with_best st best2 r2).
assert (traversal_inv device bvh D st2) as Htrav2 by done.
destruct (negb tl && negb tr) eqn:Hflags.
- (* no child to descend to *)
  apply andb_true_iff in Hflags as [Hfl Hfr].
  apply negb_true_iff in Hfl, Hfr. subst tl tr.
  apply (pop_node_find st2); try done.
  intros t Ht Hlabel.
  destruct (Hcover2 t Ht Hlabel) as [[? _]|[[? _]|[?|?]]]; auto; done.
- (* descend to a child *)
  assert (tl || tr = true) as Hor by (by destruct tl, tr).
  destruct (descend_inv device bvh D D_capacity tl tr (distance bvh i l)
              (distance bvh i r) st2 Htrav2 Hor)
    as (st' & Hdesc & Htrav' & _).
  { intros Ht. apply node_inner. by apply Htl. }
  { intros Ht. apply node_inner. by apply Htr. }
  change (getLeftChild bvh (node st2)) with l in Hdesc.
  change (getRightChild bvh (node st2)) with r in Hdesc.
  exists st'. split; [done|]. left.
  destruct (descend_fields _ _ _ _ _ _ _ _ _ Hdesc Hor)
    as (Hb' & Hr' & Hwhich & Hpush); [by intros ->|].
  change (current_best st2) with best2 in Hb'.
  change (radius st2) with r2 in Hr'.
  change (stack st2) with (stack st) in Hpush.
  change (stack_distance st2) with (stack_distance st) in Hpush.
  assert (0 ≤ node st' < n - 1
          ∧ distance_node st' = dist (node st')) as [Hnode' Hdn'].
  { destruct Hwhich as [(-> & -> & Ht)|(-> & -> & Ht)]; auto. }
  destruct Hdef as (deferred & Hstack & Hrange).
  split.
  + split; [done|]. split; [done|]. rewrite Hb', Hr', Hdn'. split.
    { destruct Hpush as [(_ & -> & _)|(Ht1 & Ht2 & Hcase & _)].
      - by exists deferred.
      - destruct Hcase as [(_ & -> & _)|(_ & -> & _)].
        + exists (r :: deferred). rewrite Hstack. split; [done|].
          intros s [->|Hs]%elem_of_cons; auto.
        + exists (l :: deferred). rewrite Hstack. split; [done|].
          intros s [->|Hs]%elem_of_cons; auto. }
    split.
    { intros Hd.
      destruct Hpush as [(_ & -> & ->)|(Ht1 & Ht2 & Hcase & _)]; [auto|].
      destruct Hcase as [(_ & -> & Hsd)|(_ & -> & Hsd)];
        rewrite (Hsd Hd), (Hhost Hd); simpl; f_equal;
        unfold stack_dist, distance;
        by rewrite in_range_not_sentinel by auto. }
    split.
    { intros t Hb. by apply (below_lower_bound (node st') t); [lia|]. }
    split; [done|]. split; [done|].
    intros t Ht Hlabel.
    destruct (Hcover2 t Ht Hlabel) as [[Ht1 Hb]|[[Ht2 Hb]|[Hs|?]]];
      [| | |auto].
    * destruct Hpush as [(Hnone & _)|(_ & _ & Hcase & _)].
      -- destruct Hwhich as [(-> & _)|(_ & _ & Ht2)]; [auto|].
         rewrite Ht1, Ht2 in Hnone. done.
      -- destruct Hcase as [(-> & _)|(_ & -> & _)]; [auto|].
         right. left. exists l. split; [by left|].
         split; [|done]. apply Z.eqb_neq, in_range_not_sentinel. auto.
    * destruct Hpush as [(Hnone & _)|(_ & _ & Hcase & _)].
      -- destruct Hwhich as [(_ & _ & Ht1)|(-> & _)]; [|auto].
         rewrite Ht1, Ht2 in Hnone. done.
      -- destruct Hcase as [(_ & -> & _)|(-> & _)]; [|auto].
         right. left. exists r. split; [by left|].
         split; [|done]. apply Z.eqb_neq, in_range_not_sentinel. auto.
    * destruct Hs as (s & Hin & Hne & Hb). right. left. exists s.
      split; [|done].
      destruct Hpush as [(_ & -> & _)|(_ & _ & Hcase & _)]; [done|].
      destruct Hcase as [(_ & -> & _)|(_ & -> & _)]; by right.
  + unfold traversal_measure. rewrite (measure_node st Htrav). fold l r.
    destruct Hpush as [(_ & -> & _)|(Ht1 & Ht2 & Hcase & _)].
    * destruct Hwhich as [(-> & _)|(-> & _)]; lia.
    * destruct Hcase as [(-> & -> & _)|(-> & -> & _)]; simpl;
        rewrite in_range_not_sentinel by auto; lia.
Qed.

(** A turn of the loop. *)
Lemma traversal_body_find st :
Inv st →
∃ st', traversal_body device bvh labels metric i c st = Ok st'
       ∧ ((Inv st' ∧ (mu st' < mu st)%nat) ∨ Done st').
Proof.
intros Hinv. unfold traversal_body.
destruct (SFleb (distance_node st) (radius st)) eqn:Hdr;
  [by apply expand_node_find|].
destruct Hinv as (Htrav & Hnode & Hdef & Hhost & HLB & Hbest & Hrad & Hcover).
apply pop_node_find; try done.
intros t Ht Hlabel.
destruct (Hcover t Ht Hlabel) as [Hb|[Hs|Hh]]; [|auto..].
right. left.
specialize (HLB t Hb).
destruct (SFleb_not_nan _ _ HLB) as [Hdnan _].
destruct Hrad as (Hrnan & _).
apply SFleb_false in Hdr; [|done..].
destruct (pw_bounds t Ht) as (Hpw & _).
eapply SFltb_SFleb_trans; [exact Hdr|]. by eapply SFleb_trans.
Qed.

(** The loop ends, after at most as many turns as the measure tells. *)
Lemma traverse_find fuel :
∀ st, Inv st → (mu st ≤ fuel)%nat →
      ∃ st', traverse device bvh labels metric i c fuel st = Ok st'
             ∧ Done st'.
Proof.
induction fuel as [|fuel IH]; intros st Hinv Hfuel.
{ destruct Hinv as (_ & Hnode & _).
  pose proof (inner_nodes_pos bvh D (node st) (node_inner _ Hnode)).
  unfold traversal_measure in Hfuel. lia. }
simpl. destruct (traversal_body_find st Hinv) as (st1 & -> & Hst1). simpl.
destruct Hst1 as [[Hinv1 Hmu]|Hdone].
- pose proof Hinv1 as (_ & Hnode & _).
  rewrite in_range_not_sentinel by done. simpl. apply IH; [done|lia].
- pose proof Hdone as ((-> & _) & _). simpl. by exists st1.
Qed.

Lemma initial_state_find :
not_nan r0 → Inv (initial_state device bvh i r0).
Proof.
intros Hr0. destruct tree as (Hroot & Hdepth & _ & _ & Hall).
destruct distances as (Hnonneg & _).
split.
{ split.
  - exists D. simpl. split; [done|]. split; [by apply node_inner|].
    split; [done|]. constructor.
  - simpl. destruct device; [by left|by right]. }
simpl. split; [done|]. split.
{ exists []. split; [done|]. intros s Hs. by apply elem_of_nil in Hs. }
split; [by destruct device|]. split.
{ intros t Hb.
  destruct (below_lower_bound (getRoot bvh) t) as [Ht _]; [lia|done|].
  apply Hnonneg; [done|]. unfold leaf in Ht. lia. }
split; [by left|]. split.
{ split; [done|]. split; [by apply SFleb_refl|by left]. }
intros t Ht _. left. by apply Hall.
Qed.

(** The traversal of an item as a whole. *)
Lemma traverse_item fuel :
not_nan r0 → (inner_nodes bvh D (getRoot bvh) ≤ fuel)%nat →
∃ st, traverse device bvh labels metric i c fuel
               (initial_state device bvh i r0) = Ok st
      ∧ Done st.
Proof.
intros Hr0 Hfuel. apply traverse_find; [by apply initial_state_find|].
unfold traversal_measure. simpl. unfold SENTINEL. simpl. lia.
Qed.
End FindItem.

(** ** The search for the nearest neighbours of the components *)

Lemma atomic_min_edge_le dest val :
  WeightedEdge_lt dest (atomic_min_edge dest val) = false
  ∧ WeightedEdge_lt val (atomic_min_edge dest val) = false
  ∧ (atomic_min_edge dest val = dest ∨ atomic_min_edge dest val = val).
Proof.
  unfold atomic_min_edge. destruct (WeightedEdge_lt val dest) eqn:Hlt.
  - split; [by apply WeightedEdge_lt_asym|].
    split; [apply WeightedEdge_lt_irrefl|by right].
  - split; [apply WeightedEdge_lt_irrefl|]. split; [done|by left].
Qed.

Lemma tree_ok_two bvh D : tree_ok bvh D → 2 ≤ bvh_size bvh.
Proof. intros (Hroot & _). lia. Qed.

(** With two components or more, an edge leaves every component. *)
Lemma outgoing_exists n labels c :
  2 ≤ num_components n labels → c ∈ components n labels →
  ∃ u v, outgoing n labels c u v.
Proof.
  intros Hnc Hc. unfold num_components in Hnc.
  assert (∃ c', c' ∈ components n labels ∧ c' ≠ c) as (c' & Hc' & Hne).
  { destruct (components n labels) as [|c1 [|c2 rest]] eqn:E;
      simpl in Hnc; try lia.
    pose proof (components_NoDup n labels) as Hnd. rewrite E in Hnd.
    apply NoDup_cons in Hnd as [Hnot _].
    destruct (decide (c1 = c)) as [->|Hne1].
    - exists c2. split; [by right; left|]. intros ->. apply Hnot. by left.
    - exists c1. split; [by left|done]. }
  apply components_elem in Hc as [Hleaf Hl].
  apply components_elem in Hc' as [Hleaf' Hl'].
  exists c, c'. split; [done|]. split; [done|]. split; [done|].
  rewrite Hl'. by intros [= ?].
Qed.

Section FindKernel.
Variable device : bool.
Variable bvh : BVH.
Variable labels : list Z.
Variable metric : Metric.
Variable D : nat.
Variable fuel : nat.

Local Abbreviation n := (bvh_size bvh).
Local Abbreviation pw := (pair_weight bvh metric).
Local Abbreviation edge := (edge_between bvh metric).
Local Abbreviation Dc := (components n labels).

Hypothesis D_capacity : (D < stack_capacity)%nat.
Hypothesis tree : tree_ok bvh D.
Hypothesis distances : distances_ok bvh metric.
Hypothesis reduced : labels_reduced bvh labels.
Hypothesis n_small : 2 * n - 1 < size_t_modulus.
Hypothesis fuel_enough : (inner_nodes bvh D (getRoot bvh) ≤ fuel)%nat.

Lemma outgoing_weight c u v :
outgoing n labels c u v →
SFltb (pw u v) inf = true ∧ not_nan (pw u v).
Proof.
intros (Hu & Hv & _). destruct distances as (_ & _ & _ & Hfin & _).
split; [by apply Hfin|].
by destruct (SFltb_not_nan _ _ (Hfin u v Hu Hv)).
Qed.

Lemma table_entry_not_nan c e :
e = uninitialized_edge ∨ (∃ u v, outgoing n labels c u v ∧ e = edge u v) →
not_nan (weight e).
Proof.
intros [->|(u & v & Hout & ->)]; [done|]. simpl.
by apply (outgoing_weight c).
Qed.

(** One item of the kernel. *)
Lemma FindComponentNearestNeighbors_op_inv done i rest s :
leaves n = done ++ i :: rest →
table_inv bvh metric labels done s →
∃ s', FindComponentNearestNeighbors_op device bvh labels metric fuel i s
      = Ok s'
      ∧ table_inv bvh metric labels (done ++ [i]) s'.
Proof.
intros Hitems (Hexte & Hextr & Hcomp). destruct s as [edges radii].
simpl in Hexte, Hextr, Hcomp.
assert (leaf n i) as Hi.
{ apply leaves_elem. rewrite Hitems, elem_of_app, elem_of_cons. auto. }
pose proof reduced as [Hwf _].
destruct (label_of_wf n labels i Hwf Hi) as [Hli HcD].
set (c := label_of labels i) in *.
pose proof HcD as [Hcleaf _]%components_elem.
assert (0 ≤ slot n c < n) as Hslot.
{ rewrite slot_leaf by done. unfold leaf in Hcleaf. lia. }
destruct (Hcomp c HcD) as (e & r & He & Hr & Hrad & Hentry & Hdone).
destruct Hrad as [Hrnan Hrorig].
destruct (traverse_item device bvh labels metric D i c r tree distances
            reduced Hi Hli D_capacity fuel Hrnan fuel_enough)
  as (st & Htrav & _ & Hbest & (Hrnan' & Hrle & Hrorig') & Hhandled).
unfold FindComponentNearestNeighbors_op. rewrite Hli. simpl.
rewrite Hr. simpl. rewrite Htrav. simpl.
rewrite set_is_Ok by lia. simpl. rewrite He. simpl.
set (radii' := <[Z.to_nat (slot n c) := radius st]> radii).
set (commit := SFltb (weight (current_best st)) inf
               && SFleb (weight (current_best st)) (weight e)).
set (e' := if commit then atomic_min_edge e (current_best st) else e).
set (edges' := if commit then <[Z.to_nat (slot n c) := e']> edges
               else edges).
assert ((if commit
         then let* edges' := set edges (slot n c)
                                 (atomic_min_edge e (current_best st)) in
              Ok (edges', radii')
         else Ok (edges, radii')) = Ok (edges', radii')) as ->.
{ unfold edges', e'. destruct commit; [|done].
  by rewrite set_is_Ok by lia. }
exists (edges', radii'). split; [done|].
assert (extent edges' = n) as Hexte'.
{ unfold edges'. destruct commit; [|done]. by rewrite extent_insert. }
assert (get edges' (slot n c) = Ok e') as He'.
{ unfold edges', e'. destruct commit; [|done].
  apply get_insert_eq. lia. }
assert (∀ c', c' ∈ Dc → c' ≠ c →
          get edges' (slot n c') = get edges (slot n c')
          ∧ get radii' (slot n c') = get radii (slot n c')) as Hother.
{ intros c' [Hc'leaf _]%components_elem Hne.
  assert (slot n c ≠ slot n c') as Hslots.
  { rewrite !slot_leaf by done. lia. }
  split; [unfold edges'; destruct commit; [|done]|];
    apply get_insert_ne; (done || lia). }
assert (not_nan (weight e)) as Henan by (by apply (table_entry_not_nan c)).
assert (not_nan (weight (current_best st))) as Hbnan.
{ by apply (best_ok_not_nan bvh labels metric i c distances Hi). }
assert (WeightedEdge_lt e e' = false) as Hee'.
{ unfold e'. destruct commit; [|apply WeightedEdge_lt_irrefl].
  apply atomic_min_edge_le. }
split; [done|]. split; [unfold radii'; simpl; by rewrite extent_insert|].
simpl. intros c' Hc'. destruct (decide (c' = c)) as [->|Hne]; last first.
{ destruct (Hother c' Hc' Hne) as [-> ->].
  destruct (Hcomp c' Hc') as (e1 & r1 & He1 & Hr1 & Hrad1 & Hentry1 & Hdone1).
  exists e1, r1. split; [done|]. split; [done|]. split; [done|].
  split; [done|].
  intros u v [Hu| ->%list_elem_of_singleton]%elem_of_app Hout;
    [by apply Hdone1|].
  destruct Hout as (_ & _ & Hlu & _). rewrite Hli in Hlu.
  by injection Hlu as <-. }
exists e', (radius st). split; [done|].
split; [apply get_insert_eq; lia|]. split; [|split].
- split; [done|].
  destruct Hrorig' as [->|(t & Ht & Hlt & ->)]; [done|].
  right. by exists i, t.
- unfold e'. destruct commit eqn:Hcommit; [|done].
  destruct (atomic_min_edge_le e (current_best st)) as (_ & _ & [-> | ->]);
    [done|].
  destruct Hbest as [Hinit|(t & Ht & Hlt & ->)].
  + unfold commit in Hcommit. rewrite Hinit in Hcommit. simpl in Hcommit.
    done.
  + right. by exists i, t.
- intros u v [Hu| ->%list_elem_of_singleton]%elem_of_app Hout.
  + destruct (Hdone u v Hu Hout) as [Hlt|Hlt].
    * left. by eapply SFleb_SFltb_trans.
    * right. by apply (WeightedEdge_le_trans _ e).
  + pose proof Hout as (_ & Hv & _ & Hlv).
    destruct (outgoing_weight c i v Hout) as [Hfin _].
    destruct (Hhandled v Hv Hlv) as [Hlt|Hlt]; [by left|]. right.
    destruct Hbest as [Hinit|(t & Ht & Hlt' & Hb)].
    { rewrite Hinit in Hlt.
      rewrite WeightedEdge_lt_of_weight in Hlt; done. }
    assert (SFltb (weight (current_best st)) inf = true) as Hbfin.
    { rewrite Hb. simpl. by apply (outgoing_weight c i t). }
    unfold e', commit. rewrite Hbfin. simpl.
    destruct (SFleb (weight (current_best st)) (weight e)) eqn:Hle.
    * apply (WeightedEdge_le_trans _ (current_best st)); [done| |done].
      apply atomic_min_edge_le.
    * apply SFleb_false in Hle; [|done..].
      apply (WeightedEdge_le_trans _ (current_best st)); [done| |done].
      by apply WeightedEdge_lt_asym, WeightedEdge_lt_of_weight.
Qed.

(** The kernel as a whole. *)
Lemma findComponentNearestNeighbors_inv edges radii :
table_inv bvh metric labels [] (edges, radii) →
∃ s', findComponentNearestNeighbors device bvh labels metric fuel edges
                                     radii = Ok s'
      ∧ table_inv bvh metric labels (leaves n) s'.
Proof.
intros Hinv. pose proof Hinv as (Hexte & Hextr & _).
simpl in Hexte, Hextr. pose proof (tree_ok_two bvh D tree) as Hn.
destruct reduced as [[Hext _] _].
unfold findComponentNearestNeighbors.
rewrite Hext, Hexte, Hextr, Z.mod_small, !Z.eqb_refl by lia. simpl.
unfold parallel_for. fold (leaves n).
apply (for_each_prefix _ (table_inv bvh metric labels)); [|done].
intros done i rest s Hitems Hs.
by apply (FindComponentNearestNeighbors_op_inv done i rest).
Qed.

(** After all items the entry of a component is a least edge among those
  that leave it. *)
Lemma table_inv_least s c :
table_inv bvh metric labels (leaves n) s → c ∈ Dc →
∃ e, get (fst s) (slot n c) = Ok e
     ∧ ((∃ u v, outgoing n labels c u v) →
        least_outgoing bvh metric labels c e)
     ∧ ((∀ u v, ¬ outgoing n labels c u v) → e = uninitialized_edge).
Proof.
intros (_ & _ & Hcomp) Hc.
destruct (Hcomp c Hc) as (e & r & He & _ & [Hrnan Hrorig] & Hentry & Hall).
exists e. split; [done|].
assert (∀ u v, outgoing n labels c u v →
               WeightedEdge_lt (edge u v) e = false) as Hleast.
{ intros u v Hout.
  assert (u ∈ leaves n) as Hu by (apply leaves_elem; by destruct Hout).
  destruct (Hall u v Hu Hout) as [Hlt|?]; [|done].
  destruct Hrorig as [->|(s0 & t0 & Hout0 & ->)].
  { by rewrite SFltb_inf_false in Hlt. }
  assert (s0 ∈ leaves n) as Hs0 by (apply leaves_elem; by destruct Hout0).
  destruct (Hall s0 t0 Hs0 Hout0) as [Hirr|Hle].
  { by rewrite SFltb_irrefl in Hirr. }
  apply (WeightedEdge_le_trans _ (edge s0 t0)); [|done|].
  - simpl. by apply (outgoing_weight c s0 t0).
  - by apply WeightedEdge_lt_asym, WeightedEdge_lt_of_weight. }
split.
- intros (u & v & Hout). split; [|done].
  destruct Hentry as [->|?]; [|done].
  specialize (Hleast u v Hout).
  rewrite WeightedEdge_lt_of_weight in Hleast; [done|].
  simpl. by apply (outgoing_weight c u v).
- intros Hnone. destruct Hentry as [?|(u & v & Hout & _)]; [done|].
  by destruct (Hnone u v).
Qed.

End FindKernel.

(** ** The component-out-edge table of a round *)

Lemma example_tree_ok : tree_ok example_bvh 2.
Proof.
  split; [simpl; lia|]. split; [reflexivity|]. split; [done|]. split.
  - intros x Hx. simpl in Hx.
    assert (x = 0 ∨ x = 1) as [-> | ->] by lia; simpl; lia.
  - intros t Ht. unfold leaf in Ht. simpl in Ht.
    assert (t = 2 ∨ t = 3 ∨ t = 4) as [-> | [-> | ->]] by lia.
    + apply below_left; [done|]. apply below_left; [done|].
      by apply below_leaf.
    + apply below_left; [done|]. apply below_right; [done|].
      by apply below_leaf.
    + apply below_right; [done|]. by apply below_leaf.
Qed.

Lemma example_distances_ok : distances_ok example_bvh Euclidean.
Proof.
  assert (∀ i, leaf 3 i → i = 2 ∨ i = 3 ∨ i = 4) as Hleaf.
  { unfold leaf. lia. }
  split; [|split; [|split; [|split]]].
  - intros i x [-> | [-> | ->]]%Hleaf Hx; simpl in Hx;
      assert (x = 0 ∨ x = 1 ∨ x = 2 ∨ x = 3 ∨ x = 4)
        as [-> | [-> | [-> | [-> | ->]]]] by lia; reflexivity.
  - intros i x [-> | [-> | ->]]%Hleaf Hx; simpl in Hx;
      assert (x = 0 ∨ x = 1) as [-> | ->] by lia; split; reflexivity.
  - intros s t [-> | [-> | ->]]%Hleaf [-> | [-> | ->]]%Hleaf; reflexivity.
  - intros s t [-> | [-> | ->]]%Hleaf [-> | [-> | ->]]%Hleaf; reflexivity.
  - intros s t [-> | [-> | ->]]%Hleaf [-> | [-> | ->]]%Hleaf; reflexivity.
Qed.

Lemma example_labels_reduced : labels_reduced example_bvh example_labels.
Proof.
  split; [apply example_labels_wf|].
  intros x t c Hx _ Hget Hc. simpl in Hx. exfalso.
  apply components_elem in Hc as [Hleaf _]. unfold leaf in Hleaf.
  assert (x = 0 ∨ x = 1) as [-> | ->] by lia;
    vm_compute in Hget; injection Hget as <-; simpl in Hleaf; lia.
Qed.

(** X6. On a tree that is laid out as the kernel expects, with distances
    and a metric as the comment of the kernel asks for, and labels as
    [reduceLabels] leaves them, [findComponentNearestNeighbors] returns,
    and the entry it leaves for a component is an edge from a leaf of the
    component to a leaf of another component, with the weight of the
    metric, such that no edge that leaves the component is below it in the
    order [operator<]. The entry of a component that no edge leaves is not
    written. The table starts with the uninitialized edge everywhere and
    the radii with infinity or the weight of an edge that leaves the
    component. *)
Theorem findComponentNearestNeighbors_stores_least_outgoing_edges
  (device : bool) (bvh : BVH) (labels : list Z) (metric : Metric)
  (D fuel : nat) (edges : list WeightedEdge) (radii : list float) :
  let n := bvh_size bvh in
  (D ≤ 63)%nat → tree_ok bvh D → distances_ok bvh metric →
  labels_reduced bvh labels →
  2 * n - 1 < size_t_modulus →
  (inner_nodes bvh D (getRoot bvh) ≤ fuel)%nat →
  extent edges = n → extent radii = n →
  (∀ c, c ∈ components n labels →
        get edges (slot n c) = Ok uninitialized_edge
        ∧ ∃ r, get radii (slot n c) = Ok r
               ∧ radius_of_component bvh metric labels c r) →
  ∃ edges' radii',
    findComponentNearestNeighbors device bvh labels metric fuel edges radii
    = Ok (edges', radii')
    ∧ extent edges' = n
    ∧ ∀ c, c ∈ components n labels →
           ∃ e, get edges' (slot n c) = Ok e
                ∧ ((∃ u v, outgoing n labels c u v) →
                   least_outgoing bvh metric labels c e)
                ∧ ((∀ u v, ¬ outgoing n labels c u v) →
                   e = uninitialized_edge).
Proof.
  intros n HD Htree Hdist Hred Hsmall Hfuel Hexte Hextr Hinit.
  assert (D < stack_capacity)%nat as Hcap by (unfold stack_capacity; lia).
  destruct (findComponentNearestNeighbors_inv device bvh labels metric D
              fuel Hcap Htree Hdist Hred Hsmall Hfuel edges radii)
    as ([edges' radii'] & Hrun & Hinv).
  { split; [done|]. split; [done|]. simpl. intros c Hc.
    destruct (Hinit c Hc) as (He & r & Hr & Hrad).
    exists uninitialized_edge, r. split; [done|]. split; [done|].
    split; [done|]. split; [by left|].
    intros u v Hu. by apply elem_of_nil in Hu. }
  exists edges', radii'. split; [done|].
  split; [by destruct Hinv as (? & _)|].
  intros c Hc.
  by apply (table_inv_least bvh labels metric Hdist (edges', radii') c).
Qed.

Lemma findComponentNearestNeighbors_stores_least_outgoing_edges_witness :
  findComponentNearestNeighbors false example_bvh example_labels Euclidean 3
    [uninitialized_edge; uninitialized_edge; uninitialized_edge]
    [inf; inf; inf]
  = Ok ([mkEdge 2 3 one_float; mkEdge 3 2 one_float; mkEdge 4 3 two_float],
        [one_float; one_float; two_float]).
Proof.
  destruct (findComponentNearestNeighbors_stores_least_outgoing_edges
              false example_bvh example_labels Euclidean 2 3
              [uninitialized_edge; uninitialized_edge; uninitialized_edge]
              [inf; inf; inf])
    as (edges' & radii' & Hrun & _).
  - lia.
  - apply example_tree_ok.
  - apply example_distances_ok.
  - apply example_labels_reduced.
  - simpl. unfold size_t_modulus. lia.
  - simpl. lia.
  - reflexivity.
  - reflexivity.
  - intros c Hc. change (c ∈ [2; 3; 4]) in Hc.
    rewrite !elem_of_cons, elem_of_nil in Hc.
    destruct Hc as [-> | [-> | [-> | []]]];
      (split; [reflexivity|]); exists inf;
      (split; [reflexivity|]); (split; [done|by left]).
  - rewrite Hrun. vm_compute in Hrun. by injection Hrun as <- <-.
Defined.

Section RoundTable.
Variable device : bool.
Variable bvh : BVH.
Variable labels : list Z.
Variable metric : Metric.
Variable D : nat.
Variable fuel : nat.

Local Abbreviation n := (bvh_size bvh).
Local Abbreviation pw := (pair_weight bvh metric).
Local Abbreviation Dc := (components n labels).

Hypothesis D_capacity : (D < stack_capacity)%nat.
Hypothesis tree : tree_ok bvh D.
Hypothesis distances : distances_ok bvh metric.
Hypothesis reduced : labels_reduced bvh labels.
Hypothesis n_small : 2 * n - 1 < size_t_modulus.
Hypothesis fuel_enough : (inner_nodes bvh D (getRoot bvh) ≤ fuel)%nat.

Lemma leaf_weight_leaves u v :
leaf n u → leaf n v → leaf_weight bvh metric u v = pw u v.
Proof.
intros Hu Hv. unfold leaf_weight, leaf in *.
destruct (decide _) as [|Hn]; [done|]. by destruct Hn.
Qed.

Lemma leaf_weight_sym u v :
leaf_weight bvh metric u v = leaf_weight bvh metric v u.
Proof.
destruct distances as (_ & _ & _ & _ & Hsym). unfold leaf_weight.
destruct (decide _) as [[Hu Hv]|Hn1], (decide _) as [[Hv' Hu']|Hn2];
  try done; try (by apply Hsym); exfalso; auto.
Qed.

Lemma leaf_weight_not_nan u v : not_nan (leaf_weight bvh metric u v).
Proof.
destruct distances as (_ & _ & _ & Hfin & _). unfold leaf_weight.
destruct (decide _) as [[Hu Hv]|_]; [|done].
by destruct (SFltb_not_nan _ _ (Hfin u v Hu Hv)).
Qed.

(** The steps of a turn of the loop that fill the table. *)
Lemma nearest_neighbors_round_least :
∃ out_edges radii,
  nearest_neighbors_round device fuel bvh metric labels
  = Ok (out_edges, radii)
  ∧ extent out_edges = n
  ∧ ∀ c, c ∈ Dc →
         ∃ e, get out_edges (slot n c) = Ok e
              ∧ ((∃ u v, outgoing n labels c u v) →
                 least_outgoing bvh metric labels c e).
Proof.
pose proof reduced as [Hwf _].
pose proof (tree_ok_two bvh D tree) as Hn.
pose proof distances as (_ & _ & _ & Hfin & Hsym).
unfold nearest_neighbors_round.
destruct (resetSharedRadii_inv bvh labels metric
            (replicate (Z.to_nat n) inf) n_small Hwf)
  as (radii & Hreset & Hextr & Hrad & _).
{ intros i Hi Hj. by destruct (SFltb_not_nan _ _ (Hfin i (i + 1) Hi Hj)). }
{ apply extent_replicate. lia. }
{ intros k r Hk. pose proof (get_Ok_lt _ _ _ Hk) as Hlt.
  rewrite extent_replicate in Hlt by lia.
  rewrite get_replicate in Hk by done. by injection Hk as <-. }
rewrite Hreset. simpl.
destruct (findComponentNearestNeighbors_inv device bvh labels metric D
            fuel D_capacity tree distances reduced n_small fuel_enough
            (replicate (Z.to_nat n) uninitialized_edge) radii)
  as ([edges' radii'] & Hrun & Hinv).
{ split; [apply extent_replicate; lia|]. split; [done|]. simpl.
  intros c Hc. pose proof Hc as [Hleaf _]%components_elem.
  assert (0 ≤ slot n c < n) as Hslot.
  { rewrite slot_leaf by done. unfold leaf in Hleaf. lia. }
  destruct (Hrad c Hc) as (r & Hr & Hnan & Horig & _).
  exists uninitialized_edge, r.
  split; [by apply get_replicate|]. split; [done|]. split.
  - split; [done|].
    destruct Horig as [Hr0|(i & _ & (Hi & Hj & Hdiff & Hwhich) & ->)].
    + rewrite get_replicate in Hr0 by done. left. by injection Hr0.
    + right.
      destruct (label_of_wf n labels i Hwf Hi) as [Hli _].
      destruct (label_of_wf n labels (i + 1) Hwf Hj) as [Hlj _].
      destruct Hwhich as [<-|<-].
      * exists i, (i + 1). split; [|done].
        split; [done|]. split; [done|]. split; [done|].
        rewrite Hlj. intros [= ?]. done.
      * exists (i + 1), i. split; [|by apply Hsym].
        split; [done|]. split; [done|]. split; [done|].
        rewrite Hli. intros [= ?]. done.
  - split; [by left|]. intros u v Hu. by apply elem_of_nil in Hu. }
rewrite Hrun. exists edges', radii'. split; [done|].
split; [by destruct Hinv as (? & _)|].
intros c Hc.
destruct (table_inv_least bvh labels metric distances (edges', radii') c
            Hinv Hc) as (e & He & Hleast & _).
by exists e.
Qed.

(** With two components or more, the table of a round stores a least
  outgoing edge for every component. *)
Lemma nearest_neighbors_round_min :
2 ≤ num_components n labels →
∃ out_edges radii,
  nearest_neighbors_round device fuel bvh metric labels
  = Ok (out_edges, radii)
  ∧ stores_min_outgoing_edges n labels (leaf_weight bvh metric) out_edges.
Proof.
intros Hnc.
destruct nearest_neighbors_round_least
  as (out_edges & radii & Hrun & Hext & Hleast).
exists out_edges, radii. split; [done|]. split; [done|].
split; [apply leaf_weight_sym|]. split; [apply leaf_weight_not_nan|].
intros c Hc. destruct (Hleast c Hc) as (e & He & Hmin).
destruct Hmin as [(s & t & (Hs & Ht & Hls & Hlt) & ->) Hall].
{ by apply outgoing_exists. }
exists (edge_between bvh metric s t). simpl.
split; [done|]. split; [done|]. split; [done|]. split; [done|].
split; [done|]. split; [by rewrite leaf_weight_leaves|].
intros u v Hu Hv Hlu Hlv. rewrite leaf_weight_leaves by done.
by apply Hall.
Qed.
End RoundTable.

(** X7. On a tree that is laid out as the kernels expect, with distances
    and a metric as the comment of the search asks for, and labels as
    [reduceLabels] leaves them, the steps of a turn of the loop of
    [doBoruvka] that fill [component_out_edges] return, and with two
    components or more the table holds a least outgoing edge for every
    component; the component graph of such a table has no cycle longer than
    two. *)
Theorem nearest_neighbors_round_fills_table
  (device : bool) (bvh : BVH) (labels : list Z) (metric : Metric)
  (D fuel : nat) :
  let n := bvh_size bvh in
  (D ≤ 63)%nat → tree_ok bvh D → distances_ok bvh metric →
  labels_reduced bvh labels →
  2 * n - 1 < size_t_modulus →
  (inner_nodes bvh D (getRoot bvh) ≤ fuel)%nat →
  2 ≤ num_components n labels →
  ∃ out_edges radii,
    nearest_neighbors_round device fuel bvh metric labels
    = Ok (out_edges, radii)
    ∧ stores_min_outgoing_edges n labels (leaf_weight bvh metric) out_edges
    ∧ round_table_ok n labels out_edges.
Proof.
  intros n HD Htree Hdist Hred Hsmall Hfuel Hnc.
  assert (D < stack_capacity)%nat as Hcap by (unfold stack_capacity; lia).
  destruct (nearest_neighbors_round_min device bvh labels metric D fuel
              Hcap Htree Hdist Hred Hsmall Hfuel Hnc)
    as (out_edges & radii & Hrun & Hmin).
  exists out_edges, radii. split; [done|]. split; [done|].
  destruct Hred as [Hwf _].
  by apply (min_outgoing_round_table_ok n labels (leaf_weight bvh metric)).
Qed.

Lemma nearest_neighbors_round_fills_table_witness :
  nearest_neighbors_round false 3 example_bvh Euclidean example_labels
  = Ok ([mkEdge 2 3 one_float; mkEdge 3 2 one_float; mkEdge 4 3 two_float],
        [one_float; one_float; two_float]).
Proof.
  destruct (nearest_neighbors_round_fills_table false example_bvh
              example_labels Euclidean 2 3)
    as (out_edges & radii & Hrun & _).
  - lia.
  - apply example_tree_ok.
  - apply example_distances_ok.
  - apply example_labels_reduced.
  - simpl. unfold size_t_modulus. lia.
  - simpl. lia.
  - vm_compute. by intros [=].
  - rewrite Hrun. vm_compute in Hrun. by injection Hrun as <- <-.
Defined.

Lemma example_reduceLabels_keeps parents :
  keeps_leaf_labels 3 (example_reduceLabels parents).
Proof.
  intros labels. unfold example_reduceLabels.
  destruct labels as [|a [|b [|l2 [|l3 [|l4 [|x l]]]]]]; try done.
  split; [done|]. intros x Hx.
  assert (x = 2 ∨ x = 3 ∨ x = 4) as [-> | [-> | ->]]
    by (unfold leaf in Hx; lia); done.
Qed.

Lemma example_reduceLabels_reduced parents labels :
  labels_wf 3 labels →
  labels_reduced example_bvh (example_reduceLabels parents labels).
Proof.
  intros Hwf. pose proof Hwf as [Hext _].
  destruct (example_reduceLabels_keeps parents labels) as [Hlen Hleaves].
  split.
  { by apply (labels_wf_ext 3 labels). }
  unfold extent in Hext.
  destruct labels as [|a [|b [|l2 [|l3 [|l4 [|x l]]]]]]; simpl in Hext;
    try lia.
  unfold example_reduceLabels in *.
  intros x t c Hx Hbelow Hget Hc. simpl in Hx.
  apply components_elem in Hc as [Hleaf _]. unfold leaf in Hleaf.
  assert (∀ y, below example_bvh 1 y → y = 2 ∨ y = 3) as Hbelow1.
  { intros y Hy. inversion Hy as [? Hl|? ? _ Hl|? ? _ Hl]; subst;
      [done| |]; apply below_leaf_eq in Hl; auto. }
  assert (x = 0 ∨ x = 1) as [-> | ->] by lia.
  - assert (t = 2 ∨ t = 3 ∨ t = 4) as Ht.
    { inversion Hbelow as [? Hl|? ? _ Hl|? ? _ Hl]; subst; [done| |].
      - destruct (Hbelow1 t Hl); auto.
      - apply below_leaf_eq in Hl; auto. }
    apply get_Ok in Hget as [_ Hget]. simpl in Hget. injection Hget as Hget.
    destruct (Z.eqb_spec l2 l3) as [->|_];
      [|destruct (Z.eqb_spec (-1) l4); lia].
    destruct (Z.eqb_spec l3 l4) as [->|_]; [|lia]. subst c.
    destruct Ht as [-> | [-> | ->]]; reflexivity.
  - apply get_Ok in Hget as [_ Hget]. simpl in Hget. injection Hget as Hget.
    destruct (Z.eqb_spec l2 l3) as [->|_]; [|lia]. subst c.
    destruct (Hbelow1 t Hbelow) as [-> | ->]; reflexivity.
Qed.

(** X8. On a tree that is laid out as the kernels expect, with distances
    and a metric as the comment of the search asks for, and a
    [reduceLabels] that keeps the labels of the leaves and gives an inner
    node the label of a component only when all leaves below it carry it,
    the constructor returns: it leaves [n - 1] edges that join the
    primitives of all leaves, and the loop takes at most [rounds] turns for
    every [rounds] with [n <= 2 ^ rounds], the turn with the number
    [iterations] starting with at most [n / 2 ^ (iterations - 1)]
    components. *)
Theorem MinimumSpanningTree_returns_spanning_tree
  (Primitives : Type) (primitives_size : Primitives → Z)
  (build_BVH : Primitives → BVH)
  (query_core_distances : BVH → Primitives → Z → Z → float)
  (findParents : BVH → list Z) (reduceLabels : list Z → list Z → list Z)
  (garbage_int : Z) (garbage_edge : WeightedEdge) (device : bool)
  (D fuel rounds : nat) (primitives : Primitives) (k : Z) :
  let bvh := build_BVH primitives in
  let n := bvh_size bvh in
  let metric := if k >? 1
                then MutualReachability
                       (query_core_distances bvh primitives k)
                else Euclidean in
  (D ≤ 63)%nat → tree_ok bvh D → distances_ok bvh metric →
  2 * n - 1 < size_t_modulus →
  primitives_size primitives = n →
  (Z.to_nat n ≤ fuel)%nat →
  (inner_nodes bvh D (getRoot bvh) ≤ fuel)%nat →
  n ≤ 2 ^ Z.of_nat rounds →
  keeps_leaf_labels n (reduceLabels (findParents bvh)) →
  (∀ labels, labels_wf n labels →
             labels_reduced bvh (reduceLabels (findParents bvh) labels)) →
  ∃ log edges,
    run (MinimumSpanningTree Primitives primitives_size build_BVH
           query_core_distances findParents reduceLabels garbage_int
           garbage_edge device fuel rounds primitives k)
    = (log, Ok edges)
    ∧ extent edges = n - 1
    ∧ (∀ x y, leaf n x → leaf n y →
              connected edges (getLeafPermutationIndex bvh x)
                              (getLeafPermutationIndex bvh y))
    ∧ ∀ iterations num_components,
        BoruvkaRegion iterations num_components ∈ log →
        1 ≤ iterations ≤ Z.of_nat rounds
        ∧ num_components * 2 ^ (iterations - 1) ≤ n.
Proof.
  intros bvh n metric HD Htree Hdist Hsmall Hsize Hfuel Hfuel' Hrounds
    Hkeeps Hreduced.
  assert (D < stack_capacity)%nat as Hcap by (unfold stack_capacity; lia).
  pose proof (tree_ok_two bvh D Htree) as Hn.
  destruct (MinimumSpanningTree_merges Primitives primitives_size build_BVH
              query_core_distances findParents reduceLabels garbage_int
              garbage_edge device fuel rounds primitives k (fun _ => True)
              Hn Hsmall Hsize Hfuel Hrounds Hkeeps)
    as (log & s & Hrun & Hall & Hinv & Hspan & Hone & Hregions & _);
    [|done|done|].
  { intros labels Hwf Hnc.
    set (labels1 := reduceLabels (findParents bvh) labels).
    pose proof (Hreduced labels Hwf) as Hred. fold labels1 in Hred.
    destruct (Hkeeps labels) as [_ Hleaves]. fold labels1 in Hleaves.
    assert (2 ≤ num_components n labels1) as Hnc1.
    { unfold num_components. by rewrite (components_ext n labels labels1). }
    destruct (nearest_neighbors_round_min device bvh labels1 metric D fuel
                Hcap Htree Hdist Hred Hsmall Hfuel' Hnc1)
      as (out_edges & radii & Hround & Hmin).
    exists out_edges, radii. split; [done|]. destruct Hred as [Hwf1 _].
    by apply (min_outgoing_round_table_ok n labels1
                (leaf_weight bvh metric)). }
  destruct Hinv as (Hwf & Hbuf & _).
  exists log, (depermute bvh <$> u_edges s). split; [done|].
  split; [unfold extent in *; by rewrite length_fmap|]. split.
  - assert (∃ c, components n (u_labels s) = [c]) as [c Hc].
    { change (Z.of_nat (length (components n (u_labels s))) = 1) in Hone.
      destruct (components n (u_labels s)) as [|c [|c' l]]; simpl in Hone;
        try lia. by exists c. }
    assert (∀ x, leaf n x → label_of (u_labels s) x = c) as Hlabel.
    { intros x Hx. destruct (label_of_wf n (u_labels s) x Hwf Hx) as [_ Hin].
      rewrite Hc in Hin. by apply list_elem_of_singleton in Hin. }
    intros x y Hx Hy.
    apply (connected_fmap (getLeafPermutationIndex bvh) (u_edges s) x y).
    rewrite <- Hall. apply connected_trans with c.
    + rewrite <- (Hlabel x Hx). by apply Hspan.
    + apply connected_sym. rewrite <- (Hlabel y Hy). by apply Hspan.
  - intros j c Hin. destruct (Hregions j c Hin) as [Hj Hc].
    split; [lia|]. by replace (j - 1) with (j - 0 - 1) by lia.
Qed.

Lemma MinimumSpanningTree_returns_spanning_tree_witness :
  ∃ log edges,
    example_MST 2 1 = (log, Ok edges)
    ∧ extent edges = 2
    ∧ connected edges 0 2.
Proof.
  destruct (MinimumSpanningTree_returns_spanning_tree unit (fun _ => 3)
              (fun _ => example_bvh) (fun _ _ _ _ => zero)
              (fun _ => example_parents) example_reduceLabels 0
              uninitialized_edge false 2 10 2 tt 1)
    as (log & edges & Hrun & Hext & Hspan & _).
  - lia.
  - apply example_tree_ok.
  - apply example_distances_ok.
  - simpl. unfold size_t_modulus. lia.
  - reflexivity.
  - simpl. lia.
  - simpl. lia.
  - simpl. lia.
  - apply example_reduceLabels_keeps.
  - intros labels. apply example_reduceLabels_reduced.
  - exists log, edges. split; [exact Hrun|]. split; [exact Hext|].
    apply (Hspan 2 4); unfold leaf; simpl; lia.
Defined.

(** X9. The traversal of an item of the search ends: on a tree as above
    the loop makes at most as many turns as there are inner nodes below
    the root, it ends with the sentinel and both stacks empty, the radius
    it leaves is no larger than the one it started with, and
    [current_best] is the edge [{i, undetermined, inf}] it started with or
    an edge from [i] to a leaf of another component, weighted by the
    metric, which no such edge within the radius beats. *)
Theorem traversal_of_item_terminates
  (device : bool) (bvh : BVH) (labels : list Z) (metric : Metric)
  (D fuel : nat) (i c : Z) (r0 : float) :
  let n := bvh_size bvh in
  (D ≤ 63)%nat → tree_ok bvh D → distances_ok bvh metric →
  labels_reduced bvh labels →
  leaf n i → get labels i = Ok c → not_nan r0 →
  (inner_nodes bvh D (getRoot bvh) ≤ fuel)%nat →
  ∃ st,
    traverse device bvh labels metric i c fuel
             (initial_state device bvh i r0) = Ok st
    ∧ node st = SENTINEL ∧ stack st = [] ∧ stack_distance st = []
    ∧ SFleb (radius st) r0 = true
    ∧ (current_best st = mkEdge i undetermined inf
       ∨ ∃ t, leaf n t ∧ get labels t ≠ Ok c
              ∧ current_best st = mkEdge i t (pair_weight bvh metric i t))
    ∧ ∀ t, leaf n t → get labels t ≠ Ok c →
           SFltb (radius st) (pair_weight bvh metric i t) = true
           ∨ WeightedEdge_lt (mkEdge i t (pair_weight bvh metric i t))
                             (current_best st) = false.
Proof.
  intros n HD Htree Hdist Hred Hi Hc Hr0 Hfuel.
  assert (D < stack_capacity)%nat as Hcap by (unfold stack_capacity; lia).
  destruct (traverse_item device bvh labels metric D i c r0 Htree Hdist
              Hred Hi Hc Hcap fuel Hr0 Hfuel)
    as (st & Hrun & (Hnode & Hstack & Hsd) & Hbest & (_ & Hle & _) & Hall).
  exists st. split; [done|]. split; [done|]. split; [done|].
  split; [done|]. split; [done|]. split; [done|]. done.
Qed.

Lemma traversal_of_item_terminates_witness :
  traverse false example_bvh example_labels Euclidean 4 4 2
           (initial_state false example_bvh 4 inf)
  = Ok {| node := SENTINEL; distance_node := zero; stack := [];
          stack_distance := []; current_best := mkEdge 4 3 two_float;
          radius := two_float |}.
Proof.
  destruct (traversal_of_item_terminates false example_bvh example_labels
              Euclidean 2 2 4 4 inf) as (st & Hrun & _).
  - lia.
  - apply example_tree_ok.
  - apply example_distances_ok.
  - apply example_labels_reduced.
  - unfold leaf. simpl. lia.
  - reflexivity.
  - done.
  - simpl. lia.
  - rewrite Hrun. vm_compute in Hrun. by injection Hrun as <-.
Defined.

(** ** The edges of the tree are least edges across cuts *)

Section RoundCut.
Variable reduceLabels : list Z → list Z → list Z.
Variable device : bool.
Variable bvh : BVH.
Variable metric : Metric.
Variable parents : list Z.
Variable D fuel : nat.

Local Abbreviation n := (bvh_size bvh).

Hypothesis D_capacity : (D < stack_capacity)%nat.
Hypothesis tree : tree_ok bvh D.
Hypothesis distances : distances_ok bvh metric.
Hypothesis n_small : 2 * n - 1 < size_t_modulus.
Hypothesis fuel_nodes : (Z.to_nat n ≤ fuel)%nat.
Hypothesis fuel_enough : (inner_nodes bvh D (getRoot bvh) ≤ fuel)%nat.
Hypothesis reduce_keeps : keeps_leaf_labels n (reduceLabels parents).
Hypothesis reduce_reduced :
∀ labels, labels_wf n labels →
          labels_reduced bvh (reduceLabels parents labels).

(** The edges that a turn of the loop appends. *)
Lemma Boruvka_round_cut s s' :
Boruvka_inv n s → 2 ≤ num_components n (u_labels s) →
Boruvka_round reduceLabels device fuel bvh metric parents s = Ok s' →
(∀ e, e ∈ committed s → least_across_cut bvh metric e) →
∀ e, e ∈ committed s' → least_across_cut bvh metric e.
Proof.
intros (Hwf & Hbuf & Hnum & _) Hnc Hround Hold.
pose proof (tree_ok_two bvh D tree) as Hn.
set (labels1 := reduceLabels parents (u_labels s)) in *.
pose proof (reduce_reduced (u_labels s) Hwf) as Hred. fold labels1 in Hred.
destruct (reduce_keeps (u_labels s)) as [Hext Hleaves].
fold labels1 in Hext, Hleaves.
pose proof Hred as [Hwf1 _].
assert (components n labels1 = components n (u_labels s)) as Hcomp
  by (by apply components_ext).
assert (2 ≤ num_components n labels1) as Hnc1.
{ unfold num_components. by rewrite Hcomp. }
destruct (nearest_neighbors_round_least device bvh labels1 metric D fuel
            D_capacity tree distances Hred n_small fuel_enough)
  as (E & radii & Hfind & HextE & Hleast).
destruct (nearest_neighbors_round_min device bvh labels1 metric D fuel
            D_capacity tree distances Hred n_small fuel_enough Hnc1)
  as (E' & radii' & Hfind' & Hmin).
rewrite Hfind in Hfind'. injection Hfind' as <- <-.
pose proof (min_outgoing_round_table_ok n labels1 (leaf_weight bvh metric)
              E Hwf1 Hmin) as Htable.
unfold Boruvka_round in Hround. fold labels1 in Hround.
rewrite Hfind in Hround. simpl in Hround.
destruct (updateComponentsAndEdges_merges n E labels1 n_small Hwf1 Htable
            ltac:(lia) fuel
            {| u_labels := labels1; u_edges := u_edges s;
               u_num_edges := u_num_edges s |})
  as (s'' & Hrun & _ & _ & _ & _ & Hadd & _); try done.
{ simpl. unfold num_components. by rewrite Hcomp. }
rewrite Hround in Hrun. injection Hrun as <-.
intros e. rewrite Hadd.
change (committed {| u_labels := labels1; u_edges := u_edges s;
                     u_num_edges := u_num_edges s |})
  with (committed s).
rewrite elem_of_app. intros [He|He]; [by apply Hold|].
apply list_elem_of_fmap in He as (c & -> & Hc).
apply emitters_elem in Hc as [[Hc _] _].
destruct (Hleast c Hc) as (e & He & Hcut).
exists labels1, c. split; [done|]. split; [done|].
unfold out_edge. rewrite HextE, He. apply Hcut.
by apply outgoing_exists.
Qed.
End RoundCut.

(** X17. On a tree that is laid out as the kernels expect, with distances
    and a metric as the comment of the search asks for, and a
    [reduceLabels] as the loop needs it, every edge that the constructor
    returns is, up to the renumbering of its end points by
    [finalizeEdges], an edge between two leaves weighted by the metric
    that no edge leaving some set of leaves precedes in the order of
    [operator<]: the set is the component that chose the edge, in the turn
    of the loop that appended it. *)
Theorem MinimumSpanningTree_edges_are_least_across_cuts
  (Primitives : Type) (primitives_size : Primitives → Z)
  (build_BVH : Primitives → BVH)
  (query_core_distances : BVH → Primitives → Z → Z → float)
  (findParents : BVH → list Z) (reduceLabels : list Z → list Z → list Z)
  (garbage_int : Z) (garbage_edge : WeightedEdge) (device : bool)
  (D fuel rounds : nat) (primitives : Primitives) (k : Z) :
  let bvh := build_BVH primitives in
  let n := bvh_size bvh in
  let metric := if k >? 1
                then MutualReachability
                       (query_core_distances bvh primitives k)
                else Euclidean in
  (D ≤ 63)%nat → tree_ok bvh D → distances_ok bvh metric →
  2 * n - 1 < size_t_modulus →
  primitives_size primitives = n →
  (Z.to_nat n ≤ fuel)%nat →
  (inner_nodes bvh D (getRoot bvh) ≤ fuel)%nat →
  n ≤ 2 ^ Z.of_nat rounds →
  keeps_leaf_labels n (reduceLabels (findParents bvh)) →
  (∀ labels, labels_wf n labels →
             labels_reduced bvh (reduceLabels (findParents bvh) labels)) →
  ∃ log edges,
    run (MinimumSpanningTree Primitives primitives_size build_BVH
           query_core_distances findParents reduceLabels garbage_int
           garbage_edge device fuel rounds primitives k)
    = (log, Ok edges)
    ∧ ∀ e, e ∈ edges →
           ∃ e0, e = depermute bvh e0 ∧ least_across_cut bvh metric e0.
Proof.
  intros bvh n metric HD Htree Hdist Hsmall Hsize Hfuel Hfuel' Hrounds
    Hkeeps Hreduced.
  assert (D < stack_capacity)%nat as Hcap by (unfold stack_capacity; lia).
  pose proof (tree_ok_two bvh D Htree) as Hn.
  destruct (MinimumSpanningTree_merges Primitives primitives_size build_BVH
              query_core_distances findParents reduceLabels garbage_int
              garbage_edge device fuel rounds primitives k
              (fun s => ∀ e, e ∈ committed s → least_across_cut bvh metric e)
              Hn Hsmall Hsize Hfuel Hrounds Hkeeps)
    as (log & s & Hrun & Hall & _ & _ & _ & _ & Hcut).
  - intros labels Hwf Hnc.
    set (labels1 := reduceLabels (findParents bvh) labels).
    pose proof (Hreduced labels Hwf) as Hred. fold labels1 in Hred.
    destruct (Hkeeps labels) as [_ Hleaves]. fold labels1 in Hleaves.
    assert (2 ≤ num_components n labels1) as Hnc1.
    { unfold num_components. by rewrite (components_ext n labels labels1). }
    destruct (nearest_neighbors_round_min device bvh labels1 metric D fuel
                Hcap Htree Hdist Hred Hsmall Hfuel' Hnc1)
      as (out_edges & radii & Hround & Hmin).
    exists out_edges, radii. split; [done|]. destruct Hred as [Hwf1 _].
    by apply (min_outgoing_round_table_ok n labels1
                (leaf_weight bvh metric)).
  - intros s0 s1.
    by apply (Boruvka_round_cut reduceLabels device bvh metric
                (findParents bvh) D fuel).
  - intros edges e He. unfold committed in He. simpl in He.
    by apply elem_of_nil in He.
  - exists log, (depermute bvh <$> u_edges s). split; [done|].
    intros e (e0 & -> & He0)%list_elem_of_fmap.
    exists e0. split; [done|]. apply Hcut. by rewrite Hall.
Qed.

Lemma MinimumSpanningTree_edges_are_least_across_cuts_witness :
  ∃ log edges,
    example_MST 2 1 = (log, Ok edges)
    ∧ ∀ e, e ∈ edges →
           ∃ e0, e = depermute example_bvh e0
                 ∧ least_across_cut example_bvh Euclidean e0.
Proof.
  apply (MinimumSpanningTree_edges_are_least_across_cuts unit (fun _ => 3)
           (fun _ => example_bvh) (fun _ _ _ _ => zero)
           (fun _ => example_parents) example_reduceLabels 0
           uninitialized_edge false 2 10 2 tt 1).
  - lia.
  - apply example_tree_ok.
  - apply example_distances_ok.
  - simpl. unfold size_t_modulus. lia.
  - reflexivity.
  - simpl. lia.
  - simpl. lia.
  - simpl. lia.
  - apply example_reduceLabels_keeps.
  - intros labels. apply example_reduceLabels_reduced.
Defined.

(** ** DBSCAN: the scan for the clusters *)

Lemma run_length_ge x l m :
  (m ≤ run_length x l)%nat ↔ ∀ d, (d < m)%nat → l !! d = Some x.
Proof.
  revert m. induction l as [|y l IH]; intros m; simpl.
  - split.
    + intros Hm d Hd. lia.
    + intros H. destruct m; [lia|]. specialize (H O ltac:(lia)). done.
  - destruct (decide (y = x)) as [->|Hne].
    + split.
      * intros Hm [|d] Hd; [done|]. simpl. apply IH with (m := pred m); lia.
      * intros H. destruct m as [|m]; [lia|].
        assert (m ≤ run_length x l)%nat; [|lia].
        apply IH. intros d Hd. apply (H (S d)). lia.
    + split.
      * intros Hm d Hd. lia.
      * intros H. destruct m; [lia|]. specialize (H O ltac:(lia)).
        simpl in H. congruence.
Qed.

Lemma run_length_exact x l m :
  (∀ d, (d < m)%nat → l !! d = Some x) → l !! m ≠ Some x →
  run_length x l = m.
Proof.
  intros Hall Hstop.
  assert (m ≤ run_length x l)%nat as Hge by (by apply run_length_ge).
  destruct (decide (run_length x l = m)) as [|Hne]; [done|].
  exfalso. apply Hstop.
  assert (S m ≤ run_length x l)%nat as Hgt by lia.
  apply (proj1 (run_length_ge x l (S m)) Hgt). lia.
Qed.

Section Runs.
Variable clusters : list Z.

Local Abbreviation all_equal := (run_reaches clusters).

Lemma get_drop i d x :
0 ≤ i → 0 ≤ d →
drop (Z.to_nat i) clusters !! Z.to_nat d = Some x ↔
get clusters (i + d) = Ok x.
Proof.
intros Hi Hd. rewrite lookup_drop, get_Ok.
replace (Z.to_nat (i + d)) with (Z.to_nat i + Z.to_nat d)%nat by lia.
split; [intros; split; [lia|done]|by intros [_ ?]].
Qed.

Lemma run_size_ge i m :
0 ≤ i < extent clusters → 0 ≤ m →
m ≤ run_size clusters i ↔ all_equal i m.
Proof.
intros Hi Hm. destruct (get_is_Ok clusters i Hi) as [x Hx].
pose proof Hx as [_ Hlook]%get_Ok.
unfold run_size. rewrite Hlook. unfold run_reaches. rewrite Hx.
split.
- intros Hle d Hd. apply get_drop; [lia..|].
  apply (proj1 (run_length_ge x _ (Z.to_nat m))); lia.
- intros Hall.
  assert (Z.to_nat m ≤ run_length x (drop (Z.to_nat i) clusters))%nat;
    [|lia].
  apply run_length_ge. intros d Hd.
  rewrite <- (Nat2Z.id d). apply get_drop; [lia..|]. apply Hall. lia.
Qed.

Lemma run_size_exact i m :
0 ≤ i < extent clusters → 0 ≤ m →
all_equal i m → get clusters (i + m) ≠ get clusters i →
run_size clusters i = m.
Proof.
intros Hi Hm Hall Hstop. destruct (get_is_Ok clusters i Hi) as [x Hx].
pose proof Hx as [_ Hlook]%get_Ok.
unfold run_size. rewrite Hlook.
rewrite (run_length_exact x _ (Z.to_nat m)); [lia| |].
- intros d Hd. rewrite <- (Nat2Z.id d). apply get_drop; [lia..|].
  rewrite <- Hx. apply Hall. lia.
- rewrite get_drop by lia. by rewrite <- Hx.
Qed.

Lemma run_size_range i :
0 ≤ i < extent clusters → 1 ≤ run_size clusters i ≤ extent clusters - i.
Proof.
intros Hi. split.
- apply run_size_ge; [done|lia|]. intros d Hd. by replace (i + d) with i by lia.
- destruct (Z.le_gt_cases (run_size clusters i) (extent clusters - i))
    as [|Hgt]; [done|].
  assert (all_equal i (extent clusters - i + 1)) as Hall.
  { apply run_size_ge; lia. }
  specialize (Hall (extent clusters - i) ltac:(lia)).
  destruct (get_is_Ok clusters i Hi) as [x Hx]. rewrite Hx in Hall.
  apply get_Ok_lt in Hall. lia.
Qed.

(** The loop that looks for the end of a run. *)
Lemma cluster_end_spec fuel n i :
extent clusters = n → 0 ≤ i →
∀ e, i ≤ e < n → all_equal i (e - i + 1) →
     (Z.to_nat (n - e) ≤ fuel)%nat →
     cluster_end fuel clusters n i e = Ok (i + run_size clusters i).
Proof.
intros Hext Hi. induction fuel as [|fuel IH]; intros e He Hall Hfuel;
  [lia|].
destruct (get_is_Ok clusters i) as [x Hx]; [lia|].
simpl. destruct (Z.ltb_spec (e + 1) n) as [Hlt|Hge].
- destruct (get_is_Ok clusters (e + 1)) as [y Hy]; [lia|].
  rewrite Hy, Hx. simpl.
  destruct (Z.eqb_spec y x) as [->|Hne].
  + apply IH; [lia| |lia].
    intros d Hd. destruct (decide (d = e + 1 - i)) as [->|Hd'].
    * replace (i + (e + 1 - i)) with (e + 1) by lia. congruence.
    * apply Hall. lia.
  + f_equal. rewrite (run_size_exact i (e + 1 - i)); [lia|lia|lia| |].
    * intros d Hd. apply Hall. lia.
    * replace (i + (e + 1 - i)) with (e + 1) by lia. rewrite Hy, Hx.
      intros [= ?]. done.
- f_equal. rewrite (run_size_exact i (e + 1 - i)); [lia|lia|lia| |].
  + intros d Hd. apply Hall. lia.
  + replace (i + (e + 1 - i)) with (e + 1) by lia. rewrite Hx.
    intros Hbad. apply get_Ok_lt in Hbad. lia.
Qed.

Hypothesis sorted : sorted_view clusters.

Lemma sorted_get i j x y :
i ≤ j → get clusters i = Ok x → get clusters j = Ok y → x ≤ y.
Proof.
intros Hij [Hi Hx]%get_Ok [Hj Hy]%get_Ok.
apply (sorted (Z.to_nat i) (Z.to_nat j)); (done || lia).
Qed.

(** In a sorted view a run reaches as far as its value does. *)
Lemma sorted_all_equal i m :
0 ≤ i → 1 ≤ m →
get clusters (i + m - 1) = get clusters i →
i + m - 1 < extent clusters →
all_equal i m.
Proof.
intros Hi Hm Heq Hlt d Hd.
destruct (get_is_Ok clusters i) as [x Hx]; [lia|].
destruct (get_is_Ok clusters (i + d)) as [y Hy]; [lia|].
rewrite Hx in Heq. rewrite Hx, Hy. f_equal.
pose proof (sorted_get i (i + d) x y ltac:(lia) Hx Hy).
pose proof (sorted_get (i + d) (i + m - 1) y x ltac:(lia) Hy Heq). lia.
Qed.
End Runs.

Lemma take_snoc_insert {A : Type} (v : list A) (k : Z) (x : A) :
  0 ≤ k < extent v →
  take (S (Z.to_nat k)) (<[Z.to_nat k := x]> v) = take (Z.to_nat k) v ++ [x].
Proof.
  unfold extent. intros Hk.
  rewrite (take_S_r _ _ x) by (apply list_lookup_insert_eq; lia).
  by rewrite take_insert_ge.
Qed.

Lemma RangePolicy_prefix n done i rest :
  RangePolicy 0 n = done ++ i :: rest →
  i = Z.of_nat (length done) ∧ 0 ≤ i < n.
Proof.
  intros Hitems.
  assert (RangePolicy 0 n !! length done = Some i) as Hlook.
  { rewrite Hitems. by apply list_lookup_middle. }
  unfold RangePolicy in Hlook. apply lookup_seqZ in Hlook. lia.
Qed.

Section Scan.
Variable fuel : nat.
Variable n cluster_min_size : Z.
Variable clusters starts0 offsets0 : list Z.

Hypothesis clusters_extent : extent clusters = n.
Hypothesis clusters_sorted : sorted_view clusters.
Hypothesis min_size_pos : 1 ≤ cluster_min_size.
Hypothesis starts_room : n ≤ extent starts0.
Hypothesis offsets_room : n ≤ extent offsets0.
Hypothesis fuel_enough : (Z.to_nat n ≤ fuel)%nat.

Local Abbreviation heads := (cluster_heads cluster_min_size clusters).

Lemma cluster_heads_snoc done i :
heads (done ++ [i])
= heads done
  ++ (if decide (run_start clusters i
                 ∧ cluster_min_size ≤ run_size clusters i)
      then [i] else []).
Proof. unfold cluster_heads. by rewrite filter_app. Qed.

Lemma cluster_heads_length done : (length (heads done) ≤ length done)%nat.
Proof. apply length_filter. Qed.

(** One item of the scan. *)
Lemma compute_cluster_starts_and_sizes_op_inv done i rest s :
RangePolicy 0 n = done ++ i :: rest →
scan_inv cluster_min_size clusters starts0 offsets0 done s →
∃ s',
  compute_cluster_starts_and_sizes_op fuel n cluster_min_size clusters i s
  = Ok s'
  ∧ scan_inv cluster_min_size clusters starts0 offsets0 (done ++ [i]) s'.
Proof.
intros Hitems (Hupd & Hexts & Hexto & Hstarts & Hsizes).
destruct (RangePolicy_prefix n done i rest Hitems) as [Hlen Hi].
pose proof (cluster_heads_length done) as Hheads.
assert (0 ≤ i < extent clusters) as Hi' by lia.
destruct (get_is_Ok clusters i Hi') as [x Hx].
pose proof (run_size_range clusters i Hi') as Hrange.
unfold compute_cluster_starts_and_sizes_op.
(* the first flag *)
assert (∃ first,
          (if i =? 0 then Ok true
           else
             let* clusters_i := get clusters i in
             let* clusters_prev := get clusters (i - 1) in
             Ok (negb (clusters_i =? clusters_prev))) = Ok first
          ∧ (first = true ↔ run_start clusters i))
  as (first & -> & Hfirst).
{ destruct (Z.eqb_spec i 0) as [->|Hne].
  - exists true. split; [done|]. split; [by left|done].
  - destruct (get_is_Ok clusters (i - 1)) as [y Hy]; [lia|].
    rewrite Hx, Hy. simpl. eexists. split; [done|].
    unfold run_start. rewrite Hx, Hy.
    destruct (Z.eqb_spec x y) as [->|Hxy]; simpl.
    + split; [done|]. intros [?|?]; done.
    + split; [|done]. intros _. right. intros [= ?]. done. }
simpl.
(* the second flag *)
assert (∃ large,
          (if i + cluster_min_size - 1 <? n then
             let* clusters_last := get clusters (i + cluster_min_size - 1) in
             let* clusters_i := get clusters i in
             Ok (clusters_last =? clusters_i)
           else Ok false) = Ok large
          ∧ (large = true ↔ cluster_min_size ≤ run_size clusters i))
  as (large & -> & Hlarge).
{ destruct (Z.ltb_spec (i + cluster_min_size - 1) n) as [Hlt|Hge].
  - destruct (get_is_Ok clusters (i + cluster_min_size - 1)) as [y Hy];
      [lia|].
    rewrite Hy, Hx. simpl. eexists. split; [done|].
    rewrite (run_size_ge clusters i cluster_min_size) by lia.
    destruct (Z.eqb_spec y x) as [->|Hxy].
    + split; [|done]. intros _.
      apply sorted_all_equal; (done || lia || congruence).
    + split; [done|]. intros Hall. exfalso. apply Hxy.
      specialize (Hall (cluster_min_size - 1) ltac:(lia)).
      replace (i + (cluster_min_size - 1)) with (i + cluster_min_size - 1)
        in Hall by lia.
      congruence.
  - exists false. split; [done|]. split; [done|]. lia. }
simpl. unfold scan_inv. cbv zeta. rewrite cluster_heads_snoc.
destruct (decide (run_start clusters i
                  ∧ cluster_min_size ≤ run_size clusters i))
  as [[Hs Hl]|Hnot].
- apply Hfirst in Hs. apply Hlarge in Hl. subst first large. simpl.
  rewrite Hupd.
  rewrite set_is_Ok by lia. simpl.
  assert (cluster_end fuel clusters n i (i + cluster_min_size - 1)
          = Ok (i + run_size clusters i)) as ->.
  { apply cluster_end_spec; [done|lia|lia| |lia].
    replace (i + cluster_min_size - 1 - i + 1) with cluster_min_size
      by lia.
    apply run_size_ge; [done|lia|]. by apply Hlarge. }
  simpl. rewrite set_is_Ok by lia. simpl.
  eexists. split; [done|].
  split; [simpl; rewrite length_app; simpl; lia|].
  simpl. split; [by rewrite extent_insert|].
  split; [by rewrite extent_insert|].
  rewrite length_app. simpl.
  replace (length (heads done) + 1)%nat
    with (S (Z.to_nat (Z.of_nat (length (heads done))))) by lia.
  rewrite !take_snoc_insert by lia.
  rewrite !Nat2Z.id, Hstarts, Hsizes, fmap_app. simpl.
  split; [done|]. do 3 f_equal. lia.
- assert (first && large = false) as ->.
  { destruct first, large; try done. exfalso. apply Hnot.
    split; [by apply Hfirst|by apply Hlarge]. }
  exists s. split; [done|]. rewrite app_nil_r. by split_and!.
Qed.

(** The scan as a whole. *)
Lemma compute_cluster_starts_and_sizes_inv :
∃ s,
  compute_cluster_starts_and_sizes fuel n cluster_min_size clusters
                                   starts0 offsets0 = Ok s
  ∧ scan_inv cluster_min_size clusters starts0 offsets0 (RangePolicy 0 n) s.
Proof.
unfold compute_cluster_starts_and_sizes, parallel_scan.
apply (for_each_prefix _ (scan_inv cluster_min_size clusters starts0
                                   offsets0)).
- intros done i rest s. apply compute_cluster_starts_and_sizes_op_inv.
- by split_and!.
Qed.
End Scan.

(** X10. On a sorted view of [n] cluster indices and for
    [cluster_min_size >= 1], with [n + cluster_min_size] an [int] so that
    the sums of the code do not overflow, the scan
    ["compute_cluster_starts_and_sizes"] returns, and it records, in
    increasing order, the first index and the length of every run of equal
    entries that has at least [cluster_min_size] entries, and the number of
    these runs. *)
Theorem compute_cluster_starts_and_sizes_records_runs
  (fuel : nat) (n cluster_min_size : Z)
  (clusters starts0 offsets0 : list Z) :
  extent clusters = n → sorted_view clusters → 1 ≤ cluster_min_size →
  is_int (n + cluster_min_size) →
  n ≤ extent starts0 → n ≤ extent offsets0 → (Z.to_nat n ≤ fuel)%nat →
  ∃ s,
    compute_cluster_starts_and_sizes fuel n cluster_min_size clusters
                                     starts0 offsets0 = Ok s
    ∧ let heads := cluster_heads cluster_min_size clusters
                                 (RangePolicy 0 n) in
      sc_update s = Z.of_nat (length heads)
      ∧ take (length heads) (sc_starts s) = heads
      ∧ take (length heads) (sc_offsets s) = run_size clusters <$> heads
      ∧ ∀ i, i ∈ heads ↔
             0 ≤ i < n ∧ run_start clusters i
             ∧ cluster_min_size ≤ run_size clusters i.
Proof.
  intros Hext Hsorted Hmin _ Hstarts Hoffsets Hfuel.
  destruct (compute_cluster_starts_and_sizes_inv fuel n cluster_min_size
              clusters starts0 offsets0 Hext Hsorted Hmin Hstarts Hoffsets
              Hfuel) as (s & Hrun & Hupd & _ & _ & Hs & Ho).
  exists s. split; [done|]. split; [done|]. split; [done|].
  split; [done|].
  intros i. unfold cluster_heads.
  rewrite list_elem_of_filter, RangePolicy_elem. tauto.
Qed.

Lemma compute_cluster_starts_and_sizes_records_runs_witness :
  compute_cluster_starts_and_sizes 6 6 2 [0; 0; 2; 3; 3; 3]
    [-1; -1; -1; -1; -1; -1] [-1; -1; -1; -1; -1; -1; -1]
  = Ok {| sc_starts := [0; 3; -1; -1; -1; -1];
          sc_offsets := [2; 3; -1; -1; -1; -1; -1];
          sc_update := 2 |}.
Proof.
  destruct (compute_cluster_starts_and_sizes_records_runs 6 6 2
              [0; 0; 2; 3; 3; 3] [-1; -1; -1; -1; -1; -1]
              [-1; -1; -1; -1; -1; -1; -1]) as (s & Hrun & _).
  - reflexivity.
  - intros i j x y Hij Hi Hj.
    destruct i as [|[|[|[|[|[|?]]]]]]; simpl in Hi; try done;
      injection Hi as <-;
      destruct j as [|[|[|[|[|[|?]]]]]]; simpl in Hj; try done;
      injection Hj as <-; lia.
  - lia.
  - unfold is_int, INT_MIN, INT_MAX. lia.
  - unfold extent. simpl. lia.
  - unfold extent. simpl. lia.
  - simpl. lia.
  - rewrite Hrun. vm_compute in Hrun. by injection Hrun as <-.
Defined.

(** ** DBSCAN: the rows of the CSR *)

Lemma sum_view_app a b : sum_view (a ++ b) = sum_view a + sum_view b.
Proof. unfold sum_view. induction a as [|x a IH]; simpl; lia. Qed.

Lemma sum_view_nonneg l : (∀ x, x ∈ l → 0 ≤ x) → 0 ≤ sum_view l.
Proof.
  induction l as [|x l IH]; intros Hl; [done|].
  assert (0 ≤ x) by (apply Hl; by left).
  assert (0 ≤ sum_view l) by (apply IH; intros y Hy; apply Hl; by right).
  unfold sum_view in *. simpl. lia.
Qed.

Lemma csr_offset_S sizes k z :
  sizes !! k = Some z → csr_offset sizes (S k) = csr_offset sizes k + z.
Proof.
  intros Hz. unfold csr_offset.
  rewrite (take_S_r _ _ _ Hz), sum_view_app. unfold sum_view. simpl. lia.
Qed.

Lemma csr_offset_mono sizes k j :
  (∀ x, x ∈ sizes → 0 ≤ x) → (k ≤ j)%nat →
  csr_offset sizes k ≤ csr_offset sizes j.
Proof.
  intros Hl Hkj. unfold csr_offset.
  rewrite <- (take_drop k (take j sizes)), take_take, Nat.min_l by lia.
  rewrite sum_view_app.
  assert (0 ≤ sum_view (drop k (take j sizes))); [|lia].
  apply sum_view_nonneg. intros x Hx. apply Hl.
  apply list_elem_of_lookup in Hx as [m Hm].
  rewrite lookup_drop in Hm. apply lookup_take_Some in Hm as [Hm _].
  by apply list_elem_of_lookup_2 in Hm.
Qed.

Lemma csr_offset_total sizes k :
  (length sizes ≤ k)%nat → csr_offset sizes k = sum_view sizes.
Proof. intros. unfold csr_offset. by rewrite take_ge. Qed.

Lemma csr_offset_le_total sizes k :
  (∀ x, x ∈ sizes → 0 ≤ x) → csr_offset sizes k ≤ sum_view sizes.
Proof.
  intros Hl. destruct (decide (k ≤ length sizes)%nat).
  - rewrite <- (csr_offset_total sizes (length sizes)) by done.
    by apply csr_offset_mono.
  - rewrite csr_offset_total; lia.
Qed.

Lemma extent_exclusive_scan v : extent (exclusive_scan v) = extent v.
Proof. unfold extent, exclusive_scan. by rewrite length_fmap, length_seq. Qed.

Lemma get_exclusive_scan v (k : nat) :
  (k < length v)%nat →
  get (exclusive_scan v) (Z.of_nat k) = Ok (csr_offset v k).
Proof.
  intros Hk. apply get_Ok. split; [lia|].
  unfold exclusive_scan. rewrite Nat2Z.id, list_lookup_fmap.
  by rewrite lookup_seq_lt.
Qed.

Lemma resize_shrink (v : list Z) (m : Z) :
  m ≤ extent v → resize v m = take (Z.to_nat m) v.
Proof.
  unfold extent, resize. intros Hm.
  replace (Z.to_nat m - length v)%nat with O by lia.
  apply app_nil_r.
Qed.

Section Populate.
Variables permute starts offsets heads sizes : list Z.
Hypothesis sizes_length : length sizes = length heads.
Hypothesis sizes_nonneg : ∀ z, z ∈ sizes → 0 ≤ z.
Hypothesis offsets_ok :
∀ k, (k ≤ length heads)%nat →
     get offsets (Z.of_nat k) = Ok (csr_offset sizes k).
Hypothesis starts_ok :
∀ k h, heads !! k = Some h → get starts (Z.of_nat k) = Ok h.
Hypothesis permute_ok :
∀ k h z d, heads !! k = Some h → sizes !! k = Some z → 0 ≤ d < z →
           ∃ p, get permute (h + d) = Ok p.

(** The loop over [k] in the functor, for the cluster [i]. *)
Lemma populate_clusters_row (i : nat) h z ci :
heads !! i = Some h → sizes !! i = Some z →
extent ci = sum_view sizes →
∃ ci',
  for_each
    (fun k cluster_indices =>
       let* start := get starts (Z.of_nat i) in
       let* offset := get offsets (Z.of_nat i) in
       let* index := get permute (start + (k - offset)) in
       set cluster_indices k index)
    (RangePolicy (csr_offset sizes i) (csr_offset sizes i + z)) ci = Ok ci'
  ∧ extent ci' = sum_view sizes
  ∧ (∀ x, x < csr_offset sizes i → get ci' x = get ci x)
  ∧ ∀ d, 0 ≤ d < z →
         get ci' (csr_offset sizes i + d) = get permute (h + d).
Proof.
intros Hh Hz Hext.
set (first := csr_offset sizes i).
assert (0 ≤ first) as Hfirst.
{ apply sum_view_nonneg. intros x Hx. apply sizes_nonneg.
  apply list_elem_of_lookup in Hx as [m Hm].
  apply lookup_take_Some in Hm as [Hm _].
  by apply list_elem_of_lookup_2 in Hm. }
assert (first + z ≤ sum_view sizes) as Hlast.
{ unfold first. rewrite <- (csr_offset_S _ _ _ Hz).
  by apply csr_offset_le_total. }
destruct (for_each_prefix
  (fun k cluster_indices =>
     let* start := get starts (Z.of_nat i) in
     let* offset := get offsets (Z.of_nat i) in
     let* index := get permute (start + (k - offset)) in
     set cluster_indices k index)
  (fun done' ci' =>
     extent ci' = sum_view sizes
     ∧ (∀ x, x < first → get ci' x = get ci x)
     ∧ ∀ x, x ∈ done' → get ci' x = get permute (h + (x - first)))
  (RangePolicy first (first + z)) ci) as (ci' & Hrun & He & Hold & Hnew).
- intros done' x rest' ci1 Hitems (He1 & Ho1 & Hn1).
  assert (first ≤ x < first + z) as Hx.
  { apply RangePolicy_elem. rewrite Hitems, elem_of_app, elem_of_cons.
    auto. }
  assert (x ∉ done') as Hfresh.
  { pose proof (NoDup_seqZ first (first + z - first)) as Hnd.
    fold (RangePolicy first (first + z)) in Hnd. rewrite Hitems in Hnd.
    apply NoDup_app in Hnd as (_ & Hnd & _). intros Hin.
    apply (Hnd x Hin). by left. }
  rewrite (starts_ok i h Hh). simpl.
  rewrite offsets_ok by (apply lookup_lt_Some in Hh; lia). simpl.
  fold first.
  destruct (permute_ok i h z (x - first) Hh Hz) as [p Hp]; [lia|].
  rewrite Hp. simpl. rewrite set_is_Ok by lia.
  eexists. split; [done|]. split_and!.
  + by rewrite extent_insert.
  + intros y Hy. rewrite get_insert_ne by lia. by apply Ho1.
  + intros y [Hy|Hy]%elem_of_app.
    * rewrite get_insert_ne; [by apply Hn1|lia|].
      intros <-. done.
    * apply list_elem_of_singleton in Hy as ->.
      rewrite get_insert_eq by lia. done.
- split_and!; [done|done|]. intros x Hx. by apply elem_of_nil in Hx.
- exists ci'. split; [done|]. split; [done|]. split; [done|].
  intros d Hd. rewrite Hnew.
  + f_equal. lia.
  + apply RangePolicy_elem. lia.
Qed.

Lemma populate_clusters_op_inv done i rest ci :
RangePolicy 0 (Z.of_nat (length heads)) = done ++ i :: rest →
populate_inv permute heads sizes done ci →
∃ ci',
  populate_clusters_op permute starts offsets i ci = Ok ci'
  ∧ populate_inv permute heads sizes (done ++ [i]) ci'.
Proof.
intros Hitems [Hext Hrows].
apply RangePolicy_prefix in Hitems as [-> Hi].
destruct (lookup_lt_is_Some_2 heads (length done)) as [h Hh]; [lia|].
destruct (lookup_lt_is_Some_2 sizes (length done)) as [z Hz]; [lia|].
destruct (populate_clusters_row (length done) h z ci Hh Hz Hext)
  as (ci' & Hrun & Hext' & Hold & Hnew).
unfold populate_clusters_op.
rewrite (offsets_ok (length done)) in Hrun |- * by lia.
simpl in Hrun |- *.
replace (Z.of_nat (length done) + 1) with (Z.of_nat (S (length done)))
  by lia.
rewrite (offsets_ok (S (length done))) by lia. simpl.
rewrite (csr_offset_S _ _ _ Hz), Hrun.
exists ci'. split; [done|]. split; [done|].
intros k h2 z2 d Hk Hh2 Hz2 Hd.
rewrite length_app in Hk. simpl in Hk.
destruct (decide (k = length done)) as [->|Hne].
- rewrite Hh in Hh2. rewrite Hz in Hz2.
  injection Hh2 as <-. injection Hz2 as <-. by apply Hnew.
- rewrite Hold; [apply (Hrows k h2 z2); (done || lia)|].
  pose proof (csr_offset_S _ _ _ Hz2) as HS.
  pose proof (csr_offset_mono sizes (S k) (length done) sizes_nonneg
                ltac:(lia)).
  lia.
Qed.

Lemma populate_clusters_inv ci :
extent ci = sum_view sizes →
∃ ci',
  parallel_for (RangePolicy 0 (Z.of_nat (length heads)))
    (populate_clusters_op permute starts offsets) ci = Ok ci'
  ∧ populate_inv permute heads sizes
      (RangePolicy 0 (Z.of_nat (length heads))) ci'.
Proof.
intros Hext. unfold parallel_for.
apply (for_each_prefix _ (populate_inv permute heads sizes)).
- intros done i rest s. apply populate_clusters_op_inv.
- split; [done|]. intros k h z d Hk. simpl in Hk. lia.
Qed.
End Populate.

Lemma cluster_heads_elem cluster_min_size clusters n h :
  h ∈ cluster_heads cluster_min_size clusters (RangePolicy 0 n) ↔
  0 ≤ h < n ∧ run_start clusters h
  ∧ cluster_min_size ≤ run_size clusters h.
Proof.
  unfold cluster_heads. rewrite list_elem_of_filter, RangePolicy_elem. tauto.
Qed.

Section Phase.
Variable sortObjects : list Z → list Z * list Z.
Variable exclusivePrefixSum : list Z → list Z.
Variable lastElement : list Z → Z.
Variable garbage : Z.
Variable fuel : nat.
Variable n cluster_min_size : Z.
Variable clusters0 clusters permute : list Z.

Hypothesis sort_result : sortObjects clusters0 = (clusters, permute).
Hypothesis clusters_extent : extent clusters = n.
Hypothesis clusters_sorted : sorted_view clusters.
Hypothesis permute_extent : extent permute = n.
Hypothesis scan_ok : ∀ v, exclusivePrefixSum v = exclusive_scan v.
Hypothesis last_ok : ∀ v x, last v = Some x → lastElement v = x.
Hypothesis min_size_pos : 1 ≤ cluster_min_size.
Hypothesis fuel_enough : (Z.to_nat n ≤ fuel)%nat.

Local Abbreviation heads :=
(cluster_heads cluster_min_size clusters (RangePolicy 0 n)).
Local Abbreviation sizes := (run_size clusters <$> heads).

Lemma sizes_lookup (k : nat) z :
sizes !! k = Some z ↔
∃ h, heads !! k = Some h ∧ z = run_size clusters h.
Proof.
rewrite list_lookup_fmap. destruct (heads !! k) as [h|]; simpl.
- split; [intros [= <-]; by exists h|]. by intros (h' & [= <-] & ->).
- split; [done|]. by intros (h' & [=] & _).
Qed.

Lemma sizes_ge z : z ∈ sizes → cluster_min_size ≤ z.
Proof.
intros (h & -> & Hh)%list_elem_of_fmap.
by apply cluster_heads_elem in Hh as (_ & _ & Hh).
Qed.

Lemma sort_and_filter_clusters_inv :
∃ cluster_indices cluster_offsets,
  sort_and_filter_clusters sortObjects exclusivePrefixSum lastElement
    garbage fuel n cluster_min_size clusters0
  = Ok (cluster_indices, cluster_offsets)
  ∧ extent cluster_offsets = Z.of_nat (length heads) + 1
  ∧ (∀ k, (k ≤ length heads)%nat →
          get cluster_offsets (Z.of_nat k) = Ok (csr_offset sizes k))
  ∧ populate_inv permute heads sizes
      (RangePolicy 0 (Z.of_nat (length heads))) cluster_indices.
Proof.
assert (0 ≤ n) as Hn by (unfold extent in clusters_extent; lia).
unfold sort_and_filter_clusters. rewrite sort_result.
destruct (compute_cluster_starts_and_sizes_inv fuel n cluster_min_size
            clusters (replicate (Z.to_nat n) garbage)
            (replicate (Z.to_nat (n + 1)) garbage))
  as (s & -> & Hupd & Hes & Heo & Hst & Hoff); try done.
{ rewrite extent_replicate; lia. }
{ rewrite extent_replicate; lia. }
cbv zeta in Hupd, Hst, Hoff. simpl.
rewrite extent_replicate in Hes, Heo by lia.
pose proof (cluster_heads_length cluster_min_size clusters
              (RangePolicy 0 n)) as Hle.
assert (Z.of_nat (length (RangePolicy 0 n)) = n) as Hlen.
{ unfold RangePolicy. rewrite length_seqZ. lia. }
rewrite Hupd, scan_ok, resize_shrink by lia.
replace (Z.to_nat (Z.of_nat (length heads) + 1)) with (S (length heads))
  by lia.
set (v := take (S (length heads)) (sc_offsets s)).
assert (length v = S (length heads)) as Hv.
{ unfold v. rewrite length_take. unfold extent in Heo. lia. }
assert (∀ k, (k ≤ length heads)%nat →
             csr_offset v k = csr_offset sizes k) as Hcsr.
{ intros k Hk. unfold csr_offset. f_equal. rewrite <- Hoff. unfold v.
  rewrite !take_take. f_equal. lia. }
assert (∀ z, z ∈ sizes → 0 ≤ z) as Hpos.
{ intros z Hz%sizes_ge. lia. }
assert (lastElement (exclusive_scan v) = sum_view sizes) as ->.
{ apply last_ok. rewrite last_lookup.
  replace (pred (length (exclusive_scan v))) with (length heads)
    by (unfold exclusive_scan; rewrite length_fmap, length_seq; lia).
  pose proof (get_exclusive_scan v (length heads) ltac:(lia))
    as [_ Hlast]%get_Ok.
  rewrite Nat2Z.id in Hlast. rewrite Hlast, Hcsr by lia.
  f_equal. apply csr_offset_total. by rewrite length_fmap. }
pose proof (sum_view_nonneg sizes Hpos) as Htotal.
destruct (populate_clusters_inv permute (sc_starts s) (exclusive_scan v)
            heads sizes) with
  (ci := replicate (Z.to_nat (sum_view sizes)) garbage)
  as (ci & -> & Hci).
- by rewrite length_fmap.
- done.
- intros k Hk. rewrite get_exclusive_scan by lia. by rewrite Hcsr.
- intros k h Hh. apply get_Ok. split; [lia|]. rewrite Nat2Z.id.
  rewrite <- Hst in Hh. by apply lookup_take_Some in Hh as [Hh _].
- intros k h z d Hh Hz Hd. apply get_is_Ok.
  apply sizes_lookup in Hz as (h' & Hh' & ->).
  rewrite Hh in Hh'. injection Hh' as <-.
  apply list_elem_of_lookup_2, cluster_heads_elem in Hh as (Hh & _).
  pose proof (run_size_range clusters h ltac:(lia)). lia.
- by rewrite extent_replicate.
- simpl. exists ci, (exclusive_scan v). split; [done|]. split_and!.
  + rewrite extent_exclusive_scan. unfold extent. lia.
  + intros k Hk. rewrite get_exclusive_scan by lia. by rewrite Hcsr.
  + done.
Qed.
End Phase.

(** X11. The phase ["sort_and_filter_clusters"] of [dbscan] returns views
    in CSR form with one row for every run of at least [cluster_min_size]
    equal cluster indices of the sorted view, in the order of the runs: the
    row has as many entries as the run, hence at least [cluster_min_size],
    its entries are the entries of the permutation at the positions of the
    run, and the objects they name carry one and the same cluster index in
    the view [dbscan] was given. The offsets start at 0 and end at the
    size of [cluster_indices]. [n + cluster_min_size] is an [int], so
    that the sums of the code do not overflow. *)
Theorem sort_and_filter_clusters_rows_are_clusters
  (sortObjects : list Z → list Z * list Z)
  (exclusivePrefixSum : list Z → list Z) (lastElement : list Z → Z)
  (garbage : Z) (fuel : nat) (n cluster_min_size : Z)
  (clusters0 clusters permute : list Z) :
  sortObjects clusters0 = (clusters, permute) →
  extent clusters = n → sorted_view clusters →
  (∀ j, 0 ≤ j < n →
        ∃ p, get permute j = Ok p ∧ get clusters0 p = get clusters j) →
  extent permute = n →
  (∀ v, exclusivePrefixSum v = exclusive_scan v) →
  (∀ v x, last v = Some x → lastElement v = x) →
  1 ≤ cluster_min_size → is_int (n + cluster_min_size) →
  (Z.to_nat n ≤ fuel)%nat →
  ∃ cluster_indices cluster_offsets,
    sort_and_filter_clusters sortObjects exclusivePrefixSum lastElement
      garbage fuel n cluster_min_size clusters0
    = Ok (cluster_indices, cluster_offsets)
    ∧ let heads := cluster_heads cluster_min_size clusters
                                 (RangePolicy 0 n) in
      extent cluster_offsets = Z.of_nat (length heads) + 1
      ∧ get cluster_offsets 0 = Ok 0
      ∧ get cluster_offsets (Z.of_nat (length heads))
        = Ok (extent cluster_indices)
      ∧ ∀ (k : nat) head,
          heads !! k = Some head →
          ∃ first label,
            get cluster_offsets (Z.of_nat k) = Ok first
            ∧ get cluster_offsets (Z.of_nat k + 1)
              = Ok (first + run_size clusters head)
            ∧ cluster_min_size ≤ run_size clusters head
            ∧ get clusters head = Ok label
            ∧ ∀ d, 0 ≤ d < run_size clusters head →
                   ∃ p, get cluster_indices (first + d) = Ok p
                        ∧ get permute (head + d) = Ok p
                        ∧ get clusters0 p = Ok label.
Proof.
  intros Hsort Hext Hsorted Hperm Hpext Hscan Hlast Hmin _ Hfuel.
  destruct (sort_and_filter_clusters_inv sortObjects exclusivePrefixSum
              lastElement garbage fuel n cluster_min_size clusters0
              clusters permute Hsort Hext Hsorted Hpext Hscan Hlast Hmin
              Hfuel) as (ci & co & Hrun & Hco & Hoff & Hci & Hrows).
  exists ci, co. split; [done|]. cbv zeta. split; [done|]. split_and!.
  - apply (Hoff O). lia.
  - rewrite Hoff, Hci by lia. f_equal. apply csr_offset_total.
    by rewrite length_fmap.
  - intros k head Hhead.
    pose proof (lookup_lt_Some _ _ _ Hhead) as Hk.
    pose proof Hhead as Hin%list_elem_of_lookup_2.
    apply cluster_heads_elem in Hin as (Hrange & _ & Hlarge).
    rewrite <- Hext in Hrange.
    destruct (get_is_Ok clusters head Hrange) as [label Hlabel].
    assert ((run_size clusters <$> cluster_heads cluster_min_size clusters
               (RangePolicy 0 n)) !! k = Some (run_size clusters head))
      as Hsize by (by rewrite list_lookup_fmap, Hhead).
    exists (csr_offset (run_size clusters <$> cluster_heads cluster_min_size
                          clusters (RangePolicy 0 n)) k), label.
    split_and!; try done.
    + apply Hoff. lia.
    + replace (Z.of_nat k + 1) with (Z.of_nat (S k)) by lia.
      rewrite Hoff by lia. by rewrite (csr_offset_S _ _ _ Hsize).
    + intros d Hd.
      pose proof (run_size_range clusters head Hrange) as Hz.
      destruct (Hperm (head + d)) as (p & Hp & Hp0); [lia|].
      exists p. split_and!; [|done|].
      * rewrite (Hrows k head (run_size clusters head) d); try done.
        unfold RangePolicy in Hk |- *. rewrite length_seqZ. lia.
      * rewrite Hp0, <- Hlabel.
        assert (run_reaches clusters head (run_size clusters head))
          as Hreach by (apply run_size_ge; lia).
        by apply Hreach.
Qed.

Lemma sort_and_filter_clusters_rows_are_clusters_witness :
  sort_and_filter_clusters example_sortObjects exclusive_scan
    example_lastElement (-1) 6 6 2 example_clusters
  = Ok ([1; 4; 0; 2; 5], [0; 2; 5]).
Proof.
  destruct (sort_and_filter_clusters_rows_are_clusters example_sortObjects
              exclusive_scan example_lastElement (-1) 6 6 2 example_clusters
              [0; 0; 2; 3; 3; 3] [1; 4; 3; 0; 2; 5])
    as (ci & co & Hrun & _).
  - reflexivity.
  - reflexivity.
  - intros i j x y Hij Hi Hj.
    destruct i as [|[|[|[|[|[|?]]]]]]; simpl in Hi; try done;
      injection Hi as <-;
      destruct j as [|[|[|[|[|[|?]]]]]]; simpl in Hj; try done;
      injection Hj as <-; lia.
  - intros j Hj.
    assert (j = 0 ∨ j = 1 ∨ j = 2 ∨ j = 3 ∨ j = 4 ∨ j = 5)
      as [->|[->|[->|[->|[->| ->]]]]] by lia;
      eexists; split; reflexivity.
  - reflexivity.
  - done.
  - intros v x Hx. unfold example_lastElement. by rewrite Hx.
  - lia.
  - unfold is_int, INT_MIN, INT_MAX. lia.
  - simpl. lia.
  - rewrite Hrun. vm_compute in Hrun. by injection Hrun as <- <-.
Defined.

(** ** DBSCAN: what [verifyCC] accepts *)

Lemma int_of_size_int (s : Z) : is_int s → int_of_size s = s.
Proof.
  unfold is_int, INT_MIN, INT_MAX, int_of_size. intros Hs.
  rewrite Z.mod_small; lia.
Qed.

(** An invariant of the items of a loop holds when the loop returns. *)
Lemma for_each_returns {S : Type} (body : Z → S → res S)
  (I : list Z → S → Prop) (items : list Z) (s s' : S) :
  (∀ done i rest s s1, items = done ++ i :: rest → I done s →
     body i s = Ok s1 → I (done ++ [i]) s1) →
  I [] s → for_each body items s = Ok s' → I items s'.
Proof.
  intros Hbody.
  assert (∀ rest done s, items = done ++ rest → I done s →
            for_each body rest s = Ok s' → I items s') as H.
  { induction rest as [|i rest IH]; intros done s0 Heq Hs; simpl.
    - intros [= <-]. rewrite app_nil_r in Heq. by subst.
    - intros (s1 & Hs1 & Hrun)%bind_Ok.
      apply (IH (done ++ [i]) s1); [by rewrite <- app_assoc| |done].
      by apply (Hbody done i rest s0). }
  intros Hs. by apply (H items []).
Qed.

Lemma RangePolicy_middle first last done i rest :
  RangePolicy first last = done ++ i :: rest → first ≤ i < last.
Proof.
  intros Hitems. apply RangePolicy_elem.
  rewrite Hitems, elem_of_app, elem_of_cons. auto.
Qed.

Section VerifyCC.
Variables indices offset ccs : list Z.

Local Abbreviation n := (extent ccs).
Local Abbreviation edge := (cc_edge indices offset).
Local Abbreviation reach := (cc_reach indices offset).

(** The neighbours of one node in the first loop. *)
Lemma verify_connected_indices_row i first last update update' :
for_each
  (fun j update =>
     let* ccs_i := get ccs i in
     let* index := get indices j in
     let* ccs_index := get ccs index in
     if negb (ccs_i =? ccs_index) then Ok (update + 1) else Ok update)
  (RangePolicy first last) update = Ok update' →
update ≤ update'
∧ (update' = update →
   ∀ j k, first ≤ j < last → get indices j = Ok k →
          get ccs k = get ccs i).
Proof.
intros Hrun.
apply (for_each_returns _
  (fun done u =>
     update ≤ u
     ∧ (u = update →
        ∀ j k, j ∈ done → get indices j = Ok k → get ccs k = get ccs i)))
  in Hrun.
- destruct Hrun as [Hle Hrow]. split; [done|].
  intros Heq j k Hj. apply (Hrow Heq). by apply RangePolicy_elem.
- intros done j rest u u1 Hitems [Hle Hrow] Hbody.
  apply bind_Ok in Hbody as (ccs_i & Hi & Hbody).
  apply bind_Ok in Hbody as (index & Hindex & Hbody).
  apply bind_Ok in Hbody as (ccs_index & Hccs & Hbody).
  destruct (Z.eqb_spec ccs_i ccs_index) as [->|Hne]; simpl in Hbody;
    injection Hbody as <-.
  + split; [done|]. intros Heq j' k [Hj'|Hj']%elem_of_app Hk.
    * by apply (Hrow Heq j').
    * apply list_elem_of_singleton in Hj' as ->.
      rewrite Hindex in Hk. injection Hk as <-. by rewrite Hi.
  + split; [lia|]. intros Heq. lia.
- split; [lia|]. intros _ j k Hj. by apply elem_of_nil in Hj.
Qed.

Lemma verify_connected_indices_op_returns i update update' :
verify_connected_indices_op indices offset ccs i update = Ok update' →
update ≤ update'
∧ (update' = update → ∀ k, edge i k → get ccs k = get ccs i).
Proof.
unfold verify_connected_indices_op.
intros (first & Hfirst & Hrun)%bind_Ok.
apply bind_Ok in Hrun as (last & Hlast & Hrun).
apply verify_connected_indices_row in Hrun as [Hle Hrow].
split; [done|]. intros Heq k (first' & last' & j & Hf & Hl & Hj & Hk).
rewrite Hfirst in Hf. rewrite Hlast in Hl.
injection Hf as <-. injection Hl as <-. by apply (Hrow Heq j).
Qed.

(** The first loop counts no mismatch only if every neighbour of a node
  carries the label of the node. *)
Lemma verify_connected_indices_returns :
parallel_reduce_sum (RangePolicy 0 n)
  (verify_connected_indices_op indices offset ccs) = Ok 0 →
∀ i k, 0 ≤ i < n → edge i k → get ccs k = get ccs i.
Proof.
unfold parallel_reduce_sum. intros Hrun.
apply (for_each_returns _
  (fun done u =>
     0 ≤ u
     ∧ (u = 0 →
        ∀ i k, i ∈ done → edge i k → get ccs k = get ccs i)))
  in Hrun.
- destruct Hrun as [_ Hall]. intros i k Hi.
  apply (Hall eq_refl). by apply RangePolicy_elem.
- intros done i rest u u1 Hitems [Hle Hall] Hbody.
  apply verify_connected_indices_op_returns in Hbody as [Hle1 Hrow].
  split; [lia|]. intros -> i' k [Hi'|Hi']%elem_of_app.
  + apply Hall; [lia|done].
  + apply list_elem_of_singleton in Hi' as ->. apply Hrow. lia.
- split; [lia|]. intros _ i k Hi. by apply elem_of_nil in Hi.
Qed.

(** The set of the labels. *)
Lemma unique_cc_indices_returns (unique : gset Z) :
for_each
  (fun i (unique_cc_indices : gset Z) =>
     let* ccs_i := get ccs i in
     Ok ({[ ccs_i ]} ∪ unique_cc_indices))
  (RangePolicy 0 n) ∅ = Ok unique →
∀ c, c ∈ unique ↔ ∃ i, 0 ≤ i < n ∧ get ccs i = Ok c.
Proof.
intros Hrun.
cut (∀ c, c ∈ unique ↔ ∃ i, i ∈ RangePolicy 0 n ∧ get ccs i = Ok c).
{ intros Hu c. rewrite Hu. by setoid_rewrite RangePolicy_elem. }
eapply (for_each_returns _
  (fun done (u : gset Z) =>
     ∀ c, c ∈ u ↔ ∃ i, i ∈ done ∧ get ccs i = Ok c)); [| |exact Hrun].
- intros done i rest u u1 Hitems Hu (ccs_i & Hi & [= <-])%bind_Ok c.
  rewrite elem_of_union, elem_of_singleton, Hu. split.
  + intros [->|(i' & Hi' & Hc)].
    * exists i. split; [|done]. rewrite elem_of_app. right. by left.
    * exists i'. split; [|done]. rewrite elem_of_app. by left.
  + intros (i' & [Hi'|Hi']%elem_of_app & Hc).
    * right. by exists i'.
    * apply list_elem_of_singleton in Hi' as ->. left. congruence.
- intros c. rewrite elem_of_empty. split; [done|].
  intros (i & Hi & _). by apply elem_of_nil in Hi.
Qed.
End VerifyCC.

Lemma cc_marked_mono indices offset ccs starts starts' k :
  (∀ r, r ∈ starts → r ∈ starts') →
  cc_marked indices offset ccs starts k →
  cc_marked indices offset ccs starts' k.
Proof. intros Hsub (r & Hr & H). exists r. auto. Qed.

Lemma ccs_host_inv_mono indices offset ccs starts starts' host :
  (∀ r, r ∈ starts → r ∈ starts') →
  ccs_host_inv indices offset ccs starts host →
  ccs_host_inv indices offset ccs starts' host.
Proof.
  intros Hsub [Hext Hhost]. split; [done|]. intros k Hk.
  destruct (Hhost k Hk) as [?|[? ?]]; [by left|right].
  split; [done|]. by apply (cc_marked_mono _ _ _ starts).
Qed.

Lemma push_neighbors_returns indices offset k first last stack stack' :
  get offset k = Ok first → get offset (k + 1) = Ok last →
  push_neighbors indices first last stack = Ok stack' →
  (∀ x, x ∈ stack → x ∈ stack')
  ∧ ∀ x, x ∈ stack' → x ∈ stack ∨ cc_edge indices offset k x.
Proof.
  intros Hfirst Hlast Hrun. unfold push_neighbors in Hrun.
  eapply (for_each_returns _
    (fun done st =>
       (∀ x, x ∈ stack → x ∈ st)
       ∧ ∀ x, x ∈ st → x ∈ stack ∨ cc_edge indices offset k x));
    [| |exact Hrun].
  - intros done j rest st st1 Hitems [Hkeep Hnew]
      (index & Hindex & [= <-])%bind_Ok.
    apply RangePolicy_middle in Hitems. split.
    + intros x Hx. right. by apply Hkeep.
    + intros x [->|Hx]%elem_of_cons; [|by apply Hnew].
      right. by exists first, last, j.
  - split; [done|]. intros x Hx. by left.
Qed.

Section VerifyComponents.
Variables indices offset ccs : list Z.

Local Abbreviation n := (extent ccs).
Local Abbreviation reach := (cc_reach indices offset).
Local Abbreviation host_inv := (ccs_host_inv indices offset ccs).

(** The search from the node [r] marks nodes of the label of [r] that are
  reached from [r], and all that it was given on the stack. *)
Lemma dfs_returns starts r id :
get ccs r = Ok id →
∀ fuel stack host result,
  dfs fuel indices offset id stack host = Ok result →
  host_inv (starts ++ [r]) host →
  (∀ k, k ∈ stack → reach r k) →
  host_inv (starts ++ [r]) result
  ∧ (∀ k v, get host k = Ok v → v < 0 →
            ∃ v', get result k = Ok v' ∧ v' < 0)
  ∧ ∀ k, k ∈ stack → ∃ v', get result k = Ok v' ∧ v' < 0.
Proof.
intros Hid.
induction fuel as [|fuel IH]; intros [|k stack] host result Hrun Hhost
  Hstack; simpl in Hrun; try done.
- injection Hrun as <-. split; [done|]. split.
  + intros k v Hk Hv. by exists v.
  + intros k Hk. by apply elem_of_nil in Hk.
- injection Hrun as <-. split; [done|]. split.
  + intros k v Hk Hv. by exists v.
  + intros k Hk. by apply elem_of_nil in Hk.
- apply bind_Ok in Hrun as (ccs_k & Hk & Hrun).
  pose proof (get_Ok_lt _ _ _ Hk) as Hrange.
  destruct Hhost as [Hext Hentries]. rewrite Hext in Hrange.
  destruct (Z.leb_spec 0 ccs_k) as [Hpos|Hneg].
  + apply bind_Ok in Hrun as (u & Hassert & Hrun).
    unfold ARBORX_ASSERT in Hassert.
    destruct (Z.eqb_spec ccs_k id) as [Heq|]; [|done].
    clear Hassert. subst ccs_k.
    apply bind_Ok in Hrun as (host' & Hset & Hrun).
    rewrite set_is_Ok in Hset by lia. injection Hset as <-.
    apply bind_Ok in Hrun as (first & Hfirst & Hrun).
    apply bind_Ok in Hrun as (last & Hlast & Hrun).
    apply bind_Ok in Hrun as (stack' & Hpush & Hrun).
    destruct (push_neighbors_returns _ _ _ _ _ _ _ Hfirst Hlast Hpush)
      as [Hkeep Hnew].
    assert (get ccs k = Ok id) as Hccs.
    { destruct (Hentries k Hrange) as [<-|[Hm _]]; [done|].
      rewrite Hk in Hm. injection Hm as ->. lia. }
    destruct (IH stack' (<[Z.to_nat k := -1]> host) result Hrun)
      as (Hres & Hpersist & Hdone).
    * split; [by rewrite extent_insert|]. intros k' Hk'.
      destruct (decide (k' = k)) as [->|Hne].
      -- right. split; [apply get_insert_eq; lia|].
         exists r. split; [rewrite elem_of_app; right; by left|].
         split; [congruence|]. apply Hstack. by left.
      -- rewrite get_insert_ne by lia. by apply Hentries.
    * intros x Hx. destruct (Hnew x Hx) as [Hin|Hedge].
      -- apply Hstack. by right.
      -- apply rtc_r with k; [|done]. apply Hstack. by left.
    * split; [done|]. split.
      -- intros k' v Hk' Hv. apply (Hpersist k' v); [|done].
         rewrite get_insert_ne; [done|lia|].
         intros <-. rewrite Hk in Hk'. injection Hk' as <-. lia.
      -- intros k' [->|Hk']%elem_of_cons.
         ++ apply (Hpersist k (-1)); [|lia]. apply get_insert_eq. lia.
         ++ apply Hdone. by apply Hkeep.
  + destruct (IH stack host result Hrun) as (Hres & Hpersist & Hdone).
    * by split.
    * intros x Hx. apply Hstack. by right.
    * split; [done|]. split; [done|].
      intros k' [->|Hk']%elem_of_cons; [|by apply Hdone].
      by apply (Hpersist k ccs_k).
Qed.

Lemma labels_of_snoc starts r id :
get ccs r = Ok id → labels_of ccs (starts ++ [r]) = labels_of ccs starts ++ [id].
Proof.
intros [_ Hr]%get_Ok. unfold labels_of. rewrite fmap_app. simpl.
by rewrite Hr.
Qed.

(** One node of the second loop. *)
Lemma verify_components_op_returns fuel done i s s1 :
0 ≤ i < n → Z.of_nat (length done) < n → is_int n →
verify_inv indices offset ccs done s →
verify_components_op fuel indices offset i s = Ok s1 →
verify_inv indices offset ccs (done ++ [i]) s1.
Proof.
intros Hi Hlen Hint (starts & Hhost & Hnum & Hle & Hsets & Hstarts & Hdone)
  Hrun.
unfold is_int, INT_MIN, INT_MAX in Hint.
unfold verify_components_op in Hrun.
apply bind_Ok in Hrun as (ccs_i & Hget & Hrun).
destruct (Z.leb_spec 0 ccs_i) as [Hpos|Hneg].
- apply bind_Ok in Hrun as (result & Hdfs & [= <-]).
  assert (get ccs i = Ok ccs_i) as Hccs.
  { destruct Hhost as [_ Hentries].
    destruct (Hentries i Hi) as [<-|[Hm _]]; [done|].
    rewrite Hget in Hm. injection Hm as ->. lia. }
  destruct (dfs_returns starts i ccs_i Hccs fuel [i] (ccs_host s) result
              Hdfs) as (Hres & Hpersist & Hmarked).
  { apply (ccs_host_inv_mono _ _ _ starts); [|done].
    intros r Hr. rewrite elem_of_app. by left. }
  { intros k Hk. apply list_elem_of_singleton in Hk as ->.
    apply rtc_refl. }
  exists (starts ++ [i]). simpl. split_and!.
  + done.
  + rewrite length_app. simpl. unfold unsigned_int_modulus.
    rewrite Z.mod_small; lia.
  + rewrite !length_app. simpl. lia.
  + rewrite (labels_of_snoc _ _ _ Hccs), list_to_set_app_L, Hsets.
    simpl. rewrite union_empty_r_L. apply (comm_L (∪)).
  + intros r [Hr|Hr]%elem_of_app; [auto|].
    apply list_elem_of_singleton in Hr as ->. by exists ccs_i.
  + intros k [Hk|Hk]%elem_of_app.
    * destruct (Hdone k Hk) as (v & Hv & Hlt). by apply (Hpersist k v).
    * apply list_elem_of_singleton in Hk as ->. apply Hmarked. by left.
- injection Hrun as <-. exists starts. split_and!; try done.
  + rewrite length_app. lia.
  + intros k [Hk|Hk]%elem_of_app; [auto|].
    apply list_elem_of_singleton in Hk as ->. by exists ccs_i.
Qed.

Lemma verify_components_returns fuel s :
is_int n →
for_each (verify_components_op fuel indices offset) (RangePolicy 0 n)
  {| ccs_host := ccs; cc_sets := ∅; num_ccs := 0 |} = Ok s →
verify_inv indices offset ccs (RangePolicy 0 n) s.
Proof.
intros Hint Hrun.
eapply (for_each_returns _ (verify_inv indices offset ccs));
  [| |exact Hrun].
- intros done i rest s0 s1 Hitems Hinv Hbody.
  apply RangePolicy_prefix in Hitems as [Hlen Hitems].
  apply (verify_components_op_returns fuel done i s0); (done || lia).
- exists []. simpl. split_and!; try done.
  + split; [done|]. intros k Hk. by left.
  + intros r Hr. by apply elem_of_nil in Hr.
  + intros i Hi. by apply elem_of_nil in Hi.
Qed.
End VerifyComponents.

Lemma size_list_to_set_le (l : list Z) :
  (size (list_to_set (C := gset Z) l) ≤ length l)%nat.
Proof.
  induction l as [|x l IH].
  - by rewrite list_to_set_nil, size_empty.
  - rewrite list_to_set_cons, size_union_alt, size_singleton.
    rewrite length_cons.
    pose proof (subseteq_size (list_to_set (C := gset Z) l ∖ {[x]})
                  (list_to_set l)
                  ltac:(apply subseteq_difference_l; done)).
    lia.
Qed.

Lemma size_list_to_set_NoDup (l : list Z) :
  size (list_to_set (C := gset Z) l) = length l → NoDup l.
Proof.
  induction l as [|x l IH]; intros Hsize; [constructor|].
  rewrite list_to_set_cons, length_cons in Hsize.
  pose proof (size_list_to_set_le l) as Hle.
  destruct (decide (x ∈ l)) as [Hin|Hout].
  - rewrite subseteq_union_1_L in Hsize; [lia|].
    apply singleton_subseteq_l. by apply elem_of_list_to_set.
  - rewrite size_union, size_singleton in Hsize.
    + constructor; [done|]. apply IH. lia.
    + apply disjoint_singleton_l. by rewrite elem_of_list_to_set.
Qed.

Lemma NoDup_fmap_elem {A B : Type} (f : A → B) (l : list A) x y :
  NoDup (f <$> l) → x ∈ l → y ∈ l → f x = f y → x = y.
Proof.
  induction l as [|a l IH]; simpl; intros Hnd Hx Hy Heq.
  - by apply elem_of_nil in Hx.
  - apply NoDup_cons in Hnd as [Ha Hnd].
    apply elem_of_cons in Hx as [->|Hx];
      apply elem_of_cons in Hy as [->|Hy]; auto.
    + destruct Ha. rewrite Heq. by apply list_elem_of_fmap_2.
    + destruct Ha. rewrite <- Heq. by apply list_elem_of_fmap_2.
Qed.

Lemma labels_of_elem ccs starts c :
  (∀ r, r ∈ starts → ∃ c, get ccs r = Ok c ∧ 0 ≤ c) →
  c ∈ labels_of ccs starts ↔ ∃ r, r ∈ starts ∧ get ccs r = Ok c.
Proof.
  intros Hstarts. unfold labels_of. rewrite list_elem_of_fmap. split.
  - intros (r & -> & Hr). exists r. split; [done|].
    destruct (Hstarts r Hr) as (c & Hc & _). rewrite Hc.
    apply get_Ok in Hc as [_ ->]. done.
  - intros (r & Hr & Hc). exists r. split; [|done].
    apply get_Ok in Hc as [_ ->]. done.
Qed.

(** X12. For fewer than [2^31] nodes, [verifyCC] returns [true] only for
    labels that are the connected components of the graph: the views have
    the sizes of a CSR (as [int]s), no label is negative, every neighbour of a node carries the label of the node, and
    any two nodes with the same label are reached along the edges of the
    graph from one and the same node. *)
Theorem verifyCC_accepts_only_components (lastElement : list Z → Z)
  (fuel : nat) (indices offset ccs : list Z) :
  is_int (extent ccs) →
  verifyCC lastElement fuel indices offset ccs = Ok true →
  int_of_size (extent offset) = extent ccs + 1
  ∧ lastElement offset = int_of_size (extent indices)
  ∧ (∀ i, 0 ≤ i < extent ccs → ∃ c, get ccs i = Ok c ∧ 0 ≤ c)
  ∧ (∀ i k, 0 ≤ i < extent ccs → cc_edge indices offset i k →
            get ccs k = get ccs i)
  ∧ ∀ i k, 0 ≤ i < extent ccs → 0 ≤ k < extent ccs →
           get ccs i = get ccs k →
           ∃ r, cc_reach indices offset r i ∧ cc_reach indices offset r k.
Proof.
  unfold verifyCC. intros Hint Hrun.
  rewrite (int_of_size_int (extent ccs) Hint) in Hrun.
  apply bind_Ok in Hrun as (u1 & Hsize & Hrun).
  apply bind_Ok in Hrun as (u2 & Hlast & Hrun).
  apply bind_Ok in Hrun as (num_incorrect & Hfirst & Hrun).
  unfold ARBORX_ASSERT in Hsize, Hlast.
  destruct (Z.eqb_spec (int_of_size (extent offset)) (extent ccs + 1))
    as [Hoffset|]; [|done].
  destruct (Z.eqb_spec (lastElement offset) (int_of_size (extent indices)))
    as [Hend|]; [|done].
  destruct (Z.eqb_spec num_incorrect 0) as [->|]; simpl in Hrun; [|done].
  apply bind_Ok in Hrun as (unique & Hunique & Hrun).
  apply bind_Ok in Hrun as (s & Hsecond & Hrun).
  destruct (Z.eqb_spec (Z.of_nat (size (cc_sets s)))
              (Z.of_nat (size unique))) as [Hsets|]; simpl in Hrun; [|done].
  destruct (Z.eqb_spec (num_ccs s) (Z.of_nat (size unique))) as [Hnum|];
    simpl in Hrun; [|done].
  pose proof (unique_cc_indices_returns _ _ Hunique) as Hlabels.
  apply verify_components_returns in Hsecond
    as (starts & [_ Hhost] & Hcount & _ & Hcc & Hstarts & Hdone);
    [|done].
  assert (cc_sets s = unique) as Hsame.
  { apply set_subseteq_size_eq; [|lia].
    intros c. rewrite Hcc, elem_of_list_to_set, labels_of_elem by done.
    intros (r & Hr & Hc). apply Hlabels. exists r. split; [|done].
    by apply get_Ok_lt in Hc. }
  assert (NoDup (labels_of ccs starts)) as Hdistinct.
  { apply size_list_to_set_NoDup. rewrite <- Hcc.
    unfold labels_of. rewrite length_fmap. lia. }
  assert (∀ i, 0 ≤ i < extent ccs → ∃ c, get ccs i = Ok c ∧ 0 ≤ c)
    as Hpos.
  { intros i Hi. destruct (get_is_Ok ccs i Hi) as [c Hc].
    exists c. split; [done|].
    assert (c ∈ cc_sets s) as Hin.
    { rewrite Hsame. apply Hlabels. by exists i. }
    rewrite Hcc, elem_of_list_to_set, labels_of_elem in Hin by done.
    destruct Hin as (r & Hr & Hrc).
    destruct (Hstarts r Hr) as (c' & Hc' & Hle). congruence. }
  assert (∀ i, 0 ≤ i < extent ccs →
               cc_marked indices offset ccs starts i) as Hmarked.
  { intros i Hi. destruct (Hdone i) as (v & Hv & Hneg).
    { by apply RangePolicy_elem. }
    destruct (Hhost i Hi) as [Heq|[_ Hm]]; [|done].
    destruct (Hpos i Hi) as (c & Hc & Hle).
    rewrite Hv, Hc in Heq. injection Heq as ->. lia. }
  split_and!; try done.
  - by apply verify_connected_indices_returns.
  - intros i k Hi Hk Heq.
    destruct (Hmarked i Hi) as (r & Hr & Hri & Hreach).
    destruct (Hmarked k Hk) as (r' & Hr' & Hrk & Hreach').
    assert (r = r') as <-.
    { apply (NoDup_fmap_elem _ _ _ _ Hdistinct Hr Hr').
      destruct (Hstarts r Hr) as (c & Hc & _).
      destruct (Hstarts r' Hr') as (c' & Hc' & _).
      pose proof Hc as [_ ->]%get_Ok. pose proof Hc' as [_ ->]%get_Ok.
      simpl. congruence. }
    by exists r.
Qed.

Lemma verifyCC_accepts_only_components_witness :
  get example_ccs 1 = get example_ccs 0.
Proof.
  destruct (verifyCC_accepts_only_components example_lastElement 4
              example_graph_indices example_graph_offset example_ccs)
    as (_ & _ & _ & Hedge & _).
  - vm_compute. split; congruence.
  - reflexivity.
  - apply (Hedge 0 1); [vm_compute; split; [discriminate|reflexivity]|].
    exists 0, 1, 0. split_and!; (reflexivity || lia).
Defined.

(** ** DBSCAN: the objects that the CSR lists *)

Lemma csr_offset_app sizes z k :
  (k ≤ length sizes)%nat →
  csr_offset (sizes ++ [z]) k = csr_offset sizes k.
Proof. intros Hk. unfold csr_offset. by rewrite take_app_le. Qed.

(** Every position below the sum of the sizes lies in one row. *)
Lemma csr_offset_locate sizes x :
  (∀ z, z ∈ sizes → 0 ≤ z) → 0 ≤ x < sum_view sizes →
  ∃ (k : nat) z,
    sizes !! k = Some z
    ∧ csr_offset sizes k ≤ x < csr_offset sizes k + z.
Proof.
  induction sizes as [|z sizes IH] using rev_ind; intros Hpos Hx.
  - unfold sum_view in Hx. simpl in Hx. lia.
  - rewrite sum_view_app in Hx.
    assert (sum_view [z] = z) as Hz by (unfold sum_view; simpl; lia).
    destruct (decide (x < sum_view sizes)) as [Hlt|Hge].
    + destruct IH as (k & z' & Hk & Hrow); [|lia|].
      { intros y Hy. apply Hpos. rewrite elem_of_app. by left. }
      exists k, z'. pose proof (lookup_lt_Some _ _ _ Hk).
      rewrite lookup_app_l, csr_offset_app by lia. done.
    + exists (length sizes), z.
      rewrite list_lookup_middle by done.
      rewrite csr_offset_app, csr_offset_total by lia. split; [done|lia].
Qed.

Lemma filter_none {A : Type} (P : A → Prop) `{!∀ x, Decision (P x)}
  (l : list A) :
  (∀ x, x ∈ l → ¬ P x) → filter P l = [].
Proof.
  induction l as [|x l IH]; intros Hl; [done|].
  rewrite filter_cons. destruct (decide (P x)) as [HP|_].
  - destruct (Hl x); [by left|done].
  - apply IH. intros y Hy. apply Hl. by right.
Qed.

Lemma sorted_view_drop v k : sorted_view v → sorted_view (drop k v).
Proof.
  intros Hv i j x y Hij. rewrite !lookup_drop.
  apply Hv. lia.
Qed.

(** In a sorted list that holds no entry below [c], the entries equal to
    [c] are at the head. *)
Lemma filter_run_length c l :
  sorted_view l → (∀ y, y ∈ l → c ≤ y) →
  length (filter (fun y => y = c) l) = run_length c l.
Proof.
  induction l as [|y l IH]; intros Hsorted Hge; [done|].
  assert (sorted_view l) as Hl.
  { intros i j a b Hij Ha Hb. apply (Hsorted (S i) (S j)); (done || lia). }
  rewrite filter_cons. simpl. destruct (decide (y = c)) as [->|Hne].
  - simpl. f_equal. apply IH; [done|].
    intros a Ha. apply Hge. by right.
  - assert (c < y) as Hlt.
    { pose proof (Hge y ltac:(by left)). lia. }
    rewrite filter_none; [done|]. intros a Ha Heq. subst a.
    apply list_elem_of_lookup in Ha as [j Hj].
    pose proof (Hsorted O (S j) y c ltac:(lia) eq_refl Hj). lia.
Qed.

Section SortedRuns.
Variable clusters : list Z.
Hypothesis sorted : sorted_view clusters.

Local Abbreviation n := (extent clusters).

(** The run through a position begins at or before it. *)
Lemma run_head_exists j :
0 ≤ j < n →
∃ h, 0 ≤ h ≤ j ∧ run_start clusters h
     ∧ get clusters h = get clusters j.
Proof.
intros Hj. assert (∃ m : nat, j = Z.of_nat m) as [m ->].
{ exists (Z.to_nat j). lia. }
induction m as [|m IH].
- exists 0. split; [lia|]. split; [by left|done].
- destruct (get_is_Ok clusters (Z.of_nat (S m)) Hj) as [x Hx].
  destruct (get_is_Ok clusters (Z.of_nat m) ltac:(lia)) as [y Hy].
  destruct (decide (x = y)) as [->|Hne].
  + destruct IH as (h & Hh & Hstart & Heq); [lia|].
    exists h. split; [lia|]. split; [done|]. congruence.
  + exists (Z.of_nat (S m)). split; [lia|]. split; [|done].
    right. replace (Z.of_nat (S m) - 1) with (Z.of_nat m) by lia.
    congruence.
Qed.

(** The first index of a run is the least position of its label. *)
Lemma run_start_least h j :
0 ≤ h < n → run_start clusters h → 0 ≤ j < n →
get clusters j = get clusters h → h ≤ j.
Proof.
intros Hh Hstart Hj Heq.
destruct (Z.le_gt_cases h j) as [|Hlt]; [done|exfalso].
destruct Hstart as [->|Hne]; [lia|]. apply Hne.
destruct (get_is_Ok clusters h Hh) as [x Hx].
destruct (get_is_Ok clusters (h - 1) ltac:(lia)) as [y Hy].
rewrite Hx in Heq.
pose proof (sorted_get clusters sorted j (h - 1) x y ltac:(lia) Heq Hy).
pose proof (sorted_get clusters sorted (h - 1) h y x ltac:(lia) Hy Hx).
rewrite Hx, Hy. f_equal. lia.
Qed.

(** A position with the label of a run lies in the run. *)
Lemma run_holds_label h j :
0 ≤ h < n → run_start clusters h → 0 ≤ j < n →
get clusters j = get clusters h → h ≤ j < h + run_size clusters h.
Proof.
intros Hh Hstart Hj Heq.
pose proof (run_start_least h j Hh Hstart Hj Heq) as Hle.
split; [done|].
assert (j - h + 1 ≤ run_size clusters h); [|lia].
apply run_size_ge; [done|lia|].
apply sorted_all_equal; try (done || lia).
by replace (h + (j - h + 1) - 1) with j by lia.
Qed.

(** Two runs with one label are one run. *)
Lemma run_start_unique h h' :
0 ≤ h < n → run_start clusters h → 0 ≤ h' < n → run_start clusters h' →
get clusters h = get clusters h' → h = h'.
Proof.
intros Hh Hs Hh' Hs' Heq.
pose proof (run_start_least h h' Hh Hs Hh' ltac:(done)).
pose proof (run_start_least h' h Hh' Hs' Hh ltac:(done)). lia.
Qed.

(** The length of a run is the number of the entries with its label. *)
Lemma run_size_count h c :
0 ≤ h < n → run_start clusters h → get clusters h = Ok c →
Z.of_nat (length (filter (fun y => y = c) clusters))
= run_size clusters h.
Proof.
intros Hh Hstart Hc.
rewrite <- (take_drop (Z.to_nat h) clusters) at 1.
rewrite filter_app, length_app.
rewrite (filter_none _ (take (Z.to_nat h) clusters)).
- simpl. pose proof Hc as [_ Hlook]%get_Ok.
  unfold run_size. rewrite Hlook. f_equal.
  apply filter_run_length; [by apply sorted_view_drop|].
  intros y Hy. apply list_elem_of_lookup in Hy as [j Hj].
  rewrite lookup_drop in Hj.
  apply (sorted (Z.to_nat h) (Z.to_nat h + j)%nat); (done || lia).
- intros y Hy ->.
  apply list_elem_of_lookup in Hy as [j Hj].
  apply lookup_take_Some in Hj as [Hj Hlt].
  assert (get clusters (Z.of_nat j) = Ok c) as Hget.
  { apply get_Ok. split; [lia|]. by rewrite Nat2Z.id. }
  pose proof (lookup_lt_Some _ _ _ Hj).
  assert (h ≤ Z.of_nat j); [|lia].
  apply run_start_least; try done; [unfold extent; lia|congruence].
Qed.
End SortedRuns.

Lemma cluster_members_count clusters0 clusters permute n c :
  permute ≡ₚ RangePolicy 0 n →
  Forall2 (fun q y => clusters0 !! Z.to_nat q = Some y) permute clusters →
  length (cluster_members clusters0 n c)
  = length (filter (fun y => y = c) clusters).
Proof.
  intros Hperm Hpairs. unfold cluster_members. rewrite <- Hperm.
  clear Hperm. induction Hpairs as [|q y permute' clusters' Hq _ IH]; [done|].
  simpl in Hq. rewrite !filter_cons.
  destruct (decide (clusters0 !! Z.to_nat q = Some c)) as [Hc|Hc];
    destruct (decide (y = c)) as [Hy|Hy]; simpl; try by rewrite IH.
  - destruct Hy. congruence.
  - destruct Hc. congruence.
Qed.

Section Listing.
Variable n cluster_min_size : Z.
Variable clusters0 clusters permute cluster_indices : list Z.

Local Abbreviation heads :=
(cluster_heads cluster_min_size clusters (RangePolicy 0 n)).
Local Abbreviation sizes := (run_size clusters <$> heads).

Hypothesis clusters_extent : extent clusters = n.
Hypothesis clusters_sorted : sorted_view clusters.
Hypothesis clusters0_extent : extent clusters0 = n.
Hypothesis permute_perm : permute ≡ₚ RangePolicy 0 n.
Hypothesis permute_sorts :
∀ j, 0 ≤ j < n →
     ∃ p, get permute j = Ok p ∧ get clusters0 p = get clusters j.
Hypothesis min_size_pos : 1 ≤ cluster_min_size.
Hypothesis rows :
populate_inv permute heads sizes
  (RangePolicy 0 (Z.of_nat (length heads))) cluster_indices.

Lemma permute_length : extent permute = n.
Proof.
unfold extent. rewrite permute_perm. unfold RangePolicy.
rewrite length_seqZ. unfold extent in clusters_extent. lia.
Qed.

Lemma permute_pairs :
Forall2 (fun q y => clusters0 !! Z.to_nat q = Some y) permute clusters.
Proof.
pose proof permute_length as Hlen.
apply Forall2_same_length_lookup_2.
{ unfold extent in Hlen, clusters_extent. lia. }
intros i q y Hq Hy.
pose proof (lookup_lt_Some _ _ _ Hq) as Hi.
destruct (permute_sorts (Z.of_nat i)) as (p & Hp & Hlabel).
{ unfold extent in Hlen. lia. }
apply get_Ok in Hp as [_ Hp]. rewrite Nat2Z.id, Hq in Hp.
injection Hp as <-.
assert (get clusters (Z.of_nat i) = Ok y) as Hget.
{ apply get_Ok. split; [lia|]. by rewrite Nat2Z.id. }
rewrite Hget in Hlabel. by apply get_Ok in Hlabel as [_ Hlabel].
Qed.

Lemma head_range h :
h ∈ heads →
0 ≤ h < extent clusters ∧ run_start clusters h
∧ cluster_min_size ≤ run_size clusters h.
Proof. rewrite cluster_heads_elem. by rewrite clusters_extent. Qed.

(** An entry of [cluster_indices] has its row and its place in the row. *)
Lemma cluster_indices_lookup (x : nat) p :
cluster_indices !! x = Some p →
∃ (k : nat) h d,
  heads !! k = Some h ∧ 0 ≤ d < run_size clusters h
  ∧ Z.of_nat x = csr_offset sizes k + d
  ∧ get permute (h + d) = Ok p.
Proof.
intros Hx. destruct rows as [Hext Hrows].
pose proof (lookup_lt_Some _ _ _ Hx) as Hlt.
destruct (csr_offset_locate sizes (Z.of_nat x)) as (k & z & Hz & Hrow).
{ intros z Hz%sizes_ge. lia. }
{ unfold extent in Hext. lia. }
pose proof Hz as (h & Hh & ->)%sizes_lookup.
exists k, h, (Z.of_nat x - csr_offset sizes k).
split; [done|]. split; [lia|]. split; [lia|].
rewrite <- (Hrows k h (run_size clusters h)); try (done || lia).
- apply get_Ok. split; [lia|].
  replace (csr_offset sizes k + (Z.of_nat x - csr_offset sizes k))
    with (Z.of_nat x) by lia.
  by rewrite Nat2Z.id.
- apply lookup_lt_Some in Hh. unfold RangePolicy in Hh |- *.
  rewrite length_seqZ. lia.
Qed.

Lemma row_label h d :
h ∈ heads → 0 ≤ d < run_size clusters h →
get clusters (h + d) = get clusters h ∧ h + d < n.
Proof.
intros (Hh & _ & _)%head_range Hd.
pose proof (run_size_range clusters h Hh). split; [|lia].
assert (run_reaches clusters h (run_size clusters h)) as Hreach
  by (apply run_size_ge; lia).
by apply Hreach.
Qed.

(** The objects listed are those of the clusters with at least
  [cluster_min_size] members. *)
Lemma cluster_indices_elem p c :
get clusters0 p = Ok c →
p ∈ cluster_indices ↔
cluster_min_size ≤ Z.of_nat (length (cluster_members clusters0 n c)).
Proof.
intros Hc.
rewrite (cluster_members_count clusters0 clusters permute n c
           permute_perm permute_pairs).
split.
- intros [x Hx]%list_elem_of_lookup.
  apply cluster_indices_lookup in Hx as (k & h & d & Hh & Hd & _ & Hp).
  apply list_elem_of_lookup_2 in Hh.
  destruct (row_label h d Hh Hd) as [Hlabel Hlt].
  pose proof (head_range h Hh) as (Hrange & Hstart & Hlarge).
  destruct (permute_sorts (h + d)) as (p' & Hp' & Hp0); [lia|].
  rewrite Hp in Hp'. injection Hp' as <-.
  rewrite (run_size_count clusters clusters_sorted h c); [done..|].
  congruence.
- intros Hcount.
  pose proof (get_Ok_lt _ _ _ Hc) as Hp. rewrite clusters0_extent in Hp.
  assert (p ∈ permute) as [j Hj]%list_elem_of_lookup.
  { rewrite permute_perm. by apply RangePolicy_elem. }
  pose proof (lookup_lt_Some _ _ _ Hj) as Hjn.
  pose proof permute_length as Hlen. unfold extent in Hlen.
  destruct (permute_sorts (Z.of_nat j)) as (p' & Hp' & Hlabel); [lia|].
  pose proof Hp' as [_ Hpj]%get_Ok. rewrite Nat2Z.id, Hj in Hpj.
  injection Hpj as <-.
  destruct (run_head_exists clusters (Z.of_nat j)) as (h & Hh & Hstart & Heq);
    [lia|].
  assert (0 ≤ h < extent clusters) as Hrange by lia.
  assert (get clusters h = Ok c) as Hhc by congruence.
  rewrite (run_size_count clusters clusters_sorted h c) in Hcount
    by done.
  assert (h ∈ heads) as [k Hk]%list_elem_of_lookup.
  { apply cluster_heads_elem. split; [lia|]. by split. }
  pose proof (run_holds_label clusters clusters_sorted h (Z.of_nat j)
                Hrange Hstart ltac:(lia) ltac:(congruence)) as Hin.
  destruct rows as [Hext Hrows].
  assert (get cluster_indices
            (csr_offset sizes k + (Z.of_nat j - h)) = Ok p) as Hget.
  { rewrite (Hrows k h (run_size clusters h)).
    - by replace (h + (Z.of_nat j - h)) with (Z.of_nat j) by lia.
    - apply lookup_lt_Some in Hk. unfold RangePolicy in Hk |- *.
      rewrite length_seqZ. lia.
    - done.
    - by rewrite list_lookup_fmap, Hk.
    - lia. }
  apply get_Ok in Hget as [_ Hget].
  by apply list_elem_of_lookup_2 in Hget.
Qed.

(** No object is listed twice. *)
Lemma cluster_indices_NoDup : NoDup cluster_indices.
Proof.
apply NoDup_alt. intros x y p Hx Hy.
apply cluster_indices_lookup in Hx as (k & h & d & Hh & Hd & Hxk & Hp).
apply cluster_indices_lookup in Hy
  as (k' & h' & d' & Hh' & Hd' & Hyk & Hp').
pose proof Hh as Hin%list_elem_of_lookup_2.
pose proof Hh' as Hin'%list_elem_of_lookup_2.
destruct (row_label h d Hin Hd) as [Hlabel _].
destruct (row_label h' d' Hin' Hd') as [Hlabel' _].
pose proof (head_range h Hin) as (Hrange & Hstart & _).
pose proof (head_range h' Hin') as (Hrange' & Hstart' & _).
assert (NoDup permute) as Hnd.
{ rewrite permute_perm. apply NoDup_seqZ. }
apply get_Ok in Hp as [? Hp]. apply get_Ok in Hp' as [? Hp'].
pose proof (NoDup_lookup _ _ _ _ Hnd Hp Hp') as Hsame.
assert (h + d = h' + d') as Hpos by lia.
assert (h = h') as <-.
{ apply (run_start_unique clusters clusters_sorted); try done.
  rewrite <- Hlabel, <- Hlabel', Hpos. done. }
assert (k = k') as <-.
{ apply (NoDup_lookup heads k k' h); [|done..].
  apply NoDup_filter, NoDup_seqZ. }
lia.
Qed.
End Listing.

(** X13. For a sort that returns the sorted view and a permutation of the
    objects with [sorted(j) = unsorted(permute(j))], the phase
    ["sort_and_filter_clusters"] of [dbscan] lists in [cluster_indices]
    each object at most once, and it lists exactly the objects whose
    cluster index is shared by at least [cluster_min_size] objects: the
    smaller clusters are filtered out. [n + cluster_min_size] is an
    [int], so that the sums of the code do not overflow. *)
Theorem sort_and_filter_clusters_lists_large_clusters
  (sortObjects : list Z → list Z * list Z)
  (exclusivePrefixSum : list Z → list Z) (lastElement : list Z → Z)
  (garbage : Z) (fuel : nat) (n cluster_min_size : Z)
  (clusters0 clusters permute : list Z) :
  sortObjects clusters0 = (clusters, permute) →
  extent clusters0 = n → extent clusters = n → sorted_view clusters →
  permute ≡ₚ RangePolicy 0 n →
  (∀ j, 0 ≤ j < n →
        ∃ p, get permute j = Ok p ∧ get clusters0 p = get clusters j) →
  (∀ v, exclusivePrefixSum v = exclusive_scan v) →
  (∀ v x, last v = Some x → lastElement v = x) →
  1 ≤ cluster_min_size → is_int (n + cluster_min_size) →
  (Z.to_nat n ≤ fuel)%nat →
  ∃ cluster_indices cluster_offsets,
    sort_and_filter_clusters sortObjects exclusivePrefixSum lastElement
      garbage fuel n cluster_min_size clusters0
    = Ok (cluster_indices, cluster_offsets)
    ∧ NoDup cluster_indices
    ∧ ∀ p c,
        get clusters0 p = Ok c →
        (p ∈ cluster_indices ↔
         cluster_min_size
         ≤ Z.of_nat (length (cluster_members clusters0 n c))).
Proof.
  intros Hsort Hext0 Hext Hsorted Hperm Hpairs Hscan Hlast Hmin _ Hfuel.
  destruct (sort_and_filter_clusters_inv sortObjects exclusivePrefixSum
              lastElement garbage fuel n cluster_min_size clusters0
              clusters permute Hsort Hext Hsorted
              (permute_length n clusters permute Hext Hperm)
              Hscan Hlast Hmin Hfuel) as (ci & co & Hrun & _ & _ & Hrows).
  exists ci, co. split; [done|]. split.
  - by apply (cluster_indices_NoDup n cluster_min_size clusters permute).
  - intros p c.
    by apply (cluster_indices_elem n cluster_min_size clusters0 clusters
                permute).
Qed.

Lemma sort_and_filter_clusters_lists_large_clusters_witness :
  ∃ cluster_indices cluster_offsets,
    sort_and_filter_clusters example_sortObjects exclusive_scan
      example_lastElement (-1) 6 6 2 example_clusters
    = Ok (cluster_indices, cluster_offsets)
    ∧ (3 ∉ cluster_indices) ∧ (4 ∈ cluster_indices).
Proof.
  destruct (sort_and_filter_clusters_lists_large_clusters
              example_sortObjects exclusive_scan example_lastElement (-1)
              6 6 2 example_clusters [0; 0; 2; 3; 3; 3] [1; 4; 3; 0; 2; 5])
    as (ci & co & Hrun & _ & Hlisted).
  - reflexivity.
  - reflexivity.
  - reflexivity.
  - intros i j x y Hij Hi Hj.
    destruct i as [|[|[|[|[|[|?]]]]]]; simpl in Hi; try done;
      injection Hi as <-;
      destruct j as [|[|[|[|[|[|?]]]]]]; simpl in Hj; try done;
      injection Hj as <-; lia.
  - apply NoDup_Permutation.
    + repeat (apply NoDup_cons; split;
                [rewrite ?elem_of_cons, elem_of_nil; lia|]).
      apply NoDup_nil_2.
    + apply NoDup_seqZ.
    + intros x. rewrite RangePolicy_elem, !elem_of_cons, elem_of_nil. lia.
  - intros j Hj.
    assert (j = 0 ∨ j = 1 ∨ j = 2 ∨ j = 3 ∨ j = 4 ∨ j = 5)
      as [->|[->|[->|[->|[->| ->]]]]] by lia;
      eexists; split; reflexivity.
  - done.
  - intros v x Hx. unfold example_lastElement. by rewrite Hx.
  - lia.
  - unfold is_int, INT_MIN, INT_MAX. lia.
  - simpl. lia.
  - exists ci, co. split; [done|]. split.
    + rewrite (Hlisted 3 2); [|reflexivity]. vm_compute. intros H. by apply H.
    + rewrite (Hlisted 4 0); [|reflexivity]. by vm_compute.
Defined.

(** ** DBSCAN: what [verifyCC] does on a graph in CSR form *)

Lemma sum_list_with_agree (f g : nat → nat) (l : list nat) :
  (∀ x, x ∈ l → f x = g x) → sum_list_with f l = sum_list_with g l.
Proof.
  induction l as [|x l IH]; intros Hfg; simpl; [done|].
  rewrite (Hfg x) by (by left). rewrite IH; [done|].
  intros y Hy. apply Hfg. by right.
Qed.

Lemma sum_list_with_update (f g : nat → nat) (l : list nat) (k : nat) :
  NoDup l → k ∈ l → (∀ x, x ≠ k → f x = g x) →
  (sum_list_with f l + g k = sum_list_with g l + f k)%nat.
Proof.
  intros Hnd Hk Hfg. induction l as [|x l IH]; simpl.
  - by apply elem_of_nil in Hk.
  - apply NoDup_cons in Hnd as [Hx Hnd].
    apply elem_of_cons in Hk as [->|Hk].
    + assert (sum_list_with f l = sum_list_with g l) as ->; [|lia].
      apply sum_list_with_agree. intros y Hy. apply Hfg. by intros ->.
    + rewrite (Hfg x); [|by intros ->]. specialize (IH Hnd Hk). lia.
Qed.

Lemma sum_list_with_le (f g : nat → nat) (l : list nat) :
  (∀ x, f x ≤ g x)%nat → (sum_list_with f l ≤ sum_list_with g l)%nat.
Proof.
  intros Hfg. induction l as [|x l IH]; simpl; [done|].
  specialize (Hfg x). lia.
Qed.

Lemma sum_list_with_S (f : nat → nat) (l : list nat) :
  sum_list_with (fun k => S (f k)) l
  = (length l + sum_list_with f l)%nat.
Proof. induction l as [|x l IH]; simpl; [done|]. lia. Qed.

Section Offsets.
Variable offset : list Z.
Hypothesis monotone :
∀ (k : nat) a b, offset !! k = Some a → offset !! S k = Some b → a ≤ b.

Lemma offset_le (k m : nat) a b :
(k ≤ m)%nat → offset !! k = Some a → offset !! m = Some b → a ≤ b.
Proof.
intros Hkm Ha. revert b. induction Hkm as [|m Hkm IH]; intros b Hb.
- rewrite Ha in Hb. injection Hb as <-. lia.
- destruct (lookup_lt_is_Some_2 offset m) as [c Hc].
  { apply lookup_lt_Some in Hb. lia. }
  specialize (IH c Hc). pose proof (monotone m c b Hc Hb). lia.
Qed.

(** The degrees of the first [m] nodes add up to the span of their
  offsets. *)
Lemma cc_degree_sum (m : nat) a b :
offset !! O = Some a → offset !! m = Some b →
sum_list_with (cc_degree offset) (seq 0 m) = Z.to_nat (b - a).
Proof.
intros Ha. revert b. induction m as [|m IH]; intros b Hb.
- rewrite Ha in Hb. injection Hb as <-. simpl. lia.
- destruct (lookup_lt_is_Some_2 offset m) as [c Hc].
  { apply lookup_lt_Some in Hb. lia. }
  rewrite seq_S, sum_list_with_app, (IH c Hc). simpl.
  unfold cc_degree. rewrite Hc, Hb.
  pose proof (offset_le O m a c ltac:(lia) Ha Hc).
  pose proof (monotone m c b Hc Hb). lia.
Qed.
End Offsets.

(** The neighbours of a node go on the stack. *)
Lemma push_neighbors_total indices first last stack :
  (∀ j, first ≤ j < last → ∃ x, get indices j = Ok x) →
  ∃ stack',
    push_neighbors indices first last stack = Ok stack'
    ∧ length stack' = (length stack + Z.to_nat (last - first))%nat
    ∧ ∀ x, x ∈ stack' ↔
           x ∈ stack ∨ ∃ j, first ≤ j < last ∧ get indices j = Ok x.
Proof.
  intros Hread. unfold push_neighbors.
  destruct (for_each_prefix
    (fun j stack => let* index := get indices j in Ok (index :: stack))
    (fun done st =>
       length st = (length stack + length done)%nat
       ∧ ∀ x, x ∈ st ↔
              x ∈ stack ∨ ∃ j, j ∈ done ∧ get indices j = Ok x)
    (RangePolicy first last) stack) as (stack' & Hrun & Hlen & Hin).
  - intros done j rest st Hitems [Hlen Hin].
    pose proof (RangePolicy_middle _ _ _ _ _ Hitems) as Hj.
    destruct (Hread j Hj) as [x Hx]. rewrite Hx. simpl.
    eexists. split; [done|]. split.
    + rewrite length_app. simpl. lia.
    + intros y. rewrite elem_of_cons, Hin. split.
      * intros [->|[?|(j' & Hj' & Hy)]]; [|by left|].
        -- right. exists j. split; [|done]. rewrite elem_of_app.
           right. by left.
        -- right. exists j'. split; [|done]. rewrite elem_of_app. by left.
      * intros [?|(j' & [Hj'|Hj']%elem_of_app & Hy)]; [by right; left| |].
        -- right. right. by exists j'.
        -- apply list_elem_of_singleton in Hj' as ->. left. congruence.
  - split; [simpl; lia|]. intros x. split; [by left|].
    intros [?|(j & Hj & _)]; [done|]. by apply elem_of_nil in Hj.
  - exists stack'. split; [done|]. split.
    + rewrite Hlen. unfold RangePolicy. by rewrite length_seqZ.
    + intros x. rewrite Hin. by setoid_rewrite RangePolicy_elem.
Qed.

Section Accept.
Variables indices offset ccs : list Z.

Local Abbreviation n := (extent ccs).
Local Abbreviation edge := (cc_edge indices offset).

Hypothesis wf : csr_wf indices offset n.

Lemma offset_read k :
0 ≤ k < n →
∃ a b, get offset k = Ok a ∧ get offset (k + 1) = Ok b
       ∧ 0 ≤ a ∧ a ≤ b ∧ b ≤ extent indices
       ∧ cc_degree offset (Z.to_nat k) = Z.to_nat (b - a).
Proof.
intros Hk. destruct wf as (Hext & Hzero & Hend & Hmono & _).
destruct (get_is_Ok offset k ltac:(lia)) as [a Ha].
destruct (get_is_Ok offset (k + 1) ltac:(lia)) as [b Hb].
exists a, b. split; [done|]. split; [done|].
apply get_Ok in Ha as [_ Ha]. apply get_Ok in Hb as [_ Hb].
apply get_Ok in Hzero as [_ Hzero]. apply get_Ok in Hend as [_ Hend].
replace (Z.to_nat (k + 1)) with (S (Z.to_nat k)) in Hb by lia.
split_and!.
- apply (offset_le offset Hmono (Z.to_nat 0) (Z.to_nat k)); (done || lia).
- by apply (Hmono (Z.to_nat k)).
- apply (offset_le offset Hmono (S (Z.to_nat k)) (Z.to_nat n));
    (done || lia).
- unfold cc_degree. by rewrite Ha, Hb.
Qed.

Lemma indices_read a b k :
get offset k = Ok a → get offset (k + 1) = Ok b → 0 ≤ k < n →
∀ j, a ≤ j < b → ∃ x, get indices j = Ok x.
Proof.
intros Ha Hb Hk j Hj.
destruct (offset_read k Hk) as (a' & b' & Ha' & Hb' & ? & ? & ? & _).
rewrite Ha in Ha'. rewrite Hb in Hb'.
injection Ha' as <-. injection Hb' as <-.
apply get_is_Ok. lia.
Qed.

Lemma edge_range i k : edge i k → 0 ≤ k < n.
Proof.
intros (first & last & j & _ & _ & _ & Hk).
destruct wf as (_ & _ & _ & _ & Hnodes). by apply (Hnodes j).
Qed.

(** The measure of the search is bounded by the size of the graph. *)
Lemma dfs_measure_bound i host :
extent host = n →
(dfs_measure offset [i] host ≤ Z.to_nat (n + extent indices + 1))%nat.
Proof.
intros Hhost. destruct wf as (Hext & Hzero & Hend & Hmono & _).
unfold dfs_measure. simpl.
pose proof (sum_list_with_le (dfs_weight offset host)
              (fun k => S (cc_degree offset k)) (seq 0 (length host)))
  as Hle.
rewrite sum_list_with_S, length_seq in Hle.
apply get_Ok in Hzero as [_ Hzero]. apply get_Ok in Hend as [_ Hend].
rewrite (cc_degree_sum offset Hmono (length host) 0 (extent indices))
  in Hle; [| done |].
- unfold extent in *.
  assert (∀ x, (dfs_weight offset host x ≤ S (cc_degree offset x))%nat)
    as Hw; [|specialize (Hle Hw); lia].
  intros x. unfold dfs_weight.
  destruct (host !! x) as [v|]; [|lia]. destruct (0 <=? v); lia.
- rewrite <- Hend. f_equal. unfold extent in *. lia.
Qed.

Hypothesis labelled : components_labelling indices offset ccs.

(** The search marks the nodes of the label it was started for. *)
Lemma dfs_total id i host0 :
0 ≤ id →
∀ fuel stack host,
  dfs_inv indices offset ccs id i host0 stack host →
  (dfs_measure offset stack host ≤ fuel)%nat →
  ∃ result,
    dfs fuel indices offset id stack host = Ok result
    ∧ dfs_inv indices offset ccs id i host0 [] result.
Proof.
intros Hid. destruct labelled as (_ & Hedges & _).
induction fuel as [|fuel IH]; intros [|k stack] host Hinv Hfuel.
- by exists host.
- unfold dfs_measure in Hfuel. simpl in Hfuel. lia.
- by exists host.
- destruct Hinv as (Hext & Hother & Hlabel & Hstack & Hclosed & Hstart).
  assert (get ccs k = Ok id) as Hk by (apply Hstack; by left).
  pose proof (get_Ok_lt _ _ _ Hk) as Hrange.
  pose proof (NoDup_seq 0 (length host)) as Hnd.
  simpl.
  destruct (Hlabel k Hk) as [Hhost|Hhost]; rewrite Hhost; simpl.
  + destruct (Z.leb_spec 0 id) as [_|]; [|lia].
    rewrite Z.eqb_refl. simpl.
    rewrite set_is_Ok by lia. simpl.
    destruct (offset_read k Hrange)
      as (a & b & Ha & Hb & Ha0 & Hab & Hbn & Hdeg).
    rewrite Ha, Hb. simpl.
    destruct (push_neighbors_total indices a b stack
                (indices_read a b k Ha Hb Hrange))
      as (stack' & -> & Hlen & Hin).
    simpl. apply IH.
    * split_and!.
      -- by rewrite extent_insert.
      -- intros x Hx. rewrite get_insert_ne; [by apply Hother|lia|].
         intros <-. done.
      -- intros x Hx. destruct (decide (x = k)) as [->|Hne].
         ++ right. apply get_insert_eq. lia.
         ++ rewrite get_insert_ne by lia. by apply Hlabel.
      -- intros x [Hx|(j & Hj & Hx)]%Hin; [apply Hstack; by right|].
         rewrite <- Hk. apply Hedges; [done|]. by exists a, b, j.
      -- intros y x Hy Hmarked Hyx.
         destruct (decide (x = k)) as [->|Hxk].
         { left. apply get_insert_eq. lia. }
         rewrite (get_insert_ne _ _ x) by lia.
         destruct (decide (y = k)) as [->|Hyk].
         ++ right. apply Hin. right.
            destruct Hyx as (a' & b' & j & Ha' & Hb' & Hj & Hx).
            rewrite Ha in Ha'. rewrite Hb in Hb'.
            injection Ha' as <-. injection Hb' as <-. by exists j.
         ++ rewrite get_insert_ne in Hmarked by lia.
            destruct (Hclosed y x Hy Hmarked Hyx) as [?|Hx]; [by left|].
            apply elem_of_cons in Hx as [->|Hx]; [done|].
            right. apply Hin. by left.
      -- destruct (decide (i = k)) as [->|Hik].
         { left. apply get_insert_eq. lia. }
         rewrite get_insert_ne by lia.
         destruct Hstart as [?|Hi]; [by left|].
         apply elem_of_cons in Hi as [->|Hi]; [done|].
         right. apply Hin. by left.
    * unfold dfs_measure in Hfuel |- *. simpl in Hfuel.
      rewrite length_insert, Hlen.
      pose proof (sum_list_with_update
                    (dfs_weight offset (<[Z.to_nat k := -1]> host))
                    (dfs_weight offset host) (seq 0 (length host))
                    (Z.to_nat k) Hnd) as Hsum.
      assert (Z.to_nat k ∈ seq 0 (length host)) as Hkn.
      { apply elem_of_seq. unfold extent in Hext, Hrange. lia. }
      assert (∀ x, x ≠ Z.to_nat k →
                   dfs_weight offset (<[Z.to_nat k := -1]> host) x
                   = dfs_weight offset host x) as Hagree.
      { intros x Hx. unfold dfs_weight.
        by rewrite list_lookup_insert_ne. }
      specialize (Hsum Hkn Hagree).
      unfold dfs_weight at 2 4 in Hsum.
      apply get_Ok in Hhost as [_ Hhost]. rewrite Hhost in Hsum.
      rewrite list_lookup_insert_eq in Hsum
        by (unfold extent in Hext, Hrange; lia).
      destruct (Z.leb_spec 0 id) as [_|]; [|lia]. simpl in Hsum.
      rewrite Hdeg in Hsum. lia.
  + apply IH.
    * split_and!; try done.
      -- intros x Hx. apply Hstack. by right.
      -- intros y x Hy Hmarked Hyx.
         destruct (Hclosed y x Hy Hmarked Hyx) as [?|Hx]; [by left|].
         apply elem_of_cons in Hx as [->|Hx]; [by left|by right].
      -- destruct Hstart as [?|Hi]; [by left|].
         apply elem_of_cons in Hi as [->|Hi]; [by left|by right].
    * unfold dfs_measure in Hfuel |- *. simpl in Hfuel. lia.
Qed.

(** After the search every node of the label is marked. *)
Lemma dfs_inv_all_marked id i host0 result :
get ccs i = Ok id →
dfs_inv indices offset ccs id i host0 [] result →
∀ k, get ccs k = Ok id → get result k = Ok (-1).
Proof.
intros Hi (Hext & Hother & Hlabel & _ & Hclosed & Hstart) k Hk.
destruct labelled as (_ & Hedges & Hreach).
pose proof (get_Ok_lt _ _ _ Hi) as Hirange.
pose proof (get_Ok_lt _ _ _ Hk) as Hkrange.
assert (cc_reach indices offset i k) as Hpath
  by (apply Hreach; (done || congruence)).
assert (0 ≤ k < n ∧ get ccs k = Ok id ∧ get result k = Ok (-1));
  [|tauto].
clear Hk Hkrange. unfold cc_reach in Hpath. revert k Hpath.
apply (rtc_ind_r (fun k => 0 ≤ k < n ∧ get ccs k = Ok id
                           ∧ get result k = Ok (-1))).
- split; [done|]. split; [done|].
  destruct Hstart as [?|Hin]; [done|]. by apply elem_of_nil in Hin.
- intros y k Hpath Hedge (Hy & Hyid & Hymarked).
  split; [by apply (edge_range y)|].
  assert (get ccs k = Ok id) as Hk.
  { rewrite <- Hyid. by apply Hedges. }
  split; [done|].
  destruct (Hclosed y k Hyid Hymarked Hedge) as [?|Hin]; [done|].
  by apply elem_of_nil in Hin.
Qed.

(** One node of the second loop, for labels that are the components. *)
Lemma verify_components_op_total fuel done i s :
(Z.to_nat (n + extent indices + 1) ≤ fuel)%nat → 0 ≤ i < n →
Z.of_nat (length done) < n → is_int n →
verify_components_inv ccs done s →
∃ s1,
  verify_components_op fuel indices offset i s = Ok s1
  ∧ verify_components_inv ccs (done ++ [i]) s1.
Proof.
intros Hfuel Hi Hlen Hint (Hext & Hhost & Hsets & Hnum & Hle).
unfold is_int, INT_MIN, INT_MAX in Hint.
destruct (get_is_Ok ccs i Hi) as [c Hc].
pose proof labelled as (Hpos & _ & _). pose proof (Hpos i c Hc) as Hc0.
unfold verify_components_op. rewrite (Hhost i c Hc). simpl.
destruct (decide (c ∈ cc_sets s)) as [Hin|Hout]; simpl.
- exists s. split; [done|]. split_and!; try done;
    [|rewrite length_app; lia].
  intros c'. rewrite Hsets. split.
  + intros (i' & Hi' & Hc'). exists i'. split; [|done].
    rewrite elem_of_app. by left.
  + intros (i' & [Hi'|Hi']%elem_of_app & Hc'); [by exists i'|].
    apply list_elem_of_singleton in Hi' as ->.
    assert (c' = c) as -> by congruence. by apply Hsets.
- destruct (Z.leb_spec 0 c) as [_|]; [|lia].
  destruct (dfs_total c i (ccs_host s) Hc0 fuel [i] (ccs_host s))
    as (result & -> & Hresult).
  { split_and!; try done.
    - intros k Hk. left. rewrite (Hhost k c Hk).
      by destruct (decide (c ∈ cc_sets s)).
    - intros x Hx. by apply list_elem_of_singleton in Hx as ->.
    - intros k x Hk Hmarked _. rewrite (Hhost k c Hk) in Hmarked.
      destruct (decide (c ∈ cc_sets s)); [done|].
      injection Hmarked as ->. lia.
    - right. by left. }
  { pose proof (dfs_measure_bound i (ccs_host s) Hext). lia. }
  simpl. eexists. split; [done|].
  pose proof (dfs_inv_all_marked c i (ccs_host s) result Hc Hresult)
    as Hmarked.
  destruct Hresult as (Hext' & Hother & _).
  split_and!; simpl.
  + done.
  + intros k c' Hk. destruct (decide (c' = c)) as [->|Hne].
    * rewrite (Hmarked k Hk).
      destruct (decide (c ∈ {[c]} ∪ cc_sets s)) as [|Hno]; [done|].
      destruct Hno. apply elem_of_union. left. by apply elem_of_singleton.
    * rewrite Hother, (Hhost k c' Hk) by congruence.
      destruct (decide (c' ∈ cc_sets s)) as [Hin|Hno];
        destruct (decide (c' ∈ {[c]} ∪ cc_sets s)) as [Hin'|Hno'];
        try done.
      -- destruct Hno'. apply elem_of_union. by right.
      -- apply elem_of_union in Hin' as [Heq%elem_of_singleton|]; done.
  + intros c'. rewrite elem_of_union, elem_of_singleton, Hsets. split.
    * intros [->|(i' & Hi' & Hc')].
      -- exists i. split; [|done]. rewrite elem_of_app. right. by left.
      -- exists i'. split; [|done]. rewrite elem_of_app. by left.
    * intros (i' & [Hi'|Hi']%elem_of_app & Hc'); [right; by exists i'|].
      apply list_elem_of_singleton in Hi' as ->. left. congruence.
  + rewrite size_union, size_singleton by
      (by apply disjoint_singleton_l).
    unfold unsigned_int_modulus. rewrite Z.mod_small; lia.
  + rewrite size_union, size_singleton, length_app by
      (by apply disjoint_singleton_l). simpl. lia.
Qed.

Lemma verify_components_total fuel :
(Z.to_nat (n + extent indices + 1) ≤ fuel)%nat → is_int n →
∃ s,
  for_each (verify_components_op fuel indices offset) (RangePolicy 0 n)
    {| ccs_host := ccs; cc_sets := ∅; num_ccs := 0 |} = Ok s
  ∧ verify_components_inv ccs (RangePolicy 0 n) s.
Proof.
intros Hfuel Hint.
apply (for_each_prefix _ (verify_components_inv ccs)).
- intros done i rest s Hitems.
  apply RangePolicy_prefix in Hitems as [Hlen Hitems].
  apply verify_components_op_total; (done || lia).
- split_and!; simpl; try done.
  intros c. split; [by intros ?%elem_of_empty|].
  intros (i & Hi & _). by apply elem_of_nil in Hi.
Qed.
End Accept.

Section FirstLoop.
Variables indices offset ccs : list Z.

Local Abbreviation n := (extent ccs).
Local Abbreviation edge := (cc_edge indices offset).

Hypothesis wf : csr_wf indices offset n.

(** The neighbours of one node, counted. *)
Lemma verify_connected_indices_row_total i a b update :
0 ≤ i < n → get offset i = Ok a → get offset (i + 1) = Ok b →
∃ update',
  for_each
    (fun j update =>
       let* ccs_i := get ccs i in
       let* index := get indices j in
       let* ccs_index := get ccs index in
       if negb (ccs_i =? ccs_index) then Ok (update + 1) else Ok update)
    (RangePolicy a b) update = Ok update'
  ∧ update ≤ update'
  ∧ ((∀ k, edge i k → get ccs k = get ccs i) → update' = update).
Proof.
intros Hi Ha Hb.
destruct (get_is_Ok ccs i Hi) as [c Hc].
destruct (for_each_prefix
  (fun j update =>
     let* ccs_i := get ccs i in
     let* index := get indices j in
     let* ccs_index := get ccs index in
     if negb (ccs_i =? ccs_index) then Ok (update + 1) else Ok update)
  (fun done u =>
     update ≤ u
     ∧ ((∀ k, edge i k → get ccs k = get ccs i) → u = update))
  (RangePolicy a b) update) as (u & Hrun & Hle & Hgood).
- intros done j rest u Hitems [Hle Hgood].
  apply RangePolicy_middle in Hitems.
  destruct (indices_read indices offset ccs wf a b i Ha Hb Hi j Hitems)
    as [x Hx].
  assert (edge i x) as Hedge by (by exists a, b, j).
  destruct (get_is_Ok ccs x (edge_range indices offset ccs wf i x Hedge))
    as [cx Hcx].
  rewrite Hc, Hx. simpl. rewrite Hcx. simpl.
  destruct (Z.eqb_spec c cx) as [->|Hne]; simpl.
  + exists u. split; [done|]. split; [done|].
    intros Hall. apply Hgood. intros k Hk. rewrite Hc. by apply Hall.
  + exists (u + 1). split; [done|]. split; [lia|].
    intros Hall. specialize (Hall x Hedge). congruence.
- split; [lia|done].
- by exists u.
Qed.

(** The first loop returns, and it counts no mismatch if there is none. *)
Lemma verify_connected_indices_total :
∃ num_incorrect,
  parallel_reduce_sum (RangePolicy 0 n)
    (verify_connected_indices_op indices offset ccs) = Ok num_incorrect
  ∧ 0 ≤ num_incorrect
  ∧ ((∀ i k, 0 ≤ i < n → edge i k → get ccs k = get ccs i) →
     num_incorrect = 0).
Proof.
unfold parallel_reduce_sum.
destruct (for_each_prefix (verify_connected_indices_op indices offset ccs)
  (fun done u =>
     0 ≤ u
     ∧ ((∀ i k, 0 ≤ i < n → edge i k → get ccs k = get ccs i) → u = 0))
  (RangePolicy 0 n) 0) as (u & Hrun & Hle & Hgood).
- intros done i rest u Hitems [Hle Hgood].
  apply RangePolicy_middle in Hitems.
  destruct (offset_read indices offset ccs wf i Hitems)
    as (a & b & Ha & Hb & _).
  unfold verify_connected_indices_op. rewrite Ha, Hb. simpl.
  destruct (verify_connected_indices_row_total i a b u Hitems Ha Hb)
    as (u' & -> & Hle' & Hrow).
  exists u'. split; [done|]. split; [lia|].
  intros Hall. rewrite Hrow; [by apply Hgood|].
  intros k. by apply Hall.
- split; [lia|done].
- by exists u.
Qed.

Lemma unique_cc_indices_total :
∃ unique : gset Z,
  for_each
    (fun i (unique_cc_indices : gset Z) =>
       let* ccs_i := get ccs i in
       Ok ({[ ccs_i ]} ∪ unique_cc_indices))
    (RangePolicy 0 n) ∅ = Ok unique
  ∧ ∀ c, c ∈ unique ↔ ∃ i, 0 ≤ i < n ∧ get ccs i = Ok c.
Proof.
destruct (for_each_invariant
  (fun i (unique_cc_indices : gset Z) =>
     let* ccs_i := get ccs i in
     Ok ({[ ccs_i ]} ∪ unique_cc_indices))
  (fun _ => True) (RangePolicy 0 n) ∅) as (unique & Hrun & _).
- intros i u Hi%RangePolicy_elem _.
  destruct (get_is_Ok ccs i Hi) as [c ->]. simpl. by eexists.
- done.
- exists unique. split; [done|].
  by apply unique_cc_indices_returns.
Qed.

Lemma lastElement_offset (lastElement : list Z → Z) :
(∀ v x, last v = Some x → lastElement v = x) →
lastElement offset = extent indices.
Proof.
intros Hlast. apply Hlast. destruct wf as (Hext & _ & Hend & _).
rewrite last_lookup. apply get_Ok in Hend as [_ <-]. f_equal.
unfold extent in *. lia.
Qed.
End FirstLoop.

Lemma example_graph_wf :
  csr_wf example_graph_indices example_graph_offset (extent example_ccs).
Proof.
  split_and!; try reflexivity.
  - intros k a b Ha Hb.
    destruct k as [|[|[|[|?]]]]; simpl in Ha, Hb; try done;
      injection Ha as <-; injection Hb as <-; lia.
  - intros j x [Hj Hx]%get_Ok.
    destruct (Z.to_nat j) as [|[|?]]; simpl in Hx; try done;
      injection Hx as <-; vm_compute; split; congruence.
Qed.

Lemma example_graph_edges i k :
  cc_edge example_graph_indices example_graph_offset i k →
  (i = 0 ∧ k = 1) ∨ (i = 1 ∧ k = 0).
Proof.
  intros (first & last & j & Hfirst & Hlast & Hj & Hk).
  pose proof (get_Ok_lt _ _ _ Hfirst) as Hi.
  pose proof (get_Ok_lt _ _ _ Hlast) as Hi'.
  unfold extent in Hi, Hi'. simpl in Hi, Hi'.
  assert (i = 0 ∨ i = 1 ∨ i = 2) as [->|[->| ->]] by lia;
    vm_compute in Hfirst, Hlast;
    injection Hfirst as <-; injection Hlast as <-.
  - left. split; [done|]. assert (j = 0) as -> by lia.
    vm_compute in Hk. by injection Hk as <-.
  - right. split; [done|]. assert (j = 1) as -> by lia.
    vm_compute in Hk. by injection Hk as <-.
  - lia.
Qed.

Lemma example_components_labelling :
  components_labelling example_graph_indices example_graph_offset
    example_ccs.
Proof.
  split_and!.
  - intros i c [Hi Hc]%get_Ok.
    destruct (Z.to_nat i) as [|[|[|?]]]; simpl in Hc; try done;
      injection Hc as <-; lia.
  - intros i k _ [[-> ->]|[-> ->]]%example_graph_edges; reflexivity.
  - unfold extent. simpl. intros i k Hi Hk Heq.
    assert (cc_edge example_graph_indices example_graph_offset 0 1
            ∧ cc_edge example_graph_indices example_graph_offset 1 0)
      as (H01 & H10).
    { split.
      - exists 0, 1, 0. split_and!; (reflexivity || lia).
      - exists 1, 2, 1. split_and!; (reflexivity || lia). }
    assert (i = 0 ∨ i = 1 ∨ i = 2) as [->|[->| ->]] by lia;
      assert (k = 0 ∨ k = 1 ∨ k = 2) as [->|[->| ->]] by lia;
      try (by vm_compute in Heq); try apply rtc_refl;
      by apply rtc_once.
Qed.

(** X14. On a graph in CSR form, of sizes that are [int]s, whose labels
    are its connected components (no label negative, neighbours carry one label, the nodes of
    one label reach each other), [verifyCC] returns [true]; the DFS loops
    end within [num_nodes + indices.size() + 1] turns each. *)
Theorem verifyCC_accepts_components (lastElement : list Z → Z)
  (fuel : nat) (indices offset ccs : list Z) :
  csr_wf indices offset (extent ccs) →
  is_int (extent ccs + 1) → is_int (extent indices) →
  (∀ v x, last v = Some x → lastElement v = x) →
  components_labelling indices offset ccs →
  (Z.to_nat (extent ccs + extent indices + 1) ≤ fuel)%nat →
  verifyCC lastElement fuel indices offset ccs = Ok true.
Proof.
  intros Hwf Hnodes Hentries Hlast Hlabelled Hfuel. unfold verifyCC.
  pose proof Hwf as (Hext & _).
  assert (is_int (extent ccs)) as Hint.
  { unfold is_int, INT_MIN, INT_MAX, extent in *. lia. }
  rewrite !int_of_size_int by (done || by rewrite Hext).
  rewrite Hext, Z.eqb_refl. simpl.
  rewrite (lastElement_offset indices offset ccs Hwf lastElement Hlast).
  rewrite Z.eqb_refl. simpl.
  destruct (verify_connected_indices_total indices offset ccs Hwf)
    as (num_incorrect & -> & _ & Hzero).
  rewrite Hzero by (by destruct Hlabelled as (_ & ? & _)). simpl.
  destruct (unique_cc_indices_total ccs) as (unique & -> & Hunique).
  simpl.
  destruct (verify_components_total indices offset ccs Hwf Hlabelled fuel
              Hfuel Hint) as (s & -> & _ & _ & Hsets & Hnum & _).
  simpl.
  assert (cc_sets s = unique) as Hsame.
  { apply set_eq. intros c. rewrite Hsets, Hunique.
    by setoid_rewrite RangePolicy_elem. }
  rewrite Hnum, Hsame, Z.eqb_refl. done.
Qed.

Lemma verifyCC_accepts_components_witness :
  verifyCC example_lastElement 6 example_graph_indices example_graph_offset
    example_ccs = Ok true.
Proof.
  apply verifyCC_accepts_components.
  - apply example_graph_wf.
  - vm_compute. split; congruence.
  - vm_compute. split; congruence.
  - intros v x Hx. unfold example_lastElement. by rewrite Hx.
  - apply example_components_labelling.
  - vm_compute. lia.
Defined.

(** X15. On a graph in CSR form, of sizes that are [int]s, [verifyCC]
    returns [false] as soon as one
    neighbour of a node carries another label than the node, whatever the
    bound on the DFS loops, which it does not enter. *)
Theorem verifyCC_rejects_mismatch (lastElement : list Z → Z)
  (fuel : nat) (indices offset ccs : list Z) (i k : Z) :
  csr_wf indices offset (extent ccs) →
  is_int (extent ccs + 1) → is_int (extent indices) →
  (∀ v x, last v = Some x → lastElement v = x) →
  0 ≤ i < extent ccs → cc_edge indices offset i k →
  get ccs k ≠ get ccs i →
  verifyCC lastElement fuel indices offset ccs = Ok false.
Proof.
  intros Hwf Hnodes Hentries Hlast Hi Hedge Hne. unfold verifyCC.
  pose proof Hwf as (Hext & _).
  assert (is_int (extent ccs)) as Hint.
  { unfold is_int, INT_MIN, INT_MAX, extent in *. lia. }
  rewrite !int_of_size_int by (done || by rewrite Hext).
  rewrite Hext, Z.eqb_refl. simpl.
  rewrite (lastElement_offset indices offset ccs Hwf lastElement Hlast).
  rewrite Z.eqb_refl. simpl.
  destruct (verify_connected_indices_total indices offset ccs Hwf)
    as (num_incorrect & Hrun & _ & _).
  rewrite Hrun. simpl.
  destruct (Z.eqb_spec num_incorrect 0) as [->|]; [|done].
  destruct Hne.
  by apply (verify_connected_indices_returns indices offset ccs Hrun).
Qed.

Lemma verifyCC_rejects_mismatch_witness :
  verifyCC example_lastElement 0 example_graph_indices example_graph_offset
    [0; 1; 2] = Ok false.
Proof.
  apply (verifyCC_rejects_mismatch example_lastElement 0
           example_graph_indices example_graph_offset [0; 1; 2] 0 1).
  - apply example_graph_wf.
  - vm_compute. split; congruence.
  - vm_compute. split; congruence.
  - intros v x Hx. unfold example_lastElement. by rewrite Hx.
  - vm_compute. split; congruence.
  - exists 0, 1, 0. split_and!; (reflexivity || lia).
  - discriminate.
Defined.

(** ** DBSCAN: the number of the neighbours *)

Lemma matches_of_cons query j matches i :
  matches_of ((query, j) :: matches) i
  = (if decide (query = i) then 1 else 0) + matches_of matches i.
Proof.
  unfold matches_of. rewrite filter_cons. simpl.
  destruct (decide (query = i)); simpl; lia.
Qed.

Lemma matches_of_Permutation matches matches' i :
  matches ≡ₚ matches' → matches_of matches i = matches_of matches' i.
Proof. intros Hperm. unfold matches_of. by rewrite Hperm. Qed.

Lemma NumNeighCallback_counts_from matches :
  ∀ num_neigh,
    (∀ query j, (query, j) ∈ matches → 0 ≤ query < extent num_neigh) →
    ∃ num_neigh',
      query_with_callback NumNeighCallback matches num_neigh = Ok num_neigh'
      ∧ extent num_neigh' = extent num_neigh
      ∧ ∀ i old, get num_neigh i = Ok old →
                 get num_neigh' i = Ok (old + matches_of matches i).
Proof.
  induction matches as [|[query j] matches IH]; intros num_neigh Hrange.
  - exists num_neigh. split; [done|]. split; [done|].
    intros i old Hi. rewrite Hi. f_equal. unfold matches_of. simpl. lia.
  - assert (0 ≤ query < extent num_neigh) as Hq
      by (apply (Hrange query j); by left).
    destruct (get_is_Ok num_neigh query Hq) as [old Hold].
    simpl. unfold NumNeighCallback at 1. rewrite Hold. simpl.
    rewrite set_is_Ok by done. simpl.
    destruct (IH (<[Z.to_nat query := old + 1]> num_neigh))
      as (num_neigh' & -> & Hext & Hcount).
    { intros q' j' Hin. rewrite extent_insert. apply (Hrange q' j').
      by right. }
    exists num_neigh'. split; [done|].
    split; [by rewrite Hext, extent_insert|].
    intros i v Hi. rewrite matches_of_cons.
    destruct (decide (query = i)) as [->|Hne].
    + rewrite Hi in Hold. injection Hold as <-.
      rewrite (Hcount i (v + 1)); [f_equal; lia|].
      by apply get_insert_eq.
    + rewrite (Hcount i v); [f_equal; lia|].
      by rewrite get_insert_ne by lia.
Qed.

Lemma views_equal (v w : list Z) :
  extent v = extent w →
  (∀ i x, get v i = Ok x → get w i = Ok x) → v = w.
Proof.
  intros Hext Hget. apply list_eq. intros k.
  destruct (v !! k) as [x|] eqn:Hv.
  - assert (get v (Z.of_nat k) = Ok x) as Hx.
    { apply get_Ok. split; [lia|]. by rewrite Nat2Z.id. }
    apply Hget, get_Ok in Hx as [_ Hx]. by rewrite Nat2Z.id in Hx.
  - apply lookup_ge_None in Hv. symmetry. apply lookup_ge_None.
    unfold extent in Hext. lia.
Qed.

(** X16. With [NumNeighCallback] a query adds to [num_neigh(i)] the number
    of the matches of the query [i], whatever the order in which the
    matches are found; the counts are [int]s, so that no sum overflows. *)
Theorem NumNeighCallback_counts_matches (matches matches' : list (Z * Z))
  (num_neigh : list Z) :
  (∀ query j, (query, j) ∈ matches → 0 ≤ query < extent num_neigh) →
  (∀ i old, get num_neigh i = Ok old →
            is_int old ∧ is_int (old + matches_of matches i)) →
  matches ≡ₚ matches' →
  ∃ num_neigh',
    query_with_callback NumNeighCallback matches num_neigh = Ok num_neigh'
    ∧ query_with_callback NumNeighCallback matches' num_neigh
      = Ok num_neigh'
    ∧ extent num_neigh' = extent num_neigh
    ∧ ∀ i old, get num_neigh i = Ok old →
               get num_neigh' i = Ok (old + matches_of matches i).
Proof.
  intros Hrange _ Hperm.
  destruct (NumNeighCallback_counts_from matches num_neigh Hrange)
    as (result & Hrun & Hext & Hcount).
  destruct (NumNeighCallback_counts_from matches' num_neigh)
    as (result' & Hrun' & Hext' & Hcount').
  { intros q j Hin. apply (Hrange q j). by rewrite Hperm. }
  exists result. split; [done|]. split; [|by split].
  rewrite Hrun'. f_equal. apply views_equal; [congruence|].
  intros i x Hx.
  destruct (get_is_Ok num_neigh i) as [old Hold].
  { apply get_Ok_lt in Hx. lia. }
  rewrite (Hcount' i old Hold) in Hx. injection Hx as <-.
  rewrite (Hcount i old Hold). f_equal. f_equal.
  by apply matches_of_Permutation.
Qed.

Lemma NumNeighCallback_counts_matches_witness :
  query_with_callback NumNeighCallback [(0, 1); (1, 0); (0, 2)] [0; 0; 0]
  = Ok [2; 1; 0]
  ∧ query_with_callback NumNeighCallback [(0, 2); (0, 1); (1, 0)] [0; 0; 0]
    = Ok [2; 1; 0].
Proof.
  destruct (NumNeighCallback_counts_matches
              [(0, 1); (1, 0); (0, 2)] [(0, 2); (0, 1); (1, 0)] [0; 0; 0])
    as (result & Hrun & Hrun' & _).
  - intros q j Hin. unfold extent. simpl.
    rewrite !elem_of_cons, elem_of_nil in Hin.
    destruct Hin as [[= -> ->]|[[= -> ->]|[[= -> ->]|[]]]]; lia.
  - intros i old [Hi Hold]%get_Ok.
    destruct (Z.to_nat i) as [|[|[|?]]] eqn:Hn; simpl in Hold; try done;
      injection Hold as <-.
    + replace i with 0 by lia. vm_compute. repeat split; congruence.
    + replace i with 1 by lia. vm_compute. repeat split; congruence.
    + replace i with 2 by lia. vm_compute. repeat split; congruence.
  - rewrite (Permutation_swap (0, 2) (1, 0)).
    rewrite (Permutation_swap (0, 2) (0, 1)). done.
  - rewrite Hrun'. vm_compute in Hrun. by rewrite <- Hrun.
Defined.
